(** * Station subsystem of OpenTTD: shallow embedding of station_cmd.cpp

    The development follows the source file function by function:
    - [FlowStats]      : FlowStat::GetShare, GetVia, ChangeShare,
                          RestrictShare, ReleaseShare (share based routing);
    - [Rating]         : UpdateStationRating;
    - [Acceptance]     : UpdateStationAcceptance;
    - [Buildable]      : CheckBuildableTile and the per-footprint loop;
    - [Around]         : GetStationAround;
    - [AreaSmaller]    : MakeStationAreaSmaller;
    - [Naming]         : GenerateStationName (industry scan);
    - [RailRemoval]    : RemoveFromRailBaseStation.

    Part I holds the embedding, Part II the properties.  Constants and
    functions that station_cmd.cpp takes from other files of the game are
    Variables of the Section that embeds their caller.

    Unsigned 32 bit quantities are integers of [Z] with the wrap-around
    written out ([u32]); a std::map is a key-sorted association list whose
    [operator[]] assignment is [map_set]; iterators are positions. *)

From stdpp Require Import base list numbers.
From Stdlib Require Import ZArith Lia Bool List.
Import ListNotations.
Open Scope Z_scope.

(** ** Machine integers *)

Definition u32 (x : Z) : Z := x mod 2 ^ 32.
Definition u8 (x : Z) : Z := x mod 2 ^ 8.
Definition INT_MIN : Z := - 2 ^ 31.
Definition INT_MAX : Z := 2 ^ 31 - 1.

(** Conversion of a 32 bit pattern to [int] (two's complement). *)
Definition to_int (x : Z) : Z :=
  let y := u32 x in if y <? 2 ^ 31 then y else y - 2 ^ 32.

Definition StationID := Z.

(** ** FlowStat *)

Module FlowStats.

(** [SharesMap] is [std::map<uint32_t, StationID>]: iteration is in key
    order, which the list keeps. *)
Definition SharesMap := list (Z * StationID).

(** [m[k] = v] on a std::map: overwrite an equal key, else insert in order. *)
Fixpoint map_set (k : Z) (v : StationID) (m : SharesMap) : SharesMap :=
  match m with
  | [] => [(k, v)]
  | (k', v') :: m' =>
      if k <? k' then (k, v) :: m
      else if k =? k' then (k, v) :: m'
      else (k', v') :: map_set k v m'
  end.

(** [m.upper_bound(x)]: position of the first entry whose key is greater
    than [x]; [length m] stands for [end()]. *)
Fixpoint upper_bound (m : SharesMap) (x : Z) : nat :=
  match m with
  | [] => 0%nat
  | (k, _) :: m' => if x <? k then 0%nat else S (upper_bound m' x)
  end.

(** [(it == begin() ? 0 : (--it)->first)] for the iterator at position [it]. *)
Definition begin_of (m : SharesMap) (it : nat) : Z :=
  match it with
  | O => 0
  | S j => match nth_error m j with Some (k, _) => k | None => 0 end
  end.

(** Modelled from the spec: the members of class FlowStat, whose
    declaration (station_base.h) is not among the sources: "a sorted mapping
    from a monotonically increasing cumulative share boundary integer to a
    destination station ID; an unrestricted boundary marks the split between
    freely routable shares (below it) and restricted shares". *)
Record FlowStat := mkFlowStat {
  shares : SharesMap;      (* shares of flow to be sent via a station *)
  unrestricted : Z         (* limit for unrestricted shares *)
}.

(** FlowStat::GetShare *)
Fixpoint GetShare_from (prev : Z) (m : SharesMap) (st : StationID) : Z :=
  match m with
  | [] => 0
  | (k, v) :: m' => if v =? st then u32 (k - prev) else GetShare_from k m' st
  end.

Definition GetShare (fs : FlowStat) (st : StationID) : Z :=
  GetShare_from 0 (shares fs) st.

(** *** FlowStat::GetVia

    [RandomRange] reads and advances the global random generator; the
    generator is threaded explicitly.  The three assertions guard iterator
    dereferences, a failed one is [None]. *)
Section GetVia.

Variable Randomizer : Type.
Variable RandomRange : Z -> Randomizer -> Z * Randomizer.
Variable Invalid : StationID.          (* StationID::Invalid() *)

Definition GetVia (rng : Randomizer) (fs : FlowStat)
    (excluded excluded2 : StationID) : option StationID :=
  let U := unrestricted fs in
  let m := shares fs in
  if U =? 0 then Some Invalid else
  match m with [] => None | _ =>
  let '(r1, rng) := RandomRange U rng in
  let it := upper_bound m r1 in
  match nth_error m it with
  | None => None
  | Some (end_, via) =>
    if U <? end_ then None else
    if negb (via =? excluded) && negb (via =? excluded2) then Some via else
    (* We've hit one of the excluded stations. *)
    let begin := begin_of m it in
    let interval := u32 (end_ - begin) in
    if U <=? interval then Some Invalid else
    let new_max := u32 (U - interval) in
    let '(rand, rng) := RandomRange new_max rng in
    let it2 := if rand <? begin then upper_bound m rand
               else upper_bound m (u32 (rand + interval)) in
    match nth_error m it2 with
    | None => None
    | Some (end2, via2) =>
      if U <? end2 then None else
      if negb (via2 =? excluded) && negb (via2 =? excluded2) then Some via2 else
      (* We've hit the second excluded station. *)
      let begin2 := begin_of m it2 in
      let interval2 := u32 (end2 - begin2) in
      if new_max <=? interval2 then Some Invalid else
      let new_max := u32 (new_max - interval2) in
      let '(begin, end_, interval, begin2, end2, interval2) :=
        if begin2 <? begin
        then (begin2, end2, interval2, begin, end_, interval)
        else (begin, end_, interval, begin2, end2, interval2) in
      let '(rand, rng) := RandomRange new_max rng in
      let it3 :=
        if rand <? begin then upper_bound m rand
        else if rand <? u32 (begin2 - interval)
             then upper_bound m (u32 (rand + interval))
             else upper_bound m (u32 (u32 (rand + interval) + interval2)) in
      match nth_error m it3 with
      | None => None
      | Some (end3, via3) => if U <? end3 then None else Some via3
      end
    end
  end
  end.

End GetVia.

(** *** FlowStat::ReleaseShare *)

(** Outcome of the reverse scan: an early [return], the [break] with the
    flow found and the raised limit, or the end of the map. *)
Inductive ReleaseScan :=
| RS_return
| RS_break (flow unr : Z)
| RS_end.

Fixpoint ReleaseShare_scan (rm : SharesMap) (st : StationID)
    (unr next_share : Z) (found : bool) : ReleaseScan :=
  match rm with
  | [] => RS_end
  | (k, v) :: rm' =>
      if k <? unr then RS_return
      else if found then
        let flow := u32 (next_share - k) in
        RS_break flow (u32 (unr + flow))
      else if k =? unr then RS_return
      else ReleaseShare_scan rm' st unr k (v =? st)
  end.

Fixpoint ReleaseShare_rebuild (m : SharesMap) (st : StationID) (flow : Z)
    (new_shares : SharesMap) : SharesMap :=
  match m with
  | [] => new_shares
  | (k, v) :: m' =>
      if negb (v =? st)
      then ReleaseShare_rebuild m' st flow (map_set (u32 (flow + k)) v new_shares)
      else ReleaseShare_rebuild m' st 0 new_shares
  end.

Definition ReleaseShare (st : StationID) (fs : FlowStat) : option FlowStat :=
  match shares fs with [] => None | _ =>
  match ReleaseShare_scan (rev (shares fs)) st (unrestricted fs) 0 false with
  | RS_return => Some fs
  | RS_end => Some fs
  | RS_break flow unr =>
      if flow =? 0 then Some (mkFlowStat (shares fs) unr)
      else Some (mkFlowStat
                   (ReleaseShare_rebuild (shares fs) st flow (map_set flow st []))
                   unr)
  end
  end.

(** *** FlowStat::RestrictShare *)

Record RestrictState := mkRestrict {
  rs_flow : Z;
  rs_last_share : Z;
  rs_unrestricted : Z;
  rs_new_shares : SharesMap
}.

(** The loop; [None] is the early [return] (not present or already
    restricted), which leaves the FlowStat as it was. *)
Fixpoint RestrictShare_loop (m : SharesMap) (st : StationID)
    (s : RestrictState) : option RestrictState :=
  match m with
  | [] => Some s
  | (k, v) :: m' =>
      if rs_flow s =? 0 then
        if rs_unrestricted s <? k then None
        else if v =? st then
          let flow := u32 (k - rs_last_share s) in
          RestrictShare_loop m' st
            (mkRestrict flow k (u32 (rs_unrestricted s - flow)) (rs_new_shares s))
        else
          RestrictShare_loop m' st
            (mkRestrict (rs_flow s) k (rs_unrestricted s)
                        (map_set k v (rs_new_shares s)))
      else
        RestrictShare_loop m' st
          (mkRestrict (rs_flow s) k (rs_unrestricted s)
                      (map_set (u32 (k - rs_flow s)) v (rs_new_shares s)))
  end.

Definition RestrictShare (st : StationID) (fs : FlowStat) : option FlowStat :=
  match shares fs with [] => None | _ =>
  match RestrictShare_loop (shares fs) st (mkRestrict 0 0 (unrestricted fs) []) with
  | None => Some fs
  | Some s =>
      if rs_flow s =? 0 then Some (mkFlowStat (shares fs) (rs_unrestricted s))
      else Some (mkFlowStat
                   (map_set (u32 (rs_last_share s + rs_flow s)) st (rs_new_shares s))
                   (rs_unrestricted s))
  end
  end.

(** *** FlowStat::ChangeShare *)

Record ChangeState := mkChange {
  cs_removed_shares : Z;
  cs_added_shares : Z;
  cs_last_share : Z;
  cs_flow : Z;                 (* the [int flow] parameter, updated in place *)
  cs_unrestricted : Z;
  cs_new_shares : SharesMap
}.

Definition ChangeShare_step (st : StationID) (s : ChangeState)
    (it : Z * StationID) : ChangeState :=
  let '(k, v) := it in
  let keep (removed added unr : Z) (flow : Z) :=
    mkChange removed added k flow unr
      (map_set (u32 (u32 (k + added) - removed)) v (cs_new_shares s)) in
  if v =? st then
    if cs_flow s <? 0 then
      let share := u32 (k - cs_last_share s) in
      if (cs_flow s =? INT_MIN) || (share <=? u32 (- cs_flow s)) then
        (* remove the whole share *)
        mkChange (u32 (cs_removed_shares s + share)) (cs_added_shares s) k
          (if cs_flow s =? INT_MIN then cs_flow s else to_int (cs_flow s + share))
          (if k <=? cs_unrestricted s then u32 (cs_unrestricted s - share)
           else cs_unrestricted s)
          (cs_new_shares s)
      else
        keep (u32 (cs_removed_shares s + u32 (- cs_flow s))) (cs_added_shares s)
          (if k <=? cs_unrestricted s then u32 (cs_unrestricted s + cs_flow s)
           else cs_unrestricted s)
          0
    else
      keep (cs_removed_shares s) (u32 (cs_added_shares s + u32 (cs_flow s)))
        (if k <=? cs_unrestricted s then u32 (cs_unrestricted s + cs_flow s)
         else cs_unrestricted s)
        0
  else
    keep (cs_removed_shares s) (cs_added_shares s) (cs_unrestricted s) (cs_flow s).

Definition ChangeShare_loop (st : StationID) (m : SharesMap) (s : ChangeState)
    : ChangeState :=
  fold_left (ChangeShare_step st) m s.

Definition ChangeShare (st : StationID) (flow : Z) (fs : FlowStat)
    : option FlowStat :=
  match shares fs with [] => None | _ =>
  let s := ChangeShare_loop st (shares fs)
             (mkChange 0 0 0 flow (unrestricted fs) []) in
  if 0 <? cs_flow s then
    let new_shares :=
      map_set (u32 (cs_last_share s + u32 (cs_flow s))) st (cs_new_shares s) in
    if cs_unrestricted s <? cs_last_share s then
      (* ReleaseShare runs on the map as it still is, before the swap. *)
      match ReleaseShare st (mkFlowStat (shares fs) (cs_unrestricted s)) with
      | Some fs' => Some (mkFlowStat new_shares (unrestricted fs'))
      | None => None
      end
    else Some (mkFlowStat new_shares (u32 (cs_unrestricted s + cs_flow s)))
  else Some (mkFlowStat (cs_new_shares s) (cs_unrestricted s))
  end.

(** *** Shares as the code reads them *)

(** The sizes of the individual shares: each boundary minus its
    predecessor, in unsigned arithmetic as GetShare computes them. *)
Fixpoint share_sizes_from (prev : Z) (m : SharesMap) : list Z :=
  match m with
  | [] => []
  | (k, _) :: m' => u32 (k - prev) :: share_sizes_from k m'
  end.

Definition share_sizes (m : SharesMap) : list Z := share_sizes_from 0 m.

Definition sum_shares (m : SharesMap) : Z := fold_right Z.add 0 (share_sizes m).

(** [(--shares.end())->first], and 0 for an empty map. *)
Definition final_boundary (m : SharesMap) : Z :=
  List.last (map fst m) 0.

Definition destinations (m : SharesMap) : list StationID := map snd m.

(** The map with every boundary lowered by [flow]. *)
Definition shift_down (flow : Z) (m : SharesMap) : SharesMap :=
  List.map (fun e => (fst e - flow, snd e)) m.

(** RestrictShare followed by ReleaseShare. *)
Definition Restrict_then_Release (st : StationID) (fs : FlowStat)
    : option FlowStat :=
  match RestrictShare st fs with
  | Some fs' => ReleaseShare st fs'
  | None => None
  end.

(** The type invariant of [std::map<uint32_t, _>]: keys are 32 bit and
    strictly increasing. *)
Inductive SharesMap_ok : Z -> SharesMap -> Prop :=
| ok_nil lo : SharesMap_ok lo []
| ok_cons lo k v m :
    lo < k -> k < 2 ^ 32 -> SharesMap_ok k m -> SharesMap_ok lo ((k, v) :: m).

(** The class invariant of FlowStat: positive boundaries in increasing
    order, each destination once, and the limit of the unrestricted shares
    is 0 or one of the boundaries. *)
Record FlowStat_wf (fs : FlowStat) : Prop := {
  wf_sorted : SharesMap_ok 0 (shares fs);
  wf_nodup : NoDup (destinations (shares fs));
  wf_limit : unrestricted fs = 0 \/ In (unrestricted fs) (map fst (shares fs))
}.

End FlowStats.

(** ** Bit and clamp helpers

    Modelled from the spec: Clamp, ClampTo, GB and HasBit of
    core/math_func.hpp and core/bitmath_func.hpp, which are not among the
    sources: the rating is an "integer 0-255" and "is clamped to change by at
    most 2 from the previous value"; GB and HasBit read bit fields. *)

(** Clamp(a, min, max) *)
Definition Clamp (a lo hi : Z) : Z :=
  if a <=? lo then lo else if hi <=? a then hi else a.

(** ClampTo<uint8_t> and ClampTo<uint16_t> *)
Definition ClampTo_u8 (a : Z) : Z := Clamp a 0 255.
Definition ClampTo_u16 (a : Z) : Z := Clamp a 0 65535.

(** GB(x, s, n): [n] bits of [x] starting at bit [s]. *)
Definition GB (x s n : Z) : Z := Z.land (Z.shiftr x s) (Z.shiftl 1 n - 1).

Definition HasBit (x y : Z) : bool := Z.testbit x y.

(** byte_inc_sat: increment a byte unless it would wrap to zero. *)
Definition byte_inc_sat (p : Z) : Z :=
  let b := u8 (p + 1) in if b =? 0 then p else b.

(** ** Station rating *)

Module Rating.

(** What the rating code reads of the cargo list of a goods entry:
    [cargo.AvailableCount()] and [cargo.Packets()->MapSize()]. *)
Record CargoData := mkCargoData {
  AvailableCount : Z;
  MapSize : Z
}.

(** Modelled from the spec: the members of GoodsEntry (station_base.h is
    not among the sources) that the rating code reads and writes: "rating
    (0-255), waiting-cargo container, timers (ticks since last pickup)", the
    HasRating flag, the last speed and age and the waiting cargo fed back. *)
Record GoodsEntry := mkGoodsEntry {
  status_Rating : bool;        (* status.Test(State::Rating), i.e. HasRating() *)
  rating : Z;                  (* uint8_t *)
  time_since_pickup : Z;       (* uint8_t *)
  last_speed : Z;              (* uint8_t *)
  last_age : Z;                (* uint8_t *)
  max_waiting_cargo : Z;       (* uint *)
  data : option CargoData      (* HasData() / GetData() *)
}.

Definition HasRating (ge : GoodsEntry) : bool := status_Rating ge.

Record CargoSpec := mkCargoSpec {
  Index : nat;                         (* cs->Index() *)
  callback_StationRatingCalc : bool    (* callback_mask.Test(StationRatingCalc) *)
}.

Record Station := mkStation {
  time_since_load : Z;
  time_since_unload : Z;
  last_vehicle_type : Z;
  owner_has_statue : bool;   (* Company::IsValidID(owner) && town->statues.Test(owner) *)
  goods : list GoodsEntry
}.

Section UpdateStationRating.

(** Constants and collaborators declared outside station_cmd.cpp. *)
Variable INITIAL_STATION_RATING : Z.
Variable MAX_STATION_RATING : Z.
Variable VEH_SHIP : Z.
Variable VEH_INVALID : Z.
Variable CALLBACK_FAILED : Z.
Variable cheat_station_rating : bool.      (* _cheats.station_rating.value *)
Variable selectgoods : bool.               (* _settings_game.order.selectgoods *)
Variable Randomizer : Type.
Variable Random : Randomizer -> Z * Randomizer.
Variable HasVehicleEverTriedLoading : GoodsEntry -> bool.
(** GetCargoCallback(CBID_CARGO_STATION_RATING_CALC, var10, var18, cs) *)
Variable GetCargoCallback : Z -> Z -> CargoSpec -> Z.
(** What TruncateCargo feeds back to this entry when its own station is
    among the sources of the removed cargo: the amount removed for it. *)
Variable TruncatedFromSelf : CargoSpec -> GoodsEntry -> Z -> Z.

Definition available (ge : GoodsEntry) : Z :=
  match data ge with Some d => AvailableCount d | None => 0 end.

(** TruncateCargo(cs, ge, amount): evicts up to [amount] waiting cargo and
    raises max_waiting_cargo of the source entries; of those only the entry
    itself is in this model. *)
Definition TruncateCargo (cs : CargoSpec) (ge : GoodsEntry) (amount : Z)
    : GoodsEntry :=
  match data ge with
  | None => ge
  | Some d =>
      mkGoodsEntry (status_Rating ge) (rating ge) (time_since_pickup ge)
        (last_speed ge) (last_age ge)
        (Z.max (max_waiting_cargo ge) (TruncatedFromSelf cs ge amount))
        (Some (mkCargoData (AvailableCount d - Z.min amount (AvailableCount d))
                           (MapSize d)))
  end.

Definition set_rating (ge : GoodsEntry) (r : Z) : GoodsEntry :=
  mkGoodsEntry (status_Rating ge) r (time_since_pickup ge) (last_speed ge)
    (last_age ge) (max_waiting_cargo ge) (data ge).

Definition set_time_since_pickup (ge : GoodsEntry) (t : Z) : GoodsEntry :=
  mkGoodsEntry (status_Rating ge) (rating ge) t (last_speed ge)
    (last_age ge) (max_waiting_cargo ge) (data ge).

Definition set_max_waiting_cargo (ge : GoodsEntry) (w : Z) : GoodsEntry :=
  mkGoodsEntry (status_Rating ge) (rating ge) (time_since_pickup ge)
    (last_speed ge) (last_age ge) w (data ge).

(** The entry after [status.Reset(State::Rating); last_speed = 0]. *)
Definition disable_rating (ge : GoodsEntry) : GoodsEntry :=
  mkGoodsEntry false (rating ge) (time_since_pickup ge) 0
    (last_age ge) (max_waiting_cargo ge) (data ge).

(** The rating computed from speed, waiting time and waiting cargo
    (the [if (!skip)] block). *)
Definition default_rating (st : Station) (ge : GoodsEntry) : Z :=
  let b := last_speed ge - 85 in
  let r := if 0 <=? b then Z.shiftr b 2 else 0 in
  let waittime :=
    if last_vehicle_type st =? VEH_SHIP
    then Z.shiftr (time_since_pickup ge) 2 else time_since_pickup ge in
  let r := if waittime <=? 21 then r + 25 else r in
  let r := if waittime <=? 12 then r + 25 else r in
  let r := if waittime <=? 6 then r + 45 else r in
  let r := if waittime <=? 3 then r + 35 else r in
  let r := r - 90 in
  let r := if max_waiting_cargo ge <=? 1500 then r + 55 else r in
  let r := if max_waiting_cargo ge <=? 1000 then r + 35 else r in
  let r := if max_waiting_cargo ge <=? 600 then r + 10 else r in
  let r := if max_waiting_cargo ge <=? 300 then r + 20 else r in
  let r := if max_waiting_cargo ge <=? 100 then r + 10 else r in
  r.

(** The custom rating of a NewGRF callback, [None] when there is no
    callback or it failed. *)
Definition callback_rating (st : Station) (cs : CargoSpec) (ge : GoodsEntry)
    : option Z :=
  if callback_StationRatingCalc cs then
    let last_speed' := if HasVehicleEverTriedLoading ge then last_speed ge else 255 in
    let var18 :=
      Z.lor (Z.lor (ClampTo_u8 (time_since_pickup ge))
                   (Z.shiftl (ClampTo_u16 (max_waiting_cargo ge)) 8))
            (u32 (Z.shiftl (ClampTo_u8 last_speed') 24)) in
    let var10 := if last_vehicle_type st =? VEH_INVALID then 0
                 else last_vehicle_type st + 16 in
    let callback := GetCargoCallback var10 var18 cs in
    if callback =? CALLBACK_FAILED then None
    else
      let r := GB callback 0 14 in
      Some (if HasBit callback 14 then r - 16384 else r)
  else None.

Definition WAITING_CARGO_THRESHOLD : Z := Z.shiftl 1 12.
Definition WAITING_CARGO_CUT_FACTOR : Z := Z.shiftl 1 6.
Definition MAX_WAITING_CARGO : Z := Z.shiftl 1 15.

(** The rating before the bonuses: the cheat, the callback, or the default
    computation; the cheat also writes the entry. *)
Definition base_rating (st : Station) (cs : CargoSpec) (ge : GoodsEntry)
    : GoodsEntry * Z :=
  if cheat_station_rating
  then (set_rating ge (u8 MAX_STATION_RATING), MAX_STATION_RATING)
  else match callback_rating st cs ge with
       | Some r => (ge, r)
       | None => (ge, default_rating st ge)
       end.

(** The statue of the owner and the age of the last delivery. *)
Definition rating_bonus (st : Station) (ge : GoodsEntry) (rating0 : Z) : Z :=
  let rating1 := if owner_has_statue st then rating0 + 26 else rating0 in
  let age := last_age ge in
  let rating1 := if age <? 3 then rating1 + 10 else rating1 in
  let rating1 := if age <? 2 then rating1 + 10 else rating1 in
  let rating1 := if age <? 1 then rating1 + 13 else rating1 in
  rating1.

(** The waiting cargo after the two random discards and the cap. *)
Definition discard_waiting (new_rating waiting waiting_avg num_dests : Z)
    (rng : Randomizer) (waiting_changed : bool) : Z * Randomizer * bool :=
  let '(waiting, rng, waiting_changed) :=
    if (new_rating <=? 64) && (100 <=? waiting_avg) then
      let '(r, rng) := Random rng in
      let dec := Z.land r 31 in
      let dec := if waiting_avg <? 200 then Z.land dec 7 else dec in
      (u32 (waiting - u32 ((dec + 1) * num_dests)), rng, true)
    else (waiting, rng, waiting_changed) in
  let '(waiting, rng, waiting_changed) :=
    if (new_rating <=? 127) && negb (waiting =? 0) then
      let '(r, rng) := Random rng in
      if new_rating <=? GB r 0 7 then
        (Z.max (to_int waiting - to_int (u32 ((GB r 8 2 - 1) * num_dests))) 0,
         rng, true)
      else (waiting, rng, waiting_changed)
    else (waiting, rng, waiting_changed) in
  if WAITING_CARGO_THRESHOLD <? waiting then
    let difference := waiting - WAITING_CARGO_THRESHOLD in
    let waiting := waiting - difference / WAITING_CARGO_CUT_FACTOR in
    (Z.min waiting MAX_WAITING_CARGO, rng, true)
  else (waiting, rng, waiting_changed).

(** The body of the loop over the cargo types for one goods entry; returns
    the entry, the generator and [waiting_changed]. *)
Definition UpdateGoodsRating (st : Station) (cs : CargoSpec) (ge : GoodsEntry)
    (rng : Randomizer) (waiting_changed : bool)
    : GoodsEntry * Randomizer * bool :=
  (* Slowly increase the rating back to its original level. *)
  let ge := if negb (HasRating ge) && (rating ge <? INITIAL_STATION_RATING)
            then set_rating ge (u8 (rating ge + 1)) else ge in
  (* Only change the rating if we are moving this cargo *)
  if negb (HasRating ge) then (ge, rng, waiting_changed) else
  let ge := set_time_since_pickup ge (byte_inc_sat (time_since_pickup ge)) in
  if (time_since_pickup ge =? 255) && selectgoods then
    (TruncateCargo cs (disable_rating ge) (2 ^ 32 - 1), rng, true)
  else
  let waiting := available ge in
  let num_dests := match data ge with Some d => MapSize d | None => 0 end in
  let waiting_avg := waiting / u32 (num_dests + 1) in
  let '(ge, rating0) := base_rating st cs ge in
  let rating1 := rating_bonus st ge rating0 in
  let or_ := rating ge in
  (* only modify rating in steps of -2, -1, 0, 1 or 2 *)
  let new_rating := ClampTo_u8 (or_ + Clamp (rating1 - or_) (-2) 2) in
  let ge := set_rating ge new_rating in
  let '(waiting, rng, waiting_changed) :=
    discard_waiting new_rating waiting waiting_avg num_dests rng waiting_changed in
  if waiting_changed && (waiting <? available ge) then
    (TruncateCargo cs (set_max_waiting_cargo ge 0) (u32 (available ge - waiting)),
     rng, waiting_changed)
  else (set_max_waiting_cargo ge waiting_avg, rng, waiting_changed).

(** One round of the loop [for (const CargoSpec *cs : CargoSpec::Iterate())]
    on [st->goods[cs->Index()]]. *)
Definition rating_step (st : Station)
    (acc : list GoodsEntry * Randomizer * bool) (cs : CargoSpec)
    : list GoodsEntry * Randomizer * bool :=
  let '(gs, rng, waiting_changed) := acc in
  match gs !! Index cs with
  | None => acc
  | Some ge =>
      let '(ge', rng', wc') := UpdateGoodsRating st cs ge rng waiting_changed in
      (<[Index cs := ge']> gs, rng', wc')
  end.

(** UpdateStationRating: the station after the tick, the generator, and
    whether the whole station window is redrawn. *)
Definition UpdateStationRating (specs : list CargoSpec) (st : Station)
    (rng : Randomizer) : Station * Randomizer * bool :=
  let '(gs, rng', wc) := fold_left (rating_step st) specs (goods st, rng, false) in
  (mkStation (byte_inc_sat (time_since_load st))
             (byte_inc_sat (time_since_unload st))
             (last_vehicle_type st) (owner_has_statue st) gs,
   rng', wc).

End UpdateStationRating.

(** The rating is a byte. *)
Definition rating_in_range (ge : GoodsEntry) : Prop := 0 <= rating ge <= 255.

(** [ge'] is [ge] after a tick that moved the rating by at most 2. *)
Definition rating_ok (ge ge' : GoodsEntry) : Prop :=
  Z.abs (rating ge' - rating ge) <= 2 /\ 0 <= rating ge' <= 255.

End Rating.


(** ** Station acceptance *)

Module Acceptance.

Inductive StationFacility :=
| Train | TruckStop | BusStop | Airport | Dock | Waypoint.

(** Modelled from the spec: StationFacility and its EnumBitSet
    (station_type.h is not among the sources), "a bitset of {Train, BusStop,
    TruckStop, Airport, Dock, Waypoint}".  The set is kept as its membership
    test; [Any] asks for a common member. *)
Definition StationFacilities := StationFacility -> bool.

Definition Any (s : StationFacilities) (l : list StationFacility) : bool :=
  existsb s l.

(** Modelled from the spec: the members of GoodsEntry and Station
    (station_base.h is not among the sources) that the acceptance code uses:
    "acceptance flag, link-graph node reference" per cargo type; for the
    station its owner, rectangle, facilities and "goods entry array (indexed
    by cargo type)". *)
Record GoodsEntry := mkGoodsEntry {
  status_Acceptance : bool;   (* status.Test(State::Acceptance) *)
  link_graph : Z;
  node : Z
}.

(** status.Set(State::Acceptance, b) *)
Definition Set_Acceptance (ge : GoodsEntry) (b : bool) : GoodsEntry :=
  mkGoodsEntry b (link_graph ge) (node ge).

Record Station := mkStation {
  index : StationID;
  owner : Z;
  rect_IsEmpty : bool;            (* st->rect.IsEmpty() *)
  facilities : StationFacilities;
  always_accepted : Z;
  goods : list GoodsEntry         (* indexed by cargo type *)
}.

(** The pool of link graphs, as far as SetDemand reaches. *)
Record LinkGraphs := mkLinkGraphs {
  IsValidID : Z -> bool;
  demand : Z -> Z -> Z            (* graph, node -> demand *)
}.

Definition SetDemand (lg : LinkGraphs) (g n d : Z) : LinkGraphs :=
  mkLinkGraphs (IsValidID lg)
    (fun g' n' => if (g' =? g) && (n' =? n) then d else demand lg g' n').

(** What the caller can observe besides the station. *)
Inductive Event :=
| ShowRejectOrAcceptNews (st : StationID) (cargoes : Z) (reject : bool)
| SetWindowWidgetDirty (st : StationID).

(** Modelled from the spec: BaseStation::IsInUse() of base_station_base.h
    (not among the sources), "the station has any facility": any facility
    other than the waypoint flag. *)
Definition IsInUse (st : Station) : bool :=
  Any (facilities st) [Train; TruckStop; BusStop; Airport; Dock].

(** GetAcceptanceMask: bit [c] for every cargo [c] whose goods entry has
    the acceptance state. *)
Fixpoint GetAcceptanceMask_from (c : Z) (gs : list GoodsEntry) (mask : Z) : Z :=
  match gs with
  | [] => mask
  | ge :: gs' =>
      GetAcceptanceMask_from (c + 1) gs'
        (if status_Acceptance ge then Z.setbit mask c else mask)
  end.

Definition GetAcceptanceMask (st : Station) : Z :=
  GetAcceptanceMask_from 0 (goods st) 0.

Section UpdateStationAcceptance.

Variable NUM_CARGO : nat.
Variable local_company : Z.
(** IsCargoInClass(cargo, CargoClass::Passengers) *)
Variable IsPassengerCargo : nat -> bool.
(** GetAcceptanceAroundStation(st, &always_accepted): the amounts per
    cargo in 1/8 and the always accepted mask, from the catchment tiles. *)
Variable GetAcceptanceAroundStation : Station -> (nat -> Z) * Z.

(** The local [acceptance] array: zero for an empty station rectangle. *)
Definition accumulated (st : Station) : nat -> Z :=
  if rect_IsEmpty st then (fun _ => 0)
  else fst (GetAcceptanceAroundStation st).

(** The amount after "Make sure the station can accept the goods type". *)
Definition usable_amount (st : Station) (acceptance : nat -> Z) (cargo : nat) : Z :=
  let amt := acceptance cargo in
  let is_passengers := IsPassengerCargo cargo in
  if (negb is_passengers && negb (Any (facilities st) [Train; TruckStop; Airport; Dock]))
     || (is_passengers && negb (Any (facilities st) [Train; BusStop; Airport; Dock]))
  then 0 else amt.

(** The facility a cargo needs: passengers a train, bus, airport or dock
    facility; everything else a train, truck, airport or dock facility. *)
Definition compatible_facility (st : Station) (cargo : nat) : bool :=
  if IsPassengerCargo cargo
  then Any (facilities st) [Train; BusStop; Airport; Dock]
  else Any (facilities st) [Train; TruckStop; Airport; Dock].

Definition acceptance_step (st : Station) (acceptance : nat -> Z)
    (acc : list GoodsEntry * LinkGraphs) (cargo : nat)
    : list GoodsEntry * LinkGraphs :=
  let '(gs, lg) := acc in
  match gs !! cargo with
  | None => acc
  | Some ge =>
      let amt := usable_amount st acceptance cargo in
      let ge' := Set_Acceptance ge (8 <=? amt) in
      (<[cargo := ge']> gs,
       if IsValidID lg (link_graph ge')
       then SetDemand lg (link_graph ge') (node ge') (amt / 8) else lg)
  end.

Definition UpdateStationAcceptance (st : Station) (show_msg : bool)
    (lg : LinkGraphs) : Station * LinkGraphs * list Event :=
  let old_acc := GetAcceptanceMask st in
  let always := if rect_IsEmpty st then always_accepted st
                else snd (GetAcceptanceAroundStation st) in
  let '(gs, lg') :=
    fold_left (acceptance_step st (accumulated st)) (seq 0 NUM_CARGO) (goods st, lg) in
  let st' := mkStation (index st) (owner st) (rect_IsEmpty st) (facilities st)
                       always gs in
  let new_acc := GetAcceptanceMask st' in
  if old_acc =? new_acc then (st', lg', [])
  else
    let news :=
      if show_msg && (owner st' =? local_company) && IsInUse st' then
        let accepts := Z.land new_acc (Z.lnot old_acc) in
        let rejects := Z.land (Z.lnot new_acc) old_acc in
        (if accepts =? 0 then [] else [ShowRejectOrAcceptNews (index st') accepts false])
        ++ (if rejects =? 0 then [] else [ShowRejectOrAcceptNews (index st') rejects true])
      else [] in
    (st', lg', news ++ [SetWindowWidgetDirty (index st')]).

End UpdateStationAcceptance.

End Acceptance.

(** ** Command results *)

(** The error strings of table/strings.h that station_cmd.cpp returns in the
    functions below, and those of the collaborators in the examples;
    [CMD_ERROR] is the failure without a message. *)
Inductive ErrorMessage :=
| CMD_ERROR
| STR_ERROR_MUST_DEMOLISH_BRIDGE_FIRST
| STR_ERROR_FLAT_LAND_REQUIRED
| STR_ERROR_ADJOINS_MORE_THAN_ONE_EXISTING
| STR_ERROR_THERE_IS_NO_STATION
| STR_ERROR_VEHICLE_IN_THE_WAY
| STR_ERROR_OWNED_BY
| STR_ERROR_OTHER (code : Z).

(** Modelled from the spec: class CommandCost, whose declaration
    (command_type.h) is not among the sources: "either a success with an
    accumulated monetary cost or a failure carrying a localized error
    code". *)
Record CommandCost := mkCommandCost {
  cost : Z;
  success : bool;
  message : option ErrorMessage
}.

Definition CommandCost_ok : CommandCost := mkCommandCost 0 true None.
Definition CommandCost_money (c : Z) : CommandCost := mkCommandCost c true None.
Definition CommandCost_error (msg : ErrorMessage) : CommandCost :=
  mkCommandCost 0 false (Some msg).

Definition Failed (c : CommandCost) : bool := negb (success c).
Definition GetCost (c : CommandCost) : Z := cost c.

(** CommandCost::AddCost(Money) *)
Definition AddMoney (c : CommandCost) (m : Z) : CommandCost :=
  mkCommandCost (cost c + m) (success c) (message c).

(** Modelled from the spec: CommandCost::AddCost(CommandCost &&) of
    command.cpp, which is not among the sources: "cost accumulates
    additively", and an accumulator of errors keeps the failure added to it
    (the first one, "one of the other error that got accumulated" in the
    words of RemoveFromRailBaseStation). *)
Definition AddCost (c ret : CommandCost) : CommandCost :=
  if success c && negb (success ret)
  then mkCommandCost (cost c + cost ret) false (message ret)
  else mkCommandCost (cost c + cost ret) (success c) (message c).

Definition TileIndex := Z.

(** ** CheckBuildableTile *)

Module Buildable.

Inductive DiagDirection := DIAGDIR_NE | DIAGDIR_SE | DIAGDIR_SW | DIAGDIR_NW.

(** DiagDirections is an EnumBitSet over [DiagDirection]. *)
Definition DiagDirections := DiagDirection -> bool.

Definition Slope := Z.

Section CheckBuildableTile.

(** The map and the helpers of slope_func.h, tile_map.h and depot_func.h. *)
Variable SLOPE_FLAT : Slope.
Variable IsSteepSlope : Slope -> bool.
Variable GetSlopeMaxZ : Slope -> Z.
Variable CanBuildDepotByTileh : DiagDirection -> Slope -> bool.
Variable IsBridgeAbove : TileIndex -> bool.
Variable EnsureNoVehicleOnGround : TileIndex -> CommandCost.
Variable GetTileSlopeZ : TileIndex -> Slope * Z.
Variable build_on_slopes : bool.      (* _settings_game.construction.build_on_slopes *)
Variable PR_BUILD_FOUNDATION : Z.     (* _price[PR_BUILD_FOUNDATION] *)
(** Command<CMD_LANDSCAPE_CLEAR>::Do(flags, tile) *)
Variable LandscapeClear : TileIndex -> CommandCost.

(** [z + GetSlopeMaxZ(tileh)]: the height of the tile once a foundation
    has levelled it. *)
Definition flat_z (tile : TileIndex) : Z :=
  let '(tileh, z) := GetTileSlopeZ tile in z + GetSlopeMaxZ tileh.

(** CheckBuildableTile; [allowed_z] is passed by reference, its value after
    the call is the second component. *)
Definition CheckBuildableTile (tile : TileIndex) (invalid_dirs : DiagDirections)
    (allowed_z : Z) (allow_steep check_bridge : bool) : CommandCost * Z :=
  if check_bridge && IsBridgeAbove tile then
    (CommandCost_error STR_ERROR_MUST_DEMOLISH_BRIDGE_FIRST, allowed_z)
  else
  let ret := EnsureNoVehicleOnGround tile in
  if Failed ret then (ret, allowed_z) else
  let '(tileh, z) := GetTileSlopeZ tile in
  if (negb allow_steep && IsSteepSlope tileh)
     || (negb build_on_slopes && negb (tileh =? SLOPE_FLAT)) then
    (CommandCost_error STR_ERROR_FLAT_LAND_REQUIRED, allowed_z)
  else
  let flat_z := z + GetSlopeMaxZ tileh in
  let bad_dir :=
    existsb (fun dir => invalid_dirs dir && negb (CanBuildDepotByTileh dir tileh))
            [DIAGDIR_NE; DIAGDIR_SE; DIAGDIR_SW; DIAGDIR_NW] in
  if negb (tileh =? SLOPE_FLAT) && bad_dir then
    (CommandCost_error STR_ERROR_FLAT_LAND_REQUIRED, allowed_z)
  else
  let cost := if negb (tileh =? SLOPE_FLAT)
              then CommandCost_money PR_BUILD_FOUNDATION else CommandCost_ok in
  if allowed_z <? 0 then (cost, flat_z)                     (* First tile. *)
  else if negb (allowed_z =? flat_z) then
    (CommandCost_error STR_ERROR_FLAT_LAND_REQUIRED, allowed_z)
  else (cost, allowed_z).

(** The loop of CheckFlatLandAirport over the tiles of the footprint, with
    [cost] and [allowed_z] as they stand before the tile. *)
Fixpoint CheckFlatLandAirport_loop (tiles : list TileIndex) (cost : CommandCost)
    (allowed_z : Z) : CommandCost :=
  match tiles with
  | [] => cost
  | tile :: rest =>
      let '(ret, allowed_z) :=
        CheckBuildableTile tile (fun _ => false) allowed_z true true in
      if Failed ret then ret else
      let cost := AddMoney cost (GetCost ret) in
      let ret := LandscapeClear tile in
      if Failed ret then ret else
      CheckFlatLandAirport_loop rest (AddMoney cost (GetCost ret)) allowed_z
  end.

Definition CheckFlatLandAirport (tiles : list TileIndex) : CommandCost :=
  CheckFlatLandAirport_loop tiles CommandCost_ok (-1).

(** The tiles before the one of another elevation are passed when their
    check and the clearing of the land succeed. *)
Definition tile_passes (allowed_z : Z) (p : TileIndex) : Prop :=
  Failed (CheckBuildableTile p (fun _ => false) allowed_z true true).1 = false /\
  Failed (LandscapeClear p) = false.

End CheckBuildableTile.

End Buildable.


(** Modelled from the spec: TileArea (OrthogonalTileArea of tilearea_type.h,
    not among the sources), a "tile-area rectangle": the north tile and the
    extent. *)
Record TileArea := mkTileArea {
  tile : TileIndex;
  w : Z;          (* uint16_t *)
  h : Z           (* uint16_t *)
}.

(** ** GetStationAround *)

Module Around.

Section GetStationAround.

(** The station class [T] with its pool, the map, and the tile area
    helpers of tilearea.cpp. *)
Variable T : Type.
Variable T_IsValidID : StationID -> bool.
Variable T_Get : StationID -> T.
Variable T_owner : T -> Z.
Variable Invalid : StationID.                      (* StationID::Invalid() *)
Variable IsStationTile : TileIndex -> bool.        (* IsTileType(tile, MP_STATION) *)
Variable GetStationIndex : TileIndex -> StationID.
Variable Expand : TileArea -> Z -> TileArea.       (* ta.Expand(rad) *)
Variable tiles_of : TileArea -> list TileIndex.    (* for (TileIndex t : ta) *)

(** The loop over the tiles; [None] is the early return of the error. *)
Fixpoint GetStationAround_loop (tiles : list TileIndex)
    (closest_station : StationID) (company : Z) (filter : T -> bool)
    : option StationID :=
  match tiles with
  | [] => Some closest_station
  | tile_cur :: rest =>
      if IsStationTile tile_cur then
        let t := GetStationIndex tile_cur in
        if negb (T_IsValidID t) || negb (T_owner (T_Get t) =? company)
           || negb (filter (T_Get t))
        then GetStationAround_loop rest closest_station company filter
        else if closest_station =? Invalid
        then GetStationAround_loop rest t company filter
        else if negb (closest_station =? t) then None
        else GetStationAround_loop rest closest_station company filter
      else GetStationAround_loop rest closest_station company filter
  end.

(** GetStationAround; [st] is the value of [*st] before the call, the second
    component its value after the call ([None] for nullptr). *)
Definition GetStationAround (ta : TileArea) (closest_station : StationID)
    (company : Z) (st : option T) (filter : T -> bool)
    : CommandCost * option T :=
  let ta := Expand ta 1 in
  match GetStationAround_loop (tiles_of ta) closest_station company filter with
  | None => (CommandCost_error STR_ERROR_ADJOINS_MORE_THAN_ONE_EXISTING, st)
  | Some closest =>
      (CommandCost_ok, if closest =? Invalid then None else Some (T_Get closest))
  end.

(** A tile the scan is looking for: a station tile whose station is valid,
    owned by the company and accepted by the filter. *)
Definition compatible_tile (company : Z) (filter : T -> bool)
    (tile_cur : TileIndex) : bool :=
  IsStationTile tile_cur
  && T_IsValidID (GetStationIndex tile_cur)
  && (T_owner (T_Get (GetStationIndex tile_cur)) =? company)
  && filter (T_Get (GetStationIndex tile_cur)).

Definition compatible_ids (company : Z) (filter : T -> bool)
    (tiles : list TileIndex) : list StationID :=
  List.map GetStationIndex (List.filter (compatible_tile company filter) tiles).

(** The compatible stations of the expanded area, in the order of the scan. *)
Definition compatible_stations (ta : TileArea) (company : Z)
    (filter : T -> bool) : list StationID :=
  compatible_ids company filter (tiles_of (Expand ta 1)).

End GetStationAround.

End Around.

(** ** MakeStationAreaSmaller *)

Module AreaSmaller.

Section MakeStationAreaSmaller.

Variable MapSizeX : Z.
Variable INVALID_TILE : TileIndex.
Variable BaseStation : Type.

(** Modelled from the spec: TileDiffXY(x, y) of map_func.h, which is not
    among the sources: on the "shared world grid" of rows of [MapSizeX]
    tiles, the index offset of a step of [x] columns and [y] rows. *)
Definition TileDiffXY (x y : Z) : Z := y * MapSizeX + x.

(** Modelled from the spec: ta.Clear() of tilearea_type.h (not among the
    sources), the empty area: no tile and no extent. *)
Definition Clear : TileArea := mkTileArea INVALID_TILE 0 0.

(** [for (uint i = 0; !func(st, at(i));) if (++i == n) <unused>]: the scan
    of one side; [true] when the side is left through the inner [if], that
    is when no tile of the side belongs to the station.  [fuel] bounds the
    steps and is [n] at the call. *)
Fixpoint side_unused (func : TileIndex -> bool) (at_ : Z -> TileIndex)
    (n i : Z) (fuel : nat) : bool :=
  match fuel with
  | O => false
  | S fuel' =>
      if func (at_ i) then false
      else if i + 1 =? n then true
      else side_unused func at_ n (i + 1) fuel'
  end.

(** The body between [restart:] and [return ta]; every [goto restart]
    is a recursive call, [None] is running out of [fuel]. *)
Fixpoint MakeStationAreaSmaller_loop (fuel : nat) (st : BaseStation)
    (ta : TileArea) (func : BaseStation -> TileIndex -> bool)
    : option TileArea :=
  match fuel with
  | O => None
  | S fuel' =>
      if negb (w ta =? 0) && negb (h ta =? 0) then
        (* check the left side, x = constant, y changes *)
        if side_unused (func st) (fun i => tile ta + TileDiffXY 0 i)
             (h ta) 0 (Z.to_nat (h ta)) then
          MakeStationAreaSmaller_loop fuel' st
            (mkTileArea (tile ta + TileDiffXY 1 0) (w ta - 1) (h ta)) func
        (* check the right side, x = constant, y changes *)
        else if side_unused (func st) (fun i => tile ta + TileDiffXY (w ta - 1) i)
                  (h ta) 0 (Z.to_nat (h ta)) then
          MakeStationAreaSmaller_loop fuel' st
            (mkTileArea (tile ta) (w ta - 1) (h ta)) func
        (* check the upper side, y = constant, x changes *)
        else if side_unused (func st) (fun i => tile ta + TileDiffXY i 0)
                  (w ta) 0 (Z.to_nat (w ta)) then
          MakeStationAreaSmaller_loop fuel' st
            (mkTileArea (tile ta + TileDiffXY 0 1) (w ta) (h ta - 1)) func
        (* check the lower side, y = constant, x changes *)
        else if side_unused (func st) (fun i => tile ta + TileDiffXY i (h ta - 1))
                  (w ta) 0 (Z.to_nat (w ta)) then
          MakeStationAreaSmaller_loop fuel' st
            (mkTileArea (tile ta) (w ta) (h ta - 1)) func
        else Some ta
      else Some Clear
  end.

(** Every restart takes a row or a column away, so [w + h] restarts and
    the final pass are enough. *)
Definition MakeStationAreaSmaller (st : BaseStation) (ta : TileArea)
    (func : BaseStation -> TileIndex -> bool) : option TileArea :=
  MakeStationAreaSmaller_loop (S (Z.to_nat (w ta + h ta))) st ta func.

(** The tile at column [i] and row [j] of the area. *)
Definition tile_at (ta : TileArea) (i j : Z) : TileIndex :=
  tile ta + TileDiffXY i j.

(** A tile of the area that belongs to the station. *)
Definition member (st : BaseStation) (func : BaseStation -> TileIndex -> bool)
    (ta : TileArea) (i j : Z) : Prop :=
  0 <= i < w ta /\ 0 <= j < h ta /\ func st (tile_at ta i j) = true.

(** [r] still holds every member tile of [ta]. *)
Definition contains_members (st : BaseStation)
    (func : BaseStation -> TileIndex -> bool) (ta r : TileArea) : Prop :=
  forall i j, member st func ta i j ->
    exists i' j', 0 <= i' < w r /\ 0 <= j' < h r /\
                  tile_at r i' j' = tile_at ta i j.

(** Each of the four outer rows and columns of [r] has a member tile. *)
Definition sides_populated (st : BaseStation)
    (func : BaseStation -> TileIndex -> bool) (r : TileArea) : Prop :=
  (exists j, 0 <= j < h r /\ func st (tile_at r 0 j) = true) /\
  (exists j, 0 <= j < h r /\ func st (tile_at r (w r - 1) j) = true) /\
  (exists i, 0 <= i < w r /\ func st (tile_at r i 0) = true) /\
  (exists i, 0 <= i < w r /\ func st (tile_at r i (h r - 1)) = true).

Definition shrunk (st : BaseStation) (func : BaseStation -> TileIndex -> bool)
    (ta r : TileArea) : Prop :=
  contains_members st func ta r /\
  ((0 < w r /\ 0 < h r /\ sides_populated st func r) \/ r = Clear).

End MakeStationAreaSmaller.

End AreaSmaller.

(** ** GenerateStationName: the names in use and the industry scan *)

Module Naming.

Definition StringID := Z.
Definition IndustryType := Z.

(** Modelled from the spec: the members of IndustrySpec (industrytype.h is
    not among the sources) that naming reads: whether the type is enabled
    and its "custom station-name override". *)
Record IndustrySpec := mkIndustrySpec {
  enabled : bool;
  station_name : StringID
}.

(** StationNameInformation: two bit sets. *)
Record StationNameInformation := mkSNI {
  used_names : Z;     (* std::bitset, indexed by [str - STR_SV_STNAME] *)
  indtypes : Z        (* std::bitset<NUM_INDUSTRYTYPES> *)
}.

Record Station := mkStation {
  index : StationID;
  town : Z;
  indtype : IndustryType;
  string_id : StringID
}.

Section GenerateStationName.

(** String and industry constants, the industry specs and the map. *)
Variable STR_SV_STNAME : StringID.
Variable STR_SV_STNAME_FALLBACK : StringID.
Variable STR_SV_STNAME_OILFIELD : StringID.
Variable STR_SV_STNAME_MINES : StringID.
Variable STR_SV_STNAME_FOREST : StringID.
Variable STR_SV_STNAME_WOODS : StringID.
Variable STR_UNDEFINED : StringID.
Variable STR_NULL : StringID.
Variable IT_INVALID : IndustryType.
Variable NUM_INDUSTRYTYPES : nat.
Variable GetIndustrySpec : IndustryType -> IndustrySpec.
Variable IsIndustryTile : TileIndex -> bool.       (* IsTileType(t, MP_INDUSTRY) *)
Variable GetIndustryType : TileIndex -> IndustryType.
Variable SpiralTileSequence : TileIndex -> Z -> list TileIndex.
(** The cascade of default names that follows the industry scan. *)
Variable DefaultNames : StationNameInformation -> Station -> TileIndex -> Z -> StringID.

(** Modelled from the spec: IsInsideMM of core/math_func.hpp (not among the
    sources): [x] is one of the "fixed enum of default name templates" that
    start at [lo] and end before [hi]. *)
Definition IsInsideMM (x lo hi : Z) : bool := (lo <=? x) && (x <? hi).

Definition IsAvailable (sni : StationNameInformation) (str : StringID) : bool :=
  negb (Z.testbit (used_names sni) (str - STR_SV_STNAME)).

Definition SetUsed (sni : StationNameInformation) (str : StringID)
    : StationNameInformation :=
  mkSNI (Z.setbit (used_names sni) (str - STR_SV_STNAME)) (indtypes sni).

Definition set_indtype (sni : StationNameInformation) (it : IndustryType)
    : StationNameInformation :=
  mkSNI (used_names sni) (Z.setbit (indtypes sni) it).

(** "Filter for other industrytypes with the same name" *)
Definition mark_same_name (sni : StationNameInformation) (name : StringID)
    : StationNameInformation :=
  fold_left
    (fun sni it =>
       let indsp := GetIndustrySpec (Z.of_nat it) in
       if enabled indsp && (station_name indsp =? name)
       then set_indtype sni (Z.of_nat it) else sni)
    (seq 0 NUM_INDUSTRYTYPES) sni.

(** The loop over the stations of the same town. *)
Definition collect_step (st : Station) (sni : StationNameInformation)
    (s : Station) : StationNameInformation :=
  if negb (index s =? index st) && (town s =? town st) then
    if negb (indtype s =? IT_INVALID) then
      let sni := set_indtype sni (indtype s) in
      let name := station_name (GetIndustrySpec (indtype s)) in
      if negb (name =? STR_UNDEFINED) then mark_same_name sni name else sni
    else if IsInsideMM (string_id s) STR_SV_STNAME STR_SV_STNAME_FALLBACK then
      let str := string_id s in
      let str := if str =? STR_SV_STNAME_FOREST then STR_SV_STNAME_WOODS else str in
      SetUsed sni str
    else sni
  else sni.

(** How the loop over the spiral ends: with the [return] that claims the
    industry, or with the names that are used when the cascade starts. *)
Inductive ScanResult :=
| Claimed (indtype : IndustryType) (sni : StationNameInformation)
| NotClaimed (sni : StationNameInformation).

Fixpoint industry_scan (tiles : list TileIndex) (sni : StationNameInformation)
    : ScanResult :=
  match tiles with
  | [] => NotClaimed sni
  | indtile :: rest =>
      if negb (IsIndustryTile indtile) then industry_scan rest sni else
      let indtype := GetIndustryType indtile in
      let indsp := GetIndustrySpec indtype in
      if station_name indsp =? STR_UNDEFINED then industry_scan rest sni else
      (* two of the standard names will be disabled *)
      let sni := SetUsed (SetUsed sni STR_SV_STNAME_OILFIELD) STR_SV_STNAME_MINES in
      if Z.testbit (indtypes sni) indtype then industry_scan rest sni else
      if negb (station_name indsp =? STR_NULL) then Claimed indtype sni
      else NotClaimed sni                                         (* break *)
  end.

Definition GenerateStationName (stations : list Station) (st : Station)
    (tile : TileIndex) (name_class : Z) : Station * StringID :=
  let sni := fold_left (collect_step st) stations (mkSNI 0 0) in
  match industry_scan (SpiralTileSequence tile 7) sni with
  | Claimed indtype _ =>
      (mkStation (index st) (town st) indtype (string_id st), STR_SV_STNAME_FALLBACK)
  | NotClaimed sni => (st, DefaultNames sni st tile name_class)
  end.

(** The names in use when the industry scan is over. *)
Definition names_after_scan (r : ScanResult) : StationNameInformation :=
  match r with Claimed _ sni => sni | NotClaimed sni => sni end.

(** An industry tile whose industry type names stations. *)
Definition names_station (t : TileIndex) : bool :=
  IsIndustryTile t
  && negb (station_name (GetIndustrySpec (GetIndustryType t)) =? STR_UNDEFINED).

(** Both fallback names are in use. *)
Definition both_used (sni : StationNameInformation) : Prop :=
  IsAvailable sni STR_SV_STNAME_OILFIELD = false /\
  IsAvailable sni STR_SV_STNAME_MINES = false.

(** A tile the scan passes over: no industry that names stations, or one of
    a type whose name is taken. *)
Definition skipped (sni : StationNameInformation) (p : TileIndex) : Prop :=
  names_station p = false \/
  Z.testbit (indtypes sni) (GetIndustryType p) = true.

End GenerateStationName.

End Naming.

(** ** RemoveFromRailBaseStation *)

Module RailRemoval.

Section RemoveFromRailBaseStation.

(** The game state [World] with the functions of the map, the vehicles,
    the station pool and the companies that the command calls. *)
Variable World : Type.
Variable HasStationTileRail : World -> TileIndex -> bool.
Variable EnsureNoVehicleOnGround : World -> TileIndex -> CommandCost.
Variable GetByTile : World -> TileIndex -> option StationID.   (* T::GetByTile *)
Variable station_owner : World -> StationID -> Z.
Variable CheckOwnership : Z -> CommandCost.
Variable IsStationTileBlocked : World -> TileIndex -> bool.
Variable current_company : Z.
Variable OWNER_WATER : Z.
Variable PR_CLEAR_RAIL : Z.
(** The block under [flags.Test(DoCommandFlag::Execute)]: the reservation is
    freed, the tile cleared (or turned into plain rail), the infrastructure
    counts and the station rectangle updated, the reservation restored. *)
Variable ExecuteRemoval : bool -> TileIndex -> StationID -> World -> World.
(** The loop body over the affected stations after the removal. *)
Variable ShrinkAndCleanup : StationID -> World -> World.
Variable tiles_of : TileArea -> list TileIndex.

Record Removal := mkRemoval {
  world : World;
  affected_stations : list StationID;
  quantity : Z;
  total_cost : CommandCost;
  error : CommandCost
}.

(** Modelled from the spec: include(vec, item) of
    core/container_func.hpp (not among the sources); it collects "the
    stations affected": append unless present. *)
Definition include (l : list StationID) (st : StationID) : list StationID :=
  if existsb (Z.eqb st) l then l else l ++ [st].

Definition removal_step (execute keep_rail : bool) (s : Removal)
    (tile : TileIndex) : Removal :=
  (* Make sure the specified tile is a rail station *)
  if negb (HasStationTileRail (world s) tile) then s else
  (* If there is a vehicle on ground, do not allow to remove the tile *)
  let ret := EnsureNoVehicleOnGround (world s) tile in
  let error1 := AddCost (error s) ret in
  let s1 := mkRemoval (world s) (affected_stations s) (quantity s)
                      (total_cost s) error1 in
  if Failed error1 then s1 else
  (* Check ownership of station *)
  match GetByTile (world s) tile with
  | None => s1
  | Some st =>
      let error2 := if negb (current_company =? OWNER_WATER)
                    then AddCost error1 (CheckOwnership (station_owner (world s) st))
                    else error1 in
      let s2 := mkRemoval (world s) (affected_stations s) (quantity s)
                          (total_cost s) error2 in
      if negb (current_company =? OWNER_WATER) && Failed error2 then s2 else
      let total := if keep_rail || IsStationTileBlocked (world s) tile
                   then AddMoney (total_cost s) (- PR_CLEAR_RAIL)
                   else total_cost s in
      if execute then
        mkRemoval (ExecuteRemoval keep_rail tile st (world s))
                  (include (affected_stations s) st)
                  (quantity s + 1) total error2
      else
        mkRemoval (world s) (affected_stations s) (quantity s + 1) total error2
  end.

(** RemoveFromRailBaseStation: the command result, the world and the
    affected stations after the call. *)
Definition RemoveFromRailBaseStation (w0 : World) (ta : TileArea)
    (affected : list StationID) (execute : bool) (removal_cost : Z)
    (keep_rail : bool) : CommandCost * World * list StationID :=
  let s := fold_left (removal_step execute keep_rail) (tiles_of ta)
             (mkRemoval w0 affected 0 CommandCost_ok CommandCost_ok) in
  if quantity s =? 0 then
    (if Failed (error s) then error s
     else CommandCost_error STR_ERROR_THERE_IS_NO_STATION,
     world s, affected_stations s)
  else
    (AddMoney (total_cost s) (quantity s * removal_cost),
     fold_left (fun w st => ShrinkAndCleanup st w) (affected_stations s) (world s),
     affected_stations s).

(** The per-tile checks of the loop: a rail station tile without a vehicle
    on it, of a station of class [T], that the acting company owns (the
    water owner of a flood is not asked). *)
Definition passes_checks (w0 : World) (tile : TileIndex) : bool :=
  HasStationTileRail w0 tile
  && negb (Failed (EnsureNoVehicleOnGround w0 tile))
  && match GetByTile w0 tile with
     | None => false
     | Some st =>
         (current_company =? OWNER_WATER)
         || negb (Failed (CheckOwnership (station_owner w0 st)))
     end.

(** The failed per-tile checks of the area, in the order of the scan. *)
Definition tile_errors (w0 : World) (tiles : list TileIndex) : list CommandCost :=
  flat_map
    (fun tile =>
       if negb (HasStationTileRail w0 tile) then [] else
       let ret := EnsureNoVehicleOnGround w0 tile in
       if Failed ret then [ret] else
       match GetByTile w0 tile with
       | None => []
       | Some st =>
           if negb (current_company =? OWNER_WATER)
              && Failed (CheckOwnership (station_owner w0 st))
           then [CheckOwnership (station_owner w0 st)] else []
       end)
    tiles.

End RemoveFromRailBaseStation.

Arguments mkRemoval {World} _ _ _ _ _.
Arguments world {World} _.
Arguments affected_stations {World} _.
Arguments quantity {World} _.
Arguments total_cost {World} _.
Arguments error {World} _.

(** What the accumulated error has to say after the tiles: nothing, or the
    message of the first failed check. *)
Definition error_reports (err : CommandCost) (errors : list CommandCost) : Prop :=
  match errors with
  | [] => Failed err = false
  | e :: _ => Failed err = true /\ message err = message e
  end.

End RailRemoval.


(** ** Sample inputs

    Concrete states on which the code is run below. *)

(** A deterministic stand-in for the random generator, to run the code. *)
Definition counter_RandomRange (limit : Z) (rng : Z) : Z * Z :=
  (rng mod limit, rng + 7).

Definition three_shares : FlowStats.FlowStat :=
  FlowStats.mkFlowStat [(10, 1); (20, 2); (30, 3)] 30.

(** D = 1 is the only unrestricted destination. *)
Definition only_D_unrestricted : FlowStats.FlowStat :=
  FlowStats.mkFlowStat [(10, 1); (20, 2); (30, 3)] 10.

(** A rated cargo at rating 100 that deserves 118 moves to 102. *)
Definition sample_goods : Rating.GoodsEntry :=
  Rating.mkGoodsEntry true 100 10 120 1 50 (Some (Rating.mkCargoData 30 1)).

Definition sample_goods_after : Rating.GoodsEntry :=
  Rating.mkGoodsEntry true 102 11 120 1 15 (Some (Rating.mkCargoData 30 1)).

Definition sample_station : Rating.Station :=
  Rating.mkStation 3 4 0 false [sample_goods].

(** A bus stop in a catchment that gathers 8/8 of every cargo: passengers
    (cargo 0) are accepted. *)
Definition bus_stop_only : Acceptance.Station :=
  Acceptance.mkStation 1 0 false
    (fun f => match f with Acceptance.BusStop => true | _ => false end) 0
    [Acceptance.mkGoodsEntry false 0 0; Acceptance.mkGoodsEntry false 0 0].

(** A strip of flat tiles: tile 0 at height 1; tiles 1 and 2 at height 2,
    tile 1 under a bridge. *)
Definition strip_GetTileSlopeZ (t : TileIndex) : Buildable.Slope * Z :=
  (0, if t =? 0 then 1 else 2).

Definition strip_CheckFlatLandAirport : list TileIndex -> CommandCost :=
  Buildable.CheckFlatLandAirport 0 (fun _ => false) (fun _ => 0) (fun _ _ => true)
    (fun t => t =? 1) (fun _ => CommandCost_ok) strip_GetTileSlopeZ true 10
    (fun _ => CommandCost_ok).

(** Industry type 3 names stations (string 500); tile 42 of the spiral is a
    tile of such an industry and no station of the town has taken the name. *)
Definition sample_GenerateStationName :=
  Naming.GenerateStationName 100 130 110 111 112 113 65535 0 255 8
    (fun it => Naming.mkIndustrySpec true (if it =? 3 then 500 else 65535))
    (fun t => t =? 42) (fun _ => 3) (fun t _ => [t; 42]) (fun _ _ _ _ => 100).

(** ** FlowStat: Invalidate and ScaleToMonthly *)

Module FlowStatScaling.
Import FlowStats.

(** The loop of FlowStat::Invalidate: [i] counts the shares copied so far,
    [unr] is [this->unrestricted], compared and overwritten in place. *)
Fixpoint Invalidate_loop (m : SharesMap) (i unr : Z) (new_shares : SharesMap)
    : Z * SharesMap :=
  match m with
  | [] => (unr, new_shares)
  | (k, v) :: m' =>
      let i := u32 (i + 1) in
      Invalidate_loop m' i (if k =? unr then i else unr) (map_set i v new_shares)
  end.

(** FlowStat::Invalidate; a failed assertion is [None]. *)
Definition Invalidate (fs : FlowStat) : option FlowStat :=
  match shares fs with [] => None | _ =>
  let '(unr, new_shares) := Invalidate_loop (shares fs) 0 (unrestricted fs) [] in
  match new_shares with
  | [] => None
  | _ => if unr <=? final_boundary new_shares
         then Some (mkFlowStat new_shares unr) else None
  end
  end.

(** The loop of FlowStat::ScaleToMonthly: [share] is the last boundary
    written. *)
Fixpoint ScaleToMonthly_loop (runtime : Z) (m : SharesMap) (share unr : Z)
    (new_shares : SharesMap) : Z * SharesMap :=
  match m with
  | [] => (unr, new_shares)
  | (k, v) :: m' =>
      let share := Z.max (u32 (share + 1)) (u32 (k * 30) / runtime) in
      ScaleToMonthly_loop runtime m' share (if unr =? k then share else unr)
        (map_set share v new_shares)
  end.

(** FlowStat::ScaleToMonthly; [runtime] is unsigned, the assertion asks for
    a positive one. *)
Definition ScaleToMonthly (runtime : Z) (fs : FlowStat) : option FlowStat :=
  if 0 <? runtime then
    let '(unr, new_shares) :=
      ScaleToMonthly_loop runtime (shares fs) 0 (unrestricted fs) [] in
    Some (mkFlowStat new_shares unr)
  else None.

(** How many shares lie at or below [limit]; for the limit of the
    unrestricted shares these are the unrestricted ones. *)
Definition shares_upto (limit : Z) (m : SharesMap) : nat :=
  length (List.filter (fun e => fst e <=? limit) m).

Definition unrestricted_count (fs : FlowStat) : nat :=
  shares_upto (unrestricted fs) (shares fs).

(** The boundaries that the loop of ScaleToMonthly writes, without the
    wrap-around. *)
Fixpoint scaled (runtime share : Z) (m : SharesMap) : SharesMap :=
  match m with
  | [] => []
  | (k, v) :: m' =>
      let share := Z.max (share + 1) (k * 30 / runtime) in
      (share, v) :: scaled runtime share m'
  end.

(** The boundaries 1, 2, ..., n given to the destinations [ds]. *)
Fixpoint numbered (from : Z) (ds : list StationID) : SharesMap :=
  match ds with
  | [] => []
  | d :: ds' => (from, d) :: numbered (from + 1) ds'
  end.

(** The shares of all destinations of the map, added up. *)
Definition total_share (fs : FlowStat) : Z :=
  fold_right Z.add 0 (List.map (GetShare fs) (destinations (shares fs))).

End FlowStatScaling.

(** ** FlowStatMap *)

Module FlowStatMaps.
Import FlowStats.

(** FlowStatMap is [std::map<StationID, FlowStat>]: the FlowStats of a
    station and cargo in the order of their origins. *)
Definition FlowStatMap := list (StationID * FlowStat).

(** [this->find(origin)] *)
Fixpoint find (m : FlowStatMap) (origin : StationID) : option FlowStat :=
  match m with
  | [] => None
  | (o, fs) :: m' => if o =? origin then Some fs else find m' origin
  end.

(** Assignment through the iterator that [find] returned. *)
Fixpoint assign (origin : StationID) (fs : FlowStat) (m : FlowStatMap)
    : FlowStatMap :=
  match m with
  | [] => []
  | (o, fs0) :: m' =>
      if o =? origin then (o, fs) :: m' else (o, fs0) :: assign origin fs m'
  end.

(** [this->emplace(origin, fs)] for an origin that [find] did not find. *)
Fixpoint emplace (origin : StationID) (fs : FlowStat) (m : FlowStatMap)
    : FlowStatMap :=
  match m with
  | [] => [(origin, fs)]
  | (o, fs0) :: m' =>
      if origin <? o then (origin, fs) :: m else (o, fs0) :: emplace origin fs m'
  end.

Section AddFlow.

(** The constructor [FlowStat(via, flow)] of station_base.h. *)
Variable FlowStat_new : StationID -> Z -> FlowStat.

(** FlowStatMap::AddFlow; the [uint flow] becomes the [int] parameter of
    ChangeShare. *)
Definition AddFlow (origin via : StationID) (flow : Z) (m : FlowStatMap)
    : option FlowStatMap :=
  match find m origin with
  | None => Some (emplace origin (FlowStat_new via flow) m)
  | Some fs =>
      match ChangeShare via (to_int flow) fs with
      | Some fs' =>
          match shares fs' with
          | [] => None
          | _ :: _ => Some (assign origin fs' m)
          end
      | None => None
      end
  end.

End AddFlow.

(** FlowStatMap::DeleteFlows: the stack of the origins whose FlowStat was
    erased (last pushed first) and the map that is left. *)
Fixpoint DeleteFlows_loop (via : StationID) (m : FlowStatMap)
    (ret : list StationID) : option (list StationID * FlowStatMap) :=
  match m with
  | [] => Some (ret, [])
  | (origin, s_flows) :: m' =>
      match ChangeShare via INT_MIN s_flows with
      | None => None
      | Some s_flows' =>
          match shares s_flows' with
          | [] => DeleteFlows_loop via m' (origin :: ret)
          | _ :: _ =>
              match DeleteFlows_loop via m' ret with
              | Some (ret', rest) => Some (ret', (origin, s_flows') :: rest)
              | None => None
              end
          end
      end
  end.

Definition DeleteFlows (via : StationID) (m : FlowStatMap)
    : option (list StationID * FlowStatMap) :=
  DeleteFlows_loop via m [].

(** FlowStatMap::RestrictFlows and FlowStatMap::ReleaseFlows *)
Fixpoint RestrictFlows (via : StationID) (m : FlowStatMap) : option FlowStatMap :=
  match m with
  | [] => Some []
  | (origin, fs) :: m' =>
      match RestrictShare via fs, RestrictFlows via m' with
      | Some fs', Some rest => Some ((origin, fs') :: rest)
      | _, _ => None
      end
  end.

Fixpoint ReleaseFlows (via : StationID) (m : FlowStatMap) : option FlowStatMap :=
  match m with
  | [] => Some []
  | (origin, fs) :: m' =>
      match ReleaseShare via fs, ReleaseFlows via m' with
      | Some fs', Some rest => Some ((origin, fs') :: rest)
      | _, _ => None
      end
  end.

(** FlowStatMap::GetFlow; an empty FlowStat has no last share to read. *)
Fixpoint GetFlow_from (ret : Z) (m : FlowStatMap) : option Z :=
  match m with
  | [] => Some ret
  | (_, fs) :: m' =>
      match shares fs with
      | [] => None
      | _ :: _ => GetFlow_from (u32 (ret + final_boundary (shares fs))) m'
      end
  end.

Definition GetFlow (m : FlowStatMap) : option Z := GetFlow_from 0 m.

(** FlowStatMap::GetFlowVia *)
Definition GetFlowVia (m : FlowStatMap) (via : StationID) : Z :=
  fold_left (fun ret it => u32 (ret + GetShare (snd it) via)) m 0.

(** FlowStatMap::GetFlowFrom *)
Definition GetFlowFrom (m : FlowStatMap) (from : StationID) : option Z :=
  match find m from with
  | None => Some 0
  | Some fs =>
      match shares fs with
      | [] => None
      | _ :: _ => Some (final_boundary (shares fs))
      end
  end.

(** FlowStatMap::GetFlowFromVia *)
Definition GetFlowFromVia (m : FlowStatMap) (from via : StationID) : Z :=
  match find m from with
  | None => 0
  | Some fs => GetShare fs via
  end.

(** All flow of the FlowStat goes via [via]: it is the only destination. *)
Definition only_via (via : StationID) (fs : FlowStat) : bool :=
  match destinations (shares fs) with
  | [d] => d =? via
  | _ => false
  end.

(** The origins of the map, in order. *)
Definition origins (m : FlowStatMap) : list StationID := List.map fst m.

(** Every FlowStat of the map satisfies the class invariant and has a
    share. *)
Definition FlowStatMap_wf (m : FlowStatMap) : Prop :=
  Forall (fun it => FlowStat_wf (snd it) /\ shares (snd it) <> []) m.

End FlowStatMaps.

(** ** Rectangles within rectangles *)

Module AreaInside.

Section Inside.

Variable MapSizeX : Z.
Variable INVALID_TILE : TileIndex.

(** [r] is the cleared area or a rectangle cut out of [ta]: it starts
    [dx] columns and [dy] rows into [ta] and does not reach beyond it. *)
Definition inside (ta r : TileArea) : Prop :=
  r = AreaSmaller.Clear INVALID_TILE \/
  exists dx dy,
    0 <= dx /\ 0 <= dy /\ 0 <= w r /\ 0 <= h r /\
    tile r = tile ta + AreaSmaller.TileDiffXY MapSizeX dx dy /\
    dx + w r <= w ta /\ dy + h r <= h ta.

End Inside.

End AreaInside.


(** ** FindJoiningBaseStation *)

Module Joining.

Section FindJoiningBaseStation.

Variable T : Type.
Variable T_IsValidID : StationID -> bool.
Variable T_Get : StationID -> T.
Variable T_GetIfValid : StationID -> option T.     (* T::GetIfValid(id) *)
Variable T_owner : T -> Z.
Variable Invalid : StationID.
Variable IsStationTile : TileIndex -> bool.
Variable GetStationIndex : TileIndex -> StationID.
Variable Expand : TileArea -> Z -> TileArea.
Variable tiles_of : TileArea -> list TileIndex.
Variable error_message : ErrorMessage.             (* the template parameter *)
Variable current_company : Z.                      (* _current_company *)

(** FindJoiningBaseStation; [*st] is nullptr at the call (the assertion),
    the second component is its value at the return. *)
Definition FindJoiningBaseStation (existing_station station_to_join : StationID)
    (adjacent : bool) (ta : TileArea) (filter : T -> bool)
    : CommandCost * option T :=
  if negb (existing_station =? Invalid) && adjacent
     && negb (existing_station =? station_to_join)
  then
    (* You can't build an adjacent station over the top of one that
       already exists. *)
    (CommandCost_error error_message, None)
  else
    let st :=
      if negb (existing_station =? Invalid) then
        match T_GetIfValid existing_station with
        | Some candidate => if filter candidate then Some candidate else None
        | None => None
        end
      else None in
    let check_surrounding :=
      if negb (existing_station =? Invalid)
      then match st with None => true | Some _ => false end
      else negb adjacent in
    let '(ret, st) :=
      if check_surrounding
      then Around.GetStationAround T T_IsValidID T_Get T_owner Invalid IsStationTile
             GetStationIndex Expand tiles_of ta existing_station current_company
             st filter
      else (CommandCost_ok, st) in
    if check_surrounding && Failed ret then (ret, st) else
    (* Distant join *)
    let st :=
      match st with
      | None => if negb (station_to_join =? Invalid)
                then T_GetIfValid station_to_join else None
      | Some _ => st
      end in
    (CommandCost_ok, st).

(** The station of a distant join: [station_to_join] if it is given and
    valid. *)
Definition distant_join (station_to_join : StationID) : option T :=
  if station_to_join =? Invalid then None else T_GetIfValid station_to_join.

End FindJoiningBaseStation.

End Joining.


(** ** GenerateStationName: the cascade of default names *)

Module NameCascade.
Import Naming.

(** enum StationNaming *)
Definition STATIONNAMING_RAIL : Z := 0.
Definition STATIONNAMING_ROAD : Z := 1.
Definition STATIONNAMING_AIRPORT : Z := 2.
Definition STATIONNAMING_OILRIG : Z := 3.
Definition STATIONNAMING_DOCK : Z := 4.
Definition STATIONNAMING_HELIPORT : Z := 5.

Section DefaultNames.

(** The default station names of the string table. *)
Variable STR_SV_STNAME : StringID.
Variable STR_SV_STNAME_FALLBACK : StringID.
Variable STR_SV_STNAME_AIRPORT : StringID.
Variable STR_SV_STNAME_OILFIELD : StringID.
Variable STR_SV_STNAME_DOCKS : StringID.
Variable STR_SV_STNAME_HELIPORT : StringID.
Variable STR_SV_STNAME_MINES : StringID.
Variable STR_SV_STNAME_CENTRAL : StringID.
Variable STR_SV_STNAME_LAKESIDE : StringID.
Variable STR_SV_STNAME_WOODS : StringID.
Variable STR_SV_STNAME_FOREST : StringID.
Variable STR_SV_STNAME_VALLEY : StringID.
Variable STR_SV_STNAME_HEIGHTS : StringID.
Variable STR_SV_STNAME_NORTH : StringID.
Variable STR_SV_STNAME_SOUTH : StringID.
Variable STR_SV_STNAME_EAST : StringID.
Variable STR_SV_STNAME_WEST : StringID.
Variable STR_SV_STNAME_TRANSFER : StringID.
Variable STR_SV_STNAME_HALT : StringID.
Variable STR_SV_STNAME_EXCHANGE : StringID.
Variable STR_SV_STNAME_ANNEXE : StringID.
Variable STR_SV_STNAME_SIDINGS : StringID.
Variable STR_SV_STNAME_BRANCH : StringID.
Variable STR_SV_STNAME_UPPER : StringID.
Variable STR_SV_STNAME_LOWER : StringID.

(** The map and the town, as the cascade reads them. *)
Variable INVALID_TILE : TileIndex.
Variable TileAddWrap : TileIndex -> Z -> Z -> TileIndex.
Variable CMSAMine : TileIndex -> bool.
Variable CMSAWater : TileIndex -> bool.
Variable CMSATree : TileIndex -> bool.
Variable IsTileForestIndustry : TileIndex -> bool.
Variable DistanceMax : TileIndex -> TileIndex -> Z.
Variable DistanceFromEdge : TileIndex -> Z.
Variable GetTileZ : TileIndex -> Z.
Variable TileX : TileIndex -> Z.
Variable TileY : TileIndex -> Z.
Variable town_xy : Z -> TileIndex.                 (* st->town->xy *)
Variable landscape_is_tropic : bool.

(** [for (int d = -3; d <= 3; d++)] *)
Definition offsets : list Z := [-3; -2; -1; 0; 1; 2; 3].

(** CountMapSquareAround *)
Definition CountMapSquareAround (tile : TileIndex) (cmp : TileIndex -> bool) : Z :=
  fold_left
    (fun num dx =>
       fold_left
         (fun num dy =>
            let t := TileAddWrap tile dx dy in
            if negb (t =? INVALID_TILE) && cmp t then num + 1 else num)
         offsets num)
    offsets 0.

(** The name that the [switch (name_class)] tries. *)
Definition class_name (name_class : Z) : option StringID :=
  if name_class =? STATIONNAMING_AIRPORT then Some STR_SV_STNAME_AIRPORT
  else if name_class =? STATIONNAMING_OILRIG then Some STR_SV_STNAME_OILFIELD
  else if name_class =? STATIONNAMING_DOCK then Some STR_SV_STNAME_DOCKS
  else if name_class =? STATIONNAMING_HELIPORT then Some STR_SV_STNAME_HELIPORT
  else None.

Definition fallback_names : list StringID :=
  [STR_SV_STNAME_NORTH; STR_SV_STNAME_SOUTH; STR_SV_STNAME_EAST;
   STR_SV_STNAME_WEST; STR_SV_STNAME_TRANSFER; STR_SV_STNAME_HALT;
   STR_SV_STNAME_EXCHANGE; STR_SV_STNAME_ANNEXE; STR_SV_STNAME_SIDINGS;
   STR_SV_STNAME_BRANCH; STR_SV_STNAME_UPPER; STR_SV_STNAME_LOWER].

(** [for (auto str : fallback_names) if (sni.IsAvailable(str)) return str;
     return STR_SV_STNAME_FALLBACK;] *)
Fixpoint first_available (sni : StationNameInformation) (names : list StringID)
    : StringID :=
  match names with
  | [] => STR_SV_STNAME_FALLBACK
  | str :: rest =>
      if IsAvailable STR_SV_STNAME sni str then str else first_available sni rest
  end.

(** "check direction compared to town" *)
Definition mark_directions (sni : StationNameInformation) (tile xy : TileIndex)
    : StationNameInformation :=
  let SetUsed := SetUsed STR_SV_STNAME in
  let sni := if TileX tile <? TileX xy
             then SetUsed (SetUsed sni STR_SV_STNAME_SOUTH) STR_SV_STNAME_WEST
             else SetUsed (SetUsed sni STR_SV_STNAME_NORTH) STR_SV_STNAME_EAST in
  if TileY tile <? TileY xy
  then SetUsed (SetUsed sni STR_SV_STNAME_SOUTH) STR_SV_STNAME_EAST
  else SetUsed (SetUsed sni STR_SV_STNAME_NORTH) STR_SV_STNAME_WEST.

(** The part of GenerateStationName after the loop over the spiral, from
    "check default names" to the end. *)
Definition DefaultNames (sni : StationNameInformation) (st : Station)
    (tile : TileIndex) (name_class : Z) : StringID :=
  let IsAvailable := IsAvailable STR_SV_STNAME sni in
  let xy := town_xy (town st) in
  (* check default names *)
  let by_class :=
    match class_name name_class with
    | Some str => if IsAvailable str then Some str else None
    | None => None
    end in
  match by_class with
  | Some str => str
  | None =>
  (* check mine? *)
  if IsAvailable STR_SV_STNAME_MINES && (2 <=? CountMapSquareAround tile CMSAMine)
  then STR_SV_STNAME_MINES
  (* check close enough to town to get central as name? *)
  else if (DistanceMax tile xy <? 8) && IsAvailable STR_SV_STNAME
  then STR_SV_STNAME
  else if (DistanceMax tile xy <? 8) && IsAvailable STR_SV_STNAME_CENTRAL
  then STR_SV_STNAME_CENTRAL
  (* Check lakeside *)
  else if IsAvailable STR_SV_STNAME_LAKESIDE && (DistanceFromEdge tile <? 20)
          && (5 <=? CountMapSquareAround tile CMSAWater)
  then STR_SV_STNAME_LAKESIDE
  (* Check woods *)
  else if IsAvailable STR_SV_STNAME_WOODS
          && ((8 <=? CountMapSquareAround tile CMSATree)
              || (2 <=? CountMapSquareAround tile IsTileForestIndustry))
  then (if landscape_is_tropic then STR_SV_STNAME_FOREST else STR_SV_STNAME_WOODS)
  (* check elevation compared to town *)
  else if (GetTileZ tile <? GetTileZ xy) && IsAvailable STR_SV_STNAME_VALLEY
  then STR_SV_STNAME_VALLEY
  else if (GetTileZ xy <? GetTileZ tile) && IsAvailable STR_SV_STNAME_HEIGHTS
  then STR_SV_STNAME_HEIGHTS
  else first_available (mark_directions sni tile xy) fallback_names
  end.

(** All default names that the function can return or mark. *)
Definition default_names : list StringID :=
  [STR_SV_STNAME; STR_SV_STNAME_AIRPORT; STR_SV_STNAME_OILFIELD;
   STR_SV_STNAME_DOCKS; STR_SV_STNAME_HELIPORT; STR_SV_STNAME_MINES;
   STR_SV_STNAME_CENTRAL; STR_SV_STNAME_LAKESIDE; STR_SV_STNAME_WOODS;
   STR_SV_STNAME_FOREST; STR_SV_STNAME_VALLEY; STR_SV_STNAME_HEIGHTS]
  ++ fallback_names.

(** The string table gives the default names different IDs from
    STR_SV_STNAME up to, not including, STR_SV_STNAME_FALLBACK. *)
Definition string_table_ok : Prop :=
  NoDup default_names /\
  Forall (fun str => STR_SV_STNAME <= str < STR_SV_STNAME_FALLBACK) default_names.

End DefaultNames.

End NameCascade.


(** ** The price of a footprint *)

Module FootprintCost.

Section Cost.

Variable SLOPE_FLAT : Buildable.Slope.
Variable GetTileSlopeZ : TileIndex -> Buildable.Slope * Z.
Variable PR_BUILD_FOUNDATION : Z.
Variable LandscapeClear : TileIndex -> CommandCost.

(** What CheckBuildableTile charges for a tile: a foundation unless the
    tile is flat. *)
Definition foundation_cost (tile : TileIndex) : Z :=
  let '(tileh, _) := GetTileSlopeZ tile in
  if negb (tileh =? SLOPE_FLAT) then PR_BUILD_FOUNDATION else 0.

(** The foundations and the clearing of all tiles. *)
Definition footprint_cost (tiles : list TileIndex) : Z :=
  fold_right
    (fun tile acc => foundation_cost tile + GetCost (LandscapeClear tile) + acc)
    0 tiles.

End Cost.

End FootprintCost.


(** ** The tiles a rail removal takes *)

Module RailRemovalCount.

Section Count.

Variable World : Type.
Variable HasStationTileRail : World -> TileIndex -> bool.
Variable EnsureNoVehicleOnGround : World -> TileIndex -> CommandCost.
Variable GetByTile : World -> TileIndex -> option StationID.
Variable station_owner : World -> StationID -> Z.
Variable CheckOwnership : Z -> CommandCost.
Variable IsStationTileBlocked : World -> TileIndex -> bool.
Variable current_company : Z.
Variable OWNER_WATER : Z.

(** The tiles of the area that pass the checks of the loop. *)
Definition removable (w0 : World) (tiles : list TileIndex) : list TileIndex :=
  List.filter
    (RailRemoval.passes_checks World HasStationTileRail EnsureNoVehicleOnGround
       GetByTile station_owner CheckOwnership current_company OWNER_WATER w0)
    tiles.

(** Those of them for which the steel of the track is not refunded. *)
Definition unrefunded (keep_rail : bool) (w0 : World) (tiles : list TileIndex)
    : list TileIndex :=
  List.filter (fun tile => keep_rail || IsStationTileBlocked w0 tile)
    (removable w0 tiles).

End Count.

End RailRemovalCount.


(** ** Airport noise *)

Module Noise.

Section GetAirportNoiseLevelForDistance.

Variable town_council_tolerance : Z.   (* _settings_game.difficulty.town_council_tolerance *)

(** GetAirportNoiseLevelForDistance; [noise_level] is [as->noise_level], a
    byte, and the result is a byte. *)
Definition GetAirportNoiseLevelForDistance (noise_level distance : Z) : Z :=
  if noise_level <? 2 then noise_level else
  let town_tolerance_distance := u8 (8 + town_council_tolerance * 4) in
  let noise_reduction := distance / town_tolerance_distance in
  if noise_level <=? noise_reduction then 1
  else u8 (noise_level - noise_reduction).

End GetAirportNoiseLevelForDistance.

End Noise.

(** ** The closest deleted station *)

Module Deleted.

(** Modelled from the spec: the members of Station that the search reads
    (station_base.h is not among the sources): "unique ID", "owning
    company", the sign location, and whether any facility is left. *)
Record Station := mkStation {
  index : StationID;
  owner : Z;
  IsInUse : bool;
  xy : TileIndex
}.

Section GetClosestDeletedStation.

Variable current_company : Z.
Variable DistanceManhattan : TileIndex -> TileIndex -> Z.
(** The stations that ForAllStationsRadius hands to the callback, in the
    order of the search. *)
Variable ForAllStationsRadius : TileIndex -> Z -> list Station.

(** The callback; [threshold] and [best_station] are captured by
    reference. *)
Definition visit (tile : TileIndex) (acc : Z * option Station) (st : Station)
    : Z * option Station :=
  let '(threshold, best_station) := acc in
  if negb (IsInUse st) && (owner st =? current_company) then
    let cur_dist := DistanceManhattan tile (xy st) in
    if cur_dist <? threshold then (cur_dist, Some st)
    else
      match best_station with
      | Some best =>
          if cur_dist =? threshold then
            (* In case of a tie, lowest station ID wins *)
            if index st <? index best then (threshold, Some st) else acc
          else acc
      | None => acc
      end
  else acc.

Definition GetClosestDeletedStation (tile : TileIndex) : option Station :=
  snd (fold_left (visit tile) (ForAllStationsRadius tile 8) (8, None)).

(** A station the search is after: not in use, of the current company,
    less than 8 tiles away. *)
Definition candidate (tile : TileIndex) (st : Station) : bool :=
  negb (IsInUse st) && (owner st =? current_company)
  && (DistanceManhattan tile (xy st) <? 8).

(** [st] is at least as good as [st']: closer, or as close and of no
    higher ID. *)
Definition preferred (tile : TileIndex) (st st' : Station) : Prop :=
  DistanceManhattan tile (xy st) < DistanceManhattan tile (xy st') \/
  (DistanceManhattan tile (xy st) = DistanceManhattan tile (xy st') /\
   index st <= index st').

End GetClosestDeletedStation.

End Deleted.


(** ** Cargo arriving at stations *)

Module Waiting.

(** Modelled from the spec: the members of GoodsEntry (station_base.h is
    not among the sources) that the delivery of cargo reads and writes,
    the "per-station, per-cargo-type state" with its rating, link graph
    and node; the waiting cargo itself is kept by [Append] below. *)
Record GoodsEntry := mkGoodsEntry {
  rating : Z;                         (* uint8_t *)
  amount_fract : Z;                   (* uint8_t: fractional part of the amount *)
  status_Rating : bool;               (* HasRating() *)
  HasVehicleEverTriedLoading : bool;
  link_graph : Z;
  node : Z
}.

(** The station, for the cargo type at hand. *)
Record Station := mkStation {
  index : StationID;
  owner : Z;
  exclusive_counter : Z;              (* st->town->exclusive_counter *)
  exclusivity : Z;                    (* st->town->exclusivity *)
  only_truck_stop : bool;             (* st->facilities == StationFacility::TruckStop *)
  only_bus_stop : bool;               (* st->facilities == StationFacility::BusStop *)
  goods : GoodsEntry                  (* st->goods[cargo] *)
}.

Definition set_goods (st : Station) (ge : GoodsEntry) : Station :=
  mkStation (index st) (owner st) (exclusive_counter st) (exclusivity st)
    (only_truck_stop st) (only_bus_stop st) ge.

Definition set_amount_fract (ge : GoodsEntry) (fract : Z) : GoodsEntry :=
  mkGoodsEntry (rating ge) fract (status_Rating ge)
    (HasVehicleEverTriedLoading ge) (link_graph ge) (node ge).

Definition set_link_graph (ge : GoodsEntry) (lg nd : Z) : GoodsEntry :=
  mkGoodsEntry (rating ge) (amount_fract ge) (status_Rating ge)
    (HasVehicleEverTriedLoading ge) lg nd.

Definition set_Rating (ge : GoodsEntry) : GoodsEntry :=
  mkGoodsEntry (rating ge) (amount_fract ge) true
    (HasVehicleEverTriedLoading ge) (link_graph ge) (node ge).

Section MoveGoodsToStation.

(** What lies outside of station_cmd.cpp: the pools of cargo packets and
    link graphs, the cargo lists and flows of the stations, the link graph
    schedule and the random generator. *)
Variable World : Type.
Variable CargoPacket_CanAllocateItem : World -> bool.
(** GoodsEntry::GetVia(st->index), a random choice among the flows. *)
Variable GetVia : World -> Station -> StationID * World.
(** [cargo.Append(new CargoPacket(st->index, amount, source), next)] *)
Variable Append : World -> Station -> Z -> StationID -> World.
Variable LinkGraphID_Invalid : Z.
Variable LinkGraph_CanAllocateItem : World -> bool.
(** [new LinkGraph(cargo)], queued in the schedule: its index. *)
Variable new_LinkGraph : World -> Z * World.
Variable AddNode : World -> Z -> Station -> Z * World.
Variable UpdateSupply : World -> Z -> Z -> Z -> World.
Variable OWNER_NONE : Z.
Variable INVALID_OWNER : Z.
Variable selectgoods : bool.                 (* _settings_game.order.selectgoods *)
Variable IsPassengerCargo : bool.            (* IsCargoInClass(cargo, CargoClass::Passengers) *)

(** UpdateStationWaiting.  The window and animation triggers at its end
    touch nothing of this model. *)
Definition UpdateStationWaiting (w : World) (st : Station) (amount : Z)
    : World * Station * Z :=
  (* We can't allocate a CargoPacket? Then don't do anything at all. *)
  if negb (CargoPacket_CanAllocateItem w) then (w, st, 0) else
  let ge := goods st in
  let amount := u32 (amount + amount_fract ge) in
  let ge := set_amount_fract ge (GB amount 0 8) in
  let amount := Z.shiftr amount 8 in
  (* No new "real" cargo item yet. *)
  if amount =? 0 then (w, set_goods st ge, 0) else
  let '(next, w) := GetVia w (set_goods st ge) in
  let w := Append w (set_goods st ge) amount next in
  let '(w, ge, lg) :=
    if link_graph ge =? LinkGraphID_Invalid then
      if LinkGraph_CanAllocateItem w then
        let '(lg, w) := new_LinkGraph w in
        let '(nd, w) := AddNode w lg (set_goods st ge) in
        (w, set_link_graph ge lg nd, Some lg)
      else (w, ge, None)
    else (w, ge, Some (link_graph ge)) in
  let w :=
    match lg with
    | Some lg => UpdateSupply w lg (node ge) amount
    | None => w
    end in
  (w, set_goods st (set_Rating ge), amount).

(** CanMoveGoodsToStation *)
Definition CanMoveGoodsToStation (st : Station) : bool :=
  (* Is the station reserved exclusively for somebody else? *)
  if negb (owner st =? OWNER_NONE) && (0 <? exclusive_counter st)
     && negb (exclusivity st =? owner st) then false
  (* Lowest possible rating, better not to give cargo anymore. *)
  else if rating (goods st) =? 0 then false
  (* Selectively servicing stations, and not this one. *)
  else if selectgoods && negb (HasVehicleEverTriedLoading (goods st)) then false
  else if IsPassengerCargo then negb (only_truck_stop st)
  else negb (only_bus_stop st).

(** An array indexed by Owner after [a[o] = v]. *)
Definition set_at (a : Z -> Z) (o v : Z) : Z -> Z :=
  fun o' => if o' =? o then v else a o'.

(** What the first loop over used_stations computes: the best rating and
    the sum of the ratings of every company, the best rating of all and
    the sum of the best ratings of the companies. *)
Record Ratings := mkRatings {
  company_best : Z -> Z;
  company_sum : Z -> Z;
  best_rating : Z;
  best_sum : Z
}.

Definition rate_step (r : Ratings) (st : Station) : Ratings :=
  let o := owner st in
  let rating := rating (goods st) in
  let r1 :=
    if company_best r o <? rating then
      mkRatings (set_at (company_best r) o rating) (company_sum r)
        (if best_rating r <? rating then rating else best_rating r)
        (u32 (best_sum r + u32 (rating - company_best r o)))
    else r in
  mkRatings (company_best r1)
    (set_at (company_sum r1) o (u32 (company_sum r1 o + rating)))
    (best_rating r1) (best_sum r1).

Definition rate (used_stations : list Station) : Ratings :=
  fold_left rate_step used_stations
    (mkRatings (fun _ => 0) (fun _ => 0) 0 0).

(** The cargo of one station, in the unsigned arithmetic of the code. *)
Definition station_share (r : Ratings) (amount : Z) (st : Station) : Z :=
  u32 (u32 (amount * company_best r (owner st)) * rating (goods st))
  / best_sum r / company_sum r (owner st).

(** std::stable_sort by falling rating, as an insertion sort: stations of
    equal rating keep their order. *)
Fixpoint insert_by_rating (p : Station * Z) (l : list (Station * Z))
    : list (Station * Z) :=
  match l with
  | [] => [p]
  | q :: l' =>
      if rating (goods (fst p)) <? rating (goods (fst q))
      then q :: insert_by_rating p l' else p :: l
  end.

Definition stable_sort (l : list (Station * Z)) : list (Station * Z) :=
  fold_right insert_by_rating [] l.

(** [for (uint i = 0; i < n; i++) used_stations[i].second++;] with an
    index past the end as [None]. *)
Fixpoint add_leftover (n : nat) (l : list (Station * Z))
    : option (list (Station * Z)) :=
  match n, l with
  | O, _ => Some l
  | S n', (st, a) :: l' =>
      match add_leftover n' l' with
      | Some l'' => Some ((st, u32 (a + 1)) :: l'')
      | None => None
      end
  | S _, [] => None
  end.

(** The amount with its fractional part and used_stations as they are
    before the calls of UpdateStationWaiting; [None] is the failed
    assertion. *)
Definition distribute (used_stations : list Station) (amount : Z)
    : option (Z * list (Station * Z)) :=
  let r := rate used_stations in
  (* From now we'll calculate with fractional cargo amounts. *)
  let amount := u32 (amount * (best_rating r + 1)) in
  let shares := List.map (fun st => (st, station_share r amount st)) used_stations in
  let moving := fold_left (fun m p => u32 (m + snd p)) shares 0 in
  if moving <? amount then
    let sorted := stable_sort shares in
    if u32 (amount - moving) <=? Z.of_nat (length sorted) then
      match add_leftover (Z.to_nat (u32 (amount - moving))) sorted with
      | Some l => Some (amount, l)
      | None => None
      end
    else None
  else Some (amount, shares).

(** The stations of [all_stations] that take the cargo. *)
Definition takers (exclusivity : Z) (all_stations : list Station) : list Station :=
  List.filter
    (fun st =>
       negb (negb (exclusivity =? INVALID_OWNER) && negb (exclusivity =? owner st))
       && CanMoveGoodsToStation st)
    all_stations.

(** The last loop: the stations after their calls of UpdateStationWaiting
    and the sum of what the calls return. *)
Fixpoint deliver (w : World) (l : list (Station * Z)) (moved : Z)
    : World * list Station * Z :=
  match l with
  | [] => (w, [], moved)
  | (st, a) :: l' =>
      let '(w1, st1, m) := UpdateStationWaiting w st a in
      let '(w2, sts, moved') := deliver w1 l' (u32 (moved + m)) in
      (w2, st1 :: sts, moved')
  end.

(** MoveGoodsToStation.  [all_stations] is a StationList, a set, so every
    station is in it once.  The result: the stations that took cargo as
    they are afterwards, and the amount moved. *)
Definition MoveGoodsToStation (w : World) (amount : Z)
    (all_stations : list Station) (exclusivity : Z)
    : option (World * list Station * Z) :=
  (* Return if nothing to do. Also the rounding below fails for 0. *)
  match all_stations with [] => Some (w, [], 0) | _ :: _ =>
  if amount =? 0 then Some (w, [], 0) else
  match takers exclusivity all_stations with
  | [] => Some (w, [], 0)           (* no stations around at all? *)
  | [first_station] =>
      (* only one station around *)
      let amount := u32 (amount * (rating (goods first_station) + 1)) in
      let '(w1, st1, moved) := UpdateStationWaiting w first_station amount in
      Some (w1, [st1], moved)
  | used_stations =>
      match distribute used_stations amount with
      | Some (_, l) => Some (deliver w l 0)
      | None => None
      end
  end
  end.

End MoveGoodsToStation.

(** [f] added up over a list. *)
Definition sum_of {A : Type} (f : A -> Z) (l : list A) : Z :=
  fold_right (fun x acc => f x + acc) 0 l.

(** The amounts that a distribution hands out, added up. *)
Definition handed_out (l : list (Station * Z)) : Z := sum_of snd l.

(** The fractional parts that the stations keep, added up. *)
Definition fractions (l : list Station) : Z :=
  sum_of (fun st => amount_fract (goods st)) l.

(** The best rating among the stations. *)
Definition best_of (l : list Station) : Z :=
  fold_right (fun st acc => Z.max (rating (goods st)) acc) 0 l.

(** The stations of one company. *)
Definition of_owner (o : Z) (l : list Station) : list Station :=
  List.filter (fun st => owner st =? o) l.

(** The members of GoodsEntry are bytes. *)
Definition bytes_ok (st : Station) : Prop :=
  0 <= rating (goods st) <= 255 /\ 0 <= amount_fract (goods st) <= 255.

(** What the first loop of MoveGoodsToStation has computed after the
    stations [seen], for the companies [os]. *)
Definition rate_inv (os : list Z) (seen : list Station) (r : Ratings) : Prop :=
  (forall o, company_sum r o
             = sum_of (fun st => rating (goods st)) (of_owner o seen)) /\
  (forall o, 0 <= company_sum r o <= 255 * Z.of_nat (length seen)) /\
  (forall o, 0 <= company_best r o <= best_rating r) /\
  (forall o, of_owner o seen = [] -> company_best r o = 0) /\
  (forall st, In st seen -> rating (goods st) <= company_best r (owner st)) /\
  best_rating r = best_of seen /\
  best_sum r = sum_of (company_best r) os /\
  0 <= best_sum r <= 255 * Z.of_nat (length seen).

(** A station that takes cargo has a rating of 1 to 255. *)
Definition rated (st : Station) : Prop := 1 <= rating (goods st) <= 255.

End Waiting.


(** ** More sample inputs *)

(** The flows of two origins: origin 5 sends via stations 1, 2 and 3,
    origin 6 only via station 2. *)
Definition sample_flows : FlowStatMaps.FlowStatMap :=
  [(5, three_shares); (6, FlowStats.mkFlowStat [(4, 2)] 4)].


(** A cargo without rating, at rating 100. *)
Definition unrated_goods : Rating.GoodsEntry :=
  Rating.mkGoodsEntry false 100 10 120 1 50 None.

Definition unrated_station : Rating.Station :=
  Rating.mkStation 3 4 0 false [unrated_goods].

(** A rated cargo with 40000 units waiting. *)
Definition crowded_goods : Rating.GoodsEntry :=
  Rating.mkGoodsEntry true 100 10 120 1 50 (Some (Rating.mkCargoData 40000 1)).

Definition crowded_station : Rating.Station :=
  Rating.mkStation 3 4 0 false [crowded_goods].

Definition sample_UpdateStationRating :=
  Rating.UpdateStationRating 175 255 2 255 65535 false false Z
    (fun r => (r, r + 1)) (fun _ => true) (fun _ _ _ => 65535)
    (fun _ _ _ => 0) [Rating.mkCargoSpec 0 false].

(** A map 8 tiles wide; the stations are their IDs, 0 to 9 are in the
    pool and belong to company 1; tile 9 is a tile of station 4. *)
Definition sample_FindJoiningBaseStation :=
  Joining.FindJoiningBaseStation Z (fun s => (0 <=? s) && (s <? 10))
    (fun s => s) (fun s => if (0 <=? s) && (s <? 10) then Some s else None)
    (fun _ => 1) 65535 (fun t => t =? 9) (fun _ => 4) (fun ta _ => ta)
    (fun ta => [tile ta; tile ta + 1]) CMD_ERROR 1.

(** A map 64 tiles wide without mines, water, trees or industries, flat,
    with town 1 at tile 10; the default names are the strings 100 to
    123, the fallback is 130. *)
Definition sample_DefaultNames :=
  NameCascade.DefaultNames 100 130 101 102 103 104 105 106 107 108 109 110 111
    112 113 114 115 116 117 118 119 120 121 122 123
    (-1) (fun t dx dy => t + dx + 64 * dy)
    (fun _ => false) (fun _ => false) (fun _ => false) (fun _ => false)
    (fun a b => Z.abs (a - b)) (fun _ => 30) (fun _ => 0)
    (fun t => t mod 64) (fun t => t / 64) (fun _ => 10) false.

Definition sample_default_GenerateStationName :=
  Naming.GenerateStationName 100 130 102 105 109 108 65535 0 255 8
    (fun _ => Naming.mkIndustrySpec false 65535)
    (fun _ => false) (fun _ => 0) (fun t _ => [t]) sample_DefaultNames.

(** The same map with mines all around and, at tile 42 of the spiral, an
    industry of type 3 whose station name is STR_NULL. *)
Definition mining_DefaultNames :=
  NameCascade.DefaultNames 100 130 101 102 103 104 105 106 107 108 109 110 111
    112 113 114 115 116 117 118 119 120 121 122 123
    (-1) (fun t dx dy => t + dx + 64 * dy)
    (fun _ => true) (fun _ => false) (fun _ => false) (fun _ => false)
    (fun a b => Z.abs (a - b)) (fun _ => 30) (fun _ => 0)
    (fun t => t mod 64) (fun t => t / 64) (fun _ => 10) false.

Definition sample_mining_GenerateStationName :=
  Naming.GenerateStationName 100 130 102 105 109 108 65535 0 255 8
    (fun it => Naming.mkIndustrySpec true (if it =? 3 then 0 else 65535))
    (fun t => t =? 42) (fun _ => 3) (fun t _ => [t; 42]) mining_DefaultNames.

(** The station of town 1 that has the name of the town. *)
Definition central_station : Naming.Station := Naming.mkStation 2 1 255 100.

(** Two deleted stations of company 1, both one tile from tile 4. *)
Definition deleted_stations : list Deleted.Station :=
  [Deleted.mkStation 2 1 false 5; Deleted.mkStation 1 1 false 3].

(** Cargo packets and link graphs can be allocated; all cargo goes via
    station 7. *)
Definition sample_UpdateStationWaiting :=
  Waiting.UpdateStationWaiting unit (fun _ => true) (fun w _ => (7, w))
    (fun w _ _ _ => w) 65535 (fun _ => true) (fun w => (0, w))
    (fun w _ _ => (0, w)) (fun w _ _ _ => w).

Definition sample_MoveGoodsToStation :=
  Waiting.MoveGoodsToStation unit (fun _ => true) (fun w _ => (7, w))
    (fun w _ _ _ => w) 65535 (fun _ => true) (fun w => (0, w))
    (fun w _ _ => (0, w)) (fun w _ _ _ => w) 16 255 false true.

Definition sample_takers := Waiting.takers 16 255 false true.

(** Two stations of company 2 with the ratings 100 and 200 and the
    fractions 100 and 7. *)
Definition station_a : Waiting.Station :=
  Waiting.mkStation 1 2 0 0 false false
    (Waiting.mkGoodsEntry 100 100 false true 65535 0).

Definition station_b : Waiting.Station :=
  Waiting.mkStation 3 2 0 0 false false
    (Waiting.mkGoodsEntry 200 7 true true 65535 0).

(* ================================================================== *)
(** * Part II: properties *)

(** ** Arithmetic helpers *)

Lemma u32_small x : 0 <= x < 2 ^ 32 -> u32 x = x.
Proof. intros H. unfold u32. now apply Z.mod_small. Qed.

Lemma u32_range x : 0 <= u32 x < 2 ^ 32.
Proof. unfold u32. apply Z.mod_pos_bound. lia. Qed.

(** ** FlowStat: the sorted map *)

Section SharesMapFacts.
Import FlowStats.

Lemma SharesMap_ok_weaken lo lo' m :
  lo' <= lo -> SharesMap_ok lo m -> SharesMap_ok lo' m.
Proof.
  intros Hle Hok. destruct Hok; constructor; auto; lia.
Qed.

Lemma SharesMap_ok_In lo m k v :
  SharesMap_ok lo m -> In (k, v) m -> lo < k < 2 ^ 32.
Proof.
  intros Hok. induction Hok as [|lo k' v' m Hlo Hhi Hok IH]; simpl.
  - tauto.
  - intros [Heq|Hin].
    + inversion Heq; subst. lia.
    + specialize (IH Hin). lia.
Qed.

Lemma SharesMap_ok_nth lo m i k v :
  SharesMap_ok lo m -> nth_error m i = Some (k, v) -> lo < k < 2 ^ 32.
Proof.
  intros Hok Hn. eapply SharesMap_ok_In; eauto. eapply nth_error_In; eauto.
Qed.

(** Keys grow with the position. *)
Lemma SharesMap_ok_lt lo m i j ki vi kj vj :
  SharesMap_ok lo m -> (i < j)%nat ->
  nth_error m i = Some (ki, vi) -> nth_error m j = Some (kj, vj) -> ki < kj.
Proof.
  intros Hok. revert i j.
  induction Hok as [|lo k v m Hlo Hhi Hok IH]; intros i j Hij Hi Hj.
  - destruct i; discriminate.
  - destruct j as [|j]; [lia|]. simpl in Hj.
    destruct i as [|i]; simpl in Hi.
    + inversion Hi; subst. eapply SharesMap_ok_nth in Hj; eauto. lia.
    + apply (IH i j); [lia | exact Hi | exact Hj].
Qed.

Lemma begin_of_bounds m it e v :
  SharesMap_ok 0 m -> nth_error m it = Some (e, v) ->
  0 <= begin_of m it < e /\ e < 2 ^ 32.
Proof.
  intros Hok Hn. pose proof (SharesMap_ok_nth _ _ _ _ _ Hok Hn) as He.
  destruct it as [|j]; cbn [begin_of]; [lia|].
  destruct (nth_error m j) as [[k w]|] eqn:Hj; [|lia].
  pose proof (SharesMap_ok_nth _ _ _ _ _ Hok Hj).
  pose proof (SharesMap_ok_lt _ _ j (S j) _ _ _ _ Hok (Nat.lt_succ_diag_r j) Hj Hn).
  lia.
Qed.

(** Shares at different positions do not overlap. *)
Lemma share_order m i j e v e' v' :
  SharesMap_ok 0 m -> (i < j)%nat ->
  nth_error m i = Some (e, v) -> nth_error m j = Some (e', v') ->
  e <= begin_of m j.
Proof.
  intros Hok Hij Hi Hj. destruct j as [|j]; [lia|]. simpl.
  destruct (nth_error m j) as [[k w]|] eqn:Hk.
  - destruct (Nat.eq_dec i j) as [->|Hne].
    + rewrite Hi in Hk. inversion Hk; subst. lia.
    + pose proof (SharesMap_ok_lt _ _ i j _ _ _ _ Hok ltac:(lia) Hi Hk). lia.
  - exfalso. apply nth_error_None in Hk.
    assert (S j < length m)%nat by (apply nth_error_Some; congruence). lia.
Qed.

Lemma upper_bound_begin m x : 0 <= x -> begin_of m (upper_bound m x) <= x.
Proof.
  intros Hx. induction m as [|[k v] m IH]; simpl; [lia|].
  destruct (x <? k) eqn:Hlt; simpl; [lia|].
  apply Z.ltb_ge in Hlt.
  destruct (upper_bound m x) as [|j] eqn:Hub; simpl; [lia|].
  simpl in IH. exact IH.
Qed.

Lemma upper_bound_end lo m x U :
  SharesMap_ok lo m -> x < U -> In U (map fst m) ->
  exists e v, nth_error m (upper_bound m x) = Some (e, v) /\ x < e <= U.
Proof.
  intros Hok Hx. induction Hok as [|lo k v m Hlo Hhi Hok IH]; simpl; [tauto|].
  intros HU. destruct (x <? k) eqn:Hlt.
  - apply Z.ltb_lt in Hlt. exists k, v. split; [reflexivity|].
    destruct HU as [->|HU]; [lia|].
    apply in_map_iff in HU. destruct HU as [[k' v'] [Hfst Hin]]. simpl in Hfst. subst.
    pose proof (SharesMap_ok_In _ _ _ _ Hok Hin). lia.
  - apply Z.ltb_ge in Hlt. destruct HU as [->|HU]; [lia|].
    simpl. apply IH. exact HU.
Qed.

(** The share drawn by [upper_bound]: the one whose interval holds [x]. *)
Lemma upper_bound_pick m x U :
  SharesMap_ok 0 m -> 0 <= x < U -> In U (map fst m) ->
  exists e v, nth_error m (upper_bound m x) = Some (e, v) /\
              begin_of m (upper_bound m x) <= x < e /\ e <= U.
Proof.
  intros Hok Hx HU.
  destruct (upper_bound_end 0 m x U Hok (proj2 Hx) HU) as (e & v & Hn & He).
  exists e, v. split; [exact Hn|].
  pose proof (upper_bound_begin m x (proj1 Hx)). lia.
Qed.

Lemma destinations_inj m i j e v e' :
  NoDup (destinations m) ->
  nth_error m i = Some (e, v) -> nth_error m j = Some (e', v) -> i = j.
Proof.
  intros Hnd Hi Hj. unfold destinations in Hnd.
  rewrite NoDup_nth_error in Hnd. apply Hnd.
  - rewrite length_map. apply nth_error_Some. congruence.
  - rewrite !nth_error_map, Hi, Hj. reflexivity.
Qed.

End SharesMapFacts.

(** ** FlowStat::GetVia *)

Section GetViaFacts.
Import FlowStats.

Variable Randomizer : Type.
Variable RandomRange : Z -> Randomizer -> Z * Randomizer.
Variable Invalid : StationID.

(** RandomRange(limit) draws from [0, limit). *)
Hypothesis RandomRange_range :
  forall limit rng, 0 < limit -> 0 <= fst (RandomRange limit rng) < limit.

Lemma excluded_test v A B :
  negb (v =? A) && negb (v =? B) = false -> v = A \/ v = B.
Proof.
  intros H. apply andb_false_iff in H.
  destruct H as [H|H]; apply negb_false_iff, Z.eqb_eq in H; auto.
Qed.

Lemma not_excluded_test v A B :
  negb (v =? A) && negb (v =? B) = true -> v <> A /\ v <> B.
Proof.
  intros H. apply andb_true_iff in H. destruct H as [H1 H2].
  apply negb_true_iff, Z.eqb_neq in H1. apply negb_true_iff, Z.eqb_neq in H2. auto.
Qed.

(** Position of an entry of the map. *)
Lemma In_position (m : SharesMap) k d :
  In (k, d) m -> exists j, nth_error m j = Some (k, d).
Proof. apply In_nth_error. Qed.

(** Either an unrestricted share of a station that is not excluded is
    returned, or the invalid ID, and then only excluded stations have
    unrestricted shares. *)
Lemma GetVia_cases fs A B rng :
  FlowStat_wf fs -> 0 < unrestricted fs ->
  exists via, GetVia Randomizer RandomRange Invalid rng fs A B = Some via /\
    ((exists it e, nth_error (shares fs) it = Some (e, via) /\
                   e <= unrestricted fs /\ via <> A /\ via <> B) \/
     (via = Invalid /\
      forall k d, In (k, d) (shares fs) -> k <= unrestricted fs -> d = A \/ d = B)).
Proof.
  intros [Hok Hnd Hlim] HU.
  destruct Hlim as [Hlim|Hlim]; [lia|].
  set (m := shares fs) in *. set (U := unrestricted fs) in *.
  assert (Hne : forall X : option StationID,
             match m with [] => None | _ :: _ => X end = X).
  { intros X. destruct m; [destruct Hlim|reflexivity]. }
  assert (HU32 : U < 2 ^ 32).
  { apply in_map_iff in Hlim. destruct Hlim as [[k v] [Hk Hin]]. simpl in Hk. subst k.
    pose proof (SharesMap_ok_In _ _ _ _ Hok Hin). lia. }
  unfold GetVia. fold m U. cbv zeta.
  destruct (Z.eqb_spec U 0) as [|_]; [lia|]. rewrite Hne.
  (* first draw *)
  pose proof (RandomRange_range U rng HU) as Hr1.
  destruct (RandomRange U rng) as [r1 rng1]. cbn [fst] in Hr1.
  destruct (upper_bound_pick m r1 U Hok Hr1 Hlim) as (e1 & v1 & Hn1 & Hin1 & He1).
  set (it1 := upper_bound m r1) in *. rewrite Hn1.
  destruct (Z.ltb_spec U e1) as [|_]; [lia|].
  destruct (negb (v1 =? A) && negb (v1 =? B)) eqn:Hex1.
  { apply not_excluded_test in Hex1. exists v1. split; [reflexivity|].
    left. exists it1, e1. tauto. }
  apply excluded_test in Hex1.
  pose proof (begin_of_bounds m it1 e1 v1 Hok Hn1) as Hb1.
  set (b1 := begin_of m it1) in *.
  rewrite (u32_small (e1 - b1)) by lia.
  destruct (Z.leb_spec U (e1 - b1)) as [Hall|Hsome].
  { (* only one station among the unrestricted shares *)
    exists Invalid. split; [reflexivity|]. right. split; [reflexivity|].
    intros k d Hin Hk. destruct (In_position m k d Hin) as [j Hj].
    destruct (lt_eq_lt_dec j it1) as [[Hlt| ->]|Hlt].
    - pose proof (share_order m j it1 _ _ _ _ Hok Hlt Hj Hn1).
      pose proof (SharesMap_ok_nth _ _ _ _ _ Hok Hj). fold b1 in H. lia.
    - rewrite Hn1 in Hj. inversion Hj; subst. exact Hex1.
    - pose proof (share_order m it1 j _ _ _ _ Hok Hlt Hn1 Hj).
      pose proof (begin_of_bounds m j k d Hok Hj). lia. }
  rewrite (u32_small (U - (e1 - b1))) by lia.
  (* second draw *)
  pose proof (RandomRange_range (U - (e1 - b1)) rng1 ltac:(lia)) as Hr2.
  destruct (RandomRange (U - (e1 - b1)) rng1) as [r2 rng2]. cbn [fst] in Hr2.
  rewrite (u32_small (r2 + (e1 - b1))) by lia.
  set (x2 := if r2 <? b1 then r2 else r2 + (e1 - b1)).
  assert (Hx2 : 0 <= x2 < U /\ (x2 < b1 \/ e1 <= x2)).
  { unfold x2. destruct (Z.ltb_spec r2 b1); lia. }
  replace (if r2 <? b1 then upper_bound m r2 else upper_bound m (r2 + (e1 - b1)))
    with (upper_bound m x2) by (unfold x2; destruct (r2 <? b1); reflexivity).
  destruct (upper_bound_pick m x2 U Hok (proj1 Hx2) Hlim) as (e2 & v2 & Hn2 & Hin2 & He2).
  set (it2 := upper_bound m x2) in *. rewrite Hn2.
  destruct (Z.ltb_spec U e2) as [|_]; [lia|].
  destruct (negb (v2 =? A) && negb (v2 =? B)) eqn:Hex2.
  { apply not_excluded_test in Hex2. exists v2. split; [reflexivity|].
    left. exists it2, e2. tauto. }
  apply excluded_test in Hex2.
  pose proof (begin_of_bounds m it2 e2 v2 Hok Hn2) as Hb2.
  set (b2 := begin_of m it2) in *.
  assert (Hne12 : it1 <> it2).
  { intros Heq. unfold b2 in *. rewrite <- Heq in *. fold b1 in Hin2.
    rewrite Hn1 in Hn2. inversion Hn2; subst. lia. }
  assert (Hord12 : e1 <= b2 \/ e2 <= b1).
  { destruct (lt_eq_lt_dec it1 it2) as [[Hlt|Heq]|Hlt]; [left|contradiction|right].
    - exact (share_order m it1 it2 _ _ _ _ Hok Hlt Hn1 Hn2).
    - exact (share_order m it2 it1 _ _ _ _ Hok Hlt Hn2 Hn1). }
  assert (Hv12 : v1 <> v2).
  { intros Heq. subst v2. apply Hne12. eapply destinations_inj; eauto. }
  rewrite (u32_small (e2 - b2)) by lia.
  destruct (Z.leb_spec (U - (e1 - b1)) (e2 - b2)) as [Hall|Hsome2].
  { (* only the two excluded stations among the unrestricted shares *)
    exists Invalid. split; [reflexivity|]. right. split; [reflexivity|].
    intros k d Hin Hk. destruct (In_position m k d Hin) as [j Hj].
    destruct (Nat.eq_dec j it1) as [->|Hj1].
    { rewrite Hn1 in Hj. inversion Hj; subst. exact Hex1. }
    destruct (Nat.eq_dec j it2) as [->|Hj2].
    { rewrite Hn2 in Hj. inversion Hj; subst. exact Hex2. }
    exfalso.
    pose proof (begin_of_bounds m j k d Hok Hj) as Hbj.
    assert (k <= b1 \/ e1 <= begin_of m j).
    { destruct (lt_eq_lt_dec j it1) as [[Hlt|Heq]|Hlt]; [left|contradiction|right].
      - exact (share_order m j it1 _ _ _ _ Hok Hlt Hj Hn1).
      - exact (share_order m it1 j _ _ _ _ Hok Hlt Hn1 Hj). }
    assert (k <= b2 \/ e2 <= begin_of m j).
    { destruct (lt_eq_lt_dec j it2) as [[Hlt|Heq]|Hlt]; [left|contradiction|right].
      - exact (share_order m j it2 _ _ _ _ Hok Hlt Hj Hn2).
      - exact (share_order m it2 j _ _ _ _ Hok Hlt Hn2 Hj). }
    lia. }
  rewrite (u32_small (U - (e1 - b1) - (e2 - b2))) by lia.
  (* third draw, with the two excluded shares ordered by their begin *)
  assert (Hthird : forall ba ea bb eb,
    0 <= ba < ea -> ea <= bb -> bb < eb -> eb <= U ->
    (ea - ba) + (eb - bb) = (e1 - b1) + (e2 - b2) ->
    (forall x, (x < ba \/ ea <= x) -> (x < bb \/ eb <= x) ->
               (x < b1 \/ e1 <= x) /\ (x < b2 \/ e2 <= x)) ->
    exists via,
      (let '(rand, _) := RandomRange (U - (e1 - b1) - (e2 - b2)) rng2 in
       match nth_error m
               (if rand <? ba then upper_bound m rand
                else if rand <? u32 (bb - (ea - ba))
                     then upper_bound m (u32 (rand + (ea - ba)))
                     else upper_bound m (u32 (u32 (rand + (ea - ba)) + (eb - bb))))
       with
       | Some (end3, via3) => if U <? end3 then None else Some via3
       | None => None
       end) = Some via /\
      ((exists it e, nth_error m it = Some (e, via) /\ e <= U /\ via <> A /\ via <> B) \/
       (via = Invalid /\
        forall k d, In (k, d) m -> k <= U -> d = A \/ d = B))).
  { intros ba ea bb eb Ha Hab Hb HbU Hsum Hout.
    pose proof (RandomRange_range (U - (e1 - b1) - (e2 - b2)) rng2 ltac:(lia)) as Hr3.
    destruct (RandomRange (U - (e1 - b1) - (e2 - b2)) rng2) as [r3 rng3].
    cbn [fst] in Hr3.
    rewrite (u32_small (bb - (ea - ba))) by lia.
    rewrite (u32_small (r3 + (ea - ba))) by lia.
    rewrite (u32_small (r3 + (ea - ba) + (eb - bb))) by lia.
    set (x3 := if r3 <? ba then r3
               else if r3 <? bb - (ea - ba) then r3 + (ea - ba)
                    else r3 + (ea - ba) + (eb - bb)).
    assert (Hx3 : 0 <= x3 < U /\ (x3 < ba \/ ea <= x3) /\ (x3 < bb \/ eb <= x3)).
    { unfold x3. destruct (Z.ltb_spec r3 ba); [lia|].
      destruct (Z.ltb_spec r3 (bb - (ea - ba))); lia. }
    replace (if r3 <? ba then upper_bound m r3
             else if r3 <? bb - (ea - ba) then upper_bound m (r3 + (ea - ba))
                  else upper_bound m (r3 + (ea - ba) + (eb - bb)))
      with (upper_bound m x3)
      by (unfold x3; destruct (r3 <? ba); [|destruct (r3 <? bb - (ea - ba))]; reflexivity).
    destruct Hx3 as (Hx3 & Hxa & Hxb). destruct (Hout x3 Hxa Hxb) as [Hx31 Hx32].
    destruct (upper_bound_pick m x3 U Hok Hx3 Hlim) as (e3 & v3 & Hn3 & Hin3 & He3).
    set (it3 := upper_bound m x3) in *. rewrite Hn3.
    destruct (Z.ltb_spec U e3) as [|_]; [lia|].
    exists v3. split; [reflexivity|]. left. exists it3, e3.
    assert (Hne13 : it3 <> it1).
    { intros Heq. rewrite Heq in *. fold b1 in Hin3.
      rewrite Hn1 in Hn3. inversion Hn3; subst. lia. }
    assert (Hne23 : it3 <> it2).
    { intros Heq. rewrite Heq in *. fold b2 in Hin3.
      rewrite Hn2 in Hn3. inversion Hn3; subst. lia. }
    assert (v3 <> v1).
    { intros Heq. subst v3. apply Hne13. eapply destinations_inj; eauto. }
    assert (v3 <> v2).
    { intros Heq. subst v3. apply Hne23. eapply destinations_inj; eauto. }
    repeat split; [exact Hn3|exact He3| |]; intros ->;
      destruct Hex1 as [?|?], Hex2 as [?|?]; congruence. }
  destruct (Z.ltb_spec b2 b1) as [Hswap|Hkeep].
  - apply (Hthird b2 e2 b1 e1); try lia.
  - apply (Hthird b1 e1 b2 e2); try lia.
Qed.

(** C1. FlowStat::GetVia(A, B) on a well-formed FlowStat with unrestricted
    shares always returns; it never returns A or B when some unrestricted
    share goes to another destination, and it returns the invalid ID (which
    is not itself a destination of an unrestricted share) only if every
    unrestricted share goes to A or B. *)
Theorem GetVia_exclusion_safe fs A B rng :
  FlowStat_wf fs -> 0 < unrestricted fs ->
  exists via, GetVia Randomizer RandomRange Invalid rng fs A B = Some via /\
    ((exists k d, In (k, d) (shares fs) /\ k <= unrestricted fs /\ d <> A /\ d <> B) ->
       via <> A /\ via <> B) /\
    ((forall k, In (k, Invalid) (shares fs) -> unrestricted fs < k) ->
       via = Invalid ->
       forall k d, In (k, d) (shares fs) -> k <= unrestricted fs -> d = A \/ d = B).
Proof.
  intros Hwf HU.
  destruct (GetVia_cases fs A B rng Hwf HU) as (via & Hvia & Hcases).
  exists via. split; [exact Hvia|]. split.
  - intros (k & d & Hin & Hk & HdA & HdB).
    destruct Hcases as [(it & e & Hn & He & HA & HB)|[_ Hall]]; [auto|].
    destruct (Hall k d Hin Hk); contradiction.
  - intros Hinv Heq.
    destruct Hcases as [(it & e & Hn & He & HA & HB)|[_ Hall]]; [|exact Hall].
    subst via. apply nth_error_In in Hn. apply Hinv in Hn. lia.
Qed.

End GetViaFacts.


Lemma three_shares_wf : FlowStats.FlowStat_wf three_shares.
Proof.
  split; simpl.
  - repeat constructor; lia.
  - repeat constructor; simpl; intuition lia.
  - right. simpl. tauto.
Defined.

Lemma GetVia_exclusion_safe_witness :
  exists via,
    FlowStats.GetVia Z counter_RandomRange 65535 3 three_shares 1 2 = Some via /\
    ((exists k d, In (k, d) (FlowStats.shares three_shares) /\
                  k <= FlowStats.unrestricted three_shares /\ d <> 1 /\ d <> 2) ->
       via <> 1 /\ via <> 2) /\
    ((forall k, In (k, 65535) (FlowStats.shares three_shares) ->
                FlowStats.unrestricted three_shares < k) ->
       via = 65535 ->
       forall k d, In (k, d) (FlowStats.shares three_shares) ->
                   k <= FlowStats.unrestricted three_shares -> d = 1 \/ d = 2).
Proof.
  apply (GetVia_exclusion_safe Z counter_RandomRange 65535).
  - intros limit rng Hlimit. unfold counter_RandomRange. simpl.
    apply Z.mod_pos_bound. exact Hlimit.
  - exact three_shares_wf.
  - simpl. lia.
Defined.

(** ** FlowStat::ChangeShare *)

Section ChangeShareFacts.
Import FlowStats.

Lemma map_set_ok lo k v m :
  SharesMap_ok lo m -> lo < k < 2 ^ 32 -> SharesMap_ok lo (map_set k v m).
Proof.
  intros Hok. revert k v.
  induction Hok as [|lo k' v' m Hlo Hhi Hok IH]; intros k v Hk; simpl.
  - repeat constructor; lia.
  - destruct (Z.ltb_spec k k').
    + constructor; [lia|lia|]. constructor; [lia|lia|exact Hok].
    + destruct (Z.eqb_spec k k') as [->|Hne].
      * constructor; [lia|lia|exact Hok].
      * constructor; [lia|lia|]. apply IH. lia.
Qed.

Lemma map_set_destinations k v m d :
  In d (destinations (map_set k v m)) -> d = v \/ In d (destinations m).
Proof.
  unfold destinations. induction m as [|[k' v'] m IH]; simpl.
  - intros [H|[]]; auto.
  - destruct (k <? k'); [|destruct (k =? k')]; simpl; intros H.
    + destruct H as [H|[H|H]]; auto.
    + destruct H as [H|H]; auto.
    + destruct H as [H|H]; auto. destruct (IH H); auto.
Qed.

Lemma last_cons_default (k d : Z) (l : list Z) :
  List.last (k :: l) d = List.last l k.
Proof.
  revert k d. induction l as [|x l IH]; intros k d; [reflexivity|].
  change (List.last (k :: x :: l) d) with (List.last (x :: l) d).
  rewrite (IH x d), (IH x k). reflexivity.
Qed.

(** Telescoping: the share sizes after boundary [lo] add up to the last
    boundary minus [lo]. *)
Lemma share_sizes_from_sum lo m :
  SharesMap_ok lo m -> 0 <= lo ->
  fold_right Z.add 0 (share_sizes_from lo m) = List.last (map fst m) lo - lo.
Proof.
  intros Hok. induction Hok as [|lo k v m Hlo Hhi Hok IH]; intros Hge.
  - simpl. lia.
  - cbn [share_sizes_from fold_right map fst].
    rewrite last_cons_default, IH by lia.
    rewrite u32_small by lia. lia.
Qed.

Lemma sum_shares_final m :
  SharesMap_ok (-1) m -> sum_shares m = final_boundary m.
Proof.
  intros Hok. unfold sum_shares, share_sizes, final_boundary.
  inversion Hok as [|lo k v m' Hlo Hhi Hok']; subst; [reflexivity|].
  cbn [share_sizes_from fold_right map fst].
  rewrite last_cons_default, share_sizes_from_sum by (auto; lia).
  rewrite u32_small by lia. lia.
Qed.

Lemma ChangeShare_step_ok st s it :
  SharesMap_ok (-1) (cs_new_shares s) ->
  SharesMap_ok (-1) (cs_new_shares (ChangeShare_step st s it)).
Proof.
  intros Hok. destruct it as [k v]. unfold ChangeShare_step.
  repeat match goal with
         | |- context [if ?c then _ else _] => destruct c
         end; cbn [cs_new_shares]; auto;
    apply map_set_ok; auto; pose proof (u32_range (u32 (k + cs_added_shares s) - cs_removed_shares s));
    pose proof (u32_range (u32 (k + u32 (cs_added_shares s + u32 (cs_flow s))) - cs_removed_shares s));
    pose proof (u32_range (u32 (k + cs_added_shares s) - u32 (cs_removed_shares s + u32 (- cs_flow s))));
    lia.
Qed.

Lemma ChangeShare_loop_ok st m s :
  SharesMap_ok (-1) (cs_new_shares s) ->
  SharesMap_ok (-1) (cs_new_shares (ChangeShare_loop st m s)).
Proof.
  unfold ChangeShare_loop. revert s.
  induction m as [|it m IH]; intros s Hok; simpl; [exact Hok|].
  apply IH, ChangeShare_step_ok, Hok.
Qed.

(** Erasing with INT_MIN: the flow stays INT_MIN and [st] is never copied. *)
Lemma ChangeShare_loop_erase st m s :
  cs_flow s = INT_MIN -> ~ In st (destinations (cs_new_shares s)) ->
  cs_flow (ChangeShare_loop st m s) = INT_MIN /\
  ~ In st (destinations (cs_new_shares (ChangeShare_loop st m s))).
Proof.
  unfold ChangeShare_loop. revert s.
  induction m as [|[k v] m IH]; intros s Hflow Hnot; simpl; [auto|].
  apply IH.
  - unfold ChangeShare_step. rewrite Hflow.
    destruct (v =? st); reflexivity.
  - unfold ChangeShare_step. rewrite Hflow.
    destruct (Z.eqb_spec v st) as [Heq|Hne]; cbn [cs_new_shares].
    + exact Hnot.
    + intros Hin. apply map_set_destinations in Hin. destruct Hin; auto.
Qed.

Lemma ReleaseShare_total st fs :
  shares fs <> [] -> exists fs', ReleaseShare st fs = Some fs'.
Proof.
  intros Hne. unfold ReleaseShare. destruct (shares fs) eqn:Hs; [contradiction|].
  destruct (ReleaseShare_scan _ _ _ _ _); eauto.
  destruct (_ =? 0); eauto.
Qed.

Lemma ChangeShare_shares_ok st flow fs fs' :
  ChangeShare st flow fs = Some fs' -> SharesMap_ok (-1) (shares fs').
Proof.
  unfold ChangeShare. destruct (shares fs) as [|it m] eqn:Hs; [discriminate|].
  set (s := ChangeShare_loop st (it :: m) _).
  assert (Hok : SharesMap_ok (-1) (cs_new_shares s))
    by (apply ChangeShare_loop_ok; constructor).
  assert (Hok' : SharesMap_ok (-1)
            (map_set (u32 (cs_last_share s + u32 (cs_flow s))) st (cs_new_shares s))).
  { apply map_set_ok; [exact Hok|].
    pose proof (u32_range (cs_last_share s + u32 (cs_flow s))). lia. }
  destruct (0 <? cs_flow s).
  - destruct (cs_unrestricted s <? cs_last_share s).
    + destruct (ReleaseShare st _); [|discriminate].
      intros H; inversion H; subst; exact Hok'.
    + intros H; inversion H; subst; exact Hok'.
  - intros H; inversion H; subst; exact Hok.
Qed.

Lemma ChangeShare_total st flow fs :
  shares fs <> [] -> exists fs', ChangeShare st flow fs = Some fs'.
Proof.
  intros Hne. unfold ChangeShare. destruct (shares fs) as [|it m] eqn:Hs; [contradiction|].
  destruct (0 <? _); [|eauto].
  destruct (_ <? _); [|eauto].
  destruct (ReleaseShare_total st
              (mkFlowStat (it :: m)
                 (cs_unrestricted (ChangeShare_loop st (it :: m)
                                     (mkChange 0 0 0 flow (unrestricted fs) [])))))
    as [fs' Hfs']; [discriminate|].
  rewrite Hfs'. eauto.
Qed.

(** C2. In every FlowStat the share sizes (each boundary minus its
    predecessor) add up to the final boundary; this still holds after
    ChangeShare; and after ChangeShare(X, INT_MIN) station X has no share. *)
Theorem ChangeShare_conservation fs X flow :
  SharesMap_ok (-1) (shares fs) -> shares fs <> [] ->
  sum_shares (shares fs) = final_boundary (shares fs) /\
  (exists fs', ChangeShare X flow fs = Some fs' /\
               sum_shares (shares fs') = final_boundary (shares fs')) /\
  (exists fs', ChangeShare X INT_MIN fs = Some fs' /\
               ~ In X (destinations (shares fs'))).
Proof.
  intros Hok Hne. split; [apply sum_shares_final, Hok|]. split.
  - destruct (ChangeShare_total X flow fs Hne) as [fs' Hfs'].
    exists fs'. split; [exact Hfs'|].
    apply sum_shares_final. eapply ChangeShare_shares_ok; eauto.
  - unfold ChangeShare. destruct (shares fs) as [|it m] eqn:Hs; [contradiction|].
    destruct (ChangeShare_loop_erase X (it :: m)
                (mkChange 0 0 0 INT_MIN (unrestricted fs) []))
      as [Hflow Hnot]; [reflexivity|simpl; tauto|].
    rewrite Hflow. change (0 <? INT_MIN) with false. cbv iota.
    eexists. split; [reflexivity|exact Hnot].
Qed.

End ChangeShareFacts.

Lemma ChangeShare_conservation_witness :
  FlowStats.sum_shares (FlowStats.shares three_shares) =
    FlowStats.final_boundary (FlowStats.shares three_shares) /\
  (exists fs', FlowStats.ChangeShare 2 (-3) three_shares = Some fs' /\
               FlowStats.sum_shares (FlowStats.shares fs') =
                 FlowStats.final_boundary (FlowStats.shares fs')) /\
  (exists fs', FlowStats.ChangeShare 2 INT_MIN three_shares = Some fs' /\
               ~ In 2 (FlowStats.destinations (FlowStats.shares fs'))).
Proof.
  apply (ChangeShare_conservation three_shares 2 (-3)).
  - simpl. repeat constructor; lia.
  - simpl. discriminate.
Defined.

(** ** FlowStat::RestrictShare and ReleaseShare *)


(** C3 (evaluation of the code). RestrictShare writes the restricted share
    at [last_share + flow], which doubles it; ReleaseShare then moves a
    share of 20 to the front: the round trip is not the identity. *)
Theorem Restrict_then_Release_doubles :
  FlowStats.RestrictShare 1 only_D_unrestricted =
    Some (FlowStats.mkFlowStat [(10, 2); (20, 3); (40, 1)] 0) /\
  FlowStats.ReleaseShare 1 (FlowStats.mkFlowStat [(10, 2); (20, 3); (40, 1)] 0) =
    Some (FlowStats.mkFlowStat [(20, 1); (30, 2); (40, 3)] 20) /\
  FlowStats.Restrict_then_Release 1 only_D_unrestricted
    <> Some only_D_unrestricted /\
  FlowStats.GetShare only_D_unrestricted 1 = 10 /\
  FlowStats.GetShare (FlowStats.mkFlowStat [(20, 1); (30, 2); (40, 3)] 20) 1 = 20.
Proof.
  split; [reflexivity|]. split; [reflexivity|]. split; [|split; reflexivity].
  vm_compute. discriminate.
Qed.



(** The general shape of the defect: whenever D holds the only unrestricted
    share, RestrictShare leaves D with twice its share. *)
Section RestrictShareFacts.
Import FlowStats.

Lemma map_set_append m key v :
  Forall (fun e => fst e < key) m -> map_set key v m = m ++ [(key, v)].
Proof.
  induction m as [|[k' v'] m IH]; intros Hall; [reflexivity|].
  inversion Hall as [|? ? Hk Hall']; subst. cbn [fst] in Hk.
  cbn [map_set app]. destruct (Z.ltb_spec key k'); [lia|].
  destruct (Z.eqb_spec key k'); [lia|]. rewrite IH by exact Hall'. reflexivity.
Qed.

Lemma RestrictShare_loop_shift D flow unr rest :
  forall last new,
    0 < flow <= last -> SharesMap_ok last rest ->
    Forall (fun e => fst e <= last - flow) new ->
    RestrictShare_loop rest D (mkRestrict flow last unr new)
      = Some (mkRestrict flow (List.last (List.map fst rest) last) unr
                         (new ++ shift_down flow rest)).
Proof.
  induction rest as [|[k' v'] rest IH]; intros last new Hflow Hok Hnew.
  - cbn. rewrite app_nil_r. reflexivity.
  - inversion Hok as [|? ? ? ? Hlo Hhi Hok']; subst.
    cbn [RestrictShare_loop rs_flow rs_unrestricted rs_new_shares].
    destruct (Z.eqb_spec flow 0); [lia|].
    rewrite (u32_small (k' - flow)) by lia.
    rewrite map_set_append.
    2:{ eapply Forall_impl; [|exact Hnew]. cbn beta. intros e He. lia. }
    rewrite IH; [|lia|exact Hok'|].
    + cbn [List.map fst shift_down]. rewrite last_cons_default.
      rewrite <- app_assoc. reflexivity.
    + apply Forall_app. split.
      * eapply Forall_impl; [|exact Hnew]. cbn beta. intros e He. lia.
      * constructor; [cbn [fst]; lia|constructor].
Qed.

Lemma last_key_bounds lo m :
  SharesMap_ok lo m -> lo <= List.last (List.map fst m) lo < Z.max (lo + 1) (2 ^ 32).
Proof.
  intros Hok. induction Hok as [|lo k v m Hlo Hhi Hok IH]; [cbn; lia|].
  cbn [List.map fst]. rewrite last_cons_default. lia.
Qed.

Lemma shift_down_keys flow lo m :
  SharesMap_ok lo m ->
  Forall (fun e => fst e <= List.last (List.map fst m) lo - flow) (shift_down flow m).
Proof.
  intros Hok. induction Hok as [|lo k v m Hlo Hhi Hok IH]; [constructor|].
  cbn [shift_down List.map fst]. rewrite last_cons_default.
  pose proof (last_key_bounds _ _ Hok).
  constructor; [cbn [fst]; lia|]. exact IH.
Qed.

Lemma GetShare_from_last_gen prev m key D post :
  ~ In D (destinations m) ->
  GetShare_from prev (m ++ (key, D) :: post) D
    = u32 (key - List.last (List.map fst m) prev).
Proof.
  revert prev. induction m as [|[k v] m IH]; intros prev Hnot.
  - cbn. rewrite Z.eqb_refl. reflexivity.
  - cbn [app GetShare_from List.map fst]. rewrite last_cons_default.
    cbn [destinations List.map snd] in Hnot.
    destruct (Z.eqb_spec v D) as [->|_]; [exfalso; apply Hnot; left; reflexivity|].
    apply IH. intros Hin. apply Hnot. right. exact Hin.
Qed.

Lemma last_app_default (l l' : list Z) (d : Z) :
  List.last (l ++ l') d = List.last l' (List.last l d).
Proof.
  revert d. induction l as [|x l IH]; intros d; [reflexivity|].
  cbn [app]. rewrite !last_cons_default. apply IH.
Qed.

Lemma shift_down_destinations flow m :
  destinations (shift_down flow m) = destinations m.
Proof.
  unfold destinations, shift_down. rewrite List.map_map. reflexivity.
Qed.

Lemma shift_down_last flow lo m :
  List.last (List.map fst (shift_down flow m)) (lo - flow)
    = List.last (List.map fst m) lo - flow.
Proof.
  revert lo. induction m as [|[k v] m IH]; intros lo; [reflexivity|].
  cbn [shift_down List.map fst]. rewrite !last_cons_default. apply IH.
Qed.

(** RestrictShare on the FlowStat whose first share, of size [k], goes to
    [D] and is the only unrestricted one. *)
Lemma RestrictShare_only_unrestricted k D rest :
  SharesMap_ok 0 ((k, D) :: rest) ->
  List.last (List.map fst rest) k + k < 2 ^ 32 ->
  RestrictShare D (mkFlowStat ((k, D) :: rest) k)
    = Some (mkFlowStat
              (shift_down k rest ++ [(List.last (List.map fst rest) k + k, D)]) 0).
Proof.
  intros Hok Hfit. inversion Hok as [|? ? ? ? Hlo Hhi Hok']; subst.
  unfold RestrictShare. cbn [shares unrestricted RestrictShare_loop rs_flow
                             rs_unrestricted rs_last_share rs_new_shares].
  cbn [Z.eqb]. rewrite Z.ltb_irrefl, Z.eqb_refl.
  replace (k - 0) with k by lia. rewrite (u32_small k) by lia.
  replace (k - k) with 0 by lia. change (u32 0) with 0.
  rewrite RestrictShare_loop_shift; [|lia|exact Hok'|constructor].
  cbn [rs_flow rs_last_share rs_unrestricted rs_new_shares app].
  destruct (Z.eqb_spec k 0); [lia|].
  pose proof (last_key_bounds _ _ Hok').
  rewrite u32_small by lia.
  rewrite map_set_append; [reflexivity|].
  eapply Forall_impl; [|exact (shift_down_keys k k rest Hok')].
  cbn beta. intros e He. lia.
Qed.

(** The restricted share of [D] is twice the share it had. *)
Theorem RestrictShare_doubles k D rest :
  SharesMap_ok 0 ((k, D) :: rest) -> ~ In D (destinations rest) ->
  List.last (List.map fst rest) k + k < 2 ^ 32 ->
  GetShare (mkFlowStat ((k, D) :: rest) k) D = k /\
  exists fs', RestrictShare D (mkFlowStat ((k, D) :: rest) k) = Some fs' /\
              unrestricted fs' = 0 /\ GetShare fs' D = 2 * k.
Proof.
  intros Hok Hnot Hfit. inversion Hok as [|? ? ? ? Hlo Hhi Hok']; subst. split.
  - unfold GetShare. cbn [shares GetShare_from]. rewrite Z.eqb_refl.
    replace (k - 0) with k by lia. apply u32_small. lia.
  - eexists. split; [apply RestrictShare_only_unrestricted; assumption|].
    split; [reflexivity|]. unfold GetShare. cbn [shares].
    rewrite GetShare_from_last_gen by (rewrite shift_down_destinations; exact Hnot).
    replace 0 with (k - k) at 1 by lia. rewrite shift_down_last.
    pose proof (last_key_bounds _ _ Hok').
    rewrite u32_small by lia. lia.
Qed.

(** So the round trip never gives the unrestricted boundary back: it ends
    at 0 when D has the only share, and at twice the boundary otherwise. *)
Theorem Restrict_then_Release_moves_boundary k D rest :
  SharesMap_ok 0 ((k, D) :: rest) -> ~ In D (destinations rest) ->
  List.last (List.map fst rest) k + k < 2 ^ 32 ->
  exists fs', Restrict_then_Release D (mkFlowStat ((k, D) :: rest) k) = Some fs' /\
              unrestricted fs' = match rest with [] => 0 | _ :: _ => 2 * k end /\
              unrestricted fs' <> k.
Proof.
  intros Hok Hnot Hfit. unfold Restrict_then_Release.
  rewrite RestrictShare_only_unrestricted by assumption.
  inversion Hok as [|? ? ? ? Hlo Hhi Hok']; subst.
  assert (Hcases : rest = [] \/ exists rest0 L vL, rest = rest0 ++ [(L, vL)]).
  { destruct rest as [|e r]; [left; reflexivity|right].
    destruct (@exists_last _ (e :: r)) as (rest0 & [L vL] & Heq); [discriminate|].
    eauto. }
  destruct Hcases as [->|(rest0 & L & vL & ->)].
  - cbn -[Z.add Z.ltb Z.eqb].
    destruct (k + k <? 0); [|destruct (k + k =? 0)];
      (eexists; split; [reflexivity|]; cbn [unrestricted]; lia).
  - unfold ReleaseShare. cbn [shares unrestricted].
    assert (HL : List.last (List.map fst (rest0 ++ [(L, vL)])) k = L).
    { rewrite List.map_app. cbn [List.map fst]. apply last_last. }
    rewrite HL in *.
    assert (HLk : k < L < 2 ^ 32).
    { pose proof (SharesMap_ok_In k (rest0 ++ [(L, vL)]) L vL Hok') as H.
      apply H. apply in_or_app. right. left. reflexivity. }
    unfold shift_down. rewrite List.map_app. cbn [List.map fst snd].
    rewrite <- app_assoc. cbn [app].
    destruct (List.map _ rest0 ++ [(L - k, vL); (L + k, D)]) eqn:Hnil.
    { apply app_eq_nil in Hnil. destruct Hnil; discriminate. }
    rewrite <- Hnil. clear Hnil.
    replace (List.map (fun e => (fst e - k, snd e)) rest0 ++ [(L - k, vL); (L + k, D)])
      with ((List.map (fun e => (fst e - k, snd e)) rest0 ++ [(L - k, vL)]) ++ [(L + k, D)])
      by (rewrite <- app_assoc; reflexivity).
    rewrite !rev_unit. cbn [ReleaseShare_scan].
    destruct (Z.ltb_spec (L + k) 0); [lia|].
    destruct (Z.eqb_spec (L + k) 0); [lia|].
    rewrite Z.eqb_refl. destruct (Z.ltb_spec (L - k) 0); [lia|].
    replace (L + k - (L - k)) with (2 * k) by lia.
    rewrite (u32_small (2 * k)) by lia.
    replace (0 + 2 * k) with (2 * k) by lia.
    rewrite (u32_small (2 * k)) by lia.
    destruct (Z.eqb_spec (2 * k) 0); [lia|].
    eexists. split; [reflexivity|]. cbn [unrestricted].
    destruct rest0; cbn [app]; lia.
Qed.

End RestrictShareFacts.

(** What erasing does to the boundaries: the shares behind the erased one
    move down by its size, so the final boundary drops by exactly the share
    of the erased station. *)
Section ChangeShareErase.
Import FlowStats.

Lemma shift_down_0 m : shift_down 0 m = m.
Proof.
  unfold shift_down. induction m as [|[k v] m IH]; [reflexivity|].
  cbn [List.map fst snd]. rewrite IH, Z.sub_0_r. reflexivity.
Qed.

(** The loop over entries of other stations copies them, lowered by what
    has been removed so far. *)
Lemma ChangeShare_loop_copy X m :
  forall removed last unr new,
    0 <= removed <= last -> SharesMap_ok last m -> ~ In X (destinations m) ->
    Forall (fun e => fst e <= last - removed) new ->
    ChangeShare_loop X m (mkChange removed 0 last INT_MIN unr new)
      = mkChange removed 0 (List.last (List.map fst m) last) INT_MIN unr
                 (new ++ shift_down removed m).
Proof.
  unfold ChangeShare_loop.
  induction m as [|[k v] m IH]; intros removed last unr new Hr Hok Hnot Hnew.
  - cbn. rewrite app_nil_r. reflexivity.
  - inversion Hok as [|? ? ? ? Hlo Hhi Hok']; subst.
    cbn [destinations List.map snd] in Hnot.
    cbn [fold_left ChangeShare_step cs_flow cs_new_shares cs_removed_shares
           cs_added_shares cs_unrestricted cs_last_share].
    destruct (Z.eqb_spec v X) as [->|_]; [exfalso; apply Hnot; left; reflexivity|].
    rewrite Z.add_0_r, (u32_small k), (u32_small (k - removed)) by lia.
    rewrite map_set_append.
    2:{ eapply Forall_impl; [|exact Hnew]. cbn beta. intros e He. lia. }
    rewrite IH; [|lia|exact Hok'|intros Hin; apply Hnot; right; exact Hin|].
    + cbn [List.map fst shift_down]. rewrite last_cons_default, <- app_assoc.
      reflexivity.
    + apply Forall_app. split.
      * eapply Forall_impl; [|exact Hnew]. cbn beta. intros e He. lia.
      * constructor; [cbn [fst]; lia|constructor].
Qed.

Lemma SharesMap_ok_app lo pre m :
  SharesMap_ok lo (pre ++ m) ->
  SharesMap_ok lo pre /\ SharesMap_ok (List.last (List.map fst pre) lo) m.
Proof.
  revert lo. induction pre as [|[k v] pre IH]; intros lo Hok.
  - split; [constructor|exact Hok].
  - inversion Hok as [|? ? ? ? Hlo Hhi Hok']; subst.
    destruct (IH k Hok') as [Hpre Hm]. cbn [List.map fst].
    rewrite last_cons_default. split; [constructor; assumption|exact Hm].
Qed.

Lemma SharesMap_ok_below lo m :
  SharesMap_ok lo m ->
  Forall (fun e => fst e <= List.last (List.map fst m) lo) m.
Proof.
  intros Hok. induction Hok as [|lo k v m Hlo Hhi Hok IH]; [constructor|].
  cbn [List.map fst]. rewrite last_cons_default.
  pose proof (last_key_bounds _ _ Hok).
  constructor; [cbn [fst]; lia|exact IH].
Qed.

(** ChangeShare(X, INT_MIN) on a map that holds X once, between [pre] and
    [post]. *)
Theorem ChangeShare_erase_shifts pre k X post U :
  SharesMap_ok 0 (pre ++ (k, X) :: post) ->
  ~ In X (destinations pre) -> ~ In X (destinations post) ->
  let share := k - List.last (List.map fst pre) 0 in
  GetShare (mkFlowStat (pre ++ (k, X) :: post) U) X = share /\
  ChangeShare X INT_MIN (mkFlowStat (pre ++ (k, X) :: post) U)
    = Some (mkFlowStat (pre ++ shift_down share post)
                       (if k <=? U then u32 (U - share) else U)) /\
  final_boundary (pre ++ shift_down share post)
    = final_boundary (pre ++ (k, X) :: post) - share.
Proof.
  intros Hok Hpre Hpost share.
  destruct (SharesMap_ok_app 0 pre _ Hok) as [Hokpre Hokrest].
  inversion Hokrest as [|? ? ? ? Hlo Hhi Hokpost]; subst.
  pose proof (last_key_bounds _ _ Hokpre) as Hlast.
  set (lastpre := List.last (List.map fst pre) 0) in *.
  split; [|split].
  - unfold GetShare. cbn [shares]. rewrite GetShare_from_last_gen by exact Hpre.
    fold lastpre. apply u32_small. lia.
  - unfold ChangeShare. cbn [shares unrestricted].
    destruct (pre ++ (k, X) :: post) eqn:Hm.
    { apply app_eq_nil in Hm. destruct Hm; discriminate. }
    rewrite <- Hm. clear Hm.
    unfold ChangeShare_loop. rewrite fold_left_app.
    pose proof (ChangeShare_loop_copy X pre 0 0 U [] ltac:(lia) Hokpre Hpre
                  ltac:(constructor)) as Hphase1.
    unfold ChangeShare_loop in Hphase1. rewrite Hphase1. fold lastpre.
    rewrite shift_down_0. cbn [app fold_left].
    cbn [ChangeShare_step cs_flow cs_new_shares cs_removed_shares
           cs_added_shares cs_unrestricted cs_last_share].
    rewrite Z.eqb_refl. change (INT_MIN <? 0) with true.
    change (INT_MIN =? INT_MIN) with true. cbn [orb].
    rewrite (u32_small (k - lastpre)) by lia.
    rewrite Z.add_0_l, (u32_small (k - lastpre)) by lia.
    pose proof (ChangeShare_loop_copy X post (k - lastpre) k
                  (if k <=? U then u32 (U - (k - lastpre)) else U) pre
                  ltac:(lia) Hokpost Hpost) as Hphase3.
    unfold ChangeShare_loop in Hphase3. rewrite Hphase3.
    + cbn [cs_flow cs_new_shares cs_unrestricted]. reflexivity.
    + eapply Forall_impl; [|exact (SharesMap_ok_below 0 pre Hokpre)].
      cbn beta. fold lastpre. intros e He. lia.
  - unfold final_boundary. rewrite !List.map_app. cbn [List.map fst].
    rewrite !last_app_default. cbn [List.map fst]. rewrite last_cons_default.
    fold lastpre. replace lastpre with (k - share) at 1 by (unfold share; lia).
    apply shift_down_last.
Qed.

End ChangeShareErase.

(** ** UpdateStationRating *)

Section RatingFacts.
Import Rating.

Variable INITIAL_STATION_RATING : Z.
Variable MAX_STATION_RATING : Z.
Variable VEH_SHIP : Z.
Variable VEH_INVALID : Z.
Variable CALLBACK_FAILED : Z.
Variable selectgoods : bool.
Variable Randomizer : Type.
Variable Random : Randomizer -> Z * Randomizer.
Variable HasVehicleEverTriedLoading : GoodsEntry -> bool.
Variable GetCargoCallback : Z -> Z -> CargoSpec -> Z.
Variable TruncatedFromSelf : CargoSpec -> GoodsEntry -> Z -> Z.

(** INITIAL_STATION_RATING is a value of the rating's type, a byte. *)
Hypothesis INITIAL_is_byte : 0 <= INITIAL_STATION_RATING <= 255.

(** The tick without the rating cheat. *)
Local Abbreviation UpdateGoodsRating' :=
  (UpdateGoodsRating INITIAL_STATION_RATING MAX_STATION_RATING VEH_SHIP VEH_INVALID
     CALLBACK_FAILED false selectgoods Randomizer Random
     HasVehicleEverTriedLoading GetCargoCallback TruncatedFromSelf).

Local Abbreviation UpdateStationRating' :=
  (UpdateStationRating INITIAL_STATION_RATING MAX_STATION_RATING VEH_SHIP VEH_INVALID
     CALLBACK_FAILED false selectgoods Randomizer Random
     HasVehicleEverTriedLoading GetCargoCallback TruncatedFromSelf).


Lemma Clamp_step o x :
  0 <= o <= 255 ->
  Z.abs (ClampTo_u8 (o + Clamp (x - o) (-2) 2) - o) <= 2 /\
  0 <= ClampTo_u8 (o + Clamp (x - o) (-2) 2) <= 255.
Proof.
  intros Ho. unfold ClampTo_u8, Clamp.
  destruct (Z.leb_spec (x - o) (-2)); [|destruct (Z.leb_spec 2 (x - o))];
    repeat match goal with
           | |- context [?a <=? ?b] => destruct (Z.leb_spec a b)
           end; lia.
Qed.

Lemma rating_TruncateCargo cs ge amount :
  rating (TruncateCargo TruncatedFromSelf cs ge amount) = rating ge.
Proof. unfold TruncateCargo. destruct (data ge); reflexivity. Qed.

Lemma UpdateGoodsRating_bound st cs ge rng wc :
  0 <= rating ge <= 255 ->
  rating_ok ge (UpdateGoodsRating' st cs ge rng wc).1.1.
Proof.
  intros Hr. unfold rating_ok, UpdateGoodsRating, HasRating.
  destruct (status_Rating ge) eqn:Hsr.
  - (* the cargo is rated *)
    cbn [negb andb]. cbv zeta. rewrite Hsr. cbn [negb].
    destruct (_ && selectgoods).
    { cbn [fst]. rewrite rating_TruncateCargo. cbn [disable_rating rating set_time_since_pickup].
      lia. }
    unfold base_rating.
    set (ge1 := set_time_since_pickup ge _).
    assert (Hge1 : rating ge1 = rating ge) by reflexivity.
    assert (Hstep : forall rating0,
      let ge2 := set_rating ge1
                   (ClampTo_u8 (rating ge1 +
                                Clamp (rating_bonus st ge1 rating0 - rating ge1) (-2) 2)) in
      Z.abs (rating ge2 - rating ge) <= 2 /\ 0 <= rating ge2 <= 255).
    { intros rating0. cbn [set_rating rating]. rewrite Hge1. apply Clamp_step, Hr. }
    destruct (callback_rating _ _ _ _ _ _ _) as [r0|];
      match goal with
      | |- context [rating_bonus st ge1 ?x] => specialize (Hstep x)
      end; cbv zeta in Hstep;
      destruct (discard_waiting _ _ _ _ _ _ _ _) as [[waiting rng0] wc0];
      destruct (wc0 && _); cbn [fst];
      rewrite ?rating_TruncateCargo; exact Hstep.
  - (* not rated: the rating creeps back to the initial one *)
    cbn [negb andb]. cbv zeta.
    destruct (Z.ltb_spec (rating ge) INITIAL_STATION_RATING).
    + cbn [set_rating status_Rating]. rewrite Hsr. cbn [negb fst rating].
      unfold u8. rewrite (Z.mod_small (rating ge + 1)) by lia.
      cbn [set_rating rating]. lia.
    + rewrite Hsr. cbn [negb fst]. lia.
Qed.

Lemma rating_bonus_ge st ge x : x <= rating_bonus st ge x.
Proof.
  unfold rating_bonus.
  repeat match goal with
         | |- context [if ?c then _ else _] => destruct c
         end; lia.
Qed.

Lemma Clamp_at_max b : 255 <= b -> ClampTo_u8 (255 + Clamp (b - 255) (-2) 2) = 255.
Proof.
  intros Hb. unfold ClampTo_u8, Clamp.
  destruct (Z.leb_spec (b - 255) (-2)); [lia|].
  destruct (Z.leb_spec 2 (b - 255));
    repeat match goal with
           | |- context [?x <=? ?y] => destruct (Z.leb_spec x y)
           end; lia.
Qed.

(** The exception: with the rating cheat a rated cargo jumps to the
    maximum, whatever the rating was. *)
Lemma UpdateGoodsRating_cheat st cs ge rng wc :
  status_Rating ge = true ->
  (byte_inc_sat (time_since_pickup ge) =? 255) && selectgoods = false ->
  rating (UpdateGoodsRating INITIAL_STATION_RATING 255 VEH_SHIP VEH_INVALID
            CALLBACK_FAILED true selectgoods Randomizer Random
            HasVehicleEverTriedLoading GetCargoCallback TruncatedFromSelf
            st cs ge rng wc).1.1 = 255.
Proof.
  intros Hsr Hkeep. unfold UpdateGoodsRating, HasRating.
  rewrite Hsr. cbn [negb andb]. cbv zeta. rewrite Hsr. cbn [negb].
  cbn [set_time_since_pickup time_since_pickup]. rewrite Hkeep.
  unfold base_rating.
  set (ge1 := set_rating _ _).
  change (rating ge1) with 255.
  rewrite (Clamp_at_max _ (rating_bonus_ge st ge1 255)).
  destruct (discard_waiting _ _ _ _ _ _ _ _) as [[waiting rng0] wc0].
  destruct (wc0 && _); cbn [fst]; rewrite ?rating_TruncateCargo; reflexivity.
Qed.

Local Abbreviation rating_step' :=
  (rating_step INITIAL_STATION_RATING MAX_STATION_RATING VEH_SHIP VEH_INVALID
     CALLBACK_FAILED false selectgoods Randomizer Random
     HasVehicleEverTriedLoading GetCargoCallback TruncatedFromSelf).

(** One round of the loop changes the entry of its cargo only. *)
Lemma rating_step_entry st gs rng wc cs i ge :
  gs !! i = Some ge -> rating_in_range ge ->
  exists ge1, (rating_step' st (gs, rng, wc) cs).1.1 !! i = Some ge1 /\
              (i <> Index cs -> ge1 = ge) /\ rating_ok ge ge1.
Proof.
  intros Hi Hge. unfold rating_step.
  assert (Hrefl : rating_ok ge ge) by (unfold rating_ok, rating_in_range in *; lia).
  destruct (gs !! Index cs) as [g|] eqn:Hlook; [|exists ge; cbn [fst]; auto].
  pose proof (UpdateGoodsRating_bound st cs g rng wc) as Hb.
  destruct (UpdateGoodsRating _ _ _ _ _ _ _ _ _ _ _ _ st cs g rng wc) as [[g' rng'] wc'].
  cbn [fst] in *.
  destruct (Nat.eq_dec i (Index cs)) as [->|Hne].
  - exists g'. rewrite list_lookup_insert_eq by (eapply lookup_lt_Some; eauto).
    rewrite Hlook in Hi. inversion Hi; subst. split; [reflexivity|].
    split; [congruence|]. apply Hb, Hge.
  - exists ge. rewrite list_lookup_insert_ne by congruence. auto.
Qed.

Lemma rating_loop_entry st specs :
  NoDup (List.map Index specs) ->
  forall gs rng wc i ge ge',
    Forall rating_in_range gs ->
    gs !! i = Some ge ->
    (fold_left (rating_step' st) specs (gs, rng, wc)).1.1 !! i = Some ge' ->
    (~ In i (List.map Index specs) -> ge' = ge) /\ rating_ok ge ge'.
Proof.
  induction specs as [|cs specs IH]; intros Hnd gs rng wc i ge ge' Hall Hi Hi'.
  - cbn in Hi'. rewrite Hi in Hi'. inversion Hi'; subst.
    split; [reflexivity|].
    pose proof (proj1 (Forall_lookup _ _) Hall _ _ Hi) as Hge.
    unfold rating_ok, rating_in_range in *. lia.
  - inversion Hnd as [|? ? Hnotin Hnd']; subst. cbn [fold_left] in Hi'.
    pose proof (proj1 (Forall_lookup _ _) Hall _ _ Hi) as Hge.
    destruct (rating_step_entry st gs rng wc cs i ge Hi Hge) as (ge1 & Hi1 & Hsame & Hok1).
    assert (Hall1 : Forall rating_in_range (rating_step' st (gs, rng, wc) cs).1.1).
    { apply Forall_lookup. intros j g1 Hj.
      destruct (gs !! j) as [g|] eqn:Hgj.
      - pose proof (proj1 (Forall_lookup _ _) Hall _ _ Hgj) as Hg.
        destruct (rating_step_entry st gs rng wc cs j g Hgj Hg) as (g1' & Hj1 & _ & Hok).
        rewrite Hj in Hj1. inversion Hj1; subst. exact (proj2 Hok).
      - exfalso. apply lookup_ge_None in Hgj. apply lookup_lt_Some in Hj.
        unfold rating_step in Hj. destruct (gs !! Index cs); cbn [fst] in Hj.
        + destruct (UpdateGoodsRating _ _ _ _ _ _ _ _ _ _ _ _ _ _ _ _ _) as [[? ?] ?].
          cbn [fst] in Hj. rewrite length_insert in Hj. lia.
        + lia. }
    destruct (rating_step' st (gs, rng, wc) cs) as [[gs1 rng1] wc1] eqn:Hstep.
    cbn [fst] in *.
    destruct (IH Hnd' gs1 rng1 wc1 i ge1 ge' Hall1 Hi1 Hi') as [Hrest Hok].
    split.
    + intros Hnot. cbn [List.map In] in Hnot.
      rewrite Hrest by tauto. apply Hsame. intros ->. tauto.
    + destruct (Nat.eq_dec i (Index cs)) as [->|Hne].
      * rewrite Hrest by exact Hnotin. exact Hok1.
      * rewrite (Hsame Hne) in Hok. exact Hok.
Qed.

(** C4. Without the rating cheat, one call of UpdateStationRating moves
    the rating of every cargo by at most 2. *)
Theorem UpdateStationRating_rating_bound specs st rng cargo ge ge' :
  NoDup (List.map Index specs) ->
  Forall rating_in_range (goods st) ->
  goods st !! cargo = Some ge ->
  goods (UpdateStationRating' specs st rng).1.1 !! cargo = Some ge' ->
  Z.abs (rating ge' - rating ge) <= 2.
Proof.
  intros Hnd Hall Hi Hi'. unfold UpdateStationRating in Hi'.
  pose proof (rating_loop_entry st specs Hnd (goods st) rng false cargo ge ge' Hall Hi) as H.
  destruct (fold_left _ specs (goods st, rng, false)) as [[gs rng'] wc].
  cbn [fst goods] in *. exact (proj1 (proj2 (H Hi'))).
Qed.

End RatingFacts.


Lemma UpdateStationRating_rating_bound_witness :
  Z.abs (Rating.rating sample_goods_after - Rating.rating sample_goods) <= 2.
Proof.
  apply (UpdateStationRating_rating_bound 175 255 2 255 65535 false Z
           (fun r => (r, r + 1)) (fun _ => true) (fun _ _ _ => 65535)
           (fun _ _ _ => 0) ltac:(lia)
           [Rating.mkCargoSpec 0 false] sample_station 5 0%nat
           sample_goods sample_goods_after).
  - repeat constructor. simpl. tauto.
  - repeat constructor; simpl; lia.
  - reflexivity.
  - vm_compute. reflexivity.
Defined.

(** ** UpdateStationAcceptance *)

Section AcceptanceFacts.
Import Acceptance.

Variable NUM_CARGO : nat.
Variable local_company : Z.
Variable IsPassengerCargo : nat -> bool.
Variable GetAcceptanceAroundStation : Station -> (nat -> Z) * Z.

Local Abbreviation accumulated' := (accumulated GetAcceptanceAroundStation).
Local Abbreviation acceptance_step' := (acceptance_step IsPassengerCargo).
Local Abbreviation compatible_facility' := (compatible_facility IsPassengerCargo).
Local Abbreviation UpdateStationAcceptance' :=
  (UpdateStationAcceptance NUM_CARGO local_company IsPassengerCargo
     GetAcceptanceAroundStation).


Lemma usable_amount_threshold st acceptance cargo :
  (8 <=? usable_amount IsPassengerCargo st acceptance cargo) = true <->
  8 <= acceptance cargo /\ compatible_facility' st cargo = true.
Proof.
  unfold usable_amount, compatible_facility.
  destruct (IsPassengerCargo cargo); cbn [negb andb orb];
    destruct (Any (facilities st) _); cbn [negb orb];
    rewrite Z.leb_le; intuition (try lia; try discriminate).
Qed.

(** The loop over the cargo types [from, from + n). *)
Lemma acceptance_loop_entry st acceptance n :
  forall from gs lg cargo ge',
    (fold_left (acceptance_step' st acceptance) (seq from n) (gs, lg)).1 !! cargo
      = Some ge' ->
    (from <= cargo < from + n)%nat ->
    status_Acceptance ge' = (8 <=? usable_amount IsPassengerCargo st acceptance cargo).
Proof.
  assert (Hkeep : forall l gs lg cargo ge',
    (fold_left (acceptance_step' st acceptance) l (gs, lg)).1 !! cargo = Some ge' ->
    ~ In cargo l -> gs !! cargo = Some ge').
  { induction l as [|c l IH]; intros gs lg cargo ge' H Hnot; [exact H|].
    cbn [fold_left] in H. unfold acceptance_step at 2 in H.
    destruct (gs !! c) as [ge|] eqn:Hc.
    - apply IH in H; [|cbn in Hnot; tauto].
      rewrite list_lookup_insert_ne in H; [exact H|]. cbn in Hnot. intros ->. tauto.
    - apply IH in H; [exact H|]. cbn in Hnot. tauto. }
  induction n as [|n IH]; intros from gs lg cargo ge' H Hrange; [lia|].
  cbn [seq fold_left] in H.
  destruct (Nat.eq_dec cargo from) as [->|Hne].
  - unfold acceptance_step at 2 in H.
    destruct (gs !! from) as [ge|] eqn:Hc.
    + apply Hkeep in H; [|rewrite in_seq; lia].
      rewrite list_lookup_insert_eq in H by (eapply lookup_lt_Some; eauto).
      inversion H; subst. reflexivity.
    + apply Hkeep in H; [|rewrite in_seq; lia]. congruence.
  - destruct (acceptance_step' st acceptance (gs, lg) from) as [gs1 lg1].
    eapply IH; [exact H|lia].
Qed.

(** GetAcceptanceMask collects the acceptance states, bit [c] for cargo [c]. *)
Lemma GetAcceptanceMask_from_testbit gs :
  forall c mask i, 0 <= c -> 0 <= i ->
    Z.testbit (GetAcceptanceMask_from c gs mask) i
      = Z.testbit mask i
        || ((c <=? i) && match gs !! Z.to_nat (i - c) with
                         | Some ge => status_Acceptance ge
                         | None => false
                         end).
Proof.
  induction gs as [|ge gs IH]; intros c mask i Hc Hi.
  - cbn. rewrite andb_false_r, orb_false_r. reflexivity.
  - cbn [GetAcceptanceMask_from]. rewrite IH by lia.
    assert (Hbit : Z.testbit (if status_Acceptance ge then Z.setbit mask c else mask) i
                   = Z.testbit mask i || ((c =? i) && status_Acceptance ge)).
    { destruct (status_Acceptance ge).
      - rewrite Z.setbit_eqb by lia. rewrite andb_true_r, orb_comm. reflexivity.
      - rewrite andb_false_r, orb_false_r. reflexivity. }
    rewrite Hbit.
    destruct (Z.leb_spec (c + 1) i) as [Hlt|Hge].
    + replace (Z.to_nat (i - c)) with (S (Z.to_nat (i - (c + 1)))) by lia.
      cbn [lookup list_lookup].
      destruct (Z.eqb_spec c i); [lia|]. destruct (Z.leb_spec c i); [|lia].
      cbn [andb]. rewrite orb_false_r. reflexivity.
    + cbn [andb]. rewrite orb_false_r.
      destruct (Z.eqb_spec c i) as [->|Hne].
      * rewrite Z.leb_refl, Z.sub_diag. cbn. reflexivity.
      * destruct (Z.leb_spec c i); [lia|]. reflexivity.
Qed.

Lemma GetAcceptanceMask_testbit st cargo ge :
  goods st !! cargo = Some ge ->
  Z.testbit (GetAcceptanceMask st) (Z.of_nat cargo) = status_Acceptance ge.
Proof.
  intros Hge. unfold GetAcceptanceMask.
  rewrite GetAcceptanceMask_from_testbit by lia.
  rewrite Z.testbit_0_l, Z.sub_0_r, Nat2Z.id, Hge.
  destruct (Z.leb_spec 0 (Z.of_nat cargo)); [reflexivity|lia].
Qed.

(** C5. After UpdateStationAcceptance the acceptance state of a cargo, and
    with it the bit of the cargo in GetAcceptanceMask, is set exactly when
    the accumulated amount is at least 8 and the station has a facility for
    the class of the cargo. *)
Theorem UpdateStationAcceptance_threshold st show_msg lg cargo ge' :
  (cargo < NUM_CARGO)%nat ->
  goods (UpdateStationAcceptance' st show_msg lg).1.1 !! cargo = Some ge' ->
  let accepted :=
    8 <= accumulated' st cargo /\
    (if IsPassengerCargo cargo
     then Any (facilities st) [Train; BusStop; Airport; Dock]
     else Any (facilities st) [Train; TruckStop; Airport; Dock]) = true in
  (status_Acceptance ge' = true <-> accepted) /\
  (Z.testbit (GetAcceptanceMask (UpdateStationAcceptance' st show_msg lg).1.1)
             (Z.of_nat cargo) = true <-> accepted).
Proof.
  intros Hc H accepted.
  assert (Hstate : status_Acceptance ge' = true <-> accepted).
  { unfold UpdateStationAcceptance in H.
    destruct (fold_left _ (seq 0 NUM_CARGO) (goods st, lg)) as [gs lg'] eqn:Hloop.
    assert (Hgs : gs !! cargo = Some ge').
    { destruct (_ =? _) in H; exact H. }
    pose proof (acceptance_loop_entry st (accumulated' st) NUM_CARGO 0
                  (goods st) lg cargo ge') as Hentry.
    rewrite Hloop in Hentry. cbn [fst] in Hentry.
    rewrite (Hentry Hgs ltac:(lia)).
    apply usable_amount_threshold. }
  split; [exact Hstate|].
  rewrite (GetAcceptanceMask_testbit _ cargo ge' H). exact Hstate.
Qed.

End AcceptanceFacts.


Lemma UpdateStationAcceptance_threshold_witness :
  let accepted :=
    8 <= Acceptance.accumulated (fun _ => (fun _ => 8, 0)) bus_stop_only 0%nat /\
    (if Nat.eqb 0 0
     then Acceptance.Any (Acceptance.facilities bus_stop_only)
            [Acceptance.Train; Acceptance.BusStop; Acceptance.Airport; Acceptance.Dock]
     else Acceptance.Any (Acceptance.facilities bus_stop_only)
            [Acceptance.Train; Acceptance.TruckStop; Acceptance.Airport; Acceptance.Dock])
    = true in
  (Acceptance.status_Acceptance (Acceptance.mkGoodsEntry true 0 0) = true <-> accepted) /\
  (Z.testbit
     (Acceptance.GetAcceptanceMask
        (Acceptance.UpdateStationAcceptance 2 0 (fun c => Nat.eqb c 0)
           (fun _ => (fun _ => 8, 0)) bus_stop_only false
           (Acceptance.mkLinkGraphs (fun _ => false) (fun _ _ => 0))).1.1)
     (Z.of_nat 0) = true <-> accepted).
Proof.
  apply (UpdateStationAcceptance_threshold 2 0 (fun c => Nat.eqb c 0)
           (fun _ => (fun _ => 8, 0)) bus_stop_only false
           (Acceptance.mkLinkGraphs (fun _ => false) (fun _ _ => 0)) 0%nat).
  - lia.
  - reflexivity.
Defined.

(** ** CheckBuildableTile *)

Section BuildableFacts.
Import Buildable.

Variable SLOPE_FLAT : Slope.
Variable IsSteepSlope : Slope -> bool.
Variable GetSlopeMaxZ : Slope -> Z.
Variable CanBuildDepotByTileh : DiagDirection -> Slope -> bool.
Variable IsBridgeAbove : TileIndex -> bool.
Variable EnsureNoVehicleOnGround : TileIndex -> CommandCost.
Variable GetTileSlopeZ : TileIndex -> Slope * Z.
Variable build_on_slopes : bool.
Variable PR_BUILD_FOUNDATION : Z.
Variable LandscapeClear : TileIndex -> CommandCost.

Local Abbreviation flat_z' := (flat_z GetSlopeMaxZ GetTileSlopeZ).
Local Abbreviation CheckBuildableTile' :=
  (CheckBuildableTile SLOPE_FLAT IsSteepSlope GetSlopeMaxZ CanBuildDepotByTileh
     IsBridgeAbove EnsureNoVehicleOnGround GetTileSlopeZ build_on_slopes
     PR_BUILD_FOUNDATION).
Local Abbreviation CheckFlatLandAirport_loop' :=
  (CheckFlatLandAirport_loop SLOPE_FLAT IsSteepSlope GetSlopeMaxZ CanBuildDepotByTileh
     IsBridgeAbove EnsureNoVehicleOnGround GetTileSlopeZ build_on_slopes
     PR_BUILD_FOUNDATION LandscapeClear).
Local Abbreviation tile_passes' :=
  (tile_passes SLOPE_FLAT IsSteepSlope GetSlopeMaxZ CanBuildDepotByTileh
     IsBridgeAbove EnsureNoVehicleOnGround GetTileSlopeZ build_on_slopes
     PR_BUILD_FOUNDATION LandscapeClear).
Local Abbreviation CheckFlatLandAirport' :=
  (CheckFlatLandAirport SLOPE_FLAT IsSteepSlope GetSlopeMaxZ CanBuildDepotByTileh
     IsBridgeAbove EnsureNoVehicleOnGround GetTileSlopeZ build_on_slopes
     PR_BUILD_FOUNDATION LandscapeClear).

Ltac check_cases :=
  unfold CheckBuildableTile, flat_z;
  repeat match goal with
         | |- context [GetTileSlopeZ ?t] => destruct (GetTileSlopeZ t) as [tileh z]
         | |- context [if ?c then _ else _] => destruct c eqn:?
         end; cbn [fst snd Failed success CommandCost_error CommandCost_money
                     CommandCost_ok negb] in *.

(** A check that succeeds leaves the elevation of the tile in [allowed_z]:
    the one of the tile itself for the first tile, the required one, which
    the tile has, for the later ones. *)
Lemma CheckBuildableTile_success tile dirs allowed_z steep bridge :
  Failed (CheckBuildableTile' tile dirs allowed_z steep bridge).1 = false ->
  (CheckBuildableTile' tile dirs allowed_z steep bridge).2 = flat_z' tile /\
  (0 <= allowed_z -> flat_z' tile = allowed_z).
Proof.
  check_cases; intros Hf; try discriminate; try (split; [reflexivity|lia]);
    try congruence.
  all: match goal with
       | H : negb (_ =? _) = false |- _ =>
           apply negb_false_iff, Z.eqb_eq in H
       end; split; [congruence|intros; congruence].
Qed.

(** A later tile of another elevation fails, with "flat land required"
    unless the bridge or the vehicle test has already rejected it. *)
Lemma CheckBuildableTile_mismatch tile dirs allowed_z steep bridge :
  0 <= allowed_z -> flat_z' tile <> allowed_z ->
  Failed (CheckBuildableTile' tile dirs allowed_z steep bridge).1 = true /\
  (bridge && IsBridgeAbove tile = false ->
   Failed (EnsureNoVehicleOnGround tile) = false ->
   (CheckBuildableTile' tile dirs allowed_z steep bridge).1
     = CommandCost_error STR_ERROR_FLAT_LAND_REQUIRED).
Proof.
  intros Ha Hz.
  destruct (Failed (CheckBuildableTile' tile dirs allowed_z steep bridge).1) eqn:Hf.
  - split; [reflexivity|]. intros Hb Hv. revert Hf.
    unfold CheckBuildableTile. rewrite Hb, Hv.
    repeat match goal with
           | |- context [GetTileSlopeZ ?t] => destruct (GetTileSlopeZ t) as [tileh z]
           | |- context [if ?c then _ else _] => destruct c eqn:?
           end; cbn [fst]; try reflexivity; cbn; discriminate.
  - exfalso. apply CheckBuildableTile_success in Hf. destruct Hf as [_ Hf].
    apply Hz, Hf, Ha.
Qed.

(** Once the elevation is fixed, a tile of another elevation anywhere in
    the rest of the footprint makes the loop fail. *)
Lemma CheckFlatLandAirport_loop_mismatch tiles :
  forall cost allowed_z t,
    0 <= allowed_z -> In t tiles -> flat_z' t <> allowed_z ->
    Failed (CheckFlatLandAirport_loop' tiles cost allowed_z) = true.
Proof.
  induction tiles as [|tile rest IH]; intros cost a t Ha Hin Hz; [destruct Hin|].
  cbn [CheckFlatLandAirport_loop].
  pose proof (CheckBuildableTile_success tile (fun _ => false) a true true) as Hs.
  destruct (CheckBuildableTile' tile (fun _ => false) a true true) as [ret a'].
  cbn [fst snd] in Hs.
  destruct (Failed ret) eqn:Hf; [exact Hf|].
  destruct (Hs eq_refl) as [Ha' Hsame]. specialize (Hsame Ha).
  destruct (Failed (LandscapeClear tile)) eqn:Hc; [exact Hc|].
  destruct Hin as [->|Hin]; [congruence|].
  apply (IH _ a' t); [lia|exact Hin|congruence].
Qed.


Lemma CheckFlatLandAirport_loop_flat_land pre :
  forall cost allowed_z t post,
    0 <= allowed_z -> flat_z' t <> allowed_z ->
    Forall (tile_passes' allowed_z) pre ->
    IsBridgeAbove t = false -> Failed (EnsureNoVehicleOnGround t) = false ->
    CheckFlatLandAirport_loop' (pre ++ t :: post) cost allowed_z
      = CommandCost_error STR_ERROR_FLAT_LAND_REQUIRED.
Proof.
  induction pre as [|p pre IH]; intros cost a t post Ha Hz Hpre Hb Hv.
  - cbn [app CheckFlatLandAirport_loop].
    destruct (CheckBuildableTile_mismatch t (fun _ => false) a true true Ha Hz)
      as [Hf Hmsg].
    specialize (Hmsg ltac:(rewrite Hb; reflexivity) Hv).
    destruct (CheckBuildableTile' t (fun _ => false) a true true) as [ret a'].
    cbn [fst] in *. rewrite Hf. exact Hmsg.
  - inversion Hpre as [|? ? [Hp Hclear] Hpre']; subst.
    cbn [app CheckFlatLandAirport_loop].
    pose proof (CheckBuildableTile_success p (fun _ => false) a true true Hp) as [Ha' Hsame].
    destruct (CheckBuildableTile' p (fun _ => false) a true true) as [ret a'].
    cbn [fst snd] in *. rewrite Hp, Hclear.
    replace a' with a by (rewrite Ha'; symmetry; auto).
    apply IH; assumption.
Qed.

(** C6 (amended). The first tile that passes the check fixes its
    post-foundation elevation as the required one; a later tile of another
    elevation fails the check, with "flat land required" when the bridge and
    vehicle tests let it through; and a footprint with such a tile makes
    CheckFlatLandAirport fail, with "flat land required" when the loop gets
    to the tile and the tile has no bridge above and no vehicle on it. *)
Theorem CheckBuildableTile_one_elevation :
  (forall tile dirs allowed_z steep bridge,
     allowed_z < 0 ->
     Failed (CheckBuildableTile' tile dirs allowed_z steep bridge).1 = false ->
     (CheckBuildableTile' tile dirs allowed_z steep bridge).2 = flat_z' tile) /\
  (forall tile dirs allowed_z steep bridge,
     0 <= allowed_z -> flat_z' tile <> allowed_z ->
     Failed (CheckBuildableTile' tile dirs allowed_z steep bridge).1 = true /\
     (bridge && IsBridgeAbove tile = false ->
      Failed (EnsureNoVehicleOnGround tile) = false ->
      (CheckBuildableTile' tile dirs allowed_z steep bridge).1
        = CommandCost_error STR_ERROR_FLAT_LAND_REQUIRED)) /\
  (forall t0 pre t post,
     0 <= flat_z' t0 -> flat_z' t <> flat_z' t0 ->
     Failed (CheckFlatLandAirport' (t0 :: pre ++ t :: post)) = true /\
     (tile_passes' (-1) t0 -> Forall (tile_passes' (flat_z' t0)) pre ->
      IsBridgeAbove t = false -> Failed (EnsureNoVehicleOnGround t) = false ->
      CheckFlatLandAirport' (t0 :: pre ++ t :: post)
        = CommandCost_error STR_ERROR_FLAT_LAND_REQUIRED)).
Proof.
  split; [|split].
  - intros tile dirs a steep bridge _ Hf.
    exact (proj1 (CheckBuildableTile_success tile dirs a steep bridge Hf)).
  - intros tile dirs a steep bridge. apply CheckBuildableTile_mismatch.
  - intros t0 pre t post H0 Hz. unfold CheckFlatLandAirport.
    cbn [CheckFlatLandAirport_loop].
    pose proof (CheckBuildableTile_success t0 (fun _ => false) (-1) true true) as Hs.
    destruct (CheckBuildableTile' t0 (fun _ => false) (-1) true true) as [ret a'] eqn:Hcheck.
    cbn [fst snd] in Hs. split.
    + destruct (Failed ret) eqn:Hf; [exact Hf|].
      destruct (Hs eq_refl) as [Ha' _]. subst a'.
      destruct (Failed (LandscapeClear t0)) eqn:Hc; [exact Hc|].
      apply (CheckFlatLandAirport_loop_mismatch _ _ _ t); auto.
      apply in_or_app. right. left. reflexivity.
    + intros [Hp Hclear] Hpre Hb Hv. unfold tile_passes in *.
      rewrite Hcheck in Hp. cbn [fst] in Hp. rewrite Hp, Hclear.
      destruct (Hs Hp) as [Ha' _]. subst a'.
      apply CheckFlatLandAirport_loop_flat_land; auto.
Qed.

End BuildableFacts.


(** C6 (counterexample). The second tile has another elevation than the
    first, yet the command does not fail with "flat land required": the
    bridge above the tile is reported. *)
Lemma elevation_mismatch_under_bridge :
  Buildable.flat_z (fun _ => 0) strip_GetTileSlopeZ 1
    <> Buildable.flat_z (fun _ => 0) strip_GetTileSlopeZ 0 /\
  strip_CheckFlatLandAirport [0; 1]
    = CommandCost_error STR_ERROR_MUST_DEMOLISH_BRIDGE_FIRST /\
  strip_CheckFlatLandAirport [0; 1]
    <> CommandCost_error STR_ERROR_FLAT_LAND_REQUIRED.
Proof.
  split; [|split].
  - vm_compute. discriminate.
  - reflexivity.
  - vm_compute. discriminate.
Qed.

Lemma CheckBuildableTile_one_elevation_witness :
  Failed (strip_CheckFlatLandAirport [0; 2]) = true /\
  strip_CheckFlatLandAirport [0; 2] = CommandCost_error STR_ERROR_FLAT_LAND_REQUIRED.
Proof.
  pose proof (proj2 (proj2 (CheckBuildableTile_one_elevation
                              0 (fun _ => false) (fun _ => 0) (fun _ _ => true)
                              (fun t => t =? 1) (fun _ => CommandCost_ok)
                              strip_GetTileSlopeZ true 10 (fun _ => CommandCost_ok)))
                0 [] 2 []) as H.
  destruct H as [Hfail Hmsg].
  - vm_compute. discriminate.
  - vm_compute. discriminate.
  - split; [exact Hfail|]. apply Hmsg.
    + split; reflexivity.
    + constructor.
    + reflexivity.
    + reflexivity.
Defined.

(** ** GetStationAround *)

Section AroundFacts.
Import Around.

Variable T : Type.
Variable T_IsValidID : StationID -> bool.
Variable T_Get : StationID -> T.
Variable T_owner : T -> Z.
Variable Invalid : StationID.
Variable IsStationTile : TileIndex -> bool.
Variable GetStationIndex : TileIndex -> StationID.
Variable Expand : TileArea -> Z -> TileArea.
Variable tiles_of : TileArea -> list TileIndex.

(** The invalid ID is not the ID of a station of the pool. *)
Hypothesis Invalid_not_valid : T_IsValidID Invalid = false.

Local Abbreviation loop' :=
  (GetStationAround_loop T T_IsValidID T_Get T_owner Invalid IsStationTile
     GetStationIndex).
Local Abbreviation GetStationAround' :=
  (GetStationAround T T_IsValidID T_Get T_owner Invalid IsStationTile
     GetStationIndex Expand tiles_of).
Local Abbreviation compatible_tile' :=
  (compatible_tile T T_IsValidID T_Get T_owner IsStationTile GetStationIndex).
Local Abbreviation compatible_ids' :=
  (compatible_ids T T_IsValidID T_Get T_owner IsStationTile GetStationIndex).
Local Abbreviation compatible_stations' :=
  (compatible_stations T T_IsValidID T_Get T_owner IsStationTile
     GetStationIndex Expand tiles_of).


Lemma compatible_ids_valid company filter tiles t :
  In t (compatible_ids' company filter tiles) -> t <> Invalid.
Proof.
  unfold compatible_ids. rewrite in_map_iff. intros (tile_cur & <- & Hin).
  apply filter_In in Hin. destruct Hin as [_ Hc]. unfold compatible_tile in Hc.
  intros Heq. rewrite Heq, Invalid_not_valid in Hc.
  rewrite andb_false_r in Hc. discriminate.
Qed.

(** One step of the loop, by what the tile is. *)
Lemma loop_step tile_cur rest closest company filter :
  loop' (tile_cur :: rest) closest company filter =
    if compatible_tile' company filter tile_cur then
      if closest =? Invalid then loop' rest (GetStationIndex tile_cur) company filter
      else if closest =? GetStationIndex tile_cur then loop' rest closest company filter
      else None
    else loop' rest closest company filter.
Proof.
  cbn [GetStationAround_loop]. unfold compatible_tile.
  destruct (IsStationTile tile_cur); cbn [andb]; [|reflexivity].
  destruct (T_IsValidID (GetStationIndex tile_cur)); cbn [andb negb orb];
    [|reflexivity].
  destruct (T_owner (T_Get (GetStationIndex tile_cur)) =? company);
    cbn [andb negb orb]; [|reflexivity].
  destruct (filter (T_Get (GetStationIndex tile_cur))); cbn [negb]; [|reflexivity].
  destruct (closest =? Invalid); [reflexivity|].
  destruct (closest =? GetStationIndex tile_cur); reflexivity.
Qed.

(** With a station already chosen, the scan accepts that station only. *)
Lemma loop_chosen company filter tiles :
  forall closest, closest <> Invalid ->
    (Forall (eq closest) (compatible_ids' company filter tiles) ->
       loop' tiles closest company filter = Some closest) /\
    (forall t, In t (compatible_ids' company filter tiles) -> t <> closest ->
       loop' tiles closest company filter = None).
Proof.
  induction tiles as [|tile_cur rest IH]; intros closest Hc.
  - split; [reflexivity|intros t []].
  - rewrite loop_step. unfold compatible_ids. cbn [List.filter].
    destruct (compatible_tile' company filter tile_cur) eqn:Hct; cbn [List.map].
    + destruct (Z.eqb_spec closest Invalid) as [|_]; [contradiction|].
      destruct (Z.eqb_spec closest (GetStationIndex tile_cur)) as [Heq|Hne].
      * split.
        -- intros Hall. inversion Hall; subst. apply IH; assumption.
        -- intros t [Ht|Ht] Hne; [congruence|]. eapply IH; eauto.
      * split.
        -- intros Hall. inversion Hall; subst. contradiction.
        -- reflexivity.
    + apply IH, Hc.
Qed.

(** Without a station chosen, the first compatible station is chosen. *)
Lemma loop_fresh company filter tiles :
  match compatible_ids' company filter tiles with
  | [] => loop' tiles Invalid company filter = Some Invalid
  | s :: ids =>
      (Forall (eq s) ids -> loop' tiles Invalid company filter = Some s) /\
      (forall t, In t ids -> t <> s -> loop' tiles Invalid company filter = None)
  end.
Proof.
  induction tiles as [|tile_cur rest IH]; [reflexivity|].
  rewrite loop_step. unfold compatible_ids in *. cbn [List.filter].
  destruct (compatible_tile' company filter tile_cur) eqn:Hct; cbn [List.map].
  - rewrite Z.eqb_refl.
    apply (loop_chosen company filter rest (GetStationIndex tile_cur)).
    apply (compatible_ids_valid company filter (tile_cur :: rest)).
    unfold compatible_ids. cbn [List.filter]. rewrite Hct. left. reflexivity.
  - exact IH.
Qed.

(** C7. GetStationAround without a station chosen beforehand: no compatible
    station in the expanded area gives success and no station; compatible
    tiles that all belong to one station give that station; two different
    compatible stations give "adjoins more than one existing station" and
    leave [*st] as it was. *)
Theorem GetStationAround_adjoining ta company st filter :
  let ids := compatible_stations' ta company filter in
  (ids = [] ->
     GetStationAround' ta Invalid company st filter = (CommandCost_ok, None)) /\
  (forall s, In s ids -> (forall t, In t ids -> t = s) ->
     GetStationAround' ta Invalid company st filter
       = (CommandCost_ok, Some (T_Get s))) /\
  (forall a b, In a ids -> In b ids -> a <> b ->
     GetStationAround' ta Invalid company st filter
       = (CommandCost_error STR_ERROR_ADJOINS_MORE_THAN_ONE_EXISTING, st)).
Proof.
  intros ids. unfold GetStationAround.
  pose proof (loop_fresh company filter (tiles_of (Expand ta 1))) as Hloop.
  change (compatible_ids' company filter (tiles_of (Expand ta 1))) with ids in Hloop.
  pose proof (compatible_ids_valid company filter (tiles_of (Expand ta 1))) as Hvalid.
  change (compatible_ids' company filter (tiles_of (Expand ta 1))) with ids in Hvalid.
  destruct ids as [|s0 ids]; split; [| split | | split].
  - intros _. rewrite Hloop, Z.eqb_refl. reflexivity.
  - intros s [].
  - intros a b [].
  - discriminate.
  - intros s Hs Hall. destruct Hloop as [Hone _].
    assert (s0 = s) by (apply Hall; left; reflexivity). subst s0.
    rewrite Hone.
    + destruct (Z.eqb_spec s Invalid) as [Heq|_]; [|reflexivity].
      exfalso. exact (Hvalid s Hs Heq).
    + apply Forall_forall. intros t Ht. symmetry. apply Hall. right. exact Ht.
  - intros a b Ha Hb Hab. destruct Hloop as [_ Htwo].
    assert (Hother : exists t, In t ids /\ t <> s0).
    { destruct Ha as [<-|Ha]; destruct Hb as [<-|Hb].
      - contradiction.
      - exists b. auto.
      - exists a. auto.
      - destruct (Z.eq_dec a s0) as [->|Hne]; [exists b|exists a]; auto. }
    destruct Hother as (t & Ht & Hne). rewrite (Htwo t Ht Hne). reflexivity.
Qed.

End AroundFacts.

(** Tiles 5 and 6 of the scanned area belong to the stations 5 and 6 of the
    company. *)
Lemma GetStationAround_adjoining_witness :
  Around.GetStationAround Z (fun t => t <? 100) (fun t => t) (fun _ => 1) 65535
    (fun t => 5 <=? t) (fun t => t) (fun ta _ => ta)
    (fun ta => [tile ta; tile ta + 1])
    (mkTileArea 5 2 1) 65535 1 None (fun _ => true)
  = (CommandCost_error STR_ERROR_ADJOINS_MORE_THAN_ONE_EXISTING, None).
Proof.
  apply (proj2 (proj2 (GetStationAround_adjoining Z (fun t => t <? 100) (fun t => t)
                         (fun _ => 1) 65535 (fun t => 5 <=? t) (fun t => t)
                         (fun ta _ => ta) (fun ta => [tile ta; tile ta + 1])
                         eq_refl (mkTileArea 5 2 1) 1 None (fun _ => true)))
           5 6).
  - left. reflexivity.
  - right. left. reflexivity.
  - discriminate.
Defined.

(** ** MakeStationAreaSmaller *)

Section AreaSmallerFacts.
Import AreaSmaller.

Variable MapSizeX : Z.
Variable INVALID_TILE : TileIndex.
Variable BaseStation : Type.
Variable st : BaseStation.
Variable func : BaseStation -> TileIndex -> bool.

Local Abbreviation tile_at' := (tile_at MapSizeX).
Local Abbreviation member' := (member MapSizeX BaseStation st func).
Local Abbreviation contains_members' := (contains_members MapSizeX BaseStation st func).
Local Abbreviation sides_populated' := (sides_populated MapSizeX BaseStation st func).
Local Abbreviation shrunk' := (shrunk MapSizeX INVALID_TILE BaseStation st func).
Local Abbreviation loop' :=
  (MakeStationAreaSmaller_loop MapSizeX INVALID_TILE BaseStation).

Lemma side_unused_true f at_ n fuel :
  forall i, 0 <= i < n -> fuel = Z.to_nat (n - i) ->
    side_unused f at_ n i fuel = true ->
    forall j, i <= j < n -> f (at_ j) = false.
Proof.
  induction fuel as [|fuel IH]; intros i Hi Hfuel; [lia|].
  cbn [side_unused]. destruct (f (at_ i)) eqn:Hf; [discriminate|].
  destruct (Z.eqb_spec (i + 1) n) as [Heq|Hne]; intros H j Hj.
  - assert (j = i) by lia. subst j. exact Hf.
  - destruct (Z.eq_dec j i) as [->|Hji]; [exact Hf|].
    apply (IH (i + 1)); [lia|lia|exact H|lia].
Qed.

Lemma side_unused_false f at_ n fuel :
  forall i, 0 <= i < n -> fuel = Z.to_nat (n - i) ->
    side_unused f at_ n i fuel = false ->
    exists j, i <= j < n /\ f (at_ j) = true.
Proof.
  induction fuel as [|fuel IH]; intros i Hi Hfuel; [lia|].
  cbn [side_unused]. destruct (f (at_ i)) eqn:Hf.
  - intros _. exists i. split; [lia|exact Hf].
  - destruct (Z.eqb_spec (i + 1) n) as [Heq|Hne]; [discriminate|].
    intros H. destruct (IH (i + 1) ltac:(lia) ltac:(lia) H) as (j & Hj & Hfj).
    exists j. split; [lia|exact Hfj].
Qed.


Lemma shrunk_step ta ta1 r :
  (forall i j, member' ta i j ->
     exists i1 j1, member' ta1 i1 j1 /\ tile_at' ta1 i1 j1 = tile_at' ta i j) ->
  shrunk' ta1 r -> shrunk' ta r.
Proof.
  intros Hstep [Hcont Hsides]. split; [|exact Hsides].
  intros i j Hm. destruct (Hstep i j Hm) as (i1 & j1 & Hm1 & Heq).
  destruct (Hcont i1 j1 Hm1) as (i' & j' & Hi' & Hj' & Heq').
  exists i', j'. repeat split; lia.
Qed.

Lemma MakeStationAreaSmaller_loop_shrunk fuel :
  forall ta, 0 <= w ta -> 0 <= h ta -> (Z.to_nat (w ta + h ta) < fuel)%nat ->
    exists r, loop' fuel st ta func = Some r /\ shrunk' ta r.
Proof.
  induction fuel as [|fuel IH]; intros ta Hw Hh Hfuel; [lia|].
  cbn [MakeStationAreaSmaller_loop].
  destruct (Z.eqb_spec (w ta) 0) as [Hw0|Hw0]; cbn [negb andb].
  { exists (Clear INVALID_TILE). split; [reflexivity|]. split; [|right; reflexivity].
    intros i j (Hi & _). lia. }
  destruct (Z.eqb_spec (h ta) 0) as [Hh0|Hh0]; cbn [negb].
  { exists (Clear INVALID_TILE). split; [reflexivity|]. split; [|right; reflexivity].
    intros i j (_ & Hj & _). lia. }
  assert (Hrange_h : 0 <= 0 < h ta) by lia.
  assert (Hrange_w : 0 <= 0 < w ta) by lia.
  assert (Hfuel_h : Z.to_nat (h ta) = Z.to_nat (h ta - 0)) by (f_equal; lia).
  assert (Hfuel_w : Z.to_nat (w ta) = Z.to_nat (w ta - 0)) by (f_equal; lia).
  destruct (side_unused (func st) (fun i => tile ta + TileDiffXY MapSizeX 0 i) _ _ _)
    eqn:Hleft.
  { pose proof (side_unused_true _ _ _ _ 0 Hrange_h Hfuel_h Hleft) as Hun.
    destruct (IH (mkTileArea (tile ta + TileDiffXY MapSizeX 1 0) (w ta - 1) (h ta)))
      as (r & Hr & Hshr); cbn [w h]; try lia.
    exists r. split; [exact Hr|]. eapply shrunk_step; [|exact Hshr].
    intros i j (Hi & Hj & Hf).
    destruct (Z.eq_dec i 0) as [->|Hi0].
    { unfold tile_at in Hf. rewrite (Hun j) in Hf by lia. discriminate. }
    exists (i - 1), j. unfold member, tile_at, TileDiffXY in *. cbn [tile w h].
    replace (tile ta + (0 * MapSizeX + 1) + (j * MapSizeX + (i - 1)))
      with (tile ta + (j * MapSizeX + i)) by lia.
    repeat split; try lia. exact Hf. }
  destruct (side_unused (func st) (fun i => tile ta + TileDiffXY MapSizeX (w ta - 1) i) _ _ _)
    eqn:Hright.
  { pose proof (side_unused_true _ _ _ _ 0 Hrange_h Hfuel_h Hright) as Hun.
    destruct (IH (mkTileArea (tile ta) (w ta - 1) (h ta)))
      as (r & Hr & Hshr); cbn [w h]; try lia.
    exists r. split; [exact Hr|]. eapply shrunk_step; [|exact Hshr].
    intros i j (Hi & Hj & Hf).
    destruct (Z.eq_dec i (w ta - 1)) as [->|Hi0].
    { unfold tile_at in Hf. rewrite (Hun j) in Hf by lia. discriminate. }
    exists i, j. unfold member, tile_at, TileDiffXY in *. cbn [tile w h].
    repeat split; try lia. exact Hf. }
  destruct (side_unused (func st) (fun i => tile ta + TileDiffXY MapSizeX i 0) _ _ _)
    eqn:Hupper.
  { pose proof (side_unused_true _ _ _ _ 0 Hrange_w Hfuel_w Hupper) as Hun.
    destruct (IH (mkTileArea (tile ta + TileDiffXY MapSizeX 0 1) (w ta) (h ta - 1)))
      as (r & Hr & Hshr); cbn [w h]; try lia.
    exists r. split; [exact Hr|]. eapply shrunk_step; [|exact Hshr].
    intros i j (Hi & Hj & Hf).
    destruct (Z.eq_dec j 0) as [->|Hj0].
    { unfold tile_at in Hf. rewrite (Hun i) in Hf by lia. discriminate. }
    exists i, (j - 1). unfold member, tile_at, TileDiffXY in *. cbn [tile w h].
    replace (tile ta + (1 * MapSizeX + 0) + ((j - 1) * MapSizeX + i))
      with (tile ta + (j * MapSizeX + i)) by lia.
    repeat split; try lia. exact Hf. }
  destruct (side_unused (func st) (fun i => tile ta + TileDiffXY MapSizeX i (h ta - 1)) _ _ _)
    eqn:Hlower.
  { pose proof (side_unused_true _ _ _ _ 0 Hrange_w Hfuel_w Hlower) as Hun.
    destruct (IH (mkTileArea (tile ta) (w ta) (h ta - 1)))
      as (r & Hr & Hshr); cbn [w h]; try lia.
    exists r. split; [exact Hr|]. eapply shrunk_step; [|exact Hshr].
    intros i j (Hi & Hj & Hf).
    destruct (Z.eq_dec j (h ta - 1)) as [->|Hj0].
    { unfold tile_at in Hf. rewrite (Hun i) in Hf by lia. discriminate. }
    exists i, j. unfold member, tile_at, TileDiffXY in *. cbn [tile w h].
    repeat split; try lia. exact Hf. }
  (* every side is in use *)
  exists ta. split; [reflexivity|]. split.
  - intros i j (Hi & Hj & _). exists i, j. repeat split; lia.
  - left. split; [lia|]. split; [lia|]. unfold sides_populated, tile_at.
    destruct (side_unused_false _ _ _ _ 0 Hrange_h Hfuel_h Hleft) as (j1 & Hj1 & Hf1).
    destruct (side_unused_false _ _ _ _ 0 Hrange_h Hfuel_h Hright) as (j2 & Hj2 & Hf2).
    destruct (side_unused_false _ _ _ _ 0 Hrange_w Hfuel_w Hupper) as (i3 & Hi3 & Hf3).
    destruct (side_unused_false _ _ _ _ 0 Hrange_w Hfuel_w Hlower) as (i4 & Hi4 & Hf4).
    repeat split; eauto.
Qed.

(** C8. MakeStationAreaSmaller returns; the rectangle it returns holds
    every tile of the given rectangle that belongs to the station, and
    either each of its four outer rows and columns holds such a tile or it
    is the cleared (empty) area. *)
Theorem MakeStationAreaSmaller_shrinks ta :
  0 <= w ta -> 0 <= h ta ->
  exists r,
    MakeStationAreaSmaller MapSizeX INVALID_TILE BaseStation st ta func = Some r /\
    (forall i j, 0 <= i < w ta -> 0 <= j < h ta ->
       func st (tile_at' ta i j) = true ->
       exists i' j', 0 <= i' < w r /\ 0 <= j' < h r /\
                     tile_at' r i' j' = tile_at' ta i j) /\
    ((0 < w r /\ 0 < h r /\
      (exists j, 0 <= j < h r /\ func st (tile_at' r 0 j) = true) /\
      (exists j, 0 <= j < h r /\ func st (tile_at' r (w r - 1) j) = true) /\
      (exists i, 0 <= i < w r /\ func st (tile_at' r i 0) = true) /\
      (exists i, 0 <= i < w r /\ func st (tile_at' r i (h r - 1)) = true)) \/
     r = Clear INVALID_TILE).
Proof.
  intros Hw Hh. unfold MakeStationAreaSmaller.
  destruct (MakeStationAreaSmaller_loop_shrunk (S (Z.to_nat (w ta + h ta))) ta Hw Hh)
    as (r & Hr & Hcont & Hsides); [lia|].
  exists r. split; [exact Hr|]. split; [|exact Hsides].
  intros i j Hi Hj Hf. apply Hcont. unfold member. auto.
Qed.

End AreaSmallerFacts.

(** A 3 x 3 area on a map 8 tiles wide whose only station tile is the
    middle one. *)
Lemma MakeStationAreaSmaller_shrinks_witness :
  exists r,
    AreaSmaller.MakeStationAreaSmaller 8 (-1) unit tt (mkTileArea 0 3 3)
      (fun _ t => t =? 9) = Some r /\
    (forall i j, 0 <= i < 3 -> 0 <= j < 3 ->
       (AreaSmaller.tile_at 8 (mkTileArea 0 3 3) i j =? 9) = true ->
       exists i' j', 0 <= i' < w r /\ 0 <= j' < h r /\
                     AreaSmaller.tile_at 8 r i' j'
                       = AreaSmaller.tile_at 8 (mkTileArea 0 3 3) i j) /\
    ((0 < w r /\ 0 < h r /\
      (exists j, 0 <= j < h r /\ (AreaSmaller.tile_at 8 r 0 j =? 9) = true) /\
      (exists j, 0 <= j < h r /\ (AreaSmaller.tile_at 8 r (w r - 1) j =? 9) = true) /\
      (exists i, 0 <= i < w r /\ (AreaSmaller.tile_at 8 r i 0 =? 9) = true) /\
      (exists i, 0 <= i < w r /\ (AreaSmaller.tile_at 8 r i (h r - 1) =? 9) = true)) \/
     r = AreaSmaller.Clear (-1)).
Proof.
  apply (MakeStationAreaSmaller_shrinks 8 (-1) unit tt (fun _ t => t =? 9)
           (mkTileArea 0 3 3)); simpl; lia.
Defined.

(** ** GenerateStationName *)

Section NamingFacts.
Import Naming.

Variable STR_SV_STNAME : StringID.
Variable STR_SV_STNAME_FALLBACK : StringID.
Variable STR_SV_STNAME_OILFIELD : StringID.
Variable STR_SV_STNAME_MINES : StringID.
Variable STR_SV_STNAME_FOREST : StringID.
Variable STR_SV_STNAME_WOODS : StringID.
Variable STR_UNDEFINED : StringID.
Variable STR_NULL : StringID.
Variable IT_INVALID : IndustryType.
Variable NUM_INDUSTRYTYPES : nat.
Variable GetIndustrySpec : IndustryType -> IndustrySpec.
Variable IsIndustryTile : TileIndex -> bool.
Variable GetIndustryType : TileIndex -> IndustryType.
Variable SpiralTileSequence : TileIndex -> Z -> list TileIndex.
Variable DefaultNames : StationNameInformation -> Station -> TileIndex -> Z -> StringID.

(** The two names are default station names, as SetUsed asserts. *)
Hypothesis OILFIELD_is_default : STR_SV_STNAME <= STR_SV_STNAME_OILFIELD.
Hypothesis MINES_is_default : STR_SV_STNAME <= STR_SV_STNAME_MINES.

Local Abbreviation IsAvailable' := (IsAvailable STR_SV_STNAME).
Local Abbreviation SetUsed' := (SetUsed STR_SV_STNAME).
Local Abbreviation industry_scan' :=
  (industry_scan STR_SV_STNAME STR_SV_STNAME_OILFIELD STR_SV_STNAME_MINES
     STR_UNDEFINED STR_NULL GetIndustrySpec IsIndustryTile GetIndustryType).
Local Abbreviation names_station' :=
  (names_station STR_UNDEFINED GetIndustrySpec IsIndustryTile GetIndustryType).
Local Abbreviation both_used' :=
  (both_used STR_SV_STNAME STR_SV_STNAME_OILFIELD STR_SV_STNAME_MINES).
Local Abbreviation skipped' :=
  (skipped STR_UNDEFINED GetIndustrySpec IsIndustryTile GetIndustryType).
Local Abbreviation GenerateStationName' :=
  (GenerateStationName STR_SV_STNAME STR_SV_STNAME_FALLBACK STR_SV_STNAME_OILFIELD
     STR_SV_STNAME_MINES STR_SV_STNAME_FOREST STR_SV_STNAME_WOODS STR_UNDEFINED
     STR_NULL IT_INVALID NUM_INDUSTRYTYPES GetIndustrySpec IsIndustryTile
     GetIndustryType SpiralTileSequence DefaultNames).

Lemma SetUsed_used sni str :
  STR_SV_STNAME <= str -> IsAvailable' (SetUsed' sni str) str = false.
Proof.
  intros H. unfold IsAvailable, SetUsed. cbn [used_names].
  rewrite Z.setbit_eq by lia. reflexivity.
Qed.

Lemma SetUsed_keeps sni str str' :
  IsAvailable' sni str' = false -> IsAvailable' (SetUsed' sni str) str' = false.
Proof.
  unfold IsAvailable, SetUsed. cbn [used_names]. intros H.
  apply negb_false_iff in H. apply negb_false_iff.
  destruct (Z.eq_dec (str - STR_SV_STNAME) (str' - STR_SV_STNAME)) as [Heq|Hne].
  - rewrite Heq. apply Z.setbit_eq.
    destruct (Z.neg_nonneg_cases (str' - STR_SV_STNAME)) as [Hneg|Hpos]; [|exact Hpos].
    rewrite Z.testbit_neg_r in H by exact Hneg. discriminate.
  - destruct (Z.neg_nonneg_cases (str - STR_SV_STNAME)) as [Hneg|Hpos];
      [|rewrite Z.setbit_neq; [exact H|exact Hpos|exact Hne]].
    rewrite Z.setbit_spec', Z.pow_neg_r, Z.lor_0_r by exact Hneg. exact H.
Qed.


Lemma both_used_SetUsed sni :
  both_used' (SetUsed' (SetUsed' sni STR_SV_STNAME_OILFIELD) STR_SV_STNAME_MINES).
Proof.
  split.
  - apply SetUsed_keeps, SetUsed_used, OILFIELD_is_default.
  - apply SetUsed_used, MINES_is_default.
Qed.

(** Names in use stay in use during the scan. *)
Lemma industry_scan_keeps tiles :
  forall sni, both_used' sni -> both_used' (names_after_scan (industry_scan' tiles sni)).
Proof.
  induction tiles as [|t rest IH]; intros sni Hused; [exact Hused|].
  cbn [industry_scan].
  destruct (negb (IsIndustryTile t)); [apply IH, Hused|].
  destruct (_ =? STR_UNDEFINED); [apply IH, Hused|].
  destruct (Z.testbit _ _); [apply IH, both_used_SetUsed|].
  destruct (negb _); apply both_used_SetUsed.
Qed.

Lemma industry_scan_marks tiles :
  forall sni t, In t tiles -> names_station' t = true ->
    both_used' (names_after_scan (industry_scan' tiles sni)).
Proof.
  induction tiles as [|t' rest IH]; intros sni t Hin Hname; [destruct Hin|].
  cbn [industry_scan].
  destruct (IsIndustryTile t') eqn:Hind; cbn [negb].
  - destruct (station_name (GetIndustrySpec (GetIndustryType t')) =? STR_UNDEFINED)
      eqn:Hundef.
    + destruct Hin as [->|Hin]; [|eapply IH; eauto].
      unfold names_station in Hname. rewrite Hind, Hundef in Hname. discriminate.
    + destruct (Z.testbit _ _); [apply industry_scan_keeps, both_used_SetUsed|].
      destruct (negb _); apply both_used_SetUsed.
  - destruct Hin as [->|Hin]; [|eapply IH; eauto].
    unfold names_station in Hname. rewrite Hind in Hname. discriminate.
Qed.


Lemma industry_scan_claims pre :
  forall sni t post,
    Forall (skipped' sni) pre ->
    names_station' t = true ->
    Z.testbit (indtypes sni) (GetIndustryType t) = false ->
    station_name (GetIndustrySpec (GetIndustryType t)) <> STR_NULL ->
    exists sni', industry_scan' (pre ++ t :: post) sni = Claimed (GetIndustryType t) sni'.
Proof.
  induction pre as [|p pre IH]; intros sni t post Hpre Hname Hfree Hnull.
  - cbn [app industry_scan]. unfold names_station in Hname.
    apply andb_true_iff in Hname. destruct Hname as [Hind Hundef].
    rewrite Hind. cbn [negb]. apply negb_true_iff in Hundef. rewrite Hundef.
    cbn [SetUsed indtypes]. rewrite Hfree.
    destruct (Z.eqb_spec (station_name (GetIndustrySpec (GetIndustryType t))) STR_NULL);
      [contradiction|].
    cbn [negb]. eexists. reflexivity.
  - inversion Hpre as [|? ? Hp Hpre']; subst. cbn [app industry_scan].
    destruct (IsIndustryTile p) eqn:Hind; cbn [negb]; [|apply IH; assumption].
    destruct (station_name (GetIndustrySpec (GetIndustryType p)) =? STR_UNDEFINED)
      eqn:Hundef; [apply IH; assumption|].
    destruct Hp as [Hp|Hp].
    { unfold names_station in Hp. rewrite Hind, Hundef in Hp. discriminate. }
    cbn [SetUsed indtypes]. rewrite Hp.
    apply IH; assumption.
Qed.

(** C9. If the spiral around the tile holds an industry tile whose type
    names stations, "oilfield" and "mines" are in use when the scan is over,
    and GenerateStationName either claims an industry or hands these names
    in use to the cascade of default names, whose result it returns; and if
    the scan gets to such a tile whose name is not taken and is not
    STR_NULL, the station takes the industry type and the fallback string
    that prints the industry's name. *)
Theorem GenerateStationName_industry stations st tile name_class :
  let sni := fold_left
               (collect_step STR_SV_STNAME STR_SV_STNAME_FALLBACK STR_SV_STNAME_FOREST
                  STR_SV_STNAME_WOODS STR_UNDEFINED IT_INVALID NUM_INDUSTRYTYPES
                  GetIndustrySpec st)
               stations (mkSNI 0 0) in
  let spiral := SpiralTileSequence tile 7 in
  let marked := names_after_scan (industry_scan' spiral sni) in
  (forall t, In t spiral -> names_station' t = true ->
     IsAvailable' marked STR_SV_STNAME_OILFIELD = false /\
     IsAvailable' marked STR_SV_STNAME_MINES = false /\
     (GenerateStationName' stations st tile name_class
        = (st, DefaultNames marked st tile name_class) \/
      exists indtype,
        GenerateStationName' stations st tile name_class
          = (mkStation (index st) (town st) indtype (string_id st),
             STR_SV_STNAME_FALLBACK))) /\
  (forall pre t post,
     spiral = pre ++ t :: post ->
     Forall (skipped' sni) pre ->
     names_station' t = true ->
     Z.testbit (indtypes sni) (GetIndustryType t) = false ->
     station_name (GetIndustrySpec (GetIndustryType t)) <> STR_NULL ->
     GenerateStationName' stations st tile name_class
       = (mkStation (index st) (town st) (GetIndustryType t) (string_id st),
          STR_SV_STNAME_FALLBACK)).
Proof.
  intros sni spiral marked. split.
  - intros t Hin Hname.
    destruct (industry_scan_marks spiral sni t Hin Hname) as [Hoil Hmines].
    split; [exact Hoil|]. split; [exact Hmines|].
    unfold GenerateStationName. fold sni. fold spiral. subst marked.
    destruct (industry_scan' spiral sni) as [indtype sni'|sni'];
      cbn [names_after_scan].
    + right. exists indtype. reflexivity.
    + left. reflexivity.
  - intros pre t post Hsp Hpre Hname Hfree Hnull.
    unfold GenerateStationName. fold sni. fold spiral. rewrite Hsp.
    destruct (industry_scan_claims pre sni t post Hpre Hname Hfree Hnull)
      as [sni' Hscan].
    rewrite Hscan. reflexivity.
Qed.

End NamingFacts.


Lemma GenerateStationName_industry_witness :
  sample_GenerateStationName [] (Naming.mkStation 1 1 255 0) 10 0
    = (Naming.mkStation 1 1 3 0, 130).
Proof.
  apply (proj2 (GenerateStationName_industry 100 130 110 111 112 113 65535 0 255 8
                  (fun it => Naming.mkIndustrySpec true (if it =? 3 then 500 else 65535))
                  (fun t => t =? 42) (fun _ => 3) (fun t _ => [t; 42])
                  (fun _ _ _ _ => 100) ltac:(lia) ltac:(lia)
                  [] (Naming.mkStation 1 1 255 0) 10 0)
           [10] 42 []).
  - reflexivity.
  - constructor; [|constructor]. left. reflexivity.
  - reflexivity.
  - reflexivity.
  - simpl. discriminate.
Defined.

(** ** RemoveFromRailBaseStation *)

Section RailRemovalFacts.
Import RailRemoval.

Variable World : Type.
Variable HasStationTileRail : World -> TileIndex -> bool.
Variable EnsureNoVehicleOnGround : World -> TileIndex -> CommandCost.
Variable GetByTile : World -> TileIndex -> option StationID.
Variable station_owner : World -> StationID -> Z.
Variable CheckOwnership : Z -> CommandCost.
Variable IsStationTileBlocked : World -> TileIndex -> bool.
Variable current_company : Z.
Variable OWNER_WATER : Z.
Variable PR_CLEAR_RAIL : Z.
Variable ExecuteRemoval : bool -> TileIndex -> StationID -> World -> World.
Variable ShrinkAndCleanup : StationID -> World -> World.
Variable tiles_of : TileArea -> list TileIndex.

Local Abbreviation removal_step' :=
  (removal_step World HasStationTileRail EnsureNoVehicleOnGround GetByTile
     station_owner CheckOwnership IsStationTileBlocked current_company OWNER_WATER
     PR_CLEAR_RAIL ExecuteRemoval).
Local Abbreviation passes_checks' :=
  (passes_checks World HasStationTileRail EnsureNoVehicleOnGround GetByTile
     station_owner CheckOwnership current_company OWNER_WATER).
Local Abbreviation tile_errors' :=
  (tile_errors World HasStationTileRail EnsureNoVehicleOnGround GetByTile
     station_owner CheckOwnership current_company OWNER_WATER).
Local Abbreviation RemoveFromRailBaseStation' :=
  (RemoveFromRailBaseStation World HasStationTileRail EnsureNoVehicleOnGround
     GetByTile station_owner CheckOwnership IsStationTileBlocked current_company
     OWNER_WATER PR_CLEAR_RAIL ExecuteRemoval ShrinkAndCleanup tiles_of).

Lemma AddCost_failed c ret :
  Failed c = true ->
  Failed (AddCost c ret) = true /\ message (AddCost c ret) = message c.
Proof.
  unfold Failed, AddCost. destruct (success c); [discriminate|]. intros _.
  cbn [andb success message negb]. auto.
Qed.

Lemma AddCost_first_failure c ret :
  Failed c = false -> Failed ret = true ->
  Failed (AddCost c ret) = true /\ message (AddCost c ret) = message ret.
Proof.
  unfold Failed, AddCost. destruct (success c); [|discriminate].
  destruct (success ret); [discriminate|]. intros _ _.
  cbn [andb success message negb]. auto.
Qed.

Lemma AddCost_success c ret :
  Failed c = false -> Failed ret = false -> Failed (AddCost c ret) = false.
Proof.
  unfold Failed, AddCost. destruct (success c); [|discriminate].
  destruct (success ret); [|discriminate]. reflexivity.
Qed.


(** As long as no tile passes the checks nothing but the error
    accumulator changes. *)
Lemma removal_loop_nothing_passes execute keep_rail tiles :
  forall s,
    Forall (fun tile => passes_checks' (world s) tile = false) tiles ->
    let s' := fold_left (removal_step' execute keep_rail) tiles s in
    world s' = world s /\ affected_stations s' = affected_stations s /\
    quantity s' = quantity s /\
    (Failed (error s) = true ->
       Failed (error s') = true /\ message (error s') = message (error s)) /\
    (Failed (error s) = false ->
       error_reports (error s') (tile_errors' (world s) tiles)).
Proof.
  induction tiles as [|tile rest IH]; intros s Hnone.
  - cbn. repeat split; auto.
  - inversion Hnone as [|? ? Htile Hrest]; subst.
    cbn [fold_left tile_errors flat_map].
    assert (Hstep :
      let s1 := removal_step' execute keep_rail s tile in
      world s1 = world s /\ affected_stations s1 = affected_stations s /\
      quantity s1 = quantity s /\
      (Failed (error s) = true ->
         Failed (error s1) = true /\ message (error s1) = message (error s)) /\
      (Failed (error s) = false ->
         match tile_errors' (world s) [tile] with
         | [] => Failed (error s1) = false
         | e :: _ => Failed (error s1) = true /\ message (error s1) = message e
         end)).
    { unfold removal_step, passes_checks, tile_errors in *. cbn [flat_map].
      destruct (HasStationTileRail (world s) tile); cbn [negb andb] in *.
      2:{ repeat split; auto. }
      destruct (Failed (error s)) eqn:Herr.
      { destruct (AddCost_failed (error s) (EnsureNoVehicleOnGround (world s) tile) Herr)
          as [Hf Hm].
        rewrite Hf. cbn [world affected_stations quantity error].
        repeat split; auto. discriminate. }
      destruct (Failed (EnsureNoVehicleOnGround (world s) tile)) eqn:Hveh.
      { destruct (AddCost_first_failure _ _ Herr Hveh) as [Hf Hm].
        rewrite Hf. cbn [world affected_stations quantity error app].
        repeat split; auto. discriminate. }
      rewrite (AddCost_success _ _ Herr Hveh). cbn [negb andb] in Htile.
      destruct (GetByTile (world s) tile) as [st|].
      2:{ cbn [world affected_stations quantity error app].
          repeat split; auto; try discriminate.
          intros _. apply AddCost_success; assumption. }
      apply orb_false_iff in Htile. destruct Htile as [Hwater Hown].
      rewrite Hwater. cbn [negb andb]. apply negb_false_iff in Hown.
      rewrite Hown.
      destruct (AddCost_first_failure
                  (AddCost (error s) (EnsureNoVehicleOnGround (world s) tile))
                  (CheckOwnership (station_owner (world s) st))
                  (AddCost_success _ _ Herr Hveh) Hown) as [Hf Hm].
      rewrite Hf. cbn [world affected_stations quantity error app].
      repeat split; auto. discriminate. }
    cbv zeta in Hstep. destruct Hstep as (Hw & Ha & Hq & Hfail & Hfirst).
    specialize (IH (removal_step' execute keep_rail s tile)).
    rewrite Hw in IH. specialize (IH Hrest). cbv zeta in IH.
    destruct IH as (Hw' & Ha' & Hq' & Hfail' & Hfirst').
    split; [congruence|]. split; [congruence|]. split; [congruence|]. split.
    + intros Herr. destruct (Hfail Herr) as [Hf1 Hm1].
      destruct (Hfail' Hf1) as [Hf2 Hm2]. split; [exact Hf2|congruence].
    + intros Herr. specialize (Hfirst Herr). cbn [tile_errors flat_map] in Hfirst.
      rewrite app_nil_r in Hfirst. unfold error_reports.
      match goal with
      | |- context [?l ++ flat_map ?f rest] => destruct l as [|e l'] eqn:Hl
      end.
      * cbn [app]. apply Hfirst'. exact Hfirst.
      * cbn [app]. destruct Hfirst as [Hf1 Hm1].
        destruct (Hfail' Hf1) as [Hf2 Hm2]. split; [exact Hf2|congruence].
Qed.

(** C10. When no tile of the area passes the checks of the loop,
    RemoveFromRailBaseStation fails: with the message of the first failed
    check if a check failed, else with "there is no station"; the world and
    the list of affected stations are as before. *)
Theorem RemoveFromRailBaseStation_nothing_to_remove
    w0 ta affected execute removal_cost keep_rail :
  Forall (fun tile => passes_checks' w0 tile = false) (tiles_of ta) ->
  let '(ret, w1, affected1) :=
    RemoveFromRailBaseStation' w0 ta affected execute removal_cost keep_rail in
  Failed ret = true /\ w1 = w0 /\ affected1 = affected /\
  match tile_errors' w0 (tiles_of ta) with
  | [] => ret = CommandCost_error STR_ERROR_THERE_IS_NO_STATION
  | e :: _ => message ret = message e
  end.
Proof.
  intros Hnone. unfold RemoveFromRailBaseStation.
  pose proof (removal_loop_nothing_passes execute keep_rail (tiles_of ta)
                (mkRemoval w0 affected 0 CommandCost_ok CommandCost_ok) Hnone)
    as H.
  cbv zeta in H. cbn [world affected_stations quantity error] in H.
  destruct H as (Hw & Ha & Hq & _ & Hfirst). specialize (Hfirst eq_refl).
  rewrite Hq. cbn [Z.eqb]. unfold error_reports in Hfirst.
  destruct (tile_errors' w0 (tiles_of ta)) as [|e errors].
  - rewrite Hfirst. repeat split; auto.
  - destruct Hfirst as [Hf Hm]. rewrite Hf. repeat split; auto.
Qed.

End RailRemovalFacts.

(** The area holds one rail station tile, with a train on it. *)
Lemma RemoveFromRailBaseStation_nothing_to_remove_witness :
  let '(ret, w1, affected1) :=
    RailRemoval.RemoveFromRailBaseStation unit (fun _ t => t =? 7)
      (fun _ _ => CommandCost_error STR_ERROR_VEHICLE_IN_THE_WAY)
      (fun _ _ => Some 1) (fun _ _ => 2) (fun _ => CommandCost_ok)
      (fun _ _ => false) 2 17 5 (fun _ _ _ w => w) (fun _ w => w)
      (fun ta => [tile ta; tile ta + 1])
      tt (mkTileArea 6 2 1) [] true 100 false in
  Failed ret = true /\ w1 = tt /\ affected1 = [] /\
  match RailRemoval.tile_errors unit (fun _ t => t =? 7)
          (fun _ _ => CommandCost_error STR_ERROR_VEHICLE_IN_THE_WAY)
          (fun _ _ => Some 1) (fun _ _ => 2) (fun _ => CommandCost_ok) 2 17
          tt [6; 7] with
  | [] => ret = CommandCost_error STR_ERROR_THERE_IS_NO_STATION
  | e :: _ => message ret = message e
  end.
Proof.
  apply (RemoveFromRailBaseStation_nothing_to_remove unit (fun _ t => t =? 7)
           (fun _ _ => CommandCost_error STR_ERROR_VEHICLE_IN_THE_WAY)
           (fun _ _ => Some 1) (fun _ _ => 2) (fun _ => CommandCost_ok)
           (fun _ _ => false) 2 17 5 (fun _ _ _ w => w) (fun _ w => w)
           (fun ta => [tile ta; tile ta + 1])
           tt (mkTileArea 6 2 1) [] true 100 false).
  repeat constructor.
Defined.

(** ** FlowStat: shares of all destinations *)

Section GetShareFacts.
Import FlowStats FlowStatScaling.

Lemma GetShare_from_absent prev m st :
  ~ In st (destinations m) -> GetShare_from prev m st = 0.
Proof.
  revert prev. induction m as [|[k v] m IH]; intros prev Hnot; [reflexivity|].
  cbn [destinations List.map snd] in Hnot. cbn [GetShare_from].
  destruct (Z.eqb_spec v st) as [->|_]; [exfalso; apply Hnot; left; reflexivity|].
  apply IH. intros Hin. apply Hnot. right. exact Hin.
Qed.

Lemma GetShare_sizes m :
  forall pre, NoDup (destinations (pre ++ m)) ->
    List.map (GetShare_from 0 (pre ++ m)) (destinations m)
      = share_sizes_from (List.last (List.map fst pre) 0) m.
Proof.
  induction m as [|[k d] m IH]; intros pre Hnd; [reflexivity|].
  cbn [destinations List.map snd share_sizes_from]. f_equal.
  - apply GetShare_from_last_gen.
    unfold destinations in Hnd. rewrite List.map_app in Hnd.
    cbn [List.map snd] in Hnd. apply NoDup_remove_2 in Hnd.
    intros Hin. apply Hnd. apply in_or_app. left. exact Hin.
  - replace (pre ++ (k, d) :: m) with ((pre ++ [(k, d)]) ++ m) in *
      by (rewrite <- app_assoc; reflexivity).
    specialize (IH (pre ++ [(k, d)]) Hnd).
    rewrite List.map_app, last_app_default in IH. cbn [List.map fst List.last] in IH.
    exact IH.
Qed.

(** X1. A station that is no destination of the FlowStat has share 0, and
    the shares of the destinations add up to the last boundary. *)
Theorem GetShare_total fs :
  FlowStat_wf fs ->
  (forall st, ~ In st (destinations (shares fs)) -> GetShare fs st = 0) /\
  total_share fs = final_boundary (shares fs).
Proof.
  intros [Hok Hnd _]. split.
  - intros st Hnot. apply GetShare_from_absent. exact Hnot.
  - unfold total_share.
    pose proof (GetShare_sizes (shares fs) [] Hnd) as Hsizes.
    cbn [app List.map List.last] in Hsizes.
    change (GetShare fs) with (GetShare_from 0 (shares fs)). rewrite Hsizes.
    apply sum_shares_final. apply (SharesMap_ok_weaken 0); [lia|exact Hok].
Qed.

End GetShareFacts.

Lemma GetShare_total_witness :
  (forall st, ~ In st (FlowStats.destinations (FlowStats.shares three_shares)) ->
              FlowStats.GetShare three_shares st = 0) /\
  FlowStatScaling.total_share three_shares
    = FlowStats.final_boundary (FlowStats.shares three_shares).
Proof. apply (GetShare_total three_shares). exact three_shares_wf. Defined.

(** ** FlowStat: stations without a share, Invalidate, ScaleToMonthly *)

Section FlowStatScalingFacts.
Import FlowStats FlowStatScaling.

Lemma RestrictShare_loop_absent st m :
  forall last unr new,
    ~ In st (destinations m) ->
    match RestrictShare_loop m st (mkRestrict 0 last unr new) with
    | None => True
    | Some s => rs_flow s = 0 /\ rs_unrestricted s = unr
    end.
Proof.
  induction m as [|[k v] m IH]; intros last unr new Hnot.
  - cbn. split; reflexivity.
  - cbn [destinations List.map snd] in Hnot.
    cbn [RestrictShare_loop rs_flow rs_unrestricted rs_new_shares rs_last_share].
    rewrite Z.eqb_refl. destruct (unr <? k); [exact I|].
    destruct (Z.eqb_spec v st) as [->|_]; [exfalso; apply Hnot; left; reflexivity|].
    apply IH. intros Hin. apply Hnot. right. exact Hin.
Qed.

Lemma ReleaseShare_scan_absent st rm :
  forall unr next_share,
    ~ In st (destinations rm) ->
    match ReleaseShare_scan rm st unr next_share false with
    | RS_break _ _ => False
    | _ => True
    end.
Proof.
  induction rm as [|[k v] rm IH]; intros unr next_share Hnot; [exact I|].
  cbn [destinations List.map snd] in Hnot. cbn [ReleaseShare_scan].
  destruct (k <? unr); [exact I|]. destruct (k =? unr); [exact I|].
  destruct (Z.eqb_spec v st) as [->|_]; [exfalso; apply Hnot; left; reflexivity|].
  apply IH. intros Hin. apply Hnot. right. exact Hin.
Qed.

Lemma ReleaseShare_absent_eq st fs :
  shares fs <> [] -> ~ In st (destinations (shares fs)) ->
  ReleaseShare st fs = Some fs.
Proof.
  destruct fs as [m U]. cbn [shares unrestricted]. intros Hne Hnot.
  unfold ReleaseShare. cbn [shares unrestricted].
  pose proof (ReleaseShare_scan_absent st (rev m) U 0) as H.
  destruct (ReleaseShare_scan (rev m) st U 0 false).
  - destruct m; [congruence|reflexivity].
  - exfalso. apply H. unfold destinations. rewrite List.map_rev. intros Hin.
    apply in_rev in Hin. apply Hnot. exact Hin.
  - destruct m; [congruence|reflexivity].
Qed.

(** X2. RestrictShare and ReleaseShare for a station that has no share in
    the FlowStat change nothing. *)
Theorem Restrict_Release_absent st fs :
  shares fs <> [] -> ~ In st (destinations (shares fs)) ->
  RestrictShare st fs = Some fs /\ ReleaseShare st fs = Some fs.
Proof.
  intros Hne Hnot. split; [|apply ReleaseShare_absent_eq; assumption].
  destruct fs as [m U]. cbn [shares unrestricted] in *.
  unfold RestrictShare. cbn [shares unrestricted].
  pose proof (RestrictShare_loop_absent st m 0 U [] Hnot) as H.
  destruct (RestrictShare_loop m st (mkRestrict 0 0 U [])) as [s|].
  - destruct H as [Hflow Hunr]. rewrite Hflow, Hunr. cbn.
    destruct m; [congruence|reflexivity].
  - destruct m; [congruence|reflexivity].
Qed.

(** *** Invalidate *)

Lemma shares_upto_above limit lo m :
  SharesMap_ok lo m -> limit <= lo -> shares_upto limit m = 0%nat.
Proof.
  intros Hok. revert limit. induction Hok as [|lo k v m Hlo Hhi Hok IH];
    intros limit Hle; [reflexivity|].
  unfold shares_upto in *. cbn [List.filter fst].
  destruct (Z.leb_spec k limit); [lia|]. apply IH. lia.
Qed.

Lemma numbered_ok ds : forall from lo,
  lo < from -> from + Z.of_nat (length ds) <= 2 ^ 32 ->
  SharesMap_ok lo (numbered from ds).
Proof.
  induction ds as [|d ds IH]; intros from lo Hlo Hhi; [constructor|].
  cbn [numbered length] in *. constructor; [lia|lia|]. apply IH; lia.
Qed.

Lemma numbered_destinations ds from : destinations (numbered from ds) = ds.
Proof.
  revert from. induction ds as [|d ds IH]; intros from; [reflexivity|].
  cbn [numbered destinations List.map snd]. f_equal. apply IH.
Qed.

Lemma numbered_last ds : forall from d0,
  List.last (List.map fst (numbered from ds)) d0
    = match ds with [] => d0 | _ :: _ => from + Z.of_nat (length ds) - 1 end.
Proof.
  induction ds as [|d ds IH]; intros from d0; [reflexivity|].
  cbn [numbered List.map fst]. rewrite last_cons_default, IH.
  destruct ds; cbn [length]; lia.
Qed.

Lemma numbered_upto_below ds : forall from limit,
  limit < from -> shares_upto limit (numbered from ds) = 0%nat.
Proof.
  unfold shares_upto.
  induction ds as [|d ds IH]; intros from limit Hlt; [reflexivity|].
  cbn [numbered List.filter fst]. destruct (Z.leb_spec from limit); [lia|].
  apply IH. lia.
Qed.

Lemma numbered_upto ds : forall from n,
  (n <= length ds)%nat ->
  shares_upto (from + Z.of_nat n - 1) (numbered from ds) = n.
Proof.
  induction ds as [|d ds IH]; intros from n Hn.
  - cbn [length] in Hn. replace n with 0%nat by lia. reflexivity.
  - destruct n as [|n]; [apply numbered_upto_below; lia|].
    cbn [length] in Hn. unfold shares_upto. cbn [numbered List.filter fst].
    destruct (Z.leb_spec from (from + Z.of_nat (S n) - 1)); [|lia].
    cbn [length]. f_equal.
    replace (from + Z.of_nat (S n) - 1) with (from + 1 + Z.of_nat n - 1) by lia.
    apply IH. lia.
Qed.

Lemma numbered_keys ds : forall from k,
  In k (List.map fst (numbered from ds)) <->
  from <= k < from + Z.of_nat (length ds).
Proof.
  induction ds as [|d ds IH]; intros from k.
  - cbn. lia.
  - cbn [numbered List.map fst In length]. rewrite IH. lia.
Qed.

Lemma numbered_GetShare ds : forall from d,
  In d ds -> GetShare_from (from - 1) (numbered from ds) d = 1.
Proof.
  induction ds as [|d' ds IH]; intros from d Hin; [destruct Hin|].
  cbn [numbered GetShare_from]. destruct (Z.eqb_spec d' d) as [_|Hne].
  - replace (from - (from - 1)) with 1 by lia. reflexivity.
  - destruct Hin as [Heq|Hin]; [congruence|].
    replace from with (from + 1 - 1) at 1 by lia. apply IH. exact Hin.
Qed.

Lemma SharesMap_ok_key lo m k :
  SharesMap_ok lo m -> In k (List.map fst m) -> lo < k < 2 ^ 32.
Proof.
  intros Hok Hin. apply in_map_iff in Hin. destruct Hin as ([k' v] & Heq & Hin).
  cbn [fst] in Heq. subst k'. exact (SharesMap_ok_In lo m k v Hok Hin).
Qed.

Lemma SharesMap_ok_length lo m :
  SharesMap_ok lo m -> lo + Z.of_nat (length m) <= List.last (List.map fst m) lo.
Proof.
  intros Hok. induction Hok as [|lo k v m Hlo Hhi Hok IH]; [cbn; lia|].
  cbn [List.map fst length]. rewrite last_cons_default. lia.
Qed.

Lemma existsb_key unr (m : SharesMap) :
  existsb (Z.eqb unr) (List.map fst m) = true <-> In unr (List.map fst m).
Proof.
  rewrite existsb_exists. split.
  - intros (x & Hin & Heq). apply Z.eqb_eq in Heq. subst x. exact Hin.
  - intros Hin. exists unr. split; [exact Hin|apply Z.eqb_refl].
Qed.

Lemma Invalidate_loop_spec m :
  forall lo i unr new,
    SharesMap_ok lo m -> 0 <= i <= lo -> Forall (fun e => fst e <= i) new ->
    Invalidate_loop m i unr new
      = (if existsb (Z.eqb unr) (List.map fst m)
         then i + Z.of_nat (shares_upto unr m) else unr,
         new ++ numbered (i + 1) (destinations m)).
Proof.
  induction m as [|[k v] m IH]; intros lo i unr new Hok Hi Hnew.
  - cbn. rewrite app_nil_r. reflexivity.
  - inversion Hok as [|? ? ? ? Hlo Hhi Hok']; subst.
    cbn [Invalidate_loop]. rewrite (u32_small (i + 1)) by lia.
    rewrite map_set_append.
    2:{ eapply Forall_impl; [|exact Hnew]. cbn beta. intros e He. lia. }
    rewrite (IH k); [|exact Hok'|lia|].
    2:{ apply Forall_app. split.
        - eapply Forall_impl; [|exact Hnew]. cbn beta. intros e He. lia.
        - constructor; [cbn [fst]; lia|constructor]. }
    cbn [destinations List.map fst snd numbered existsb].
    rewrite <- app_assoc. cbn [app]. f_equal.
    unfold shares_upto. cbn [List.filter fst].
    destruct (Z.eqb_spec k unr) as [->|Hne].
    + rewrite Z.eqb_refl. cbn [orb].
      destruct (existsb (Z.eqb (i + 1)) (List.map fst m)) eqn:Hex.
      { apply existsb_key in Hex. pose proof (SharesMap_ok_key _ _ _ Hok' Hex). lia. }
      destruct (Z.leb_spec unr unr); [|lia]. cbn [length].
      pose proof (shares_upto_above unr unr m Hok' ltac:(lia)) as H0.
      unfold shares_upto in H0. rewrite H0. lia.
    + destruct (Z.eqb_spec unr k); [congruence|]. cbn [orb].
      destruct (existsb (Z.eqb unr) (List.map fst m)) eqn:Hex; [|reflexivity].
      apply existsb_key in Hex. pose proof (SharesMap_ok_key _ _ _ Hok' Hex).
      destruct (Z.leb_spec k unr); [|lia]. cbn [length]. lia.
Qed.

Lemma Invalidate_eq fs :
  FlowStat_wf fs -> shares fs <> [] ->
  Invalidate fs
    = Some (mkFlowStat (numbered 1 (destinations (shares fs)))
                       (Z.of_nat (unrestricted_count fs))).
Proof.
  intros [Hok Hnd Hlim] Hne. destruct fs as [m U].
  unfold unrestricted_count. cbn [shares unrestricted] in *.
  unfold Invalidate. cbn [shares unrestricted].
  rewrite (Invalidate_loop_spec m 0 0 U [] Hok ltac:(lia) ltac:(constructor)).
  cbn [app]. change (0 + 1) with 1.
  assert (Hunr : (if existsb (Z.eqb U) (List.map fst m)
                  then 0 + Z.of_nat (shares_upto U m) else U)
                 = Z.of_nat (shares_upto U m)).
  { destruct (existsb (Z.eqb U) (List.map fst m)) eqn:Hex; [lia|].
    destruct Hlim as [->|Hin].
    - rewrite (shares_upto_above 0 0 m Hok); lia.
    - apply existsb_key in Hin. congruence. }
  rewrite Hunr. clear Hunr.
  assert (Hcount : (shares_upto U m <= length (destinations m))%nat).
  { unfold shares_upto, destinations. rewrite length_map. apply filter_length_le. }
  assert (Hfinal : final_boundary (numbered 1 (destinations m))
                   = Z.of_nat (length (destinations m))).
  { unfold final_boundary. rewrite numbered_last.
    destruct m as [|[k v] m']; [congruence|].
    cbn [destinations List.map length]. lia. }
  destruct (numbered 1 (destinations m)) as [|e1 n1] eqn:Hnum.
  { destruct m as [|[k v] m']; [congruence|discriminate]. }
  destruct m as [|e m']; [congruence|].
  cbv beta iota. rewrite Hfinal.
  destruct (Z.leb_spec (Z.of_nat (shares_upto U (e :: m')))
              (Z.of_nat (length (destinations (e :: m'))))); [reflexivity|lia].
Qed.

(** X3. Invalidate gives the destinations, in their order, the boundaries
    1, 2, ..., n: every share becomes 1, the same number of shares stays
    unrestricted and the class invariant is kept. *)
Theorem Invalidate_flattens fs :
  FlowStat_wf fs -> shares fs <> [] ->
  exists fs',
    Invalidate fs = Some fs' /\
    shares fs' = numbered 1 (destinations (shares fs)) /\
    (forall d, In d (destinations (shares fs)) -> GetShare fs' d = 1) /\
    unrestricted_count fs' = unrestricted_count fs /\
    FlowStat_wf fs'.
Proof.
  intros Hwf Hne. rewrite (Invalidate_eq fs Hwf Hne).
  destruct Hwf as [Hok Hnd Hlim].
  eexists. split; [reflexivity|]. cbn [shares unrestricted].
  assert (Hcount : (unrestricted_count fs <= length (destinations (shares fs)))%nat).
  { unfold unrestricted_count, shares_upto, destinations.
    rewrite length_map. apply filter_length_le. }
  split; [reflexivity|]. split; [|split].
  - intros d Hin. unfold GetShare. cbn [shares].
    apply (numbered_GetShare (destinations (shares fs)) 1 d Hin).
  - unfold unrestricted_count at 1. cbn [shares unrestricted].
    replace (Z.of_nat (unrestricted_count fs))
      with (1 + Z.of_nat (unrestricted_count fs) - 1) by lia.
    apply numbered_upto. exact Hcount.
  - pose proof (SharesMap_ok_length 0 _ Hok) as Hlen.
    pose proof (last_key_bounds 0 _ Hok) as Hlast.
    assert (Hlen' : length (destinations (shares fs)) = length (shares fs))
      by (unfold destinations; apply length_map).
    constructor; cbn [shares unrestricted].
    + apply numbered_ok; [lia|]. rewrite Hlen'. lia.
    + rewrite numbered_destinations. exact Hnd.
    + destruct (unrestricted_count fs) as [|c] eqn:Hc; [left; reflexivity|].
      right. apply numbered_keys. lia.
Qed.

(** *** ScaleToMonthly *)

Lemma scaled_destinations runtime m :
  forall share, destinations (scaled runtime share m) = destinations m.
Proof.
  induction m as [|[k v] m IH]; intros share; [reflexivity|].
  cbn [scaled destinations List.map snd]. f_equal. apply IH.
Qed.

(** With no boundary above 2^32 / 30 nothing wraps: every new boundary
    lies above its predecessor and at most 30 times the old one. *)
Lemma scaled_ok runtime m :
  forall lo share,
    0 < runtime -> SharesMap_ok lo m -> 0 <= lo -> 0 <= share <= lo * 30 ->
    List.last (List.map fst m) lo * 30 < 2 ^ 32 ->
    SharesMap_ok share (scaled runtime share m).
Proof.
  induction m as [|[k v] m IH]; intros lo share Hrt Hok Hlo Hshare Hlast;
    [constructor|].
  inversion Hok as [|? ? ? ? Hk Hhi Hok']; subst.
  cbn [List.map fst] in Hlast. rewrite last_cons_default in Hlast.
  pose proof (last_key_bounds _ _ Hok') as Hb.
  assert (Hdiv : k * 30 / runtime <= k * 30)
    by (apply Z.div_le_upper_bound; nia).
  cbn [scaled]. constructor; [lia|lia|].
  apply (IH k); [exact Hrt|exact Hok'|lia|lia|exact Hlast].
Qed.

Lemma ScaleToMonthly_loop_shares runtime m :
  forall lo share unr new,
    0 < runtime -> SharesMap_ok lo m -> 0 <= lo -> 0 <= share <= lo * 30 ->
    List.last (List.map fst m) lo * 30 < 2 ^ 32 ->
    Forall (fun e => fst e <= share) new ->
    snd (ScaleToMonthly_loop runtime m share unr new)
      = new ++ scaled runtime share m.
Proof.
  induction m as [|[k v] m IH]; intros lo share unr new Hrt Hok Hlo Hshare Hlast Hnew.
  - cbn. rewrite app_nil_r. reflexivity.
  - inversion Hok as [|? ? ? ? Hk Hhi Hok']; subst.
    cbn [List.map fst] in Hlast. rewrite last_cons_default in Hlast.
    pose proof (last_key_bounds _ _ Hok') as Hb.
    assert (Hdiv : k * 30 / runtime <= k * 30)
      by (apply Z.div_le_upper_bound; nia).
    cbn [ScaleToMonthly_loop scaled].
    rewrite (u32_small (share + 1)), (u32_small (k * 30)) by lia.
    rewrite map_set_append.
    2:{ eapply Forall_impl; [|exact Hnew]. cbn beta. intros e He. lia. }
    rewrite (IH k); [|exact Hrt|exact Hok'|lia|lia|exact Hlast|].
    + rewrite <- app_assoc. reflexivity.
    + apply Forall_app. split.
      * eapply Forall_impl; [|exact Hnew]. cbn beta. intros e He. lia.
      * constructor; [cbn [fst]; lia|constructor].
Qed.

Lemma scaled_at_least runtime m :
  forall share,
    Forall2 (fun e e' => fst e * 30 / runtime <= fst e' /\ snd e' = snd e)
            m (scaled runtime share m).
Proof.
  induction m as [|[k v] m IH]; intros share; [constructor|].
  cbn [scaled]. constructor; [cbn [fst snd]; split; [lia|reflexivity]|apply IH].
Qed.

(** X4. ScaleToMonthly, for boundaries that do not overflow when multiplied
    by 30: the new boundaries are positive and strictly increasing, each at
    least the old one scaled by 30 / runtime, and the destinations keep
    their order. *)
Theorem ScaleToMonthly_increasing runtime fs :
  0 < runtime -> SharesMap_ok 0 (shares fs) ->
  final_boundary (shares fs) * 30 < 2 ^ 32 ->
  exists fs',
    ScaleToMonthly runtime fs = Some fs' /\
    SharesMap_ok 0 (shares fs') /\
    destinations (shares fs') = destinations (shares fs) /\
    Forall2 (fun e e' => fst e * 30 / runtime <= fst e' /\ snd e' = snd e)
            (shares fs) (shares fs').
Proof.
  intros Hrt Hok Hlast. unfold ScaleToMonthly.
  destruct (Z.ltb_spec 0 runtime); [|lia].
  pose proof (ScaleToMonthly_loop_shares runtime (shares fs) 0 0 (unrestricted fs) []
                Hrt Hok ltac:(lia) ltac:(lia) Hlast ltac:(constructor)) as Hsh.
  destruct (ScaleToMonthly_loop runtime (shares fs) 0 (unrestricted fs) [])
    as [unr new]. cbn [snd app] in Hsh. subst new.
  eexists. split; [reflexivity|]. cbn [shares].
  split; [|split].
  - apply (scaled_ok runtime (shares fs) 0 0); [exact Hrt|exact Hok|lia|lia|exact Hlast].
  - apply scaled_destinations.
  - apply scaled_at_least.
Qed.

Lemma ScaleToMonthly_loop_limit runtime m :
  forall lo share unr new,
    30 <= runtime -> SharesMap_ok lo m -> 0 <= share <= lo ->
    List.last (List.map fst m) lo * 30 < 2 ^ 32 ->
    let unr' := fst (ScaleToMonthly_loop runtime m share unr new) in
    (In unr (List.map fst m) ->
       share < unr' /\
       shares_upto unr' (scaled runtime share m) = shares_upto unr m /\
       In unr' (List.map fst (scaled runtime share m))) /\
    (unr <= share -> unr' = unr).
Proof.
  induction m as [|[k v] m IH]; intros lo share unr new Hrt Hok Hshare Hlast.
  - cbn. split; [intros []|reflexivity].
  - inversion Hok as [|? ? ? ? Hk Hhi Hok']; subst.
    cbn [List.map fst] in Hlast. rewrite last_cons_default in Hlast.
    pose proof (last_key_bounds _ _ Hok') as Hb.
    assert (Hdiv : k * 30 / runtime <= k)
      by (apply Z.div_le_upper_bound; nia).
    cbn [ScaleToMonthly_loop scaled].
    rewrite (u32_small (share + 1)), (u32_small (k * 30)) by lia.
    set (s := Z.max (share + 1) (k * 30 / runtime)).
    assert (Hs : share < s <= k) by (unfold s; lia).
    specialize (IH k s (if unr =? k then s else unr) (map_set s v new)
                  Hrt Hok' ltac:(lia) Hlast).
    cbv zeta in IH. cbv zeta. destruct IH as [IHin IHbelow].
    set (unr' := fst (ScaleToMonthly_loop runtime m s
                        (if unr =? k then s else unr) (map_set s v new))) in *.
    assert (Hscaled : SharesMap_ok s (scaled runtime s m)).
    { apply (scaled_ok runtime m k s); [lia|exact Hok'|lia|lia|exact Hlast]. }
    split.
    + intros Hin. cbn [List.map fst In] in Hin.
      unfold shares_upto. cbn [List.filter fst List.map In].
      destruct (Z.eqb_spec unr k) as [->|Hne].
      * rewrite (IHbelow ltac:(lia)).
        destruct (Z.leb_spec s s); [|lia]. destruct (Z.leb_spec k k); [|lia].
        cbn [length].
        pose proof (shares_upto_above s s _ Hscaled ltac:(lia)) as H1.
        pose proof (shares_upto_above k k _ Hok' ltac:(lia)) as H2.
        unfold shares_upto in H1, H2. rewrite H1, H2.
        split; [lia|]. split; [reflexivity|]. left. reflexivity.
      * destruct Hin as [Heq|Hin]; [congruence|].
        destruct (IHin Hin) as (Hlt & Hcount & Hin').
        pose proof (SharesMap_ok_key _ _ _ Hok' Hin) as Hbig.
        destruct (Z.leb_spec s unr'); [|lia]. destruct (Z.leb_spec k unr); [|lia].
        cbn [length]. unfold shares_upto in Hcount. rewrite Hcount.
        split; [lia|]. split; [reflexivity|]. right. exact Hin'.
    + intros Hle. destruct (Z.eqb_spec unr k); [lia|]. apply IHbelow. lia.
Qed.

(** X5. When the link graph ran for at least 30 days, ScaleToMonthly keeps
    the split between unrestricted and restricted shares: the same number
    of shares lies at or below the limit, and the class invariant holds
    afterwards. *)
Theorem ScaleToMonthly_keeps_split runtime fs :
  30 <= runtime -> FlowStat_wf fs ->
  final_boundary (shares fs) * 30 < 2 ^ 32 ->
  exists fs',
    ScaleToMonthly runtime fs = Some fs' /\
    unrestricted_count fs' = unrestricted_count fs /\
    FlowStat_wf fs'.
Proof.
  intros Hrt [Hok Hnd Hlim] Hlast. unfold ScaleToMonthly.
  destruct (Z.ltb_spec 0 runtime); [|lia].
  pose proof (ScaleToMonthly_loop_shares runtime (shares fs) 0 0 (unrestricted fs) []
                ltac:(lia) Hok ltac:(lia) ltac:(lia) Hlast ltac:(constructor)) as Hsh.
  pose proof (ScaleToMonthly_loop_limit runtime (shares fs) 0 0 (unrestricted fs) []
                Hrt Hok ltac:(lia) Hlast) as Hunr.
  cbv zeta in Hunr.
  destruct (ScaleToMonthly_loop runtime (shares fs) 0 (unrestricted fs) [])
    as [unr new]. cbn [fst snd app] in Hsh, Hunr. subst new.
  destruct Hunr as [Hin Hbelow].
  assert (Hscaled : SharesMap_ok 0 (scaled runtime 0 (shares fs))).
  { apply (scaled_ok runtime (shares fs) 0 0); [lia|exact Hok|lia|lia|exact Hlast]. }
  eexists. split; [reflexivity|].
  unfold unrestricted_count. cbn [shares unrestricted].
  destruct Hlim as [H0|HU].
  - rewrite H0 in *. rewrite (Hbelow ltac:(lia)).
    split.
    + rewrite (shares_upto_above 0 0 _ Hscaled), (shares_upto_above 0 0 _ Hok); lia.
    + constructor; cbn [shares unrestricted].
      * exact Hscaled.
      * rewrite scaled_destinations. exact Hnd.
      * left. reflexivity.
  - destruct (Hin HU) as (_ & Hcount & Hin').
    split; [exact Hcount|].
    constructor; cbn [shares unrestricted].
    + exact Hscaled.
    + rewrite scaled_destinations. exact Hnd.
    + right. exact Hin'.
Qed.

End FlowStatScalingFacts.

(** ** ChangeShare: adding and removing part of a share *)

Section ChangeShareMoves.
Import FlowStats FlowStatScaling.

(** The loop over entries of other stations copies them, raised by what
    was added and lowered by what was removed so far. *)
Lemma ChangeShare_loop_shift X m :
  forall removed added last flow unr new,
    SharesMap_ok last m -> ~ In X (destinations m) ->
    0 <= removed < 2 ^ 32 -> 0 <= added -> 0 <= last ->
    removed <= last + added ->
    List.last (List.map fst m) last + added < 2 ^ 32 ->
    Forall (fun e => fst e <= last + added - removed) new ->
    ChangeShare_loop X m (mkChange removed added last flow unr new)
      = mkChange removed added (List.last (List.map fst m) last) flow unr
                 (new ++ shift_down (removed - added) m).
Proof.
  unfold ChangeShare_loop.
  induction m as [|[k v] m IH];
    intros removed added last flow unr new Hok Hnot Hr Ha Hl Hle Hlast Hnew.
  - cbn. rewrite app_nil_r. reflexivity.
  - inversion Hok as [|? ? ? ? Hlo Hhi Hok']; subst.
    cbn [List.map fst] in Hlast. rewrite last_cons_default in Hlast.
    pose proof (last_key_bounds _ _ Hok') as Hb.
    cbn [destinations List.map snd] in Hnot.
    cbn [fold_left ChangeShare_step cs_flow cs_new_shares cs_removed_shares
           cs_added_shares cs_unrestricted cs_last_share].
    destruct (Z.eqb_spec v X) as [->|_]; [exfalso; apply Hnot; left; reflexivity|].
    rewrite (u32_small (k + added)), (u32_small (k + added - removed)) by lia.
    rewrite map_set_append.
    2:{ eapply Forall_impl; [|exact Hnew]. cbn beta. intros e He. lia. }
    rewrite IH; [|exact Hok'|intros Hin; apply Hnot; right; exact Hin
                 |lia|lia|lia|lia|exact Hlast|].
    + cbn [List.map fst snd shift_down]. rewrite last_cons_default, <- app_assoc.
      cbn [app]. replace (k - (removed - added)) with (k + added - removed) by lia.
      reflexivity.
    + apply Forall_app. split.
      * eapply Forall_impl; [|exact Hnew]. cbn beta. intros e He. lia.
      * constructor; [cbn [fst]; lia|constructor].
Qed.

Lemma to_int_small x : 0 <= x <= INT_MAX -> to_int x = x.
Proof.
  unfold to_int, INT_MAX. intros Hx. rewrite u32_small by lia.
  destruct (Z.ltb_spec x (2 ^ 31)); lia.
Qed.


Lemma to_int_range x : INT_MIN <= x <= INT_MAX -> to_int x = x.
Proof.
  unfold INT_MIN, INT_MAX. intros Hx.
  destruct (Z.ltb_spec x 0) as [Hneg|Hpos]; [|apply to_int_small; unfold INT_MAX; lia].
  unfold to_int, u32.
  replace (x mod 2 ^ 32) with (x + 2 ^ 32).
  - destruct (Z.ltb_spec (x + 2 ^ 32) (2 ^ 31)); lia.
  - apply Z.mod_unique with (q := -1); lia.
Qed.

Lemma SharesMap_ok_join lo pre m :
  SharesMap_ok lo pre -> SharesMap_ok (List.last (List.map fst pre) lo) m ->
  SharesMap_ok lo (pre ++ m).
Proof.
  intros Hpre. induction Hpre as [|lo k v pre Hlo Hhi Hpre IH]; intros Hm.
  - exact Hm.
  - cbn [List.map fst] in Hm. rewrite last_cons_default in Hm.
    cbn [app]. constructor; [exact Hlo|exact Hhi|apply IH; exact Hm].
Qed.

Lemma shift_down_ok d lo m :
  SharesMap_ok lo m -> List.last (List.map fst m) lo - d < 2 ^ 32 ->
  SharesMap_ok (lo - d) (shift_down d m).
Proof.
  intros Hok. induction Hok as [|lo k v m Hlo Hhi Hok IH]; intros Hlast;
    [constructor|].
  cbn [List.map fst] in Hlast. rewrite last_cons_default in Hlast.
  pose proof (last_key_bounds _ _ Hok) as Hb.
  cbn [shift_down List.map fst snd]. constructor; [lia|lia|].
  apply IH. exact Hlast.
Qed.

Lemma shift_down_twice d d' m :
  shift_down d (shift_down d' m) = shift_down (d' + d) m.
Proof.
  unfold shift_down. rewrite List.map_map. apply List.map_ext.
  intros [k v]. cbn [fst snd]. f_equal. lia.
Qed.

Lemma final_boundary_split pre k X post :
  final_boundary (pre ++ (k, X) :: post) = List.last (List.map fst post) k.
Proof.
  unfold final_boundary. rewrite List.map_app, last_app_default.
  cbn [List.map fst]. apply last_cons_default.
Qed.

(** ChangeShare(X, flow) on a map that holds X once, for a flow that
    leaves part of the share. *)
Lemma ChangeShare_existing_eq pre k X post U flow :
  SharesMap_ok 0 (pre ++ (k, X) :: post) ->
  ~ In X (destinations pre) -> ~ In X (destinations post) ->
  0 <= U < 2 ^ 32 ->
  INT_MIN < flow <= INT_MAX ->
  - (k - List.last (List.map fst pre) 0) < flow ->
  List.last (List.map fst post) k + flow < 2 ^ 32 ->
  ChangeShare X flow (mkFlowStat (pre ++ (k, X) :: post) U)
    = Some (mkFlowStat (pre ++ (k + flow, X) :: shift_down (- flow) post)
                       (if k <=? U then u32 (U + flow) else U)).
Proof.
  intros Hok Hpre Hpost HU Hflow Hpart Hlast.
  destruct (SharesMap_ok_app 0 pre _ Hok) as [Hokpre Hokrest].
  inversion Hokrest as [|? ? ? ? Hlo Hhi Hokpost]; subst.
  pose proof (last_key_bounds _ _ Hokpre) as Hlastpre.
  pose proof (last_key_bounds _ _ Hokpost) as Hlastpost.
  set (lastpre := List.last (List.map fst pre) 0) in *.
  unfold INT_MIN, INT_MAX in Hflow.
  unfold ChangeShare. cbn [shares unrestricted].
  destruct (pre ++ (k, X) :: post) eqn:Hm.
  { apply app_eq_nil in Hm. destruct Hm; discriminate. }
  rewrite <- Hm. clear Hm.
  unfold ChangeShare_loop. rewrite fold_left_app.
  pose proof (ChangeShare_loop_shift X pre 0 0 0 flow U [] Hokpre Hpre
                ltac:(lia) ltac:(lia) ltac:(lia) ltac:(lia) ltac:(lia)
                ltac:(constructor)) as Hphase1.
  unfold ChangeShare_loop in Hphase1. rewrite Hphase1. fold lastpre.
  change (0 - 0) with 0. rewrite shift_down_0. cbn [app fold_left].
  cbn [ChangeShare_step cs_flow cs_new_shares cs_removed_shares
         cs_added_shares cs_unrestricted cs_last_share].
  rewrite Z.eqb_refl.
  assert (Hbelow : Forall (fun e => fst e < k + flow) pre).
  { eapply Forall_impl; [|exact (SharesMap_ok_below 0 pre Hokpre)].
    cbn beta. fold lastpre. intros e He. lia. }
  destruct (Z.ltb_spec flow 0) as [Hneg|Hpos].
  - rewrite (u32_small (k - lastpre)) by lia.
    rewrite (u32_small (- flow)) by lia.
    destruct (Z.eqb_spec flow INT_MIN) as [Heq|_]; [unfold INT_MIN in Heq; lia|].
    destruct (Z.leb_spec (k - lastpre) (- flow)); [lia|]. cbn [orb].
    rewrite Z.add_0_l, Z.add_0_r, (u32_small (- flow)), (u32_small k) by lia.
    rewrite (u32_small (k - - flow)) by lia.
    replace (k - - flow) with (k + flow) by lia.
    rewrite map_set_append by exact Hbelow.
    pose proof (ChangeShare_loop_shift X post (- flow) 0 k 0
                  (if k <=? U then u32 (U + flow) else U)
                  (pre ++ [(k + flow, X)]) Hokpost Hpost
                  ltac:(lia) ltac:(lia) ltac:(lia) ltac:(lia) ltac:(lia)) as Hphase3.
    unfold ChangeShare_loop in Hphase3. rewrite Hphase3.
    + cbn [cs_flow cs_new_shares cs_unrestricted]. change (0 <? 0) with false.
      cbv iota. rewrite <- app_assoc. cbn [app].
      replace (- flow - 0) with (- flow) by lia. reflexivity.
    + apply Forall_app. split.
      * eapply Forall_impl; [|exact Hbelow]. cbn beta. intros e He. lia.
      * constructor; [cbn [fst]; lia|constructor].
  - rewrite Z.add_0_l, (u32_small flow) by lia. rewrite (u32_small flow) by lia.
    rewrite (u32_small (k + flow)) by lia. rewrite Z.sub_0_r.
    rewrite (u32_small (k + flow)) by lia.
    rewrite map_set_append by exact Hbelow.
    pose proof (ChangeShare_loop_shift X post 0 flow k 0
                  (if k <=? U then u32 (U + flow) else U)
                  (pre ++ [(k + flow, X)]) Hokpost Hpost
                  ltac:(lia) ltac:(lia) ltac:(lia) ltac:(lia) ltac:(lia)) as Hphase3.
    unfold ChangeShare_loop in Hphase3. rewrite Hphase3.
    + cbn [cs_flow cs_new_shares cs_unrestricted]. change (0 <? 0) with false.
      cbv iota. rewrite <- app_assoc. cbn [app].
      replace (0 - flow) with (- flow) by lia. reflexivity.
    + apply Forall_app. split.
      * eapply Forall_impl; [|exact Hbelow]. cbn beta. intros e He. lia.
      * constructor; [cbn [fst]; lia|constructor].
Qed.


(** ChangeShare(X, flow) with a flow that takes all of X's share, or more. *)
Lemma ChangeShare_remove_whole_eq pre k X post U flow :
  SharesMap_ok 0 (pre ++ (k, X) :: post) ->
  ~ In X (destinations pre) -> ~ In X (destinations post) ->
  flow = INT_MIN \/ INT_MIN <= flow <= - (k - List.last (List.map fst pre) 0) ->
  ChangeShare X flow (mkFlowStat (pre ++ (k, X) :: post) U)
    = Some (mkFlowStat
              (pre ++ shift_down (k - List.last (List.map fst pre) 0) post)
              (if k <=? U then u32 (U - (k - List.last (List.map fst pre) 0))
               else U)).
Proof.
  intros Hok Hpre Hpost Hflow.
  destruct (SharesMap_ok_app 0 pre _ Hok) as [Hokpre Hokrest].
  inversion Hokrest as [|? ? ? ? Hlo Hhi Hokpost]; subst.
  pose proof (last_key_bounds _ _ Hokpre) as Hlastpre.
  pose proof (last_key_bounds _ _ Hokpost) as Hlastpost.
  set (lastpre := List.last (List.map fst pre) 0) in *.
  unfold ChangeShare. cbn [shares unrestricted].
  destruct (pre ++ (k, X) :: post) eqn:Hm.
  { apply app_eq_nil in Hm. destruct Hm; discriminate. }
  rewrite <- Hm. clear Hm.
  unfold ChangeShare_loop. rewrite fold_left_app.
  pose proof (ChangeShare_loop_shift X pre 0 0 0 flow U [] Hokpre Hpre
                ltac:(lia) ltac:(lia) ltac:(lia) ltac:(lia) ltac:(lia)
                ltac:(constructor)) as Hphase1.
  unfold ChangeShare_loop in Hphase1. rewrite Hphase1. fold lastpre.
  change (0 - 0) with 0. rewrite shift_down_0. cbn [app fold_left].
  cbn [ChangeShare_step cs_flow cs_new_shares cs_removed_shares
         cs_added_shares cs_unrestricted cs_last_share].
  rewrite Z.eqb_refl.
  destruct (Z.ltb_spec flow 0) as [Hneg|Hpos];
    [|destruct Hflow as [->|Hflow]; unfold INT_MIN in *; lia].
  rewrite (u32_small (k - lastpre)) by lia.
  assert (Hcond : (flow =? INT_MIN) || (k - lastpre <=? u32 (- flow)) = true).
  { destruct (Z.eqb_spec flow INT_MIN) as [|Hne]; [reflexivity|]. cbn [orb].
    destruct Hflow as [|Hflow]; [congruence|].
    unfold INT_MIN in *. rewrite (u32_small (- flow)) by lia.
    apply Z.leb_le. lia. }
  rewrite Hcond. rewrite Z.add_0_l, (u32_small (k - lastpre)) by lia.
  set (flow' := if flow =? INT_MIN then flow else to_int (flow + (k - lastpre))).
  assert (Hflow' : flow' <= 0).
  { unfold flow'. destruct (Z.eqb_spec flow INT_MIN) as [|Hne]; [lia|].
    destruct Hflow as [|Hflow]; [congruence|].
    rewrite to_int_range; unfold INT_MIN, INT_MAX in *; lia. }
  pose proof (ChangeShare_loop_shift X post (k - lastpre) 0 k flow'
                (if k <=? U then u32 (U - (k - lastpre)) else U) pre
                Hokpost Hpost
                ltac:(lia) ltac:(lia) ltac:(lia) ltac:(lia) ltac:(lia)) as Hphase3.
  unfold ChangeShare_loop in Hphase3. rewrite Hphase3.
  - cbn [cs_flow cs_new_shares cs_unrestricted].
    destruct (Z.ltb_spec 0 flow'); [lia|].
    rewrite Z.sub_0_r. reflexivity.
  - eapply Forall_impl; [|exact (SharesMap_ok_below 0 pre Hokpre)].
    cbn beta. fold lastpre. intros e He. lia.
Qed.

(** ChangeShare(X, flow) with a positive flow for a station that has no
    share yet. *)
Lemma ChangeShare_add_new_eq m X U flow :
  m <> [] -> SharesMap_ok 0 m -> ~ In X (destinations m) ->
  0 <= U <= final_boundary m -> 0 < flow <= INT_MAX ->
  final_boundary m + flow < 2 ^ 32 ->
  ChangeShare X flow (mkFlowStat m U)
    = Some (mkFlowStat (m ++ [(final_boundary m + flow, X)])
                       (if U <? final_boundary m then U else U + flow)).
Proof.
  intros Hne Hok Hnot HU Hflow Hlast. unfold final_boundary in *.
  pose proof (last_key_bounds _ _ Hok) as Hb.
  unfold INT_MAX in Hflow.
  pose proof (ChangeShare_loop_shift X m 0 0 0 flow U [] Hok Hnot
                ltac:(lia) ltac:(lia) ltac:(lia) ltac:(lia) ltac:(lia)
                ltac:(constructor)) as Hloop.
  pose proof (SharesMap_ok_below 0 m Hok) as Hbelow.
  pose proof (ReleaseShare_absent_eq X (mkFlowStat m U) Hne Hnot) as Hrel.
  remember (List.last (List.map fst m) 0) as final eqn:Hfinal.
  unfold ChangeShare. cbn [shares unrestricted].
  rewrite Hloop. change (0 - 0) with 0. rewrite shift_down_0.
  cbn [app cs_flow cs_new_shares cs_unrestricted cs_last_share].
  destruct (Z.ltb_spec 0 flow); [|lia].
  rewrite (u32_small flow), (u32_small (final + flow)) by lia.
  rewrite map_set_append.
  2:{ eapply Forall_impl; [|exact Hbelow]. cbn beta. intros e0 He. lia. }
  rewrite Hrel. cbn [unrestricted].
  rewrite (u32_small (U + flow)) by lia.
  destruct m; [congruence|]. destruct (U <? final); reflexivity.
Qed.


(** A destination of a FlowStat splits the map in the shares before and
    after its own. *)
Lemma destination_split (m : SharesMap) X :
  NoDup (destinations m) -> In X (destinations m) ->
  exists pre k post,
    m = pre ++ (k, X) :: post /\
    ~ In X (destinations pre) /\ ~ In X (destinations post).
Proof.
  intros Hnd Hin. unfold destinations in Hin. apply in_map_iff in Hin.
  destruct Hin as ([k v] & Hv & Hin). cbn [snd] in Hv. subst v.
  apply in_split in Hin. destruct Hin as (pre & post & ->).
  exists pre, k, post. split; [reflexivity|].
  unfold destinations in *. rewrite List.map_app in Hnd. cbn [List.map snd] in Hnd.
  apply NoDup_remove_2 in Hnd.
  split; intros Hin; apply Hnd; apply in_or_app; [left|right]; exact Hin.
Qed.

Lemma GetShare_from_skip d pre rest :
  forall prev, ~ In d (destinations pre) ->
    GetShare_from prev (pre ++ rest) d
      = GetShare_from (List.last (List.map fst pre) prev) rest d.
Proof.
  induction pre as [|[k v] pre IH]; intros prev Hnot; [reflexivity|].
  cbn [destinations List.map snd fst] in *. rewrite last_cons_default.
  cbn [app GetShare_from].
  destruct (Z.eqb_spec v d) as [->|_]; [exfalso; apply Hnot; left; reflexivity|].
  apply IH. intros Hin. apply Hnot. right. exact Hin.
Qed.

Lemma GetShare_from_prefix d pre rest rest' :
  forall prev, In d (destinations pre) ->
    GetShare_from prev (pre ++ rest) d = GetShare_from prev (pre ++ rest') d.
Proof.
  induction pre as [|[k v] pre IH]; intros prev Hin; [destruct Hin|].
  cbn [destinations List.map snd] in Hin. cbn [app GetShare_from].
  destruct (Z.eqb_spec v d) as [_|Hne]; [reflexivity|].
  destruct Hin as [Heq|Hin]; [congruence|]. apply IH. exact Hin.
Qed.

Lemma GetShare_from_shift c d m :
  forall prev, GetShare_from (prev - c) (shift_down c m) d = GetShare_from prev m d.
Proof.
  induction m as [|[k v] m IH]; intros prev; [reflexivity|].
  cbn [shift_down List.map fst snd GetShare_from].
  destruct (v =? d).
  - f_equal. lia.
  - apply IH.
Qed.

(** What a change of X's share does to the share of another station:
    nothing. *)
Lemma GetShare_other pre k k' X post c d :
  d <> X -> k' = k - c ->
  GetShare_from 0 (pre ++ (k', X) :: shift_down c post) d
    = GetShare_from 0 (pre ++ (k, X) :: post) d.
Proof.
  intros Hne ->. destruct (in_dec Z.eq_dec d (destinations pre)) as [Hin|Hnot].
  - apply GetShare_from_prefix. exact Hin.
  - rewrite !GetShare_from_skip by exact Hnot. cbn [GetShare_from].
    destruct (Z.eqb_spec X d); [congruence|]. apply GetShare_from_shift.
Qed.

(** X6. ChangeShare with a flow that leaves part of X's share (any
    positive flow, or a negative one smaller than the share) changes X's
    share by the flow, keeps the share of every other station, moves the
    last boundary by the flow and moves the limit of the unrestricted shares
    with it exactly when X's share is unrestricted. *)
Theorem ChangeShare_changes_one_share pre k X post U flow :
  SharesMap_ok 0 (pre ++ (k, X) :: post) ->
  ~ In X (destinations pre) -> ~ In X (destinations post) ->
  0 <= U <= final_boundary (pre ++ (k, X) :: post) ->
  INT_MIN < flow <= INT_MAX ->
  - GetShare (mkFlowStat (pre ++ (k, X) :: post) U) X < flow ->
  final_boundary (pre ++ (k, X) :: post) + flow < 2 ^ 32 ->
  exists fs',
    ChangeShare X flow (mkFlowStat (pre ++ (k, X) :: post) U) = Some fs' /\
    GetShare fs' X = GetShare (mkFlowStat (pre ++ (k, X) :: post) U) X + flow /\
    (forall d, d <> X ->
       GetShare fs' d = GetShare (mkFlowStat (pre ++ (k, X) :: post) U) d) /\
    final_boundary (shares fs') = final_boundary (pre ++ (k, X) :: post) + flow /\
    unrestricted fs' = (if k <=? U then U + flow else U).
Proof.
  intros Hok Hpre Hpost HU Hflow Hpart Hlast.
  destruct (SharesMap_ok_app 0 pre _ Hok) as [Hokpre Hokrest].
  inversion Hokrest as [|? ? ? ? Hlo Hhi Hokpost]; subst.
  pose proof (last_key_bounds _ _ Hokpre) as Hlastpre.
  pose proof (last_key_bounds _ _ Hokpost) as Hlastpost.
  rewrite final_boundary_split in *.
  assert (Hshare : GetShare (mkFlowStat (pre ++ (k, X) :: post) U) X
                   = k - List.last (List.map fst pre) 0).
  { unfold GetShare. cbn [shares]. rewrite GetShare_from_last_gen by exact Hpre.
    apply u32_small. lia. }
  rewrite Hshare in *.
  rewrite (ChangeShare_existing_eq pre k X post U flow Hok Hpre Hpost
             ltac:(lia) Hflow Hpart Hlast).
  eexists. split; [reflexivity|]. cbn [shares unrestricted].
  split; [|split; [|split]].
  - unfold GetShare. cbn [shares]. rewrite GetShare_from_last_gen by exact Hpre.
    rewrite u32_small by lia. lia.
  - intros d Hne. unfold GetShare. cbn [shares].
    apply GetShare_other; [exact Hne|lia].
  - rewrite final_boundary_split.
    replace (k + flow) with (k - - flow) by lia. rewrite shift_down_last. lia.
  - destruct (Z.leb_spec k U); [|reflexivity]. apply u32_small. lia.
Qed.

(** X7. ChangeShare with a positive flow for a station without a share
    appends a share of that size behind the others and keeps their shares.
    The limit of the unrestricted shares moves with it only if no share was
    restricted; else the new share lies behind the limit. *)
Theorem ChangeShare_appends_new_share m X U flow :
  m <> [] -> SharesMap_ok 0 m -> ~ In X (destinations m) ->
  0 <= U <= final_boundary m -> 0 < flow <= INT_MAX ->
  final_boundary m + flow < 2 ^ 32 ->
  exists fs',
    ChangeShare X flow (mkFlowStat m U) = Some fs' /\
    shares fs' = m ++ [(final_boundary m + flow, X)] /\
    GetShare fs' X = flow /\
    (forall d, d <> X -> GetShare fs' d = GetShare (mkFlowStat m U) d) /\
    unrestricted fs' = (if U <? final_boundary m then U else U + flow).
Proof.
  intros Hne Hok Hnot HU Hflow Hlast.
  rewrite (ChangeShare_add_new_eq m X U flow Hne Hok Hnot HU Hflow Hlast).
  eexists. split; [reflexivity|]. cbn [shares unrestricted].
  split; [reflexivity|]. split; [|split; [|reflexivity]].
  - unfold GetShare. cbn [shares]. rewrite GetShare_from_last_gen by exact Hnot.
    unfold final_boundary in *. unfold INT_MAX in *.
    pose proof (last_key_bounds _ _ Hok). rewrite u32_small; lia.
  - intros d Hd. unfold GetShare. cbn [shares].
    destruct (in_dec Z.eq_dec d (destinations m)) as [Hin|Hnin].
    + pose proof (GetShare_from_prefix d m [(final_boundary m + flow, X)] [] 0 Hin)
        as Heq.
      rewrite app_nil_r in Heq. exact Heq.
    + rewrite GetShare_from_skip by exact Hnin. cbn [GetShare_from].
      destruct (Z.eqb_spec X d); [congruence|].
      symmetry. apply GetShare_from_absent. exact Hnin.
Qed.

(** X8. Taking away more than X has takes away X's share and no more:
    for every flow between INT_MIN and minus the share, ChangeShare does
    what the erasing call with INT_MIN does. *)
Theorem ChangeShare_removes_at_most_share fs X flow :
  FlowStat_wf fs -> shares fs <> [] ->
  INT_MIN <= flow <= - GetShare fs X ->
  ChangeShare X flow fs = ChangeShare X INT_MIN fs.
Proof.
  intros [Hok Hnd _] Hne Hflow. destruct fs as [m U]. cbn [shares] in *.
  destruct (in_dec Z.eq_dec X (destinations m)) as [Hin|Hnot].
  - destruct (destination_split m X Hnd Hin) as (pre & k & post & -> & Hpre & Hpost).
    destruct (SharesMap_ok_app 0 pre _ Hok) as [Hokpre Hokrest].
    inversion Hokrest as [|? ? ? ? Hlo Hhi Hokpost]; subst.
    pose proof (last_key_bounds _ _ Hokpre) as Hlastpre.
    unfold GetShare in Hflow. cbn [shares] in Hflow.
    rewrite GetShare_from_last_gen in Hflow by exact Hpre.
    rewrite u32_small in Hflow by lia.
    rewrite (ChangeShare_remove_whole_eq pre k X post U flow Hok Hpre Hpost)
      by (right; exact Hflow).
    rewrite (ChangeShare_remove_whole_eq pre k X post U INT_MIN Hok Hpre Hpost)
      by (left; reflexivity).
    reflexivity.
  - unfold GetShare in Hflow. cbn [shares] in Hflow.
    rewrite GetShare_from_absent in Hflow by exact Hnot.
    pose proof (last_key_bounds _ _ Hok) as Hb.
    unfold ChangeShare. cbn [shares unrestricted].
    rewrite !(ChangeShare_loop_shift X m 0 0 0 _ U [] Hok Hnot)
      by (try lia; constructor).
    cbn [cs_flow cs_new_shares cs_unrestricted].
    destruct (Z.ltb_spec 0 flow); [lia|]. change (0 <? INT_MIN) with false.
    reflexivity.
Qed.

(** X9. Adding a flow to X and taking the same flow away again gives the
    FlowStat back, whether X had a share before or not. *)
Theorem ChangeShare_add_then_remove fs X flow :
  FlowStat_wf fs -> shares fs <> [] ->
  0 < flow <= INT_MAX -> final_boundary (shares fs) + flow < 2 ^ 32 ->
  exists fs1,
    ChangeShare X flow fs = Some fs1 /\ ChangeShare X (- flow) fs1 = Some fs.
Proof.
  intros [Hok Hnd Hlim] Hne Hflow Hlast. destruct fs as [m U].
  cbn [shares unrestricted] in *.
  assert (HU : 0 <= U <= final_boundary m).
  { unfold final_boundary. pose proof (last_key_bounds _ _ Hok) as Hb.
    destruct Hlim as [->|Hin]; [lia|].
    apply in_map_iff in Hin. destruct Hin as ([k v] & Hk & Hin). cbn [fst] in Hk.
    subst k. pose proof (SharesMap_ok_In _ _ _ _ Hok Hin).
    pose proof (SharesMap_ok_below 0 m Hok) as Hbelow.
    rewrite Forall_forall in Hbelow. specialize (Hbelow _ Hin). cbn [fst] in Hbelow.
    lia. }
  unfold INT_MAX in Hflow.
  destruct (in_dec Z.eq_dec X (destinations m)) as [Hin|Hnot].
  - destruct (destination_split m X Hnd Hin) as (pre & k & post & -> & Hpre & Hpost).
    destruct (SharesMap_ok_app 0 pre _ Hok) as [Hokpre Hokrest].
    inversion Hokrest as [|? ? ? ? Hlo Hhi Hokpost]; subst.
    pose proof (last_key_bounds _ _ Hokpre) as Hlastpre.
    pose proof (last_key_bounds _ _ Hokpost) as Hlastpost.
    rewrite final_boundary_split in *.
    rewrite (ChangeShare_existing_eq pre k X post U flow Hok Hpre Hpost);
      [|lia|unfold INT_MIN, INT_MAX; lia|lia|exact Hlast].
    eexists. split; [reflexivity|].
    assert (Hok1 : SharesMap_ok 0 (pre ++ (k + flow, X) :: shift_down (- flow) post)).
    { apply SharesMap_ok_join; [exact Hokpre|].
      constructor; [lia|lia|].
      replace (k + flow) with (k - - flow) by lia.
      apply shift_down_ok; [exact Hokpost|lia]. }
    assert (Hpost1 : ~ In X (destinations (shift_down (- flow) post)))
      by (rewrite shift_down_destinations; exact Hpost).
    assert (Hlast1 : List.last (List.map fst (shift_down (- flow) post)) (k + flow)
                     = List.last (List.map fst post) k + flow).
    { replace (k + flow) with (k - - flow) by lia. rewrite shift_down_last. lia. }
    rewrite (ChangeShare_existing_eq pre (k + flow) X _ _ (- flow) Hok1 Hpre Hpost1);
      [| |unfold INT_MIN, INT_MAX; lia|lia|rewrite Hlast1; lia].
    + rewrite shift_down_twice.
      replace (- flow + - - flow) with 0 by lia. rewrite shift_down_0.
      replace (k + flow + - flow) with k by lia.
      f_equal. f_equal.
      destruct (Z.leb_spec k U).
      * rewrite (u32_small (U + flow)) by lia.
        destruct (Z.leb_spec (k + flow) (U + flow)); [|lia].
        rewrite u32_small; lia.
      * destruct (Z.leb_spec (k + flow) U); [lia|reflexivity].
    + destruct (Z.leb_spec k U); [|lia]. pose proof (u32_range (U + flow)). lia.
  - rewrite (ChangeShare_add_new_eq m X U flow Hne Hok Hnot HU);
      [|unfold INT_MAX; lia|exact Hlast].
    eexists. split; [reflexivity|].
    unfold final_boundary in *.
    pose proof (last_key_bounds _ _ Hok) as Hb.
    assert (Hok1 : SharesMap_ok 0 (m ++ [(List.last (List.map fst m) 0 + flow, X)])).
    { apply SharesMap_ok_join; [exact Hok|].
      constructor; [lia|lia|constructor]. }
    rewrite (ChangeShare_remove_whole_eq m _ X [] _ (- flow) Hok1 Hnot);
      [|intros []|right; unfold INT_MIN; lia].
    cbn [shift_down List.map]. rewrite app_nil_r. f_equal. f_equal.
    destruct (Z.ltb_spec U (List.last (List.map fst m) 0)).
    + destruct (Z.leb_spec (List.last (List.map fst m) 0 + flow) U); [lia|reflexivity].
    + destruct (Z.leb_spec (List.last (List.map fst m) 0 + flow) (U + flow)); [|lia].
      rewrite u32_small; lia.
Qed.

End ChangeShareMoves.

(** ** ChangeShare keeps the class invariant *)

Section ChangeShareInvariant.
Import FlowStats FlowStatScaling.

Lemma shift_down_key c x m :
  In x (List.map fst m) -> In (x - c) (List.map fst (shift_down c m)).
Proof.
  intros Hin. unfold shift_down. rewrite List.map_map. cbn [fst].
  apply in_map_iff in Hin. destruct Hin as (e & He & Hin). subst x.
  apply in_map_iff. exists e. split; [reflexivity|exact Hin].
Qed.

Lemma last_key_In (m : SharesMap) lo :
  m <> [] -> In (List.last (List.map fst m) lo) (List.map fst m).
Proof.
  intros Hne. destruct m as [|e m]; [congruence|].
  cbn [List.map]. rewrite last_cons_default.
  generalize (fst e). clear. induction m as [|e' m IH]; intros k.
  - left. reflexivity.
  - cbn [List.map]. rewrite last_cons_default.
    destruct (IH (fst e')) as [Heq|Hin].
    + right. left. exact Heq.
    + right. right. exact Hin.
Qed.

(** Where the limit of the unrestricted shares can lie in a map that holds
    X at boundary k. *)
Lemma limit_cases pre k (X : StationID) post U :
  SharesMap_ok 0 (pre ++ (k, X) :: post) ->
  U = 0 \/ In U (List.map fst (pre ++ (k, X) :: post)) ->
  (U < k /\ (U = 0 \/ In U (List.map fst pre))) \/
  U = k \/
  (k < U /\ In U (List.map fst post)).
Proof.
  intros Hok Hlim.
  destruct (SharesMap_ok_app 0 pre _ Hok) as [Hokpre Hokrest].
  inversion Hokrest as [|? ? ? ? Hlo Hhi Hokpost]; subst.
  pose proof (last_key_bounds _ _ Hokpre) as Hlastpre.
  destruct Hlim as [->|Hin]; [left; split; [lia|left; reflexivity]|].
  rewrite List.map_app in Hin. apply in_app_or in Hin.
  destruct Hin as [Hin|[Heq|Hin]].
  - left. pose proof (SharesMap_ok_below 0 pre Hokpre) as Hbelow.
    apply in_map_iff in Hin. destruct Hin as (e & He & Hin).
    rewrite Forall_forall in Hbelow. specialize (Hbelow e Hin).
    split; [lia|]. right. apply in_map_iff. exists e. split; assumption.
  - right. left. cbn [fst] in Heq. congruence.
  - right. right. pose proof (SharesMap_ok_key _ _ _ Hokpost Hin).
    split; [lia|exact Hin].
Qed.

Lemma limit_bound m U :
  SharesMap_ok 0 m -> U = 0 \/ In U (List.map fst m) ->
  0 <= U <= final_boundary m.
Proof.
  intros Hok Hlim. unfold final_boundary.
  pose proof (last_key_bounds _ _ Hok) as Hb.
  destruct Hlim as [->|Hin]; [lia|].
  apply in_map_iff in Hin. destruct Hin as ([k v] & Hk & Hin). cbn [fst] in Hk.
  subst k. pose proof (SharesMap_ok_In _ _ _ _ Hok Hin).
  pose proof (SharesMap_ok_below 0 m Hok) as Hbelow.
  rewrite Forall_forall in Hbelow. specialize (Hbelow _ Hin). cbn [fst] in Hbelow.
  lia.
Qed.

(** The three shapes of the result of ChangeShare are well-formed. *)
Lemma wf_remove_whole pre k X post U :
  FlowStat_wf (mkFlowStat (pre ++ (k, X) :: post) U) ->
  FlowStat_wf
    (mkFlowStat (pre ++ shift_down (k - List.last (List.map fst pre) 0) post)
                (if k <=? U then u32 (U - (k - List.last (List.map fst pre) 0))
                 else U)).
Proof.
  intros [Hok Hnd Hlim]. cbn [shares unrestricted] in *.
  destruct (SharesMap_ok_app 0 pre _ Hok) as [Hokpre Hokrest].
  inversion Hokrest as [|? ? ? ? Hlo Hhi Hokpost]; subst.
  pose proof (last_key_bounds _ _ Hokpre) as Hlastpre.
  pose proof (last_key_bounds _ _ Hokpost) as Hlastpost.
  pose proof (limit_cases pre k X post U Hok Hlim) as Hcases.
  pose proof (limit_bound _ U Hok Hlim) as HU. rewrite final_boundary_split in HU.
  set (share := k - List.last (List.map fst pre) 0) in *.
  constructor; cbn [shares unrestricted].
  - apply SharesMap_ok_join; [exact Hokpre|].
    replace (List.last (List.map fst pre) 0) with (k - share)
      by (unfold share; lia).
    apply shift_down_ok; [exact Hokpost|unfold share; lia].
  - unfold destinations in *. rewrite List.map_app in *.
    fold (destinations (shift_down share post)).
    rewrite shift_down_destinations. cbn [List.map snd] in Hnd.
    apply NoDup_remove_1 in Hnd. exact Hnd.
  - rewrite List.map_app.
    destruct Hcases as [[Hlt Hpre']|[->|[Hgt Hpost']]].
    + destruct (Z.leb_spec k U); [lia|].
      destruct Hpre' as [->|Hpre']; [left; reflexivity|].
      right. apply in_or_app. left. exact Hpre'.
    + rewrite Z.leb_refl. rewrite u32_small by (unfold share; lia).
      replace (k - share) with (List.last (List.map fst pre) 0)
        by (unfold share; lia).
      destruct pre as [|e pre']; [left; reflexivity|].
      right. apply in_or_app. left. apply last_key_In. discriminate.
    + destruct (Z.leb_spec k U); [|lia].
      rewrite u32_small by (unfold share; lia).
      right. apply in_or_app. right. apply shift_down_key. exact Hpost'.
Qed.

Lemma wf_change_part pre k X post U flow :
  FlowStat_wf (mkFlowStat (pre ++ (k, X) :: post) U) ->
  - (k - List.last (List.map fst pre) 0) < flow ->
  List.last (List.map fst post) k + flow < 2 ^ 32 ->
  FlowStat_wf
    (mkFlowStat (pre ++ (k + flow, X) :: shift_down (- flow) post)
                (if k <=? U then u32 (U + flow) else U)).
Proof.
  intros [Hok Hnd Hlim] Hpart Hlast. cbn [shares unrestricted] in *.
  destruct (SharesMap_ok_app 0 pre _ Hok) as [Hokpre Hokrest].
  inversion Hokrest as [|? ? ? ? Hlo Hhi Hokpost]; subst.
  pose proof (last_key_bounds _ _ Hokpre) as Hlastpre.
  pose proof (last_key_bounds _ _ Hokpost) as Hlastpost.
  pose proof (limit_cases pre k X post U Hok Hlim) as Hcases.
  pose proof (limit_bound _ U Hok Hlim) as HU. rewrite final_boundary_split in HU.
  constructor; cbn [shares unrestricted].
  - apply SharesMap_ok_join; [exact Hokpre|].
    constructor; [lia|lia|].
    replace (k + flow) with (k - - flow) by lia.
    apply shift_down_ok; [exact Hokpost|lia].
  - unfold destinations in *. rewrite List.map_app in *. cbn [List.map snd] in *.
    fold (destinations (shift_down (- flow) post)).
    rewrite shift_down_destinations. exact Hnd.
  - rewrite List.map_app. cbn [List.map fst].
    destruct Hcases as [[Hlt Hpre']|[->|[Hgt Hpost']]].
    + destruct (Z.leb_spec k U); [lia|].
      destruct Hpre' as [->|Hpre']; [left; reflexivity|].
      right. apply in_or_app. left. exact Hpre'.
    + rewrite Z.leb_refl. rewrite u32_small by lia.
      right. apply in_or_app. right. left. reflexivity.
    + destruct (Z.leb_spec k U); [|lia]. rewrite u32_small by lia.
      right. apply in_or_app. right. right.
      replace (U + flow) with (U - - flow) by lia.
      apply shift_down_key. exact Hpost'.
Qed.

Lemma wf_append m X U flow :
  FlowStat_wf (mkFlowStat m U) -> ~ In X (destinations m) ->
  0 < flow -> final_boundary m + flow < 2 ^ 32 ->
  FlowStat_wf
    (mkFlowStat (m ++ [(final_boundary m + flow, X)])
                (if U <? final_boundary m then U else U + flow)).
Proof.
  intros [Hok Hnd Hlim] Hnot Hflow Hlast. cbn [shares unrestricted] in *.
  pose proof (limit_bound m U Hok Hlim) as HU.
  unfold final_boundary in *. pose proof (last_key_bounds _ _ Hok) as Hb.
  constructor; cbn [shares unrestricted].
  - apply SharesMap_ok_join; [exact Hok|]. constructor; [lia|lia|constructor].
  - unfold destinations. rewrite List.map_app. cbn [List.map snd].
    apply NoDup_app; [exact Hnd|repeat constructor; intros []|].
    intros a Ha [<-|[]]. exact (Hnot Ha).
  - rewrite List.map_app. cbn [List.map fst].
    destruct (Z.ltb_spec U (List.last (List.map fst m) 0)).
    + destruct Hlim as [->|Hin]; [left; reflexivity|].
      right. apply in_or_app. left. exact Hin.
    + right. apply in_or_app. right. left. f_equal. lia.
Qed.

(** X10. ChangeShare keeps the class invariant of FlowStat, whatever the
    station and the flow, as long as the last boundary stays below 2^32:
    boundaries positive and increasing, every destination once, the limit
    of the unrestricted shares 0 or a boundary. *)
Theorem ChangeShare_keeps_invariant fs X flow :
  FlowStat_wf fs -> shares fs <> [] ->
  INT_MIN <= flow <= INT_MAX ->
  final_boundary (shares fs) + flow < 2 ^ 32 ->
  exists fs', ChangeShare X flow fs = Some fs' /\ FlowStat_wf fs'.
Proof.
  intros Hwf Hne Hflow Hlast. destruct fs as [m U].
  pose proof Hwf as [Hok Hnd Hlim]. cbn [shares unrestricted] in *.
  pose proof (limit_bound m U Hok Hlim) as HU.
  destruct (in_dec Z.eq_dec X (destinations m)) as [Hin|Hnot].
  - destruct (destination_split m X Hnd Hin) as (pre & k & post & -> & Hpre & Hpost).
    destruct (SharesMap_ok_app 0 pre _ Hok) as [Hokpre Hokrest].
    inversion Hokrest as [|? ? ? ? Hlo Hhi Hokpost]; subst.
    pose proof (last_key_bounds _ _ Hokpost) as Hlastpost.
    rewrite final_boundary_split in *.
    assert (Hcase : (flow = INT_MIN \/
                     INT_MIN <= flow <= - (k - List.last (List.map fst pre) 0)) \/
                    (INT_MIN < flow /\
                     - (k - List.last (List.map fst pre) 0) < flow)) by lia.
    destruct Hcase as [Hwhole|[Hmin Hpart]].
    + rewrite (ChangeShare_remove_whole_eq pre k X post U flow Hok Hpre Hpost)
        by exact Hwhole.
      eexists. split; [reflexivity|]. apply (wf_remove_whole pre k X post U Hwf).
    + rewrite (ChangeShare_existing_eq pre k X post U flow Hok Hpre Hpost)
        by lia.
      eexists. split; [reflexivity|]. apply wf_change_part; assumption.
  - destruct (Z.ltb_spec 0 flow) as [Hpos|Hneg].
    + rewrite (ChangeShare_add_new_eq m X U flow Hne Hok Hnot HU) by lia.
      eexists. split; [reflexivity|]. apply wf_append; assumption.
    + pose proof (last_key_bounds _ _ Hok) as Hb.
      unfold ChangeShare. cbn [shares unrestricted].
      rewrite (ChangeShare_loop_shift X m 0 0 0 flow U [] Hok Hnot)
        by (try lia; constructor).
      cbn [cs_flow cs_new_shares cs_unrestricted app].
      destruct (Z.ltb_spec 0 flow); [lia|].
      change (0 - 0) with 0. rewrite shift_down_0.
      destruct m as [|e m'] eqn:Hm; [congruence|]. rewrite <- Hm in *.
      eexists. split; [reflexivity|]. exact Hwf.
Qed.

End ChangeShareInvariant.

(** ** FlowStatMap *)

Section FlowStatMapFacts.
Import FlowStats FlowStatScaling FlowStatMaps.

(** What erasing [via] from one FlowStat of the map leaves. *)
Lemma ChangeShare_erase_result fs via :
  FlowStat_wf fs -> shares fs <> [] ->
  exists fs',
    ChangeShare via INT_MIN fs = Some fs' /\
    FlowStat_wf fs' /\
    ~ In via (destinations (shares fs')) /\
    (shares fs' = [] <-> only_via via fs = true).
Proof.
  intros Hwf Hne. pose proof Hwf as [Hok Hnd _]. destruct fs as [m U].
  cbn [shares] in *. unfold only_via. cbn [shares].
  destruct (in_dec Z.eq_dec via (destinations m)) as [Hin|Hnot].
  - destruct (destination_split m via Hnd Hin) as (pre & k & post & -> & Hpre & Hpost).
    rewrite (ChangeShare_remove_whole_eq pre k via post U INT_MIN Hok Hpre Hpost)
      by (left; reflexivity).
    eexists. split; [reflexivity|].
    split; [apply (wf_remove_whole pre k via post U Hwf)|]. cbn [shares].
    split.
    + unfold destinations. rewrite List.map_app.
      fold (destinations (shift_down (k - List.last (List.map fst pre) 0) post)).
      rewrite shift_down_destinations. intros Hin'. apply in_app_or in Hin'.
      destruct Hin' as [Hin'|Hin']; [exact (Hpre Hin')|exact (Hpost Hin')].
    + unfold destinations. rewrite List.map_app. cbn [List.map snd].
      destruct pre as [|[k0 v0] pre'].
      * destruct post as [|e post']; cbn [app shift_down List.map].
        -- rewrite Z.eqb_refl. split; reflexivity.
        -- split; [discriminate|]. destruct post'; discriminate.
      * cbn [app List.map snd]. split; [discriminate|].
        destruct (List.map snd pre'); cbn [app]; [|discriminate].
        destruct (List.map snd post); discriminate.
  - pose proof (last_key_bounds _ _ Hok) as Hb.
    unfold ChangeShare. cbn [shares unrestricted].
    rewrite (ChangeShare_loop_shift via m 0 0 0 INT_MIN U [] Hok Hnot)
      by (try lia; constructor).
    cbn [cs_flow cs_new_shares cs_unrestricted app].
    change (0 <? INT_MIN) with false. change (0 - 0) with 0.
    rewrite shift_down_0.
    destruct m as [|e m'] eqn:Hm; [congruence|]. rewrite <- Hm in *.
    eexists. split; [reflexivity|]. split; [exact Hwf|]. cbn [shares].
    split; [exact Hnot|]. split; [congruence|].
    destruct (destinations m) as [|d [|d' ds]] eqn:Hd; try discriminate.
    destruct (Z.eqb_spec d via) as [->|]; [|discriminate].
    exfalso. apply Hnot. left. reflexivity.
Qed.

Lemma DeleteFlows_loop_spec via m :
  FlowStatMap_wf m ->
  forall ret,
  exists m',
    DeleteFlows_loop via m ret
      = Some (rev (origins (List.filter (fun it => only_via via (snd it)) m)) ++ ret,
              m') /\
    FlowStatMap_wf m' /\
    Forall (fun it => ~ In via (destinations (shares (snd it)))) m' /\
    origins m'
      = origins (List.filter (fun it => negb (only_via via (snd it))) m).
Proof.
  unfold FlowStatMap_wf. intros Hwf.
  induction Hwf as [|[origin fs] m [Hfs Hne] Hwf IH]; intros ret.
  - exists []. cbn. repeat split; constructor.
  - cbn [snd] in *.
    destruct (ChangeShare_erase_result fs via Hfs Hne)
      as (fs' & Heq & Hwf' & Hnot & Hempty).
    cbn [DeleteFlows_loop List.filter snd]. rewrite Heq.
    destruct (shares fs') as [|e sh] eqn:Hsh.
    + rewrite (proj1 Hempty eq_refl). cbn [negb origins List.map fst rev].
      destruct (IH (origin :: ret)) as (m' & Hloop & Hm' & Hvia & Horig).
      exists m'. rewrite Hloop. rewrite <- app_assoc. cbn [app].
      repeat split; assumption.
    + destruct (only_via via fs) eqn:Honly.
      { destruct Hempty as [_ Hempty]. discriminate (Hempty eq_refl). }
      cbn [negb origins List.map fst].
      destruct (IH ret) as (m' & Hloop & Hm' & Hvia & Horig).
      exists ((origin, fs') :: m'). rewrite Hloop.
      split; [reflexivity|]. split; [|split].
      * constructor; [|exact Hm']. cbn [snd]. split; [exact Hwf'|].
        rewrite Hsh. discriminate.
      * constructor; [|exact Hvia]. cbn [snd]. rewrite Hsh. exact Hnot.
      * cbn [origins List.map fst]. f_equal. exact Horig.
Qed.

Lemma GetFlowVia_absent via m :
  Forall (fun it => ~ In via (destinations (shares (snd it)))) m ->
  GetFlowVia m via = 0.
Proof.
  unfold GetFlowVia. intros Hall. induction Hall as [|it m Hnot Hall IH];
    [reflexivity|].
  cbn [fold_left]. unfold GetShare at 2. rewrite GetShare_from_absent by exact Hnot.
  exact IH.
Qed.

(** X11. DeleteFlows(via) on a map of well-formed FlowStats: afterwards no
    FlowStat has a share for [via], so the flow via it is 0; the FlowStats
    that are left are well-formed and not empty; the returned stack holds,
    last erased first, exactly the origins whose only destination was
    [via], and the other origins stay in the map. *)
Theorem DeleteFlows_erases via m :
  FlowStatMap_wf m ->
  exists ret m',
    DeleteFlows via m = Some (ret, m') /\
    FlowStatMap_wf m' /\
    Forall (fun it => ~ In via (destinations (shares (snd it)))) m' /\
    GetFlowVia m' via = 0 /\
    rev ret = origins (List.filter (fun it => only_via via (snd it)) m) /\
    origins m' = origins (List.filter (fun it => negb (only_via via (snd it))) m).
Proof.
  intros Hwf.
  destruct (DeleteFlows_loop_spec via m Hwf []) as (m' & Hloop & Hm' & Hvia & Horig).
  unfold DeleteFlows. rewrite Hloop, app_nil_r.
  eexists. exists m'. split; [reflexivity|].
  split; [exact Hm'|]. split; [exact Hvia|].
  split; [apply GetFlowVia_absent; exact Hvia|].
  split; [apply rev_involutive|exact Horig].
Qed.


(** *** AddFlow *)

Lemma ChangeShare_add_effect fs X flow :
  FlowStat_wf fs -> shares fs <> [] ->
  0 < flow <= INT_MAX -> final_boundary (shares fs) + flow < 2 ^ 32 ->
  exists fs',
    ChangeShare X flow fs = Some fs' /\
    shares fs' <> [] /\
    GetShare fs' X = GetShare fs X + flow /\
    (forall d, d <> X -> GetShare fs' d = GetShare fs d) /\
    final_boundary (shares fs') = final_boundary (shares fs) + flow.
Proof.
  intros [Hok Hnd Hlim] Hne Hflow Hlast. destruct fs as [m U].
  cbn [shares unrestricted] in *.
  pose proof (limit_bound m U Hok Hlim) as HU.
  destruct (in_dec Z.eq_dec X (destinations m)) as [Hin|Hnot].
  - destruct (destination_split m X Hnd Hin) as (pre & k & post & -> & Hpre & Hpost).
    destruct (SharesMap_ok_app 0 pre _ Hok) as [Hokpre Hokrest].
    inversion Hokrest as [|? ? ? ? Hlo Hhi Hokpost]; subst.
    pose proof (last_key_bounds _ _ Hokpre) as Hlastpre.
    pose proof (last_key_bounds _ _ Hokpost) as Hlastpost.
    rewrite final_boundary_split in *.
    rewrite (ChangeShare_existing_eq pre k X post U flow Hok Hpre Hpost);
      [|lia|unfold INT_MIN, INT_MAX in *; lia|unfold INT_MAX in *; lia|exact Hlast].
    eexists. split; [reflexivity|]. cbn [shares]. unfold INT_MAX in *.
    split; [intros Hnil; apply app_eq_nil in Hnil; destruct Hnil; discriminate|].
    split; [|split].
    + unfold GetShare. cbn [shares]. rewrite !GetShare_from_last_gen by exact Hpre.
      rewrite !u32_small by lia. lia.
    + intros d Hd. unfold GetShare. cbn [shares]. apply GetShare_other; [exact Hd|lia].
    + rewrite final_boundary_split.
      replace (k + flow) with (k - - flow) by lia. rewrite shift_down_last. lia.
  - rewrite (ChangeShare_add_new_eq m X U flow Hne Hok Hnot HU Hflow Hlast).
    eexists. split; [reflexivity|]. cbn [shares].
    pose proof (last_key_bounds _ _ Hok) as Hb.
    split; [intros Hnil; apply app_eq_nil in Hnil; destruct Hnil; discriminate|].
    split; [|split].
    + unfold GetShare. cbn [shares]. rewrite GetShare_from_last_gen by exact Hnot.
      rewrite GetShare_from_absent by exact Hnot.
      unfold final_boundary, INT_MAX in *. rewrite u32_small; lia.
    + intros d Hd. unfold GetShare. cbn [shares].
      destruct (in_dec Z.eq_dec d (destinations m)) as [Hind|Hnin].
      * pose proof (GetShare_from_prefix d m [(final_boundary m + flow, X)] [] 0 Hind)
          as Heq.
        rewrite app_nil_r in Heq. exact Heq.
      * rewrite GetShare_from_skip by exact Hnin. cbn [GetShare_from].
        destruct (Z.eqb_spec X d); [congruence|].
        symmetry. apply GetShare_from_absent. exact Hnin.
    + unfold final_boundary. rewrite List.map_app, last_app_default. reflexivity.
Qed.

Lemma find_assign origin fs' m o :
  find (assign origin fs' m) o
    = if o =? origin then match find m o with Some _ => Some fs' | None => None end
      else find m o.
Proof.
  induction m as [|[o0 fs0] m IH]; [cbn; destruct (o =? origin); reflexivity|].
  cbn [assign find].
  destruct (Z.eqb_spec o0 origin) as [->|Hne]; cbn [find].
  - destruct (Z.eqb_spec origin o) as [<-|Hne'].
    + rewrite Z.eqb_refl. reflexivity.
    + destruct (Z.eqb_spec o origin); [congruence|reflexivity].
  - destruct (Z.eqb_spec o0 o) as [->|Hne'].
    + destruct (Z.eqb_spec o origin); [congruence|reflexivity].
    + exact IH.
Qed.

Lemma find_emplace origin fs m o :
  find m origin = None ->
  find (emplace origin fs m) o = if o =? origin then Some fs else find m o.
Proof.
  induction m as [|[o0 fs0] m IH]; intros Hnone.
  - cbn. rewrite (Z.eqb_sym origin o). reflexivity.
  - cbn [find] in Hnone. destruct (Z.eqb_spec o0 origin) as [|Hne]; [discriminate|].
    cbn [emplace]. destruct (origin <? o0); cbn [find].
    + rewrite (Z.eqb_sym origin o). reflexivity.
    + destruct (Z.eqb_spec o0 o) as [->|Hne'].
      * destruct (Z.eqb_spec o origin); [congruence|reflexivity].
      * apply IH. exact Hnone.
Qed.

(** X12. AddFlow with a flow of 1 to INT_MAX (a larger [uint flow] does
    not fit the [int] parameter of ChangeShare and is left aside here):
    for an origin without FlowStat one is made by the
    constructor; for an origin with a well-formed FlowStat whose last
    boundary plus the flow stays below 2^32, the flow from it via [via] and
    the flow from it in total grow by [flow], and its flow via other
    stations stays.  The FlowStats of other origins are not touched. *)
Theorem AddFlow_adds (FlowStat_new : StationID -> Z -> FlowStat)
    origin via flow m :
  0 < flow <= INT_MAX ->
  (forall fs, find m origin = Some fs ->
     FlowStat_wf fs /\ shares fs <> [] /\
     final_boundary (shares fs) + flow < 2 ^ 32) ->
  exists m',
    AddFlow FlowStat_new origin via flow m = Some m' /\
    (forall o, o <> origin -> find m' o = find m o) /\
    match find m origin with
    | None => find m' origin = Some (FlowStat_new via flow)
    | Some fs =>
        GetFlowFromVia m' origin via = GetFlowFromVia m origin via + flow /\
        (forall d, d <> via ->
           GetFlowFromVia m' origin d = GetFlowFromVia m origin d) /\
        GetFlowFrom m' origin = Some (final_boundary (shares fs) + flow)
    end.
Proof.
  intros Hflow Hwf. unfold AddFlow, GetFlowFromVia, GetFlowFrom.
  destruct (find m origin) as [fs|] eqn:Hfind.
  - destruct (Hwf fs eq_refl) as (Hfs & Hne & Hlast).
    rewrite to_int_small by lia.
    destruct (ChangeShare_add_effect fs via flow Hfs Hne Hflow Hlast)
      as (fs' & Heq & Hne' & Hvia & Hother & Hfinal).
    rewrite Heq. destruct (shares fs') as [|e sh] eqn:Hsh; [congruence|].
    eexists. split; [reflexivity|]. split.
    + intros o Ho. rewrite find_assign.
      destruct (Z.eqb_spec o origin); [congruence|reflexivity].
    + rewrite find_assign, Z.eqb_refl, Hfind, Hsh.
      split; [exact Hvia|]. split; [exact Hother|]. rewrite Hfinal. reflexivity.
  - eexists. split; [reflexivity|]. split.
    + intros o Ho. rewrite find_emplace by exact Hfind.
      destruct (Z.eqb_spec o origin); [congruence|reflexivity].
    + rewrite find_emplace by exact Hfind. rewrite Z.eqb_refl. reflexivity.
Qed.

End FlowStatMapFacts.

(** ** The FlowStat properties on the sample flows *)

Lemma only_D_unrestricted_wf : FlowStats.FlowStat_wf only_D_unrestricted.
Proof.
  split; simpl.
  - repeat constructor; lia.
  - repeat constructor; simpl; intuition lia.
  - right. simpl. tauto.
Defined.

Lemma sample_flows_wf : FlowStatMaps.FlowStatMap_wf sample_flows.
Proof.
  repeat constructor; simpl; try discriminate; try lia; try tauto;
    intuition lia.
Defined.

Lemma Restrict_Release_absent_witness :
  FlowStats.RestrictShare 7 three_shares = Some three_shares /\
  FlowStats.ReleaseShare 7 three_shares = Some three_shares.
Proof.
  apply (Restrict_Release_absent 7 three_shares).
  - simpl. discriminate.
  - simpl. intuition lia.
Defined.

Lemma Invalidate_flattens_witness :
  exists fs',
    FlowStatScaling.Invalidate only_D_unrestricted = Some fs' /\
    FlowStats.shares fs'
      = FlowStatScaling.numbered 1
          (FlowStats.destinations (FlowStats.shares only_D_unrestricted)) /\
    (forall d,
       In d (FlowStats.destinations (FlowStats.shares only_D_unrestricted)) ->
       FlowStats.GetShare fs' d = 1) /\
    FlowStatScaling.unrestricted_count fs'
      = FlowStatScaling.unrestricted_count only_D_unrestricted /\
    FlowStats.FlowStat_wf fs'.
Proof.
  apply (Invalidate_flattens only_D_unrestricted).
  - exact only_D_unrestricted_wf.
  - simpl. discriminate.
Defined.

Lemma ScaleToMonthly_increasing_witness :
  exists fs',
    FlowStatScaling.ScaleToMonthly 7 three_shares = Some fs' /\
    FlowStats.SharesMap_ok 0 (FlowStats.shares fs') /\
    FlowStats.destinations (FlowStats.shares fs')
      = FlowStats.destinations (FlowStats.shares three_shares) /\
    Forall2 (fun e e' => fst e * 30 / 7 <= fst e' /\ snd e' = snd e)
            (FlowStats.shares three_shares) (FlowStats.shares fs').
Proof.
  apply (ScaleToMonthly_increasing 7 three_shares).
  - lia.
  - simpl. repeat constructor; lia.
  - vm_compute. reflexivity.
Defined.

Lemma ScaleToMonthly_keeps_split_witness :
  exists fs',
    FlowStatScaling.ScaleToMonthly 45 only_D_unrestricted = Some fs' /\
    FlowStatScaling.unrestricted_count fs'
      = FlowStatScaling.unrestricted_count only_D_unrestricted /\
    FlowStats.FlowStat_wf fs'.
Proof.
  apply (ScaleToMonthly_keeps_split 45 only_D_unrestricted).
  - lia.
  - exact only_D_unrestricted_wf.
  - vm_compute. reflexivity.
Defined.

Lemma ChangeShare_changes_one_share_witness :
  exists fs',
    FlowStats.ChangeShare 2 (-3) three_shares = Some fs' /\
    FlowStats.GetShare fs' 2 = FlowStats.GetShare three_shares 2 + (-3) /\
    (forall d, d <> 2 ->
       FlowStats.GetShare fs' d = FlowStats.GetShare three_shares d) /\
    FlowStats.final_boundary (FlowStats.shares fs')
      = FlowStats.final_boundary (FlowStats.shares three_shares) + (-3) /\
    FlowStats.unrestricted fs' = (if 20 <=? 30 then 30 + (-3) else 30).
Proof.
  apply (ChangeShare_changes_one_share [(10, 1)] 20 2 [(30, 3)] 30 (-3)).
  - simpl. repeat constructor; lia.
  - simpl. intuition lia.
  - simpl. intuition lia.
  - vm_compute. split; discriminate.
  - vm_compute. split; [reflexivity|discriminate].
  - vm_compute. reflexivity.
  - vm_compute. reflexivity.
Defined.

Lemma ChangeShare_appends_new_share_witness :
  exists fs',
    FlowStats.ChangeShare 9 5 only_D_unrestricted = Some fs' /\
    FlowStats.shares fs' = FlowStats.shares only_D_unrestricted ++ [(30 + 5, 9)] /\
    FlowStats.GetShare fs' 9 = 5 /\
    (forall d, d <> 9 ->
       FlowStats.GetShare fs' d = FlowStats.GetShare only_D_unrestricted d) /\
    FlowStats.unrestricted fs' = 10.
Proof.
  apply (ChangeShare_appends_new_share [(10, 1); (20, 2); (30, 3)] 9 10 5).
  - discriminate.
  - repeat constructor; lia.
  - simpl. intuition lia.
  - vm_compute. split; discriminate.
  - vm_compute. split; [reflexivity|discriminate].
  - vm_compute. reflexivity.
Defined.

Lemma ChangeShare_removes_at_most_share_witness :
  FlowStats.ChangeShare 2 (-25) three_shares
    = FlowStats.ChangeShare 2 INT_MIN three_shares.
Proof.
  apply (ChangeShare_removes_at_most_share three_shares 2 (-25)).
  - exact three_shares_wf.
  - simpl. discriminate.
  - vm_compute. split; discriminate.
Defined.

Lemma ChangeShare_add_then_remove_witness :
  exists fs1,
    FlowStats.ChangeShare 2 8 only_D_unrestricted = Some fs1 /\
    FlowStats.ChangeShare 2 (- 8) fs1 = Some only_D_unrestricted.
Proof.
  apply (ChangeShare_add_then_remove only_D_unrestricted 2 8).
  - exact only_D_unrestricted_wf.
  - simpl. discriminate.
  - vm_compute. split; [reflexivity|discriminate].
  - vm_compute. reflexivity.
Defined.

Lemma ChangeShare_keeps_invariant_witness :
  exists fs',
    FlowStats.ChangeShare 1 (-4) only_D_unrestricted = Some fs' /\
    FlowStats.FlowStat_wf fs'.
Proof.
  apply (ChangeShare_keeps_invariant only_D_unrestricted 1 (-4)).
  - exact only_D_unrestricted_wf.
  - simpl. discriminate.
  - vm_compute. split; discriminate.
  - vm_compute. reflexivity.
Defined.

Lemma DeleteFlows_erases_witness :
  exists ret m',
    FlowStatMaps.DeleteFlows 2 sample_flows = Some (ret, m') /\
    FlowStatMaps.FlowStatMap_wf m' /\
    Forall (fun it => ~ In 2 (FlowStats.destinations (FlowStats.shares (snd it)))) m' /\
    FlowStatMaps.GetFlowVia m' 2 = 0 /\
    rev ret = FlowStatMaps.origins
                (List.filter (fun it => FlowStatMaps.only_via 2 (snd it)) sample_flows) /\
    FlowStatMaps.origins m'
      = FlowStatMaps.origins
          (List.filter (fun it => negb (FlowStatMaps.only_via 2 (snd it))) sample_flows).
Proof.
  apply (DeleteFlows_erases 2 sample_flows). exact sample_flows_wf.
Defined.

Lemma AddFlow_adds_witness :
  exists m',
    FlowStatMaps.AddFlow (fun via flow => FlowStats.mkFlowStat [(flow, via)] flow)
      5 2 6 sample_flows = Some m' /\
    (forall o, o <> 5 -> FlowStatMaps.find m' o = FlowStatMaps.find sample_flows o) /\
    match FlowStatMaps.find sample_flows 5 with
    | None => FlowStatMaps.find m' 5 = Some (FlowStats.mkFlowStat [(6, 2)] 6)
    | Some fs =>
        FlowStatMaps.GetFlowFromVia m' 5 2
          = FlowStatMaps.GetFlowFromVia sample_flows 5 2 + 6 /\
        (forall d, d <> 2 ->
           FlowStatMaps.GetFlowFromVia m' 5 d
             = FlowStatMaps.GetFlowFromVia sample_flows 5 d) /\
        FlowStatMaps.GetFlowFrom m' 5
          = Some (FlowStats.final_boundary (FlowStats.shares fs) + 6)
    end.
Proof.
  apply (AddFlow_adds (fun via flow => FlowStats.mkFlowStat [(flow, via)] flow)
           5 2 6 sample_flows).
  - vm_compute. split; [reflexivity|discriminate].
  - intros fs Hfs. simpl in Hfs. injection Hfs as <-.
    split; [exact three_shares_wf|]. split; [simpl; discriminate|].
    vm_compute. reflexivity.
Defined.

(** ** UpdateStationRating: cargo without rating, waiting cargo *)

Section RatingMore.
Import Rating.

Variable INITIAL_STATION_RATING : Z.
Variable MAX_STATION_RATING : Z.
Variable VEH_SHIP : Z.
Variable VEH_INVALID : Z.
Variable CALLBACK_FAILED : Z.
Variable cheat_station_rating : bool.
Variable selectgoods : bool.
Variable Randomizer : Type.
Variable Random : Randomizer -> Z * Randomizer.
Variable HasVehicleEverTriedLoading : GoodsEntry -> bool.
Variable GetCargoCallback : Z -> Z -> CargoSpec -> Z.
Variable TruncatedFromSelf : CargoSpec -> GoodsEntry -> Z -> Z.

Local Abbreviation UpdateGoodsRating'' :=
  (UpdateGoodsRating INITIAL_STATION_RATING MAX_STATION_RATING VEH_SHIP VEH_INVALID
     CALLBACK_FAILED cheat_station_rating selectgoods Randomizer Random
     HasVehicleEverTriedLoading GetCargoCallback TruncatedFromSelf).

Local Abbreviation rating_step'' :=
  (rating_step INITIAL_STATION_RATING MAX_STATION_RATING VEH_SHIP VEH_INVALID
     CALLBACK_FAILED cheat_station_rating selectgoods Randomizer Random
     HasVehicleEverTriedLoading GetCargoCallback TruncatedFromSelf).

Local Abbreviation UpdateStationRating'' :=
  (UpdateStationRating INITIAL_STATION_RATING MAX_STATION_RATING VEH_SHIP VEH_INVALID
     CALLBACK_FAILED cheat_station_rating selectgoods Randomizer Random
     HasVehicleEverTriedLoading GetCargoCallback TruncatedFromSelf).

(** The loop visits the entry of each cargo type once: what one round
    guarantees for an entry holds for the entry after the loop. *)
Lemma rating_loop_once (R : GoodsEntry -> GoodsEntry -> Prop) st specs :
  (forall cs g rng wc, R g (UpdateGoodsRating'' st cs g rng wc).1.1) ->
  NoDup (List.map Index specs) ->
  forall gs rng wc i ge,
    gs !! i = Some ge ->
    exists ge',
      (fold_left (rating_step'' st) specs (gs, rng, wc)).1.1 !! i = Some ge' /\
      (In i (List.map Index specs) -> R ge ge') /\
      (~ In i (List.map Index specs) -> ge' = ge).
Proof.
  intros HR. induction specs as [|cs specs IH]; intros Hnd gs rng wc i ge Hi.
  - exists ge. cbn. split; [exact Hi|]. split; [intros []|reflexivity].
  - inversion Hnd as [|? ? Hnotin Hnd']; subst. cbn [fold_left List.map In].
    unfold rating_step at 2.
    destruct (gs !! Index cs) as [g|] eqn:Hlook.
    + pose proof (HR cs g rng wc) as Hg.
      destruct (UpdateGoodsRating'' st cs g rng wc) as [[g' rng'] wc'].
      cbn [fst] in Hg.
      destruct (Nat.eq_dec i (Index cs)) as [->|Hne].
      * rewrite Hlook in Hi. inversion Hi; subst g.
        destruct (IH Hnd' (<[Index cs := g']> gs) rng' wc' (Index cs) g')
          as (ge' & Hge' & _ & Hsame).
        { apply list_lookup_insert_eq. eapply lookup_lt_Some; eauto. }
        exists ge'. split; [exact Hge'|]. rewrite (Hsame Hnotin).
        split; [intros _; exact Hg|tauto].
      * destruct (IH Hnd' (<[Index cs := g']> gs) rng' wc' i ge)
          as (ge' & Hge' & Hin & Hsame).
        { rewrite list_lookup_insert_ne by congruence. exact Hi. }
        exists ge'. split; [exact Hge'|]. split.
        -- intros [Heq|Hin']; [congruence|exact (Hin Hin')].
        -- intros Hnot. apply Hsame. tauto.
    + destruct (IH Hnd' gs rng wc i ge Hi) as (ge' & Hge' & Hin & Hsame).
      exists ge'. split; [exact Hge'|]. split.
      * intros [Heq|Hin']; [|exact (Hin Hin')].
        rewrite <- Heq in Hi. congruence.
      * intros Hnot. apply Hsame. tauto.
Qed.

(** X13. A cargo that has no rating yet is only nudged by the tick: its
    rating rises by one while it is below INITIAL_STATION_RATING, and
    nothing else of its goods entry changes. *)
Theorem UpdateStationRating_unrated specs st rng cargo ge :
  NoDup (List.map Index specs) ->
  goods st !! cargo = Some ge ->
  HasRating ge = false -> rating_in_range ge -> INITIAL_STATION_RATING <= 255 ->
  goods (UpdateStationRating'' specs st rng).1.1 !! cargo
    = Some (if In_dec Nat.eq_dec cargo (List.map Index specs)
            then if rating ge <? INITIAL_STATION_RATING
                 then set_rating ge (rating ge + 1) else ge
            else ge).
Proof.
  intros Hnd Hi Hunrated Hbyte Hinit. unfold UpdateStationRating.
  destruct (rating_loop_once
              (fun g g' => HasRating g = false -> rating_in_range g ->
                           g' = if rating g <? INITIAL_STATION_RATING
                                then set_rating g (rating g + 1) else g)
              st specs) with (gs := goods st) (rng := rng) (wc := false)
              (i := cargo) (ge := ge) as (ge' & Hge' & Hin & Hsame);
    [|exact Hnd|exact Hi|].
  - intros cs g rng0 wc0 Hg Hgbyte. unfold UpdateGoodsRating.
    unfold HasRating in *. rewrite Hg. cbn [negb andb].
    unfold rating_in_range in Hgbyte.
    destruct (Z.ltb_spec (rating g) INITIAL_STATION_RATING).
    + cbn [set_rating status_Rating]. rewrite Hg. cbn [negb fst].
      unfold u8. rewrite Z.mod_small by lia. reflexivity.
    + rewrite Hg. reflexivity.
  - destruct (fold_left _ specs (goods st, rng, false)) as [[gs rng'] wc].
    cbn [fst goods] in *. rewrite Hge'. f_equal.
    destruct (In_dec Nat.eq_dec cargo (List.map Index specs)) as [Hyes|Hno].
    + exact (Hin Hyes Hunrated Hbyte).
    + exact (Hsame Hno).
Qed.

(** What the random discards and the cap leave of the waiting cargo. *)
Lemma discard_waiting_bound new_rating waiting waiting_avg num_dests rng wc :
  0 <= waiting ->
  let r := discard_waiting Randomizer Random new_rating waiting waiting_avg
             num_dests rng wc in
  0 <= r.1.1 <= MAX_WAITING_CARGO /\ (r.2 = false -> r.1.1 = waiting /\ wc = false) /\
  (waiting <= WAITING_CARGO_THRESHOLD \/ r.2 = true).
Proof.
  intros Hw. unfold discard_waiting.
  change MAX_WAITING_CARGO with 32768. change WAITING_CARGO_THRESHOLD with 4096.
  change WAITING_CARGO_CUT_FACTOR with 64.
  set (stage1 := if (new_rating <=? 64) && (100 <=? waiting_avg) then _ else _).
  assert (H1 : 0 <= stage1.1.1 /\ (stage1.2 = false -> stage1.1.1 = waiting /\ wc = false)).
  { unfold stage1. destruct ((new_rating <=? 64) && (100 <=? waiting_avg)).
    - destruct (Random rng) as [r rng1]. cbn [fst snd].
      split; [apply u32_range|discriminate].
    - cbn [fst snd]. split; [exact Hw|]. intros ->. split; reflexivity. }
  destruct stage1 as [[w1 rng1] wc1]. cbn [fst snd] in H1.
  set (stage2 := if (new_rating <=? 127) && negb (w1 =? 0) then _ else _).
  assert (H2 : 0 <= stage2.1.1 /\ (stage2.2 = false -> stage2.1.1 = waiting /\ wc = false)).
  { unfold stage2. destruct ((new_rating <=? 127) && negb (w1 =? 0)).
    - destruct (Random rng1) as [r rng2].
      destruct (new_rating <=? GB r 0 7); cbn [fst snd]; [split; [lia|discriminate]|].
      exact H1.
    - cbn [fst snd]. exact H1. }
  destruct stage2 as [[w2 rng2] wc2]. cbn [fst snd] in H2.
  destruct (Z.ltb_spec 4096 w2) as [Hcut|Hkeep]; cbn [fst snd].
  - assert (0 <= (w2 - 4096) / 64 <= w2 - 4096).
    { split; [apply Z.div_pos; lia|]. apply Z.div_le_upper_bound; lia. }
    split; [lia|]. split; [discriminate|]. right. reflexivity.
  - split; [lia|]. split; [exact (proj2 H2)|].
    destruct wc2; [right; reflexivity|]. left.
    destruct (proj2 H2 eq_refl) as [<- _]. exact Hkeep.
Qed.

Lemma available_TruncateCargo cs ge amount :
  0 <= amount ->
  available (TruncateCargo TruncatedFromSelf cs ge amount)
    = available ge - Z.min amount (available ge).
Proof.
  unfold available, TruncateCargo. destruct (data ge) as [d|] eqn:Hd.
  - cbn [data AvailableCount]. intros H. lia.
  - rewrite Hd. intros H. lia.
Qed.

(** X14. The tick never adds waiting cargo to a rated goods entry, and it
    leaves at most MAX_WAITING_CARGO (32768) units of it waiting. *)
Theorem UpdateStationRating_caps_waiting specs st rng cargo ge :
  NoDup (List.map Index specs) ->
  In cargo (List.map Index specs) ->
  goods st !! cargo = Some ge ->
  HasRating ge = true -> 0 <= available ge < 2 ^ 32 ->
  exists ge',
    goods (UpdateStationRating'' specs st rng).1.1 !! cargo = Some ge' /\
    0 <= available ge' <= Z.min (available ge) MAX_WAITING_CARGO.
Proof.
  intros Hnd Hin Hi Hrated Hav. unfold UpdateStationRating.
  destruct (rating_loop_once
              (fun g g' => HasRating g = true -> 0 <= available g < 2 ^ 32 ->
                           0 <= available g' <= Z.min (available g) MAX_WAITING_CARGO)
              st specs) with (gs := goods st) (rng := rng) (wc := false)
              (i := cargo) (ge := ge) as (ge' & Hge' & Hyes & _);
    [|exact Hnd|exact Hi|].
  - intros cs g rng0 wc0 Hg Hgav. unfold UpdateGoodsRating.
    unfold HasRating in *. rewrite Hg. cbn [negb andb]. cbv zeta. rewrite Hg.
    cbn [negb].
    set (g1 := set_time_since_pickup g _).
    assert (Hav1 : available g1 = available g) by reflexivity.
    change MAX_WAITING_CARGO with 32768.
    destruct (_ && selectgoods).
    { cbn [fst]. rewrite available_TruncateCargo by lia.
      change (available (disable_rating g1)) with (available g). lia. }
    assert (Hbase : forall p, p = base_rating MAX_STATION_RATING VEH_SHIP VEH_INVALID
                                    CALLBACK_FAILED cheat_station_rating
                                    HasVehicleEverTriedLoading GetCargoCallback st cs g1 ->
                              available p.1 = available g).
    { intros p ->. unfold base_rating. destruct cheat_station_rating; [reflexivity|].
      destruct (callback_rating _ _ _ _ _ _ _); reflexivity. }
    specialize (Hbase _ eq_refl).
    destruct (base_rating _ _ _ _ _ _ _ _ _ _) as [g2 rating0]. cbn [fst] in Hbase.
    set (new_rating := ClampTo_u8 _).
    pose proof (discard_waiting_bound new_rating (available g1)
                  (available g1 / u32 (match data g1 with
                                       | Some d => MapSize d | None => 0 end + 1))
                  (match data g1 with Some d => MapSize d | None => 0 end)
                  rng0 wc0 ltac:(rewrite Hav1; lia)) as Hdisc.
    cbv zeta in Hdisc. change MAX_WAITING_CARGO with 32768 in Hdisc.
    change WAITING_CARGO_THRESHOLD with 4096 in Hdisc.
    destruct (discard_waiting _ _ _ _ _ _ _ _) as [[waiting rng1] wc1].
    cbn [fst snd] in Hdisc. destruct Hdisc as (Hw & Hsame & Hcap).
    change (available (set_rating g2 new_rating)) with (available g2).
    rewrite Hbase.
    destruct wc1.
    + destruct (Z.ltb_spec waiting (available g)) as [Hlt|Hge]; cbn [andb fst].
      * rewrite available_TruncateCargo by apply u32_range.
        change (available (set_max_waiting_cargo (set_rating g2 new_rating) 0))
          with (available g2). rewrite Hbase. rewrite u32_small by lia. lia.
      * change (available (set_max_waiting_cargo (set_rating g2 new_rating) _))
          with (available g2). rewrite Hbase. lia.
    + cbn [andb fst].
      change (available (set_max_waiting_cargo (set_rating g2 new_rating) _))
        with (available g2). rewrite Hbase.
      destruct (Hsame eq_refl) as [-> _]. rewrite Hav1 in *.
      destruct Hcap as [Hcap|Hcap]; [lia|discriminate].
  - destruct (fold_left _ specs (goods st, rng, false)) as [[gs rng'] wc].
    cbn [fst goods] in *. exists ge'. split; [exact Hge'|].
    exact (Hyes Hin Hrated Hav).
Qed.

End RatingMore.

(** ** MakeStationAreaSmaller: sub-rectangle, fixed point, empty area *)

Section AreaSmallerMore.
Import AreaSmaller AreaInside.

Variable MapSizeX : Z.
Variable INVALID_TILE : TileIndex.
Variable BaseStation : Type.
Variable st : BaseStation.
Variable func : BaseStation -> TileIndex -> bool.

Local Abbreviation tile_at' := (tile_at MapSizeX).
Local Abbreviation inside' := (inside MapSizeX INVALID_TILE).
Local Abbreviation loop' :=
  (MakeStationAreaSmaller_loop MapSizeX INVALID_TILE BaseStation).
Local Abbreviation MakeStationAreaSmaller' :=
  (MakeStationAreaSmaller MapSizeX INVALID_TILE BaseStation).

Lemma inside_step ta ta1 r dx dy :
  0 <= dx -> 0 <= dy ->
  tile ta1 = tile ta + TileDiffXY MapSizeX dx dy ->
  dx + w ta1 <= w ta -> dy + h ta1 <= h ta ->
  inside' ta1 r -> inside' ta r.
Proof.
  intros Hdx Hdy Htile Hw Hh [->|(ex & ey & Hex & Hey & Hwr & Hhr & Hr & Hwx & Hhy)].
  - left. reflexivity.
  - right. exists (dx + ex), (dy + ey). unfold TileDiffXY in *.
    repeat split; try lia.
Qed.

Lemma MakeStationAreaSmaller_loop_inside fuel :
  forall ta r, 0 <= w ta -> 0 <= h ta ->
    loop' fuel st ta func = Some r -> inside' ta r.
Proof.
  induction fuel as [|fuel IH]; intros ta r Hw Hh; [discriminate|].
  cbn [MakeStationAreaSmaller_loop].
  destruct (Z.eqb_spec (w ta) 0) as [Hw0|Hw0]; cbn [negb andb].
  { intros [= <-]. left. reflexivity. }
  destruct (Z.eqb_spec (h ta) 0) as [Hh0|Hh0]; cbn [negb].
  { intros [= <-]. left. reflexivity. }
  destruct (side_unused _ _ _ _ _).
  { intros Hr. apply IH in Hr; [|cbn [w]; lia|cbn [h]; lia].
    apply (inside_step ta _ r 1 0) with (6 := Hr);
      cbn [tile w h]; unfold TileDiffXY; lia. }
  destruct (side_unused _ _ _ _ _).
  { intros Hr. apply IH in Hr; [|cbn [w]; lia|cbn [h]; lia].
    apply (inside_step ta _ r 0 0) with (6 := Hr);
      cbn [tile w h]; unfold TileDiffXY; lia. }
  destruct (side_unused _ _ _ _ _).
  { intros Hr. apply IH in Hr; [|cbn [w]; lia|cbn [h]; lia].
    apply (inside_step ta _ r 0 1) with (6 := Hr);
      cbn [tile w h]; unfold TileDiffXY; lia. }
  destruct (side_unused _ _ _ _ _).
  { intros Hr. apply IH in Hr; [|cbn [w]; lia|cbn [h]; lia].
    apply (inside_step ta _ r 0 0) with (6 := Hr);
      cbn [tile w h]; unfold TileDiffXY; lia. }
  intros [= <-]. right. exists 0, 0. unfold TileDiffXY. repeat split; lia.
Qed.

(** X15. The area that MakeStationAreaSmaller returns is the cleared area
    or a rectangle inside the given one: it never grows and never moves
    outside. *)
Theorem MakeStationAreaSmaller_inside ta :
  0 <= w ta -> 0 <= h ta ->
  exists r,
    MakeStationAreaSmaller MapSizeX INVALID_TILE BaseStation st ta func = Some r /\
    inside MapSizeX INVALID_TILE ta r.
Proof.
  intros Hw Hh. unfold MakeStationAreaSmaller.
  destruct (MakeStationAreaSmaller_loop_shrunk MapSizeX INVALID_TILE BaseStation st func
              (S (Z.to_nat (w ta + h ta))) ta Hw Hh) as (r & Hr & _); [lia|].
  exists r. split; [exact Hr|].
  exact (MakeStationAreaSmaller_loop_inside _ ta r Hw Hh Hr).
Qed.

Lemma side_unused_complete f at_ n :
  0 < n -> (exists j, 0 <= j < n /\ f (at_ j) = true) ->
  side_unused f at_ n 0 (Z.to_nat n) = false.
Proof.
  intros Hn (j & Hj & Hf).
  destruct (side_unused f at_ n 0 (Z.to_nat n)) eqn:Hside; [|reflexivity].
  rewrite (side_unused_true f at_ n (Z.to_nat n) 0 ltac:(lia)
             ltac:(f_equal; lia) Hside j ltac:(lia)) in Hf.
  discriminate.
Qed.

(** X16. Shrinking twice is shrinking once: the area that
    MakeStationAreaSmaller returns is returned unchanged when it is given
    again. *)
Theorem MakeStationAreaSmaller_idempotent ta r :
  0 <= w ta -> 0 <= h ta ->
  MakeStationAreaSmaller MapSizeX INVALID_TILE BaseStation st ta func = Some r ->
  MakeStationAreaSmaller MapSizeX INVALID_TILE BaseStation st r func = Some r.
Proof.
  intros Hw Hh Hr. unfold MakeStationAreaSmaller in Hr.
  destruct (MakeStationAreaSmaller_loop_shrunk MapSizeX INVALID_TILE BaseStation st func
              (S (Z.to_nat (w ta + h ta))) ta Hw Hh) as (r' & Hr' & _ & Hsides); [lia|].
  rewrite Hr in Hr'. injection Hr' as <-.
  unfold MakeStationAreaSmaller. cbn [MakeStationAreaSmaller_loop].
  destruct Hsides as [(Hwr & Hhr & Hl & Hri & Hu & Hlo)| ->].
  - destruct (Z.eqb_spec (w r) 0); [lia|]. destruct (Z.eqb_spec (h r) 0); [lia|].
    cbn [negb andb]. unfold tile_at in *.
    rewrite (side_unused_complete _ (fun i => tile r + TileDiffXY MapSizeX 0 i)
               (h r) Hhr Hl).
    rewrite (side_unused_complete _ (fun i => tile r + TileDiffXY MapSizeX (w r - 1) i)
               (h r) Hhr Hri).
    rewrite (side_unused_complete _ (fun i => tile r + TileDiffXY MapSizeX i 0)
               (w r) Hwr Hu).
    rewrite (side_unused_complete _ (fun i => tile r + TileDiffXY MapSizeX i (h r - 1))
               (w r) Hwr Hlo).
    reflexivity.
  - reflexivity.
Qed.

Lemma MakeStationAreaSmaller_loop_empty fuel :
  forall ta, 0 <= w ta -> 0 <= h ta -> (Z.to_nat (w ta) < fuel)%nat ->
    (forall i j, 0 <= i < w ta -> 0 <= j < h ta ->
       func st (tile_at' ta i j) = false) ->
    loop' fuel st ta func = Some (Clear INVALID_TILE).
Proof.
  induction fuel as [|fuel IH]; intros ta Hw Hh Hfuel Hnone; [lia|].
  cbn [MakeStationAreaSmaller_loop].
  destruct (Z.eqb_spec (w ta) 0) as [Hw0|Hw0]; cbn [negb andb]; [reflexivity|].
  destruct (Z.eqb_spec (h ta) 0) as [Hh0|Hh0]; cbn [negb]; [reflexivity|].
  destruct (side_unused (func st) (fun i => tile ta + TileDiffXY MapSizeX 0 i) _ _ _)
    eqn:Hleft.
  - apply IH; cbn [w h tile]; try lia.
    intros i j Hi Hj. unfold tile_at, TileDiffXY. cbn [tile].
    replace (tile ta + (0 * MapSizeX + 1) + (j * MapSizeX + i))
      with (tile ta + (j * MapSizeX + (i + 1))) by lia.
    apply (Hnone (i + 1) j); lia.
  - assert (Hrange : 0 <= 0 < h ta) by lia.
    assert (Hfuel_h : Z.to_nat (h ta) = Z.to_nat (h ta - 0)) by (f_equal; lia).
    destruct (side_unused_false _ _ _ _ 0 Hrange Hfuel_h Hleft) as (j & Hj & Hf).
    pose proof (Hnone 0 j ltac:(lia) ltac:(lia)) as Hf'.
    unfold tile_at in Hf'. congruence.
Qed.

(** X17. MakeStationAreaSmaller returns the cleared area exactly when no
    tile of the given area belongs to the station. *)
Theorem MakeStationAreaSmaller_clears ta :
  0 <= w ta -> 0 <= h ta ->
  exists r,
    MakeStationAreaSmaller MapSizeX INVALID_TILE BaseStation st ta func = Some r /\
    (r = Clear INVALID_TILE <->
     forall i j, 0 <= i < w ta -> 0 <= j < h ta ->
       func st (tile_at' ta i j) = false).
Proof.
  intros Hw Hh. unfold MakeStationAreaSmaller.
  destruct (MakeStationAreaSmaller_loop_shrunk MapSizeX INVALID_TILE BaseStation st func
              (S (Z.to_nat (w ta + h ta))) ta Hw Hh) as (r & Hr & Hcont & _); [lia|].
  exists r. split; [exact Hr|]. split.
  - intros -> i j Hi Hj. destruct (func st (tile_at' ta i j)) eqn:Hf; [|reflexivity].
    destruct (Hcont i j) as (i' & j' & Hi' & _); [unfold member; auto|].
    cbn [Clear w] in Hi'. lia.
  - intros Hnone.
    rewrite (MakeStationAreaSmaller_loop_empty (S (Z.to_nat (w ta + h ta))) ta Hw Hh
               ltac:(lia) Hnone) in Hr.
    congruence.
Qed.

End AreaSmallerMore.

(** ** FindJoiningBaseStation *)

Section JoiningFacts.
Import Around Joining.

Variable T : Type.
Variable T_IsValidID : StationID -> bool.
Variable T_Get : StationID -> T.
Variable T_GetIfValid : StationID -> option T.
Variable T_owner : T -> Z.
Variable Invalid : StationID.
Variable IsStationTile : TileIndex -> bool.
Variable GetStationIndex : TileIndex -> StationID.
Variable Expand : TileArea -> Z -> TileArea.
Variable tiles_of : TileArea -> list TileIndex.
Variable error_message : ErrorMessage.
Variable current_company : Z.

(** The invalid ID is not the ID of a station of the pool. *)
Hypothesis Invalid_not_valid : T_IsValidID Invalid = false.

Local Abbreviation FindJoiningBaseStation' :=
  (FindJoiningBaseStation T T_IsValidID T_Get T_GetIfValid T_owner Invalid
     IsStationTile GetStationIndex Expand tiles_of error_message current_company).
Local Abbreviation distant_join' := (distant_join T T_GetIfValid Invalid).
Local Abbreviation compatible_stations' :=
  (compatible_stations T T_IsValidID T_Get T_owner IsStationTile
     GetStationIndex Expand tiles_of).
Local Abbreviation GetStationAround' :=
  (GetStationAround T T_IsValidID T_Get T_owner Invalid IsStationTile
     GetStationIndex Expand tiles_of).

(** X18. Building over an existing station.  As an adjacent station with
    another station to join it is refused with the error message of the
    station class.  Else, if the filter accepts the existing station, it is
    extended and the stations around are not looked at.  If the filter
    rejects it, the stations around are looked at with the existing station
    as the one found so far: any compatible station around is then one too
    many, and without one the existing station is returned although the
    filter rejected it. *)
Theorem FindJoiningBaseStation_over_existing existing join adjacent ta filter c :
  existing <> Invalid -> T_GetIfValid existing = Some c ->
  let ids := compatible_stations' ta current_company filter in
  (adjacent && negb (existing =? join) = true ->
     FindJoiningBaseStation' existing join adjacent ta filter
       = (CommandCost_error error_message, None)) /\
  (adjacent && negb (existing =? join) = false ->
     (filter c = true ->
        FindJoiningBaseStation' existing join adjacent ta filter
          = (CommandCost_ok, Some c)) /\
     (filter c = false -> ids = [] ->
        FindJoiningBaseStation' existing join adjacent ta filter
          = (CommandCost_ok, Some (T_Get existing))) /\
     (filter c = false -> forall t, In t ids -> t <> existing ->
        FindJoiningBaseStation' existing join adjacent ta filter
          = (CommandCost_error STR_ERROR_ADJOINS_MORE_THAN_ONE_EXISTING, None))).
Proof.
  intros Hex Hvalid ids. unfold FindJoiningBaseStation.
  destruct (Z.eqb_spec existing Invalid) as [|_]; [contradiction|]. cbn [negb andb].
  split; [intros ->; reflexivity|]. intros ->. rewrite Hvalid.
  unfold GetStationAround.
  pose proof (loop_chosen T T_IsValidID T_Get T_owner Invalid IsStationTile
                GetStationIndex current_company filter
                (tiles_of (Expand ta 1)) existing Hex) as [Hsame Hother].
  fold (compatible_stations' ta current_company filter) in Hsame, Hother.
  fold ids in Hsame, Hother.
  split; [|split].
  - intros ->. reflexivity.
  - intros -> Hnil. rewrite Hsame by (rewrite Hnil; constructor).
    destruct (Z.eqb_spec existing Invalid) as [|_]; [contradiction|]. reflexivity.
  - intros -> t Ht Hne. rewrite (Hother t Ht Hne). reflexivity.
Qed.

(** X19. Building where no station is: an adjacent station does not look
    around and joins the station asked for, if any.  Otherwise the
    compatible stations around decide: none gives the station asked for,
    if any; one gives that one, whatever was asked for; two give the error
    of adjoining more than one station. *)
Theorem FindJoiningBaseStation_free_site join ta filter :
  let ids := compatible_stations' ta current_company filter in
  FindJoiningBaseStation' Invalid join true ta filter
    = (CommandCost_ok, distant_join' join) /\
  (ids = [] ->
     FindJoiningBaseStation' Invalid join false ta filter
       = (CommandCost_ok, distant_join' join)) /\
  (forall s, In s ids -> (forall t, In t ids -> t = s) ->
     FindJoiningBaseStation' Invalid join false ta filter
       = (CommandCost_ok, Some (T_Get s))) /\
  (forall a b, In a ids -> In b ids -> a <> b ->
     FindJoiningBaseStation' Invalid join false ta filter
       = (CommandCost_error STR_ERROR_ADJOINS_MORE_THAN_ONE_EXISTING, None)).
Proof.
  intros ids. unfold FindJoiningBaseStation, distant_join.
  rewrite Z.eqb_refl. cbn [negb andb].
  split; [destruct (join =? Invalid); reflexivity|].
  pose proof (loop_fresh T T_IsValidID T_Get T_owner Invalid IsStationTile
                GetStationIndex Invalid_not_valid current_company filter
                (tiles_of (Expand ta 1))) as Hloop.
  pose proof (compatible_ids_valid T T_IsValidID T_Get T_owner Invalid IsStationTile
                GetStationIndex Invalid_not_valid current_company filter
                (tiles_of (Expand ta 1))) as Hvalid.
  fold (compatible_stations' ta current_company filter) in Hloop, Hvalid.
  fold ids in Hloop, Hvalid. unfold GetStationAround.
  destruct ids as [|s0 ids]; split; [| split | | split].
  - intros _. rewrite Hloop, Z.eqb_refl. cbn [Failed success CommandCost_ok negb].
    destruct (join =? Invalid); reflexivity.
  - intros s [].
  - intros a b [].
  - discriminate.
  - intros s Hs Hall. destruct Hloop as [Hone _].
    assert (s0 = s) by (apply Hall; left; reflexivity). subst s0.
    rewrite Hone.
    + destruct (Z.eqb_spec s Invalid) as [Heq|_]; [|reflexivity].
      exfalso. exact (Hvalid s Hs Heq).
    + apply Forall_forall. intros t Ht. symmetry. apply Hall. right. exact Ht.
  - intros a b Ha Hb Hab. destruct Hloop as [_ Htwo].
    assert (Hother : exists t, In t ids /\ t <> s0).
    { destruct Ha as [<-|Ha]; destruct Hb as [<-|Hb].
      - contradiction.
      - exists b. auto.
      - exists a. auto.
      - destruct (Z.eq_dec a s0) as [->|Hne]; [exists b|exists a]; auto. }
    destruct Hother as (t & Ht & Hne). rewrite (Htwo t Ht Hne). reflexivity.
Qed.

End JoiningFacts.

(** ** GenerateStationName: the default name is not one in use *)

Section NameCascadeFacts.
Import Naming NameCascade.

Variable STR_SV_STNAME : StringID.
Variable STR_SV_STNAME_FALLBACK : StringID.
Variable STR_SV_STNAME_AIRPORT : StringID.
Variable STR_SV_STNAME_OILFIELD : StringID.
Variable STR_SV_STNAME_DOCKS : StringID.
Variable STR_SV_STNAME_HELIPORT : StringID.
Variable STR_SV_STNAME_MINES : StringID.
Variable STR_SV_STNAME_CENTRAL : StringID.
Variable STR_SV_STNAME_LAKESIDE : StringID.
Variable STR_SV_STNAME_WOODS : StringID.
Variable STR_SV_STNAME_FOREST : StringID.
Variable STR_SV_STNAME_VALLEY : StringID.
Variable STR_SV_STNAME_HEIGHTS : StringID.
Variable STR_SV_STNAME_NORTH : StringID.
Variable STR_SV_STNAME_SOUTH : StringID.
Variable STR_SV_STNAME_EAST : StringID.
Variable STR_SV_STNAME_WEST : StringID.
Variable STR_SV_STNAME_TRANSFER : StringID.
Variable STR_SV_STNAME_HALT : StringID.
Variable STR_SV_STNAME_EXCHANGE : StringID.
Variable STR_SV_STNAME_ANNEXE : StringID.
Variable STR_SV_STNAME_SIDINGS : StringID.
Variable STR_SV_STNAME_BRANCH : StringID.
Variable STR_SV_STNAME_UPPER : StringID.
Variable STR_SV_STNAME_LOWER : StringID.
Variable STR_UNDEFINED : StringID.
Variable STR_NULL : StringID.
Variable IT_INVALID : IndustryType.
Variable NUM_INDUSTRYTYPES : nat.
Variable GetIndustrySpec : IndustryType -> IndustrySpec.
Variable IsIndustryTile : TileIndex -> bool.
Variable GetIndustryType : TileIndex -> IndustryType.
Variable SpiralTileSequence : TileIndex -> Z -> list TileIndex.
Variable INVALID_TILE : TileIndex.
Variable TileAddWrap : TileIndex -> Z -> Z -> TileIndex.
Variable CMSAMine : TileIndex -> bool.
Variable CMSAWater : TileIndex -> bool.
Variable CMSATree : TileIndex -> bool.
Variable IsTileForestIndustry : TileIndex -> bool.
Variable DistanceMax : TileIndex -> TileIndex -> Z.
Variable DistanceFromEdge : TileIndex -> Z.
Variable GetTileZ : TileIndex -> Z.
Variable TileX : TileIndex -> Z.
Variable TileY : TileIndex -> Z.
Variable town_xy : Z -> TileIndex.
Variable landscape_is_tropic : bool.

Local Abbreviation IsAvailable' := (IsAvailable STR_SV_STNAME).
Local Abbreviation SetUsed' := (SetUsed STR_SV_STNAME).
Local Abbreviation collect_step' :=
  (collect_step STR_SV_STNAME STR_SV_STNAME_FALLBACK STR_SV_STNAME_FOREST
     STR_SV_STNAME_WOODS STR_UNDEFINED IT_INVALID NUM_INDUSTRYTYPES GetIndustrySpec).
Local Abbreviation industry_scan' :=
  (industry_scan STR_SV_STNAME STR_SV_STNAME_OILFIELD STR_SV_STNAME_MINES
     STR_UNDEFINED STR_NULL GetIndustrySpec IsIndustryTile GetIndustryType).
Local Abbreviation fallback_names' :=
  (fallback_names STR_SV_STNAME_NORTH STR_SV_STNAME_SOUTH STR_SV_STNAME_EAST
     STR_SV_STNAME_WEST STR_SV_STNAME_TRANSFER STR_SV_STNAME_HALT
     STR_SV_STNAME_EXCHANGE STR_SV_STNAME_ANNEXE STR_SV_STNAME_SIDINGS
     STR_SV_STNAME_BRANCH STR_SV_STNAME_UPPER STR_SV_STNAME_LOWER).
Local Abbreviation default_names' :=
  (default_names STR_SV_STNAME STR_SV_STNAME_AIRPORT STR_SV_STNAME_OILFIELD
     STR_SV_STNAME_DOCKS STR_SV_STNAME_HELIPORT STR_SV_STNAME_MINES
     STR_SV_STNAME_CENTRAL STR_SV_STNAME_LAKESIDE STR_SV_STNAME_WOODS
     STR_SV_STNAME_FOREST STR_SV_STNAME_VALLEY STR_SV_STNAME_HEIGHTS
     STR_SV_STNAME_NORTH STR_SV_STNAME_SOUTH STR_SV_STNAME_EAST
     STR_SV_STNAME_WEST STR_SV_STNAME_TRANSFER STR_SV_STNAME_HALT
     STR_SV_STNAME_EXCHANGE STR_SV_STNAME_ANNEXE STR_SV_STNAME_SIDINGS
     STR_SV_STNAME_BRANCH STR_SV_STNAME_UPPER STR_SV_STNAME_LOWER).
Local Abbreviation string_table_ok' :=
  (string_table_ok STR_SV_STNAME STR_SV_STNAME_FALLBACK STR_SV_STNAME_AIRPORT
     STR_SV_STNAME_OILFIELD STR_SV_STNAME_DOCKS STR_SV_STNAME_HELIPORT
     STR_SV_STNAME_MINES STR_SV_STNAME_CENTRAL STR_SV_STNAME_LAKESIDE
     STR_SV_STNAME_WOODS STR_SV_STNAME_FOREST STR_SV_STNAME_VALLEY
     STR_SV_STNAME_HEIGHTS STR_SV_STNAME_NORTH STR_SV_STNAME_SOUTH
     STR_SV_STNAME_EAST STR_SV_STNAME_WEST STR_SV_STNAME_TRANSFER
     STR_SV_STNAME_HALT STR_SV_STNAME_EXCHANGE STR_SV_STNAME_ANNEXE
     STR_SV_STNAME_SIDINGS STR_SV_STNAME_BRANCH STR_SV_STNAME_UPPER
     STR_SV_STNAME_LOWER).
Local Abbreviation first_available' :=
  (first_available STR_SV_STNAME STR_SV_STNAME_FALLBACK).
Local Abbreviation mark_directions' :=
  (mark_directions STR_SV_STNAME STR_SV_STNAME_NORTH STR_SV_STNAME_SOUTH
     STR_SV_STNAME_EAST STR_SV_STNAME_WEST TileX TileY).
Local Abbreviation DefaultNames' :=
  (DefaultNames STR_SV_STNAME STR_SV_STNAME_FALLBACK STR_SV_STNAME_AIRPORT
     STR_SV_STNAME_OILFIELD STR_SV_STNAME_DOCKS STR_SV_STNAME_HELIPORT
     STR_SV_STNAME_MINES STR_SV_STNAME_CENTRAL STR_SV_STNAME_LAKESIDE
     STR_SV_STNAME_WOODS STR_SV_STNAME_FOREST STR_SV_STNAME_VALLEY
     STR_SV_STNAME_HEIGHTS STR_SV_STNAME_NORTH STR_SV_STNAME_SOUTH
     STR_SV_STNAME_EAST STR_SV_STNAME_WEST STR_SV_STNAME_TRANSFER
     STR_SV_STNAME_HALT STR_SV_STNAME_EXCHANGE STR_SV_STNAME_ANNEXE
     STR_SV_STNAME_SIDINGS STR_SV_STNAME_BRANCH STR_SV_STNAME_UPPER
     STR_SV_STNAME_LOWER INVALID_TILE TileAddWrap CMSAMine CMSAWater CMSATree
     IsTileForestIndustry DistanceMax DistanceFromEdge GetTileZ TileX TileY
     town_xy landscape_is_tropic).
Local Abbreviation GenerateStationName' :=
  (GenerateStationName STR_SV_STNAME STR_SV_STNAME_FALLBACK STR_SV_STNAME_OILFIELD
     STR_SV_STNAME_MINES STR_SV_STNAME_FOREST STR_SV_STNAME_WOODS STR_UNDEFINED
     STR_NULL IT_INVALID NUM_INDUSTRYTYPES GetIndustrySpec IsIndustryTile
     GetIndustryType SpiralTileSequence DefaultNames').
Local Abbreviation CountMapSquareAround' :=
  (CountMapSquareAround INVALID_TILE TileAddWrap).

(** *** CountMapSquareAround *)

Lemma count_row tile cmp dx offs :
  forall num,
    num <= fold_left
             (fun num dy =>
                let t := TileAddWrap tile dx dy in
                if negb (t =? INVALID_TILE) && cmp t then num + 1 else num)
             offs num
        <= num + Z.of_nat (length offs).
Proof.
  induction offs as [|dy offs IH]; intros num; [cbn; lia|].
  cbn [fold_left length]. cbv zeta in IH |- *.
  destruct (negb (TileAddWrap tile dx dy =? INVALID_TILE) && cmp (TileAddWrap tile dx dy)).
  - specialize (IH (num + 1)). lia.
  - specialize (IH num). lia.
Qed.

Lemma count_rows tile cmp offs offs' :
  forall num,
    num <= fold_left
             (fun num dx =>
                fold_left
                  (fun num dy =>
                     let t := TileAddWrap tile dx dy in
                     if negb (t =? INVALID_TILE) && cmp t then num + 1 else num)
                  offs' num)
             offs num
        <= num + Z.of_nat (length offs) * Z.of_nat (length offs').
Proof.
  induction offs as [|dx offs IH]; intros num; [cbn; lia|].
  cbn [fold_left length].
  pose proof (count_row tile cmp dx offs' num) as Hrow.
  cbv zeta in IH, Hrow |- *.
  set (num' := fold_left _ offs' num) in *.
  specialize (IH num'). rewrite Nat2Z.inj_succ, Z.mul_succ_l. lia.
Qed.

Lemma count_none tile cmp offs offs' :
  (forall t, cmp t = false) ->
  forall num,
    fold_left
      (fun num dx =>
         fold_left
           (fun num dy =>
              let t := TileAddWrap tile dx dy in
              if negb (t =? INVALID_TILE) && cmp t then num + 1 else num)
           offs' num)
      offs num = num.
Proof.
  intros Hnone. induction offs as [|dx offs IH]; intros num; [reflexivity|].
  cbn [fold_left]. rewrite IH. clear IH.
  revert num. induction offs' as [|dy offs' IH']; intros num; [reflexivity|].
  cbn [fold_left]. cbv zeta. rewrite Hnone, andb_false_r. apply IH'.
Qed.

(** X20. CountMapSquareAround counts at most the 49 tiles of the 7 by 7
    square, and nothing when no tile matches. *)
Theorem CountMapSquareAround_bounds tile cmp :
  0 <= CountMapSquareAround INVALID_TILE TileAddWrap tile cmp <= 49 /\
  ((forall t, cmp t = false) ->
   CountMapSquareAround INVALID_TILE TileAddWrap tile cmp = 0).
Proof.
  split.
  - unfold CountMapSquareAround.
    pose proof (count_rows tile cmp offsets offsets 0) as H.
    change (Z.of_nat (length offsets)) with 7 in H. cbv zeta in H. lia.
  - intros Hnone. apply count_none. exact Hnone.
Qed.

(** *** Names in use stay in use *)

Lemma used_set_indtype sni it : used_names (set_indtype sni it) = used_names sni.
Proof. reflexivity. Qed.

Lemma used_mark_same_name sni name :
  used_names (mark_same_name NUM_INDUSTRYTYPES GetIndustrySpec sni name)
    = used_names sni.
Proof.
  unfold mark_same_name. generalize (seq 0 NUM_INDUSTRYTYPES). intros l.
  revert sni. induction l as [|it l IH]; intros sni; [reflexivity|].
  cbn [fold_left]. rewrite IH.
  destruct (enabled _ && _); reflexivity.
Qed.

Lemma IsAvailable_used sni sni' str :
  used_names sni' = used_names sni -> IsAvailable' sni' str = IsAvailable' sni str.
Proof. unfold IsAvailable. intros ->. reflexivity. Qed.

Lemma collect_step_keeps st sni s str :
  IsAvailable' sni str = false -> IsAvailable' (collect_step' st sni s) str = false.
Proof.
  intros Hused. unfold collect_step.
  destruct (negb (index s =? index st) && (town s =? town st)); [|exact Hused].
  destruct (negb (indtype s =? IT_INVALID)).
  - destruct (negb (_ =? STR_UNDEFINED)).
    + rewrite (IsAvailable_used sni); [exact Hused|].
      rewrite used_mark_same_name. reflexivity.
    + exact Hused.
  - destruct (IsInsideMM _ _ _); [|exact Hused].
    apply SetUsed_keeps. exact Hused.
Qed.

Lemma collect_keeps st stations :
  forall sni str,
    IsAvailable' sni str = false ->
    IsAvailable' (fold_left (collect_step' st) stations sni) str = false.
Proof.
  induction stations as [|s stations IH]; intros sni str Hused; [exact Hused|].
  cbn [fold_left]. apply IH, collect_step_keeps, Hused.
Qed.

Lemma collect_marks st stations s :
  STR_SV_STNAME <= STR_SV_STNAME_WOODS ->
  In s stations -> index s <> index st -> town s = town st ->
  indtype s = IT_INVALID ->
  IsInsideMM (string_id s) STR_SV_STNAME STR_SV_STNAME_FALLBACK = true ->
  forall sni,
    IsAvailable' (fold_left (collect_step' st) stations sni)
      (if string_id s =? STR_SV_STNAME_FOREST then STR_SV_STNAME_WOODS
       else string_id s) = false.
Proof.
  intros Hwoods Hin Hidx Htown Hind Hinside.
  induction stations as [|s' stations IH]; intros sni; [destruct Hin|].
  cbn [fold_left]. destruct Hin as [->|Hin]; [|apply IH, Hin].
  apply collect_keeps. unfold collect_step.
  destruct (Z.eqb_spec (index s) (index st)); [contradiction|].
  rewrite Htown, Z.eqb_refl, Hind, Z.eqb_refl, Hinside. cbn [negb andb].
  apply SetUsed_used.
  unfold IsInsideMM in Hinside. apply andb_true_iff in Hinside.
  destruct Hinside as [Hlo _]. apply Z.leb_le in Hlo.
  destruct (string_id s =? STR_SV_STNAME_FOREST); lia.
Qed.

Lemma industry_scan_keeps_used tiles :
  forall sni str,
    IsAvailable' sni str = false ->
    IsAvailable' (names_after_scan (industry_scan' tiles sni)) str = false.
Proof.
  induction tiles as [|t rest IH]; intros sni str Hused; [exact Hused|].
  cbn [industry_scan].
  destruct (negb (IsIndustryTile t)); [apply IH, Hused|].
  destruct (_ =? STR_UNDEFINED); [apply IH, Hused|].
  destruct (Z.testbit _ _); [apply IH; do 2 apply SetUsed_keeps; exact Hused|].
  destruct (negb _); cbn [names_after_scan]; do 2 apply SetUsed_keeps; exact Hused.
Qed.

Lemma mark_directions_keeps sni tile xy str :
  IsAvailable' sni str = false ->
  IsAvailable' (mark_directions' sni tile xy) str = false.
Proof.
  intros Hused. unfold mark_directions.
  destruct (TileX tile <? TileX xy); destruct (TileY tile <? TileY xy);
    do 4 apply SetUsed_keeps; exact Hused.
Qed.

Lemma first_available_result sni names :
  first_available' sni names = STR_SV_STNAME_FALLBACK \/
  (In (first_available' sni names) names /\
   IsAvailable' sni (first_available' sni names) = true).
Proof.
  induction names as [|str names IH]; [left; reflexivity|].
  cbn [first_available]. destruct (IsAvailable' sni str) eqn:Hav.
  - right. split; [left; reflexivity|exact Hav].
  - destruct IH as [IH|[Hin Hav']]; [left; exact IH|].
    right. split; [right; exact Hin|exact Hav'].
Qed.

(** The default names other than "forest". *)
Local Abbreviation plain_names :=
  ([STR_SV_STNAME; STR_SV_STNAME_AIRPORT; STR_SV_STNAME_OILFIELD;
    STR_SV_STNAME_DOCKS; STR_SV_STNAME_HELIPORT; STR_SV_STNAME_MINES;
    STR_SV_STNAME_CENTRAL; STR_SV_STNAME_LAKESIDE; STR_SV_STNAME_WOODS]
   ++ [STR_SV_STNAME_VALLEY; STR_SV_STNAME_HEIGHTS] ++ fallback_names').

(** The cascade returns the fallback string, or a name that is available
    at its start; "forest" stands in for "woods". *)
Lemma DefaultNames_result sni st tile name_class :
  let r := DefaultNames' sni st tile name_class in
  r = STR_SV_STNAME_FALLBACK \/
  (In r plain_names /\ IsAvailable' sni r = true) \/
  (r = STR_SV_STNAME_FOREST /\ IsAvailable' sni STR_SV_STNAME_WOODS = true).
Proof.
  cbv zeta.
  set (P := fun r =>
     r = STR_SV_STNAME_FALLBACK \/
     (In r plain_names /\ IsAvailable' sni r = true) \/
     (r = STR_SV_STNAME_FOREST /\ IsAvailable' sni STR_SV_STNAME_WOODS = true)).
  change (P (DefaultNames' sni st tile name_class)).
  assert (Hplain : forall str, In str plain_names -> IsAvailable' sni str = true -> P str)
    by (intros str Hin Hav; right; left; split; assumption).
  assert (Hlast : P (first_available' (mark_directions' sni tile (town_xy (town st)))
                       fallback_names')).
  { destruct (first_available_result
                (mark_directions' sni tile (town_xy (town st))) fallback_names')
      as [Hfb|[Hin Hav']]; [left; exact Hfb|].
    apply Hplain; [apply in_or_app; right; apply in_or_app; right; exact Hin|].
    destruct (IsAvailable' sni (first_available' _ fallback_names')) eqn:Hav0;
      [reflexivity|].
    rewrite (mark_directions_keeps _ _ _ _ Hav0) in Hav'. discriminate. }
  unfold DefaultNames.
  assert (Hclass : match class_name STR_SV_STNAME_AIRPORT STR_SV_STNAME_OILFIELD
                           STR_SV_STNAME_DOCKS STR_SV_STNAME_HELIPORT name_class with
                   | Some str => In str plain_names
                   | None => True
                   end).
  { unfold class_name.
    repeat match goal with
           | |- context [if ?c then _ else _] => destruct c
           end; try exact I; cbn; repeat (first [left; reflexivity|right]). }
  destruct (class_name _ _ _ _ name_class) as [str|].
  - destruct (IsAvailable' sni str) eqn:Hav; [apply Hplain; assumption|].
    repeat lazymatch goal with
           | |- P (if ?c then _ else _) =>
               destruct c eqn:?;
               [repeat match goal with
                       | H : _ && _ = true |- _ => apply andb_true_iff in H; destruct H
                       end;
                first [ apply Hplain;
                        [cbn; repeat (first [left; reflexivity|right])|assumption]
                      | destruct landscape_is_tropic;
                        [right; right; split; [reflexivity|assumption]
                        |apply Hplain;
                         [cbn; repeat (first [left; reflexivity|right])|assumption]] ]
               |]
           end.
    exact Hlast.
  - repeat lazymatch goal with
           | |- P (if ?c then _ else _) =>
               destruct c eqn:?;
               [repeat match goal with
                       | H : _ && _ = true |- _ => apply andb_true_iff in H; destruct H
                       end;
                first [ apply Hplain;
                        [cbn; repeat (first [left; reflexivity|right])|assumption]
                      | destruct landscape_is_tropic;
                        [right; right; split; [reflexivity|assumption]
                        |apply Hplain;
                         [cbn; repeat (first [left; reflexivity|right])|assumption]] ]
               |]
           end.
    exact Hlast.
Qed.

(** X21. The name that GenerateStationName returns is not the default name
    of another station of the same town: such a name was marked used, "forest"
    as "woods", and the cascade only returns a name that is still available,
    or the fallback string. *)
Theorem GenerateStationName_unused_name stations st tile name_class s :
  string_table_ok' ->
  In s stations -> index s <> index st -> town s = town st ->
  indtype s = IT_INVALID ->
  IsInsideMM (string_id s) STR_SV_STNAME STR_SV_STNAME_FALLBACK = true ->
  (GenerateStationName' stations st tile name_class).2 <> string_id s.
Proof.
  intros [Hnodup Hrange] Hin Hidx Htown Hind Hinside.
  assert (Hwoods : STR_SV_STNAME <= STR_SV_STNAME_WOODS).
  { rewrite Forall_forall in Hrange.
    apply (Hrange STR_SV_STNAME_WOODS). cbn. repeat (first [left; reflexivity|right]). }
  assert (Hbelow : string_id s < STR_SV_STNAME_FALLBACK).
  { unfold IsInsideMM in Hinside. apply andb_true_iff in Hinside.
    destruct Hinside as [_ Hhi]. apply Z.ltb_lt in Hhi. exact Hhi. }
  assert (Hforest : forall str, In str plain_names -> str <> STR_SV_STNAME_FOREST).
  { intros str Hstr ->. unfold default_names in Hnodup.
    change ([STR_SV_STNAME; STR_SV_STNAME_AIRPORT; STR_SV_STNAME_OILFIELD;
             STR_SV_STNAME_DOCKS; STR_SV_STNAME_HELIPORT; STR_SV_STNAME_MINES;
             STR_SV_STNAME_CENTRAL; STR_SV_STNAME_LAKESIDE; STR_SV_STNAME_WOODS;
             STR_SV_STNAME_FOREST; STR_SV_STNAME_VALLEY; STR_SV_STNAME_HEIGHTS]
            ++ fallback_names')
      with ([STR_SV_STNAME; STR_SV_STNAME_AIRPORT; STR_SV_STNAME_OILFIELD;
             STR_SV_STNAME_DOCKS; STR_SV_STNAME_HELIPORT; STR_SV_STNAME_MINES;
             STR_SV_STNAME_CENTRAL; STR_SV_STNAME_LAKESIDE; STR_SV_STNAME_WOODS]
            ++ STR_SV_STNAME_FOREST
               :: ([STR_SV_STNAME_VALLEY; STR_SV_STNAME_HEIGHTS] ++ fallback_names'))
      in Hnodup.
    apply NoDup_remove_2 in Hnodup. exact (Hnodup Hstr). }
  unfold GenerateStationName.
  pose proof (collect_marks st stations s Hwoods Hin Hidx Htown Hind Hinside
                (mkSNI 0 0)) as Hmarked.
  set (sni0 := fold_left (collect_step' st) stations (mkSNI 0 0)) in *.
  pose proof (industry_scan_keeps_used (SpiralTileSequence tile 7) sni0 _ Hmarked)
    as Hscan.
  destruct (industry_scan' (SpiralTileSequence tile 7) sni0) as [it sni|sni];
    cbn [snd names_after_scan] in *; [lia|].
  destruct (DefaultNames_result sni st tile name_class)
    as [Hfb|[[Hplain Hav]|[Hf Hav]]]; intros Heq.
  - rewrite Hfb in Heq. lia.
  - rewrite Heq in Hplain, Hav. apply Hforest in Hplain.
    destruct (Z.eqb_spec (string_id s) STR_SV_STNAME_FOREST); [contradiction|].
    congruence.
  - rewrite Hf in Heq. rewrite <- Heq, Z.eqb_refl in Hscan. congruence.
Qed.

(** With different IDs for the default names no other name is "forest". *)
Lemma plain_names_not_forest :
  string_table_ok' ->
  forall str, In str plain_names -> str <> STR_SV_STNAME_FOREST.
Proof.
  intros [Hnodup _] str Hstr ->. unfold default_names in Hnodup.
  change ([STR_SV_STNAME; STR_SV_STNAME_AIRPORT; STR_SV_STNAME_OILFIELD;
           STR_SV_STNAME_DOCKS; STR_SV_STNAME_HELIPORT; STR_SV_STNAME_MINES;
           STR_SV_STNAME_CENTRAL; STR_SV_STNAME_LAKESIDE; STR_SV_STNAME_WOODS;
           STR_SV_STNAME_FOREST; STR_SV_STNAME_VALLEY; STR_SV_STNAME_HEIGHTS]
          ++ fallback_names')
    with ([STR_SV_STNAME; STR_SV_STNAME_AIRPORT; STR_SV_STNAME_OILFIELD;
           STR_SV_STNAME_DOCKS; STR_SV_STNAME_HELIPORT; STR_SV_STNAME_MINES;
           STR_SV_STNAME_CENTRAL; STR_SV_STNAME_LAKESIDE; STR_SV_STNAME_WOODS]
          ++ STR_SV_STNAME_FOREST
             :: ([STR_SV_STNAME_VALLEY; STR_SV_STNAME_HEIGHTS] ++ fallback_names'))
    in Hnodup.
  apply NoDup_remove_2 in Hnodup. exact (Hnodup Hstr).
Qed.

(** X29. Next to an industry that names stations, GenerateStationName
    returns neither "oilfield" nor "mines": an industry tile of the spiral
    whose type has a station name, be it STR_NULL, marks both names used
    before the cascade of default names runs, also for an oil rig. *)
Theorem GenerateStationName_blocks_oilfield_mines stations st tile name_class t :
  string_table_ok' ->
  In t (SpiralTileSequence tile 7) ->
  names_station STR_UNDEFINED GetIndustrySpec IsIndustryTile GetIndustryType t
    = true ->
  (GenerateStationName' stations st tile name_class).2 <> STR_SV_STNAME_OILFIELD /\
  (GenerateStationName' stations st tile name_class).2 <> STR_SV_STNAME_MINES.
Proof.
  intros Hok Hin Hname.
  pose proof (plain_names_not_forest Hok) as Hforest.
  destruct Hok as [_ Hrange]. rewrite Forall_forall in Hrange.
  assert (Hoil : STR_SV_STNAME <= STR_SV_STNAME_OILFIELD < STR_SV_STNAME_FALLBACK)
    by (apply Hrange; cbn; tauto).
  assert (Hmin : STR_SV_STNAME <= STR_SV_STNAME_MINES < STR_SV_STNAME_FALLBACK)
    by (apply Hrange; cbn; tauto).
  assert (Hoilp : In STR_SV_STNAME_OILFIELD plain_names) by (cbn; tauto).
  assert (Hminp : In STR_SV_STNAME_MINES plain_names) by (cbn; tauto).
  unfold GenerateStationName.
  set (sni0 := fold_left (collect_step' st) stations (mkSNI 0 0)).
  destruct (industry_scan_marks STR_SV_STNAME STR_SV_STNAME_OILFIELD
              STR_SV_STNAME_MINES STR_UNDEFINED STR_NULL GetIndustrySpec
              IsIndustryTile GetIndustryType (proj1 Hoil) (proj1 Hmin)
              (SpiralTileSequence tile 7) sni0 t Hin Hname) as [Hno Hnm].
  destruct (industry_scan' (SpiralTileSequence tile 7) sni0) as [it sni|sni];
    cbn [snd names_after_scan] in *; [split; lia|].
  destruct (DefaultNames_result sni st tile name_class)
    as [Hfb|[[Hplain Hav]|[Hf Hav]]].
  - rewrite Hfb. split; lia.
  - split; intros Heq; rewrite Heq in Hav; congruence.
  - rewrite Hf. split; intros Heq; symmetry in Heq.
    + exact (Hforest _ Hoilp Heq).
    + exact (Hforest _ Hminp Heq).
Qed.

End NameCascadeFacts.

(** ** CheckFlatLandAirport: what a success means *)

Section BuildableMore.
Import Buildable FootprintCost.

Variable SLOPE_FLAT : Slope.
Variable IsSteepSlope : Slope -> bool.
Variable GetSlopeMaxZ : Slope -> Z.
Variable CanBuildDepotByTileh : DiagDirection -> Slope -> bool.
Variable IsBridgeAbove : TileIndex -> bool.
Variable EnsureNoVehicleOnGround : TileIndex -> CommandCost.
Variable GetTileSlopeZ : TileIndex -> Slope * Z.
Variable build_on_slopes : bool.
Variable PR_BUILD_FOUNDATION : Z.
Variable LandscapeClear : TileIndex -> CommandCost.

Local Abbreviation flat_z' := (flat_z GetSlopeMaxZ GetTileSlopeZ).
Local Abbreviation CheckBuildableTile' :=
  (CheckBuildableTile SLOPE_FLAT IsSteepSlope GetSlopeMaxZ CanBuildDepotByTileh
     IsBridgeAbove EnsureNoVehicleOnGround GetTileSlopeZ build_on_slopes
     PR_BUILD_FOUNDATION).
Local Abbreviation CheckFlatLandAirport_loop' :=
  (CheckFlatLandAirport_loop SLOPE_FLAT IsSteepSlope GetSlopeMaxZ CanBuildDepotByTileh
     IsBridgeAbove EnsureNoVehicleOnGround GetTileSlopeZ build_on_slopes
     PR_BUILD_FOUNDATION LandscapeClear).
Local Abbreviation CheckFlatLandAirport' :=
  (CheckFlatLandAirport SLOPE_FLAT IsSteepSlope GetSlopeMaxZ CanBuildDepotByTileh
     IsBridgeAbove EnsureNoVehicleOnGround GetTileSlopeZ build_on_slopes
     PR_BUILD_FOUNDATION LandscapeClear).
Local Abbreviation foundation_cost' :=
  (foundation_cost SLOPE_FLAT GetTileSlopeZ PR_BUILD_FOUNDATION).
Local Abbreviation footprint_cost' :=
  (footprint_cost SLOPE_FLAT GetTileSlopeZ PR_BUILD_FOUNDATION LandscapeClear).

(** A tile that passes: no bridge, no vehicle, and the land can be
    cleared. *)
Local Abbreviation tile_free t :=
  (IsBridgeAbove t = false /\ Failed (EnsureNoVehicleOnGround t) = false /\
   Failed (LandscapeClear t) = false).

Lemma CheckBuildableTile_passed tile dirs allowed_z steep :
  Failed (CheckBuildableTile' tile dirs allowed_z steep true).1 = false ->
  IsBridgeAbove tile = false /\
  Failed (EnsureNoVehicleOnGround tile) = false /\
  GetCost (CheckBuildableTile' tile dirs allowed_z steep true).1
    = foundation_cost' tile.
Proof.
  unfold CheckBuildableTile, foundation_cost. cbn [andb].
  destruct (IsBridgeAbove tile); [discriminate|].
  destruct (Failed (EnsureNoVehicleOnGround tile)) eqn:Hveh.
  { cbn [fst]. congruence. }
  destruct (GetTileSlopeZ tile) as [tileh z].
  repeat match goal with
         | |- context [if ?c then _ else _] => destruct c eqn:?
         end; cbn [fst]; intros Hf; try discriminate;
    repeat split; try reflexivity; discriminate.
Qed.

Lemma CheckFlatLandAirport_loop_success tiles :
  forall cost0 allowed_z,
    Forall (fun t => 0 <= flat_z' t) tiles ->
    Failed (CheckFlatLandAirport_loop' tiles cost0 allowed_z) = false ->
    (forall t, In t tiles ->
       flat_z' t = match tiles with [] => 0 | t0 :: _ => flat_z' t0 end /\
       (0 <= allowed_z -> flat_z' t = allowed_z)) /\
    Forall (fun t => tile_free t) tiles /\
    GetCost (CheckFlatLandAirport_loop' tiles cost0 allowed_z)
      = GetCost cost0 + footprint_cost' tiles.
Proof.
  induction tiles as [|tile rest IH]; intros cost0 allowed_z Hpos Hok.
  - cbn. split; [intros t []|]. split; [constructor|lia].
  - inversion Hpos as [|? ? Htile Hrest]; subst.
    cbn [CheckFlatLandAirport_loop] in *.
    pose proof (CheckBuildableTile_success SLOPE_FLAT IsSteepSlope GetSlopeMaxZ
                  CanBuildDepotByTileh IsBridgeAbove EnsureNoVehicleOnGround
                  GetTileSlopeZ build_on_slopes PR_BUILD_FOUNDATION
                  tile (fun _ => false) allowed_z true true) as Hsucc.
    pose proof (CheckBuildableTile_passed tile (fun _ => false) allowed_z true)
      as Hpassed.
    destruct (CheckBuildableTile' tile (fun _ => false) allowed_z true true)
      as [ret az] eqn:Hcbt.
    cbn [fst snd] in *.
    destruct (Failed ret) eqn:Hret; [congruence|].
    destruct (Hsucc eq_refl) as [Haz Hsame].
    destruct (Hpassed eq_refl) as (Hbridge & Hveh & Hcost).
    destruct (Failed (LandscapeClear tile)) eqn:Hclear; [congruence|].
    destruct (IH _ az Hrest Hok) as (Hz & Hfree & Hsum).
    split; [|split].
    + intros t [<-|Hin].
      * split; [reflexivity|exact Hsame].
      * destruct (Hz t Hin) as [_ Hnext].
        assert (flat_z' t = flat_z' tile) by (rewrite <- Haz; apply Hnext; lia).
        split; [assumption|]. intros Hnn. rewrite <- (Hsame Hnn). assumption.
    + constructor; [|exact Hfree]. repeat split; assumption.
    + rewrite Hsum. unfold footprint_cost. cbn [fold_right].
      fold (footprint_cost' rest). rewrite <- Hcost.
      unfold GetCost, AddMoney. cbn [cost]. lia.
Qed.

(** X22. When CheckFlatLandAirport succeeds on a footprint of tiles of
    non-negative height, all tiles are at one elevation once levelled, none
    lies under a bridge or holds a vehicle, the land of each could be
    cleared, and the cost is the sum of the foundations for the sloped
    tiles and of the clearing. *)
Theorem CheckFlatLandAirport_success tiles :
  Forall (fun t => 0 <= flat_z' t) tiles ->
  Failed (CheckFlatLandAirport' tiles) = false ->
  (forall t t', In t tiles -> In t' tiles -> flat_z' t = flat_z' t') /\
  Forall (fun t => IsBridgeAbove t = false /\
                   Failed (EnsureNoVehicleOnGround t) = false /\
                   Failed (LandscapeClear t) = false) tiles /\
  GetCost (CheckFlatLandAirport' tiles) = footprint_cost' tiles.
Proof.
  intros Hpos Hok. unfold CheckFlatLandAirport in *.
  destruct (CheckFlatLandAirport_loop_success tiles CommandCost_ok (-1) Hpos Hok)
    as (Hz & Hfree & Hsum).
  split; [|split].
  - intros t t' Ht Ht'. rewrite (proj1 (Hz t Ht)), (proj1 (Hz t' Ht')). reflexivity.
  - exact Hfree.
  - rewrite Hsum. reflexivity.
Qed.

End BuildableMore.

(** ** RemoveFromRailBaseStation: the test run *)

Section RailRemovalMore.
Import RailRemoval RailRemovalCount.

Variable World : Type.
Variable HasStationTileRail : World -> TileIndex -> bool.
Variable EnsureNoVehicleOnGround : World -> TileIndex -> CommandCost.
Variable GetByTile : World -> TileIndex -> option StationID.
Variable station_owner : World -> StationID -> Z.
Variable CheckOwnership : Z -> CommandCost.
Variable IsStationTileBlocked : World -> TileIndex -> bool.
Variable current_company : Z.
Variable OWNER_WATER : Z.
Variable PR_CLEAR_RAIL : Z.
Variable ExecuteRemoval : bool -> TileIndex -> StationID -> World -> World.
Variable ShrinkAndCleanup : StationID -> World -> World.
Variable tiles_of : TileArea -> list TileIndex.

Local Abbreviation removal_step' :=
  (removal_step World HasStationTileRail EnsureNoVehicleOnGround GetByTile
     station_owner CheckOwnership IsStationTileBlocked current_company OWNER_WATER
     PR_CLEAR_RAIL ExecuteRemoval).
Local Abbreviation passes_checks' :=
  (passes_checks World HasStationTileRail EnsureNoVehicleOnGround GetByTile
     station_owner CheckOwnership current_company OWNER_WATER).
Local Abbreviation tile_errors' :=
  (tile_errors World HasStationTileRail EnsureNoVehicleOnGround GetByTile
     station_owner CheckOwnership current_company OWNER_WATER).
Local Abbreviation removable' :=
  (removable World HasStationTileRail EnsureNoVehicleOnGround GetByTile
     station_owner CheckOwnership current_company OWNER_WATER).
Local Abbreviation unrefunded' :=
  (unrefunded World HasStationTileRail EnsureNoVehicleOnGround GetByTile
     station_owner CheckOwnership IsStationTileBlocked current_company OWNER_WATER).
Local Abbreviation RemoveFromRailBaseStation' :=
  (RemoveFromRailBaseStation World HasStationTileRail EnsureNoVehicleOnGround
     GetByTile station_owner CheckOwnership IsStationTileBlocked current_company
     OWNER_WATER PR_CLEAR_RAIL ExecuteRemoval ShrinkAndCleanup tiles_of).

(** Without [Execute] and without a failed check the loop only counts. *)
Lemma removal_loop_counts keep_rail tiles :
  forall s,
    Failed (error s) = false ->
    tile_errors' (world s) tiles = [] ->
    let s' := fold_left (removal_step' false keep_rail) tiles s in
    world s' = world s /\ affected_stations s' = affected_stations s /\
    quantity s' = quantity s + Z.of_nat (length (removable' (world s) tiles)) /\
    cost (total_cost s')
      = cost (total_cost s)
        - Z.of_nat (length (unrefunded' keep_rail (world s) tiles)) * PR_CLEAR_RAIL /\
    success (total_cost s') = success (total_cost s) /\
    message (total_cost s') = message (total_cost s) /\
    Failed (error s') = false.
Proof.
  induction tiles as [|tile rest IH]; intros s Herr Hnone.
  - cbn. repeat split; auto; lia.
  - cbn [tile_errors flat_map] in Hnone. apply app_eq_nil in Hnone.
    destruct Hnone as [Htile Hrest].
    assert (Hstep :
      let s1 := removal_step' false keep_rail s tile in
      world s1 = world s /\ affected_stations s1 = affected_stations s /\
      Failed (error s1) = false /\
      success (total_cost s1) = success (total_cost s) /\
      message (total_cost s1) = message (total_cost s) /\
      quantity s1 = quantity s + (if passes_checks' (world s) tile then 1 else 0) /\
      cost (total_cost s1)
        = cost (total_cost s)
          - (if passes_checks' (world s) tile
                && (keep_rail || IsStationTileBlocked (world s) tile)
             then PR_CLEAR_RAIL else 0)).
    { unfold removal_step, passes_checks.
      destruct (HasStationTileRail (world s) tile); cbn [negb andb] in *.
      2:{ repeat split; auto; lia. }
      destruct (Failed (EnsureNoVehicleOnGround (world s) tile)) eqn:Hveh;
        [discriminate|].
      rewrite (AddCost_success _ _ Herr Hveh). cbn [negb andb].
      destruct (GetByTile (world s) tile) as [st|].
      2:{ cbn [world affected_stations quantity error total_cost].
          repeat split; cbn [andb]; auto; try lia; apply AddCost_success; assumption. }
      destruct (Z.eqb_spec current_company OWNER_WATER) as [Hwater|Hwater];
        cbn [negb andb orb] in *.
      - destruct (keep_rail || IsStationTileBlocked (world s) tile);
          cbn [world affected_stations quantity error total_cost AddMoney cost
                 success message];
          repeat split; cbn [andb]; auto; try lia; apply AddCost_success; assumption.
      - destruct (Failed (CheckOwnership (station_owner (world s) st))) eqn:Hown;
          [discriminate|].
        rewrite (AddCost_success _ _ (AddCost_success _ _ Herr Hveh) Hown).
        cbn [negb].
        destruct (keep_rail || IsStationTileBlocked (world s) tile);
          cbn [world affected_stations quantity error total_cost AddMoney cost
                 success message];
          repeat split; cbn [andb]; auto; try lia;
          apply AddCost_success; try assumption; apply AddCost_success; assumption. }
    cbv zeta in Hstep.
    destruct Hstep as (Hw & Ha & Hf & Hs & Hm & Hq & Hc).
    cbn [fold_left].
    specialize (IH (removal_step' false keep_rail s tile) Hf).
    rewrite Hw in IH. specialize (IH Hrest). cbv zeta in IH.
    destruct IH as (Hw' & Ha' & Hq' & Hc' & Hs' & Hm' & Hf').
    unfold unrefunded, removable in *. cbn [List.filter].
    split; [congruence|]. split; [congruence|].
    split; [|split; [|split; [congruence|split; [congruence|exact Hf']]]].
    + rewrite Hq', Hq. destruct (passes_checks' (world s) tile); cbn [length]; lia.
    + rewrite Hc', Hc.
      destruct (passes_checks' (world s) tile); cbn [andb List.filter]; [|lia].
      destruct (keep_rail || IsStationTileBlocked (world s) tile); cbn [length]; lia.
Qed.

(** X23. A test run (no Execute flag, no station listed beforehand) on an
    area without a failed check leaves the world as it is, lists no station
    and prices the removal: the removal cost for every tile that passes the
    checks, less the price of the rail for every such tile whose rail is
    kept or that has none.  Without such a tile there is no station. *)
Theorem RemoveFromRailBaseStation_test_run w0 ta removal_cost keep_rail :
  tile_errors' w0 (tiles_of ta) = [] ->
  let n := Z.of_nat (length (removable' w0 (tiles_of ta))) in
  let b := Z.of_nat (length (unrefunded' keep_rail w0 (tiles_of ta))) in
  RemoveFromRailBaseStation' w0 ta [] false removal_cost keep_rail
    = (if n =? 0 then CommandCost_error STR_ERROR_THERE_IS_NO_STATION
       else CommandCost_money (n * removal_cost - b * PR_CLEAR_RAIL),
       w0, []).
Proof.
  intros Hnone n b. unfold RemoveFromRailBaseStation.
  pose proof (removal_loop_counts keep_rail (tiles_of ta)
                (mkRemoval w0 [] 0 CommandCost_ok CommandCost_ok) eq_refl Hnone)
    as H.
  cbv zeta in H.
  cbn [world affected_stations quantity error total_cost CommandCost_ok cost
         success message] in H.
  destruct H as (Hw & Ha & Hq & Hc & Hs & Hm & Hf).
  fold n in Hq. fold b in Hc.
  set (s := fold_left _ (tiles_of ta) _) in *.
  rewrite Hq, Hf, Hw, Ha. change (0 + n) with n.
  destruct (n =? 0); [reflexivity|].
  cbn [fold_left]. f_equal. f_equal.
  unfold AddMoney, CommandCost_money. rewrite Hc, Hs, Hm. f_equal. lia.
Qed.

End RailRemovalMore.

(** ** GetAirportNoiseLevelForDistance *)

Section NoiseFacts.
Import Noise.

Variable town_council_tolerance : Z.

Local Abbreviation Noise' := (GetAirportNoiseLevelForDistance town_council_tolerance).

(** X24. For a tolerance setting that keeps the step a non-zero byte, the
    noise of an airport is never more than its own noise level and never
    reduced below 1, a distance below one step reduces nothing, and a
    greater distance never gives more noise. *)
Theorem GetAirportNoiseLevelForDistance_bounds noise_level distance distance' :
  0 <= town_council_tolerance <= 61 ->
  0 <= noise_level <= 255 -> 0 <= distance <= distance' ->
  Z.min noise_level 1
    <= GetAirportNoiseLevelForDistance town_council_tolerance noise_level distance
    <= noise_level /\
  (distance < 8 + town_council_tolerance * 4 ->
     GetAirportNoiseLevelForDistance town_council_tolerance noise_level distance
     = noise_level) /\
  GetAirportNoiseLevelForDistance town_council_tolerance noise_level distance'
    <= GetAirportNoiseLevelForDistance town_council_tolerance noise_level distance.
Proof.
  intros Htol Hnl Hd. unfold GetAirportNoiseLevelForDistance.
  destruct (Z.ltb_spec noise_level 2) as [Hsmall|Hbig]; [lia|].
  assert (Hbyte : u8 (8 + town_council_tolerance * 4) = 8 + town_council_tolerance * 4)
    by (unfold u8; apply Z.mod_small; lia).
  rewrite !Hbyte. clear Hbyte.
  set (step := 8 + town_council_tolerance * 4).
  assert (Hstep : 0 < step) by (unfold step; lia).
  assert (H0 : 0 <= distance / step) by (apply Z.div_pos; lia).
  assert (Hmono : distance / step <= distance' / step)
    by (apply Z.div_le_mono; lia).
  assert (Hu8 : forall r, 0 <= r < noise_level -> u8 (noise_level - r) = noise_level - r)
    by (intros r Hr; unfold u8; apply Z.mod_small; lia).
  split; [|split].
  - destruct (Z.leb_spec noise_level (distance / step)); [lia|].
    rewrite Hu8 by lia. lia.
  - intros Hnear. rewrite (Z.div_small distance step) by lia.
    destruct (Z.leb_spec noise_level 0); [lia|]. rewrite Hu8 by lia. lia.
  - destruct (Z.leb_spec noise_level (distance' / step));
      destruct (Z.leb_spec noise_level (distance / step));
      rewrite ?Hu8 by lia; lia.
Qed.

End NoiseFacts.

(** ** GetClosestDeletedStation *)

Section DeletedFacts.
Import Deleted.

Variable current_company : Z.
Variable DistanceManhattan : TileIndex -> TileIndex -> Z.
Variable ForAllStationsRadius : TileIndex -> Z -> list Station.

Local Abbreviation visit' := (visit current_company DistanceManhattan).
Local Abbreviation candidate' := (candidate current_company DistanceManhattan).
Local Abbreviation preferred' := (preferred DistanceManhattan).
Local Abbreviation GetClosestDeletedStation' :=
  (GetClosestDeletedStation current_company DistanceManhattan ForAllStationsRadius).

(** What the callback has found after the stations [seen]. *)
Local Abbreviation found tile seen acc :=
  (match snd acc with
   | None => fst acc = 8 /\ List.filter (candidate' tile) seen = []
   | Some best =>
       fst acc = DistanceManhattan tile (xy best) /\
       In best (List.filter (candidate' tile) seen) /\
       forall st', In st' (List.filter (candidate' tile) seen) ->
                   preferred' tile best st'
   end).

Lemma visit_found tile seen acc st :
  found tile seen acc -> found tile (seen ++ [st]) (visit' tile acc st).
Proof.
  destruct acc as [threshold best]. cbn [fst snd]. intros Hfound.
  rewrite List.filter_app. cbn [List.filter].
  assert (Hcand : candidate' tile st
                  = negb (IsInUse st) && (owner st =? current_company)
                    && (DistanceManhattan tile (xy st) <? 8)) by reflexivity.
  rewrite Hcand. clear Hcand. unfold visit.
  destruct (negb (IsInUse st) && (owner st =? current_company)) eqn:Hmine;
    cbn [andb].
  2:{ cbn [snd fst]. rewrite app_nil_r. exact Hfound. }
  set (d := DistanceManhattan tile (xy st)) in *.
  destruct best as [best|].
  - destruct Hfound as (Hthr & Hin & Hbest). subst threshold.
    assert (Hd8 : DistanceManhattan tile (xy best) < 8).
    { apply filter_In in Hin. destruct Hin as [_ Hc]. unfold candidate in Hc.
      apply andb_true_iff in Hc. destruct Hc as [_ Hc]. apply Z.ltb_lt in Hc.
      exact Hc. }
    destruct (Z.ltb_spec d (DistanceManhattan tile (xy best))) as [Hcloser|Hfar].
    + destruct (Z.ltb_spec d 8); [|lia]. cbn [snd fst].
      split; [reflexivity|]. split; [apply in_or_app; right; left; reflexivity|].
      intros st' Hst'. apply in_app_or in Hst'. destruct Hst' as [Hst'|[<-|[]]].
      * specialize (Hbest st' Hst'). unfold preferred in *. fold d. lia.
      * right. split; [reflexivity|lia].
    + destruct (Z.eqb_spec d (DistanceManhattan tile (xy best))) as [Htie|Hne].
      * destruct (Z.ltb_spec d 8); [|lia].
        destruct (Z.ltb_spec (index st) (index best)) as [Hlow|Hhigh]; cbn [snd fst].
        -- split; [symmetry; exact Htie|].
           split; [apply in_or_app; right; left; reflexivity|].
           intros st' Hst'. apply in_app_or in Hst'. destruct Hst' as [Hst'|[<-|[]]].
           ++ specialize (Hbest st' Hst'). unfold preferred in *. fold d. lia.
           ++ right. split; [reflexivity|lia].
        -- split; [reflexivity|]. split; [apply in_or_app; left; exact Hin|].
           intros st' Hst'. apply in_app_or in Hst'. destruct Hst' as [Hst'|[<-|[]]].
           ++ exact (Hbest st' Hst').
           ++ right. fold d. split; [lia|lia].
      * cbn [snd fst]. split; [reflexivity|].
        destruct (Z.ltb_spec d 8); cbn [app].
        -- split; [apply in_or_app; left; exact Hin|].
           intros st' Hst'. apply in_app_or in Hst'. destruct Hst' as [Hst'|[<-|[]]].
           ++ exact (Hbest st' Hst').
           ++ left. fold d. lia.
        -- rewrite app_nil_r. split; [exact Hin|exact Hbest].
  - destruct Hfound as (Hthr & Hnone). subst threshold.
    destruct (Z.ltb_spec d 8) as [Hnear|Hfar]; cbn [snd fst].
    + rewrite Hnone. cbn [app]. split; [reflexivity|].
      split; [left; reflexivity|]. intros st' [<-|[]]. right. split; [reflexivity|lia].
    + rewrite Hnone. split; reflexivity.
Qed.

Lemma visit_all tile stations :
  forall seen acc,
    found tile seen acc ->
    found tile (seen ++ stations) (fold_left (visit' tile) stations acc).
Proof.
  induction stations as [|st stations IH]; intros seen acc Hfound.
  - rewrite app_nil_r. exact Hfound.
  - cbn [fold_left].
    replace (seen ++ st :: stations) with ((seen ++ [st]) ++ stations)
      by (rewrite <- app_assoc; reflexivity).
    apply IH, visit_found, Hfound.
Qed.

(** X25. GetClosestDeletedStation returns nothing exactly when the search
    passes no station that is out of use, owned by the current company and
    less than 8 tiles away; else it returns such a station that is closest,
    and of the lowest ID among the closest, in whatever order the search
    passes the stations. *)
Theorem GetClosestDeletedStation_closest tile :
  let candidates :=
    List.filter (candidate current_company DistanceManhattan tile)
      (ForAllStationsRadius tile 8) in
  match GetClosestDeletedStation current_company DistanceManhattan
          ForAllStationsRadius tile with
  | None => candidates = []
  | Some best =>
      In best candidates /\
      forall st', In st' candidates -> preferred DistanceManhattan tile best st'
  end.
Proof.
  cbv zeta. unfold GetClosestDeletedStation.
  pose proof (visit_all tile (ForAllStationsRadius tile 8) [] (8, None)) as H.
  cbn [app snd fst List.filter] in H. specialize (H (conj eq_refl eq_refl)).
  destruct (snd (fold_left (visit' tile) (ForAllStationsRadius tile 8) (8, None)))
    as [best|].
  - exact (proj2 H).
  - exact (proj2 H).
Qed.

End DeletedFacts.

(** ** Cargo arriving at stations *)

Section SumFacts.
Import Waiting.

Context {A : Type}.
Implicit Types (f g : A -> Z) (l : list A).

Lemma sum_of_cons f x l : sum_of f (x :: l) = f x + sum_of f l.
Proof. reflexivity. Qed.

Lemma sum_of_app f l1 l2 : sum_of f (l1 ++ l2) = sum_of f l1 + sum_of f l2.
Proof.
  induction l1 as [|x l1 IH]; [reflexivity|].
  rewrite <- app_comm_cons, !sum_of_cons, IH. lia.
Qed.

Lemma sum_of_add f g l :
  sum_of (fun x => f x + g x) l = sum_of f l + sum_of g l.
Proof.
  induction l as [|x l IH]; [reflexivity|].
  rewrite !sum_of_cons, IH. lia.
Qed.

Lemma sum_of_scale c f l : sum_of (fun x => c * f x) l = c * sum_of f l.
Proof.
  induction l as [|x l IH]; [cbn; lia|].
  rewrite !sum_of_cons, IH. lia.
Qed.

Lemma sum_of_le f g l :
  (forall x, In x l -> f x <= g x) -> sum_of f l <= sum_of g l.
Proof.
  induction l as [|x l IH]; intros H; [cbn; lia|].
  rewrite !sum_of_cons.
  pose proof (H x (or_introl eq_refl)).
  pose proof (IH (fun y Hy => H y (or_intror Hy))). lia.
Qed.

Lemma sum_of_ext f g l :
  (forall x, In x l -> f x = g x) -> sum_of f l = sum_of g l.
Proof.
  induction l as [|x l IH]; intros H; [reflexivity|].
  rewrite !sum_of_cons, (H x (or_introl eq_refl)).
  rewrite (IH (fun y Hy => H y (or_intror Hy))). reflexivity.
Qed.

Lemma sum_of_zero f l : (forall x, In x l -> f x = 0) -> sum_of f l = 0.
Proof.
  induction l as [|x l IH]; intros H; [reflexivity|].
  rewrite sum_of_cons, (H x (or_introl eq_refl)).
  rewrite (IH (fun y Hy => H y (or_intror Hy))). reflexivity.
Qed.

Lemma sum_of_perm f l l' : Permutation l l' -> sum_of f l = sum_of f l'.
Proof.
  induction 1 as [|x l l' _ IH|x y l|l l' l'' _ IH1 _ IH2].
  - reflexivity.
  - rewrite !sum_of_cons, IH. reflexivity.
  - rewrite !sum_of_cons. lia.
  - congruence.
Qed.

Lemma sum_of_length l : sum_of (fun _ => 1) l = Z.of_nat (length l).
Proof.
  induction l as [|x l IH]; [reflexivity|].
  rewrite sum_of_cons, IH. cbn [length]. lia.
Qed.

Lemma sum_of_nonneg f l : (forall x, In x l -> 0 <= f x) -> 0 <= sum_of f l.
Proof.
  intros H. transitivity (sum_of (fun _ => 0) l).
  - clear H. induction l as [|x l IH]; [cbn; lia|].
    rewrite sum_of_cons. lia.
  - now apply sum_of_le.
Qed.

Lemma sum_of_member f l x :
  (forall y, In y l -> 0 <= f y) -> In x l -> f x <= sum_of f l.
Proof.
  induction l as [|y l IH]; intros H Hin; [destruct Hin|].
  rewrite sum_of_cons.
  pose proof (H y (or_introl eq_refl)).
  pose proof (sum_of_nonneg f l (fun z Hz => H z (or_intror Hz))).
  destruct Hin as [->|Hin]; [lia|].
  pose proof (IH (fun z Hz => H z (or_intror Hz)) Hin). lia.
Qed.

End SumFacts.

Section OwnerFacts.
Import Waiting.

Lemma sum_of_at (os : list Z) o v :
  NoDup os -> In o os ->
  sum_of (fun o' => if o =? o' then v else 0) os = v.
Proof.
  induction os as [|a os IH]; intros Hnd Hin; [destruct Hin|].
  rewrite sum_of_cons. inversion Hnd as [|? ? Hna Hnd']; subst.
  destruct (Z.eqb_spec o a) as [->|Hne].
  - rewrite sum_of_zero; [lia|].
    intros x Hx. destruct (Z.eqb_spec a x); [congruence|reflexivity].
  - destruct Hin as [->|Hin]; [congruence|]. rewrite IH by assumption. lia.
Qed.

Lemma sum_of_set_at (f : Z -> Z) o v os :
  NoDup os -> In o os ->
  sum_of (set_at f o v) os = sum_of f os + v - f o.
Proof.
  intros Hnd Hin.
  rewrite (sum_of_ext _ (fun o' => f o' + (if o =? o' then v - f o else 0))).
  - rewrite sum_of_add, sum_of_at by assumption. lia.
  - intros x _. unfold set_at.
    destruct (Z.eqb_spec x o) as [->|Hne].
    + rewrite Z.eqb_refl. lia.
    + destruct (Z.eqb_spec o x); [congruence|lia].
Qed.

Lemma of_owner_cons o st l :
  of_owner o (st :: l)
  = if owner st =? o then st :: of_owner o l else of_owner o l.
Proof. reflexivity. Qed.

Lemma of_owner_In o st l : In st (of_owner o l) <-> In st l /\ owner st = o.
Proof.
  unfold of_owner. rewrite List.filter_In, Z.eqb_eq. reflexivity.
Qed.

(** A sum over the stations is the sum over the companies of the sums
    over their stations. *)
Lemma sum_by_owner (f : Station -> Z) os l :
  NoDup os -> (forall st, In st l -> In (owner st) os) ->
  sum_of (fun o => sum_of f (of_owner o l)) os = sum_of f l.
Proof.
  intros Hnd. induction l as [|st l IH]; intros Hcover.
  - now apply sum_of_zero.
  - rewrite sum_of_cons, <- IH by (intros; apply Hcover; now right).
    rewrite <- (sum_of_at os (owner st) (f st))
      by (try assumption; apply Hcover; now left).
    rewrite <- sum_of_add. apply sum_of_ext. intros o _.
    rewrite of_owner_cons. destruct (owner st =? o); [apply sum_of_cons|lia].
Qed.

Lemma best_of_cons st l :
  best_of (st :: l) = Z.max (rating (goods st)) (best_of l).
Proof. reflexivity. Qed.

Lemma best_of_nonneg l : 0 <= best_of l.
Proof.
  induction l as [|st l IH]; [reflexivity|]. rewrite best_of_cons. lia.
Qed.

Lemma best_of_app l1 l2 : best_of (l1 ++ l2) = Z.max (best_of l1) (best_of l2).
Proof.
  induction l1 as [|st l1 IH].
  - pose proof (best_of_nonneg l2). cbn [app]. change (best_of []) with 0. lia.
  - rewrite <- app_comm_cons, !best_of_cons, IH. lia.
Qed.

Lemma best_of_bound l : Forall rated l -> best_of l <= 255.
Proof.
  induction 1 as [|st l [? ?] _ IH]; [cbn; lia|]. rewrite best_of_cons. lia.
Qed.

Lemma of_owner_snoc o seen st :
  of_owner o (seen ++ [st])
  = of_owner o seen ++ (if owner st =? o then [st] else []).
Proof.
  unfold of_owner. rewrite List.filter_app. cbn [List.filter].
  destruct (owner st =? o); reflexivity.
Qed.

(** One round of the first loop of MoveGoodsToStation keeps what is known
    about the ratings. *)
Lemma rate_step_inv os seen r st :
  NoDup os -> In (owner st) os -> rated st ->
  255 * (Z.of_nat (length seen) + 1) < 2 ^ 32 ->
  rate_inv os seen r -> rate_inv os (seen ++ [st]) (rate_step r st).
Proof.
  intros Hnd Hin [Hr1 Hr2] Hlen
    (Hsum & Hsumb & Hbest & Hnone & Hmem & Hbr & Hbs & Hbsb).
  assert (Hlen' : Z.of_nat (length (seen ++ [st])) = Z.of_nat (length seen) + 1)
    by (rewrite length_app; cbn [length]; lia).
  pose proof (Hbest (owner st)) as Hb0.
  pose proof (Hsumb (owner st)) as Hs0.
  pose proof (best_of_nonneg seen) as Hbn.
  assert (Hsum1 : forall o,
    (if o =? owner st then company_sum r o + rating (goods st)
     else company_sum r o)
    = sum_of (fun st => rating (goods st)) (of_owner o (seen ++ [st]))).
  { intros o. rewrite of_owner_snoc, sum_of_app, <- Hsum.
    destruct (Z.eqb_spec o (owner st)) as [->|Hne].
    - rewrite Z.eqb_refl. cbn. lia.
    - destruct (Z.eqb_spec (owner st) o); [congruence|]. cbn. lia. }
  assert (Hbr1 : Z.max (best_rating r) (rating (goods st))
                 = best_of (seen ++ [st])).
  { rewrite best_of_app, best_of_cons. change (best_of []) with 0. lia. }
  unfold rate_step.
  destruct (Z.ltb_spec (company_best r (owner st)) (rating (goods st)))
    as [Hlt|Hge];
    unfold rate_inv;
    cbn [company_best company_sum best_rating best_sum];
    rewrite ?Hlen'; unfold set_at;
    (refine (conj _ (conj _ (conj _ (conj _ (conj _ (conj _ (conj _ _)))))))).
  - intros o. rewrite <- Hsum1.
    destruct (Z.eqb_spec o (owner st)) as [->|_];
      [apply u32_small; lia|reflexivity].
  - intros o. pose proof (Hsumb o).
    destruct (Z.eqb_spec o (owner st)) as [->|_]; [rewrite u32_small; lia|lia].
  - intros o. pose proof (Hbest o).
    destruct (o =? owner st); destruct (best_rating r <? _) eqn:E;
      try apply Z.ltb_lt in E; try apply Z.ltb_ge in E; lia.
  - intros o. rewrite of_owner_snoc.
    destruct (Z.eqb_spec o (owner st)) as [->|Hne].
    + rewrite Z.eqb_refl. intros H. apply app_eq_nil in H. now destruct H.
    + destruct (Z.eqb_spec (owner st) o); [congruence|].
      rewrite app_nil_r. apply Hnone.
  - intros st' Hin'. apply in_app_or in Hin'.
    destruct Hin' as [Hin'|[<-|[]]].
    + pose proof (Hmem st' Hin').
      destruct (Z.eqb_spec (owner st') (owner st)) as [E|_]; [rewrite E in *|]; lia.
    + rewrite Z.eqb_refl. lia.
  - rewrite <- Hbr1. destruct (Z.ltb_spec (best_rating r) (rating (goods st))); lia.
  - pose proof (sum_of_set_at (company_best r) (owner st) (rating (goods st))
                  os Hnd Hin) as E.
    unfold set_at in E. rewrite E, <- Hbs.
    rewrite (u32_small (rating (goods st) - _)) by lia.
    rewrite u32_small by lia. lia.
  - rewrite (u32_small (rating (goods st) - _)) by lia.
    rewrite u32_small by lia. lia.
  - intros o. rewrite <- Hsum1.
    destruct (Z.eqb_spec o (owner st)) as [->|_];
      [apply u32_small; lia|reflexivity].
  - intros o. pose proof (Hsumb o).
    destruct (Z.eqb_spec o (owner st)) as [->|_]; [rewrite u32_small; lia|lia].
  - exact Hbest.
  - intros o. rewrite of_owner_snoc.
    destruct (Z.eqb_spec (owner st) o) as [<-|Hne].
    + intros H. apply app_eq_nil in H. now destruct H.
    + rewrite app_nil_r. apply Hnone.
  - intros st' Hin'. apply in_app_or in Hin'.
    destruct Hin' as [Hin'|[<-|[]]]; [now apply Hmem|lia].
  - rewrite <- Hbr1. lia.
  - exact Hbs.
  - lia.
Qed.

Lemma rate_loop_inv os l : forall seen r,
  NoDup os -> (forall st, In st l -> In (owner st) os) -> Forall rated l ->
  255 * (Z.of_nat (length seen) + Z.of_nat (length l)) < 2 ^ 32 ->
  rate_inv os seen r -> rate_inv os (seen ++ l) (fold_left rate_step l r).
Proof.
  induction l as [|st l IH]; intros seen r Hnd Hcover Hrated Hlen Hinv.
  - now rewrite app_nil_r.
  - cbn [fold_left]. inversion Hrated as [|? ? Hst Hl]; subst.
    cbn [length] in Hlen.
    replace (seen ++ st :: l) with ((seen ++ [st]) ++ l)
      by (rewrite <- app_assoc; reflexivity).
    apply IH; try assumption.
    + intros; apply Hcover; now right.
    + rewrite length_app. cbn [length]. lia.
    + apply rate_step_inv; try assumption; [apply Hcover; now left|lia].
Qed.

(** The companies of the stations, each once. *)
Lemma rate_ok l :
  Forall rated l -> 255 * Z.of_nat (length l) < 2 ^ 32 ->
  rate_inv (nodup Z.eq_dec (List.map owner l)) l (rate l).
Proof.
  intros Hrated Hlen. unfold rate.
  apply (rate_loop_inv _ l [] _); try assumption.
  - apply NoDup_nodup.
  - intros st Hin. apply nodup_In. now apply in_map.
  - unfold rate_inv. cbn [company_best company_sum best_rating best_sum length of_owner List.filter].
    refine (conj _ (conj _ (conj _ (conj _ (conj _ (conj _ (conj _ _)))))));
      try reflexivity; try (intros; lia).
    + intros st [].
    + symmetry. now apply sum_of_zero.
Qed.

(** Rounding down the parts of a sum loses less than one for each. *)
Lemma rounded_sum_bounds (w : Station -> Z) M L :
  0 < M ->
  M * sum_of (fun st => w st / M) L <= sum_of w L /\
  sum_of w L <= M * (sum_of (fun st => w st / M) L + Z.of_nat (length L)).
Proof.
  intros HM. induction L as [|st L [IH1 IH2]]; [cbn; lia|].
  rewrite !sum_of_cons. cbn [length].
  pose proof (Z.mul_div_le (w st) M HM).
  pose proof (Z.mul_succ_div_gt (w st) M HM). lia.
Qed.

(** The stations of one company get the part of the company, less at
    most one for every station. *)
Lemma owner_bounds os S r A o :
  rate_inv os S r -> Forall rated S -> 0 <= A -> 0 < best_sum r ->
  let q := fun st => A * company_best r (owner st) * rating (goods st)
                     / best_sum r / company_sum r (owner st) in
  best_sum r * sum_of q (of_owner o S) <= A * company_best r o /\
  A * company_best r o
    <= best_sum r * (sum_of q (of_owner o S) + Z.of_nat (length (of_owner o S))).
Proof.
  intros (Hsum & Hsumb & Hbest & Hnone & Hmem & Hbr & Hbs & Hbsb) Hrated HA HK q.
  set (L := of_owner o S). set (K := best_sum r) in *.
  set (B := company_best r o). set (C := company_sum r o).
  assert (HL : forall st, In st L -> owner st = o)
    by (intros st Hin; now apply of_owner_In in Hin).
  assert (HC : C = sum_of (fun st => rating (goods st)) L) by apply Hsum.
  pose proof (Hbest o) as HB. fold B in HB.
  assert (Hr : forall st, In st L -> 1 <= rating (goods st)).
  { intros st Hin. apply of_owner_In in Hin. destruct Hin as [Hin _].
    rewrite Forall_forall in Hrated. now apply Hrated. }
  destruct (Z.eq_dec C 0) as [HC0|HC0].
  - assert (L = []) as HLe.
    { destruct L as [|st L'] eqn:E; [reflexivity|].
      rewrite sum_of_cons in HC.
      pose proof (Hr st (or_introl eq_refl)).
      pose proof (sum_of_nonneg (fun st => rating (goods st)) L'
                    (fun y Hy => Z.le_trans _ _ _ Z.le_0_1 (Hr y (or_intror Hy)))).
      lia. }
    assert (B = 0) by (apply Hnone; exact HLe).
    rewrite HLe. cbn. lia.
  - assert (0 < C).
    { pose proof (sum_of_nonneg (fun st => rating (goods st)) L
                    (fun y Hy => Z.le_trans _ _ _ Z.le_0_1 (Hr y Hy))). lia. }
    assert (Hq : sum_of q L = sum_of (fun st => A * B * rating (goods st) / (K * C)) L).
    { apply sum_of_ext. intros st Hin. unfold q. rewrite (HL st Hin).
      fold B C K. apply Z.div_div; lia. }
    rewrite Hq.
    pose proof (rounded_sum_bounds (fun st => A * B * rating (goods st)) (K * C) L
                  ltac:(nia)) as [H1 H2].
    rewrite sum_of_scale, <- HC in H1, H2.
    split.
    + apply (Z.mul_le_mono_pos_r _ _ C); [assumption|]. lia.
    + apply (Z.mul_le_mono_pos_r _ _ C); [assumption|]. lia.
Qed.

(** The sum of the shares is the amount, less at most one for every
    station. *)
Lemma distribution_bounds os S r A :
  NoDup os -> (forall st, In st S -> In (owner st) os) ->
  rate_inv os S r -> Forall rated S -> 0 <= A -> S <> [] ->
  let q := fun st => A * company_best r (owner st) * rating (goods st)
                     / best_sum r / company_sum r (owner st) in
  0 < best_sum r /\
  sum_of q S <= A <= sum_of q S + Z.of_nat (length S).
Proof.
  intros Hnd Hcover Hinv Hrated HA Hne q.
  pose proof Hinv as (Hsum & Hsumb & Hbest & Hnone & Hmem & Hbr & Hbs & Hbsb).
  assert (HK : 0 < best_sum r).
  { destruct S as [|st S']; [congruence|].
    pose proof (Hmem st (or_introl eq_refl)).
    inversion Hrated as [|? ? [? ?] _]; subst.
    pose proof (sum_of_member (company_best r) os (owner st)
                  (fun o _ => proj1 (Hbest o)) (Hcover st (or_introl eq_refl))).
    lia. }
  split; [exact HK|].
  pose proof (fun o => owner_bounds os S r A o Hinv Hrated HA HK) as Hob.
  cbv zeta in Hob. fold q in Hob.
  assert (HAK : A * best_sum r = sum_of (fun o => A * company_best r o) os)
    by (rewrite sum_of_scale, <- Hbs; reflexivity).
  assert (Hlen : sum_of (fun o => Z.of_nat (length (of_owner o S))) os
                 = Z.of_nat (length S)).
  { rewrite (sum_of_ext _ (fun o => sum_of (fun _ => 1) (of_owner o S)))
      by (intros; symmetry; apply sum_of_length).
    rewrite (sum_by_owner (fun _ => 1) os S Hnd Hcover). apply sum_of_length. }
  assert (H1 : best_sum r * sum_of q S <= A * best_sum r).
  { rewrite HAK, <- (sum_by_owner q os S Hnd Hcover), <- sum_of_scale.
    apply sum_of_le. intros o _. apply Hob. }
  assert (H2 : A * best_sum r
               <= best_sum r * (sum_of q S + Z.of_nat (length S))).
  { rewrite HAK, <- Hlen, <- (sum_by_owner q os S Hnd Hcover).
    rewrite <- sum_of_add, <- sum_of_scale.
    apply sum_of_le. intros o _. apply Hob. }
  split.
  - apply (Z.mul_le_mono_pos_l _ _ (best_sum r)); [assumption|]. lia.
  - apply (Z.mul_le_mono_pos_l _ _ (best_sum r)); [assumption|]. lia.
Qed.

Lemma sum_of_map {A B : Type} (f : B -> Z) (g : A -> B) l :
  sum_of f (List.map g l) = sum_of (fun x => f (g x)) l.
Proof.
  induction l as [|x l IH]; [reflexivity|].
  cbn [List.map]. rewrite !sum_of_cons, IH. reflexivity.
Qed.

(** The loop that adds up [moving] does not wrap around. *)
Lemma moving_sum (l : list (Station * Z)) : forall acc,
  0 <= acc -> Forall (fun p => 0 <= snd p) l ->
  acc + handed_out l < 2 ^ 32 ->
  fold_left (fun m p => u32 (m + snd p)) l acc = acc + handed_out l.
Proof.
  unfold handed_out.
  induction l as [|p l IH]; intros acc Hacc Hl Hb; [cbn; lia|].
  inversion Hl as [|? ? Hp Hl']; subst.
  rewrite sum_of_cons in Hb |- *. cbn [fold_left].
  pose proof (sum_of_nonneg snd l (proj1 (Forall_forall _ _) Hl')).
  rewrite u32_small by lia. rewrite IH by (try assumption; lia). lia.
Qed.

Lemma insert_by_rating_perm p l : Permutation (insert_by_rating p l) (p :: l).
Proof.
  induction l as [|q l IH]; [reflexivity|]. cbn [insert_by_rating].
  destruct (_ <? _); [|reflexivity].
  rewrite IH. apply perm_swap.
Qed.

Lemma stable_sort_perm l : Permutation (stable_sort l) l.
Proof.
  induction l as [|p l IH]; [reflexivity|].
  cbn [stable_sort fold_right]. fold (stable_sort l).
  rewrite insert_by_rating_perm. now constructor.
Qed.

(** The cargo left over goes, one each, to the first stations. *)
Lemma add_leftover_ok (g : Station -> Z) n : forall l,
  (n <= length l)%nat ->
  Forall (fun p => snd p = g (fst p) /\ 0 <= snd p /\ snd p + 1 < 2 ^ 32) l ->
  exists l', add_leftover n l = Some l' /\
    handed_out l' = handed_out l + Z.of_nat n /\
    List.map fst l' = List.map fst l /\
    Forall (fun p => g (fst p) <= snd p <= g (fst p) + 1) l'.
Proof.
  unfold handed_out.
  induction n as [|n IH]; intros l Hn Hl.
  - exists l. destruct l; cbn [add_leftover];
      (split; [reflexivity|]); (split; [cbn; lia|]); (split; [reflexivity|]);
      eapply Forall_impl; [|exact Hl| |exact Hl]; cbn beta; intros; lia.
  - destruct l as [|[st a] l]; [cbn in Hn; lia|].
    inversion Hl as [|? ? Hp Hl']; subst. cbn [fst snd] in Hp.
    destruct (IH l ltac:(cbn in Hn; lia) Hl') as (l' & E & Hsum & Hfst & Hall).
    exists ((st, u32 (a + 1)) :: l'). cbn [add_leftover]. rewrite E.
    split; [reflexivity|]. rewrite !sum_of_cons. cbn [fst snd List.map].
    rewrite u32_small by lia.
    split; [lia|]. split; [now rewrite Hfst|].
    constructor; [cbn [fst snd]; lia|exact Hall].
Qed.

(** The distribution of MoveGoodsToStation, when no product wraps
    around. *)
Lemma distribute_spec used amount :
  used <> [] -> Forall rated used -> 0 <= amount ->
  amount * (best_of used + 1) * 65025 < 2 ^ 32 ->
  255 * Z.of_nat (length used) < 2 ^ 32 ->
  exists l,
    distribute used amount = Some (amount * (best_of used + 1), l) /\
    handed_out l = amount * (best_of used + 1) /\
    Permutation (List.map fst l) used /\
    Forall (fun p => 0 <= snd p) l /\
    Forall (fun p =>
      station_share (rate used) (amount * (best_of used + 1)) (fst p) <= snd p
      <= station_share (rate used) (amount * (best_of used + 1)) (fst p) + 1) l.
Proof.
  intros Hne Hrated Ha Hov Hlen.
  pose proof (rate_ok used Hrated Hlen) as Hinv.
  set (os := nodup Z.eq_dec (List.map owner used)) in Hinv.
  assert (Hnd : NoDup os) by apply NoDup_nodup.
  assert (Hcover : forall st, In st used -> In (owner st) os)
    by (intros st Hin; apply nodup_In; now apply in_map).
  pose proof Hinv as (Hsum & Hsumb & Hbest & Hnone & Hmem & Hbr & Hbs & Hbsb).
  pose proof (best_of_bound used Hrated) as Hb255.
  pose proof (best_of_nonneg used) as Hb0.
  set (A := amount * (best_of used + 1)) in *.
  assert (HA : 0 <= A) by (unfold A; nia).
  set (r := rate used) in *.
  set (q := fun st => A * company_best r (owner st) * rating (goods st)
                      / best_sum r / company_sum r (owner st)).
  assert (Hq : forall st, In st used -> station_share r A st = q st).
  { intros st Hin. unfold station_share, q.
    pose proof (Hbest (owner st)).
    rewrite Forall_forall in Hrated. destruct (Hrated st Hin) as [? ?].
    assert (0 <= A * company_best r (owner st) <= A * 255) by nia.
    assert (0 <= A * company_best r (owner st) * rating (goods st)
            <= A * 255 * 255) by nia.
    rewrite (u32_small (A * _)) by lia. rewrite u32_small by lia.
    reflexivity. }
  destruct (distribution_bounds os used r A Hnd Hcover Hinv Hrated HA Hne)
    as [HK Hb]. fold q in Hb.
  assert (Hq0 : forall st, In st used -> 0 <= q st).
  { intros st Hin. unfold q. pose proof (Hbest (owner st)).
    pose proof (Hsumb (owner st)).
    rewrite Forall_forall in Hrated. destruct (Hrated st Hin) as [? ?].
    apply Z_div_nonneg_nonneg; [|lia].
    apply Z_div_nonneg_nonneg; [nia|lia]. }
  unfold distribute. fold r. rewrite Hbr. fold A.
  rewrite (u32_small A) by lia.
  set (shares := List.map (fun st => (st, station_share r A st)) used).
  assert (Hfst : List.map fst shares = used)
    by (unfold shares; rewrite List.map_map; apply List.map_id).
  assert (Hsh : handed_out shares = sum_of q used).
  { unfold handed_out, shares. rewrite sum_of_map. cbn [snd].
    now apply sum_of_ext. }
  assert (Hall : Forall (fun p => snd p = station_share r A (fst p) /\
                                  0 <= snd p /\ snd p + 1 < 2 ^ 32) shares).
  { apply Forall_forall. intros p Hin. unfold shares in Hin.
    apply List.in_map_iff in Hin. destruct Hin as (st & <- & Hin).
    cbn [fst snd]. rewrite (Hq st Hin).
    pose proof (Hq0 st Hin).
    pose proof (sum_of_member q used st Hq0 Hin). lia. }
  assert (Hnn : Forall (fun p => 0 <= snd p) shares)
    by (eapply Forall_impl; [|exact Hall]; cbn beta; intros; lia).
  rewrite (moving_sum shares 0) by (try assumption; lia).
  rewrite Z.add_0_l, Hsh.
  destruct (Z.ltb_spec (sum_of q used) A) as [Hlt|Hge].
  - pose proof (stable_sort_perm shares) as Hperm.
    pose proof (Permutation_length Hperm) as Hpl.
    assert (length shares = length used) as Hsl
      by (unfold shares; apply length_map).
    rewrite u32_small by lia.
    destruct (Z.leb_spec (A - sum_of q used)
                (Z.of_nat (length (stable_sort shares)))) as [_|Hbad]; [|lia].
    destruct (add_leftover_ok (station_share r A)
                (Z.to_nat (A - sum_of q used)) (stable_sort shares))
      as (l & E & Hsum' & Hfst' & Hall').
    + lia.
    + eapply Permutation_Forall; [symmetry; exact Hperm|exact Hall].
    + rewrite E. exists l. split; [reflexivity|].
      split.
      { rewrite Hsum'. unfold handed_out.
        rewrite (sum_of_perm snd _ _ Hperm). fold (handed_out shares). lia. }
      split.
      { rewrite Hfst', <- Hfst. now apply Permutation_map. }
      split; [|exact Hall'].
      eapply Forall_impl; [|exact Hall']. cbn beta. intros p Hp.
      enough (0 <= station_share r A (fst p)) by lia.
      unfold station_share.
      pose proof (u32_range (u32 (A * company_best r (owner (fst p)))
                             * rating (goods (fst p)))).
      pose proof (Hsumb (owner (fst p))).
      apply Z_div_nonneg_nonneg; [|lia].
      apply Z_div_nonneg_nonneg; lia.
  - exists shares. split; [reflexivity|].
    split; [lia|]. split; [now rewrite Hfst|]. split; [exact Hnn|].
    eapply Forall_impl; [|exact Hall]. cbn beta. intros; lia.
Qed.

(** X26. MoveGoodsToStation hands out all of the cargo.  For stations
    with ratings of 1 to 255 and an amount of at most 255, the
    assertion on the cargo left over holds, the amounts given to the
    stations add up to the amount times the best rating plus one, and
    every station gets its share rounded down or one more. *)
Theorem MoveGoodsToStation_hands_out_all used amount :
  used <> [] -> Forall rated used -> 0 <= amount <= 255 ->
  255 * Z.of_nat (length used) < 2 ^ 32 ->
  exists l,
    distribute used amount = Some (amount * (best_of used + 1), l) /\
    handed_out l = amount * (best_of used + 1) /\
    Permutation (List.map fst l) used /\
    Forall (fun p =>
      station_share (rate used) (amount * (best_of used + 1)) (fst p) <= snd p
      <= station_share (rate used) (amount * (best_of used + 1)) (fst p) + 1) l.
Proof.
  intros Hne Hrated Ha Hlen.
  pose proof (best_of_bound used Hrated) as Hb255.
  pose proof (best_of_nonneg used) as Hb0.
  assert (Hov : amount * (best_of used + 1) * 65025 < 2 ^ 32).
  { assert (amount * (best_of used + 1) <= 255 * 256) by nia. lia. }
  destruct (distribute_spec used amount Hne Hrated (proj1 Ha) Hov Hlen)
    as (l & E & Hsum & Hperm & _ & Hall).
  exists l. auto.
Qed.

End OwnerFacts.

Section WaitingFacts.
Import Waiting.

Variable World : Type.
Variable CargoPacket_CanAllocateItem : World -> bool.
Variable GetVia : World -> Station -> StationID * World.
Variable Append : World -> Station -> Z -> StationID -> World.
Variable LinkGraphID_Invalid : Z.
Variable LinkGraph_CanAllocateItem : World -> bool.
Variable new_LinkGraph : World -> Z * World.
Variable AddNode : World -> Z -> Station -> Z * World.
Variable UpdateSupply : World -> Z -> Z -> Z -> World.
Variable OWNER_NONE : Z.
Variable INVALID_OWNER : Z.
Variable selectgoods : bool.
Variable IsPassengerCargo : bool.

Local Abbreviation UpdateStationWaiting' :=
  (UpdateStationWaiting World CargoPacket_CanAllocateItem GetVia Append
     LinkGraphID_Invalid LinkGraph_CanAllocateItem new_LinkGraph AddNode
     UpdateSupply).
Local Abbreviation CanMoveGoodsToStation' :=
  (CanMoveGoodsToStation OWNER_NONE selectgoods IsPassengerCargo).
Local Abbreviation takers' :=
  (takers OWNER_NONE INVALID_OWNER selectgoods IsPassengerCargo).
Local Abbreviation deliver' :=
  (deliver World CargoPacket_CanAllocateItem GetVia Append
     LinkGraphID_Invalid LinkGraph_CanAllocateItem new_LinkGraph AddNode
     UpdateSupply).
Local Abbreviation MoveGoodsToStation' :=
  (MoveGoodsToStation World CargoPacket_CanAllocateItem GetVia Append
     LinkGraphID_Invalid LinkGraph_CanAllocateItem new_LinkGraph AddNode
     UpdateSupply OWNER_NONE INVALID_OWNER selectgoods IsPassengerCargo).

Lemma GB_low_byte x : 0 <= x -> GB x 0 8 = x mod 256.
Proof.
  intros Hx. unfold GB. rewrite Z.shiftr_0_r.
  change (Z.shiftl 1 8 - 1) with (Z.ones 8).
  rewrite Z.land_ones by lia. reflexivity.
Qed.

(** What a call of UpdateStationWaiting does to the amounts when a packet
    can be allocated. *)
Lemma UpdateStationWaiting_effect w st amount :
  CargoPacket_CanAllocateItem w = true ->
  bytes_ok st -> 0 <= amount -> amount + 255 < 2 ^ 32 ->
  let r := UpdateStationWaiting' w st amount in
  snd r = (amount + amount_fract (goods st)) / 256 /\
  amount_fract (goods (snd (fst r))) = (amount + amount_fract (goods st)) mod 256 /\
  rating (goods (snd (fst r))) = rating (goods st) /\
  index (snd (fst r)) = index st /\
  owner (snd (fst r)) = owner st /\
  (snd r = 0 -> fst (fst r) = w /\
     snd (fst r) = set_goods st (set_amount_fract (goods st)
                      ((amount + amount_fract (goods st)) mod 256))) /\
  (snd r <> 0 -> status_Rating (goods (snd (fst r))) = true).
Proof.
  intros Hcan [Hr Hf] Ha Hb. unfold UpdateStationWaiting. rewrite Hcan.
  cbn [negb]. cbv zeta.
  rewrite (u32_small (amount + amount_fract (goods st))) by lia.
  rewrite GB_low_byte by lia.
  rewrite Z.shiftr_div_pow2 by lia. change (2 ^ 8) with 256.
  set (ge := set_amount_fract (goods st) _).
  destruct ((amount + amount_fract (goods st)) / 256 =? 0) eqn:Hz.
  - apply Z.eqb_eq in Hz. cbn [fst snd]. rewrite Hz.
    do 5 (split; [reflexivity|]). split; [intros _; now split|].
    intros H; now contradiction H.
  - apply Z.eqb_neq in Hz.
    destruct (GetVia w (set_goods st ge)) as [next w1].
    destruct (link_graph ge =? LinkGraphID_Invalid);
      [destruct (LinkGraph_CanAllocateItem _);
       [destruct (new_LinkGraph _) as [lg w2];
        destruct (AddNode _ _ _) as [nd w3]|]|];
      cbn [fst snd]; (do 5 (split; [reflexivity|])); (split; [|reflexivity]);
      intros H; now contradiction Hz.
Qed.

(** X27. UpdateStationWaiting loses no cargo: when a cargo packet can be
    allocated, 256 times the returned amount plus the fraction that the
    station keeps is the amount given plus the fraction it had, and the
    new fraction is a byte again.  When the returned amount is not zero
    the station has a rating afterwards. *)
Theorem UpdateStationWaiting_carry w st amount :
  CargoPacket_CanAllocateItem w = true ->
  bytes_ok st -> 0 <= amount -> amount + 255 < 2 ^ 32 ->
  let r := UpdateStationWaiting' w st amount in
  snd r * 256 + amount_fract (goods (snd (fst r)))
    = amount + amount_fract (goods st) /\
  bytes_ok (snd (fst r)) /\
  (snd r <> 0 -> status_Rating (goods (snd (fst r))) = true).
Proof.
  intros Hcan Hok Ha Hb.
  pose proof (UpdateStationWaiting_effect w st amount Hcan Hok Ha Hb) as H.
  cbv zeta in H |- *.
  destruct H as (Hret & Hfract & Hrating & _ & _ & _ & Hstatus).
  destruct Hok as [Hr Hf].
  pose proof (Z.div_mod (amount + amount_fract (goods st)) 256 ltac:(lia)) as Hdm.
  pose proof (Z.mod_pos_bound (amount + amount_fract (goods st)) 256 ltac:(lia)).
  split; [rewrite Hret, Hfract; lia|].
  split; [|exact Hstatus].
  unfold bytes_ok. rewrite Hrating, Hfract. lia.
Qed.

(** A station that takes cargo has a rating. *)
Lemma takers_rated excl all :
  Forall bytes_ok all ->
  Forall (fun st => rated st /\ bytes_ok st /\ CanMoveGoodsToStation' st = true)
    (takers' excl all).
Proof.
  intros Hall. apply Forall_forall. intros st Hin.
  unfold takers in Hin. apply List.filter_In in Hin. destruct Hin as [Hin Hc].
  apply andb_true_iff in Hc. destruct Hc as [_ Hc].
  rewrite Forall_forall in Hall. pose proof (Hall st Hin) as Hok.
  split; [|split; assumption].
  unfold CanMoveGoodsToStation in Hc. destruct Hok as [Hr _].
  destruct (_ && _ && _); [discriminate|].
  destruct (Z.eqb_spec (rating (goods st)) 0); [discriminate|].
  unfold rated. lia.
Qed.

Lemma fractions_bound l :
  Forall bytes_ok l -> 0 <= fractions l <= 255 * Z.of_nat (length l).
Proof.
  unfold fractions.
  induction 1 as [|st l [_ ?] _ IH]; [cbn; lia|].
  rewrite sum_of_cons. cbn [length]. lia.
Qed.

(** The last loop of MoveGoodsToStation loses no cargo. *)
Lemma deliver_carry l : forall w moved0,
  (forall w, CargoPacket_CanAllocateItem w = true) ->
  Forall (fun p => bytes_ok (fst p) /\ 0 <= snd p /\ snd p + 255 < 2 ^ 32) l ->
  0 <= moved0 ->
  moved0 * 256 + handed_out l + fractions (List.map fst l) < 2 ^ 40 ->
  let r := deliver' w l moved0 in
  snd r * 256 + fractions (snd (fst r))
    = moved0 * 256 + handed_out l + fractions (List.map fst l) /\
  List.map index (snd (fst r)) = List.map index (List.map fst l) /\
  Forall bytes_ok (snd (fst r)).
Proof.
  unfold handed_out, fractions.
  induction l as [|[st a] l IH]; intros w moved0 Hcan Hl Hm Hb.
  - cbn. split; [lia|]. split; [reflexivity|constructor].
  - inversion Hl as [|? ? (Hok & Ha0 & Ha) Hl']; subst.
    cbn [fst snd] in Hok, Ha0, Ha.
    cbn [List.map fst] in Hb |- *. rewrite !sum_of_cons in Hb |- *.
    cbn [snd] in Hb |- *. cbn [deliver].
    pose proof (UpdateStationWaiting_effect w st a (Hcan w) Hok Ha0 Ha) as He.
    cbv zeta in He.
    destruct (UpdateStationWaiting' w st a) as [[w1 st1] m].
    cbn [fst snd] in He.
    destruct He as (Hret & Hfract & Hrating & Hindex & _ & _ & _).
    pose proof Hok as [Hr Hf].
    pose proof (Z.div_mod (a + amount_fract (goods st)) 256 ltac:(lia)) as Hdm.
    pose proof (Z.mod_pos_bound (a + amount_fract (goods st)) 256 ltac:(lia)).
    assert (0 <= m) by (rewrite Hret; apply Z.div_pos; lia).
    pose proof (sum_of_nonneg snd l
      (fun p Hp => proj1 (proj2 (proj1 (Forall_forall _ _) Hl' p Hp)))).
    pose proof (fractions_bound (List.map fst l)) as Hfb.
    unfold fractions in Hfb.
    assert (Forall bytes_ok (List.map fst l)) as Hoks.
    { apply Forall_forall. intros s Hin. apply List.in_map_iff in Hin.
      destruct Hin as (p & <- & Hp).
      exact (proj1 (proj1 (Forall_forall _ _) Hl' p Hp)). }
    specialize (Hfb Hoks).
    rewrite u32_small by lia.
    specialize (IH w1 (moved0 + m) Hcan Hl' ltac:(lia) ltac:(lia)).
    cbv zeta in IH.
    destruct (deliver' w1 l (moved0 + m)) as [[w2 sts] moved].
    cbn [fst snd] in IH |- *. destruct IH as (IH1 & IH2 & IH3).
    rewrite sum_of_cons. cbn [List.map]. rewrite Hindex, IH2.
    split; [lia|]. split; [reflexivity|].
    constructor; [|exact IH3]. unfold bytes_ok. lia.
Qed.

(** X28. MoveGoodsToStation neither loses nor makes cargo.  When cargo
    packets can be allocated, for an amount of 1 to 255 the stations that
    take the cargo are the ones updated, and 256 times the amount moved
    plus the fractions that they keep is the amount times the best rating
    plus one, plus the fractions that they had; without such a station
    nothing is moved. *)
Theorem MoveGoodsToStation_conserves w amount all excl :
  (forall w, CargoPacket_CanAllocateItem w = true) ->
  Forall bytes_ok all -> 0 < amount <= 255 ->
  255 * Z.of_nat (length all) < 2 ^ 32 ->
  exists w' sts moved,
    MoveGoodsToStation' w amount all excl = Some (w', sts, moved) /\
    Permutation (List.map index sts) (List.map index (takers' excl all)) /\
    moved * 256 + fractions sts
    = match takers' excl all with
      | [] => 0
      | _ :: _ => amount * (best_of (takers' excl all) + 1)
      end + fractions (takers' excl all).
Proof.
  intros Hcan Hall Ha Hlen.
  pose proof (takers_rated excl all Hall) as Ht.
  assert (Hlt : (length (takers' excl all) <= length all)%nat)
    by apply List.filter_length_le.
  unfold MoveGoodsToStation.
  destruct all as [|s0 rest] eqn:Eall.
  { exists w, [], 0. cbn. repeat split; constructor. }
  rewrite <- Eall in *. clear Eall s0 rest.
  destruct (Z.eqb_spec amount 0) as [?|_]; [lia|].
  destruct (takers' excl all) as [|s1 [|s2 used]] eqn:Eused.
  - exists w, [], 0. cbn. repeat split; constructor.
  - inversion Ht as [|? ? ([Hr1 Hr2] & Hok & _) _]; subst.
    assert (0 <= amount * (rating (goods s1) + 1) <= 255 * 256) by nia.
    rewrite u32_small by lia.
    pose proof (UpdateStationWaiting_effect w s1
                  (amount * (rating (goods s1) + 1)) (Hcan w) Hok
                  ltac:(lia) ltac:(lia)) as He.
    cbv zeta in He.
    destruct (UpdateStationWaiting' w s1 _) as [[w1 st1] m].
    cbn [fst snd] in He.
    destruct He as (Hret & Hfract & _ & Hindex & _ & _ & _).
    exists w1, [st1], m. split; [reflexivity|].
    cbn [List.map]. rewrite Hindex. split; [reflexivity|].
    unfold fractions. rewrite !sum_of_cons, best_of_cons.
    change (best_of []) with 0. cbn [sum_of fold_right].
    pose proof (Z.div_mod (amount * (rating (goods s1) + 1)
                           + amount_fract (goods s1)) 256 ltac:(lia)).
    rewrite Hret, Hfract, Z.max_l by lia. lia.
  - set (used' := s1 :: s2 :: used) in *.
    assert (Hrated : Forall rated used')
      by (eapply Forall_impl; [|exact Ht]; cbn beta; tauto).
    assert (Hoks : Forall bytes_ok used')
      by (eapply Forall_impl; [|exact Ht]; cbn beta; tauto).
    pose proof (best_of_bound used' Hrated) as Hb255.
    pose proof (best_of_nonneg used') as Hb0.
    assert (HA : 0 <= amount * (best_of used' + 1) <= 255 * 256) by nia.
    destruct (distribute_spec used' amount ltac:(discriminate) Hrated
                ltac:(lia) ltac:(lia) ltac:(lia))
      as (l & E & Hsum & Hperm & Hnn & _).
    rewrite E.
    assert (Hfr : fractions (List.map fst l) = fractions used')
      by (apply sum_of_perm; exact Hperm).
    pose proof (fractions_bound used' Hoks) as Hfb.
    assert (Hl : Forall (fun p => bytes_ok (fst p) /\ 0 <= snd p /\
                                  snd p + 255 < 2 ^ 32) l).
    { apply Forall_forall. intros p Hp.
      rewrite Forall_forall in Hnn.
      pose proof (sum_of_member snd l p Hnn Hp) as Hle.
      fold (handed_out l) in Hle.
      split; [|split; [now apply Hnn|lia]].
      rewrite Forall_forall in Hoks. apply Hoks.
      eapply Permutation_in; [exact Hperm|]. now apply in_map. }
    pose proof (deliver_carry l w 0 Hcan Hl ltac:(lia) ltac:(lia)) as Hd.
    cbv zeta in Hd.
    destruct (deliver' w l 0) as [[w2 sts] moved].
    cbn [fst snd] in Hd. destruct Hd as (Hd1 & Hd2 & _).
    exists w2, sts, moved. split; [reflexivity|].
    split; [rewrite Hd2; now apply Permutation_map|].
    rewrite Hd1, Hsum, Hfr. lia.
Qed.

End WaitingFacts.

(** ** The further properties on the sample inputs *)

Lemma UpdateStationRating_unrated_witness :
  Rating.goods (sample_UpdateStationRating unrated_station 5).1.1 !! 0%nat
    = Some (Rating.set_rating unrated_goods 101).
Proof.
  apply (UpdateStationRating_unrated 175 255 2 255 65535 false false Z
           (fun r => (r, r + 1)) (fun _ => true) (fun _ _ _ => 65535)
           (fun _ _ _ => 0) [Rating.mkCargoSpec 0 false] unrated_station 5
           0%nat unrated_goods).
  - repeat constructor. simpl. tauto.
  - reflexivity.
  - reflexivity.
  - unfold Rating.rating_in_range. simpl. lia.
  - lia.
Defined.

Lemma UpdateStationRating_caps_waiting_witness :
  exists ge',
    Rating.goods (sample_UpdateStationRating crowded_station 5).1.1 !! 0%nat
      = Some ge' /\
    0 <= Rating.available ge'
      <= Z.min (Rating.available crowded_goods) Rating.MAX_WAITING_CARGO.
Proof.
  apply (UpdateStationRating_caps_waiting 175 255 2 255 65535 false false Z
           (fun r => (r, r + 1)) (fun _ => true) (fun _ _ _ => 65535)
           (fun _ _ _ => 0) [Rating.mkCargoSpec 0 false] crowded_station 5
           0%nat crowded_goods).
  - repeat constructor. simpl. tauto.
  - left. reflexivity.
  - reflexivity.
  - reflexivity.
  - vm_compute. split; [discriminate|reflexivity].
Defined.

Lemma MakeStationAreaSmaller_inside_witness :
  exists r,
    AreaSmaller.MakeStationAreaSmaller 8 (-1) unit tt (mkTileArea 0 3 3)
      (fun _ t => t =? 9) = Some r /\
    AreaInside.inside 8 (-1) (mkTileArea 0 3 3) r.
Proof.
  apply (MakeStationAreaSmaller_inside 8 (-1) unit tt (fun _ t => t =? 9)
           (mkTileArea 0 3 3)); simpl; lia.
Defined.

Lemma MakeStationAreaSmaller_idempotent_witness :
  AreaSmaller.MakeStationAreaSmaller 8 (-1) unit tt (mkTileArea 9 1 1)
    (fun _ t => t =? 9) = Some (mkTileArea 9 1 1).
Proof.
  apply (MakeStationAreaSmaller_idempotent 8 (-1) unit tt (fun _ t => t =? 9)
           (mkTileArea 0 3 3) (mkTileArea 9 1 1)).
  - simpl. lia.
  - simpl. lia.
  - vm_compute. reflexivity.
Defined.

Lemma MakeStationAreaSmaller_clears_witness :
  exists r,
    AreaSmaller.MakeStationAreaSmaller 8 (-1) unit tt (mkTileArea 0 3 3)
      (fun _ t => t =? 9) = Some r /\
    (r = AreaSmaller.Clear (-1) <->
     forall i j, 0 <= i < 3 -> 0 <= j < 3 ->
       (AreaSmaller.tile_at 8 (mkTileArea 0 3 3) i j =? 9) = false).
Proof.
  apply (MakeStationAreaSmaller_clears 8 (-1) unit tt (fun _ t => t =? 9)
           (mkTileArea 0 3 3)); simpl; lia.
Defined.

(** Building on tile 9 of station 4, which the filter accepts. *)
Lemma FindJoiningBaseStation_over_existing_witness :
  sample_FindJoiningBaseStation 4 4 false (mkTileArea 9 1 1) (fun _ => true)
    = (CommandCost_ok, Some 4).
Proof.
  destruct (FindJoiningBaseStation_over_existing Z
              (fun s => (0 <=? s) && (s <? 10)) (fun s => s)
              (fun s => if (0 <=? s) && (s <? 10) then Some s else None)
              (fun _ => 1) 65535 (fun t => t =? 9) (fun _ => 4) (fun ta _ => ta)
              (fun ta => [tile ta; tile ta + 1]) CMD_ERROR 1
              4 4 false (mkTileArea 9 1 1) (fun _ => true) 4) as [_ H].
  - discriminate.
  - reflexivity.
  - destruct (H eq_refl) as [H' _]. exact (H' eq_refl).
Defined.

(** Building on free tiles next to station 4 with distant join to
    station 6. *)
Lemma FindJoiningBaseStation_free_site_witness :
  sample_FindJoiningBaseStation 65535 6 true (mkTileArea 8 1 1) (fun _ => true)
    = (CommandCost_ok, Some 6).
Proof.
  apply (FindJoiningBaseStation_free_site Z
           (fun s => (0 <=? s) && (s <? 10)) (fun s => s)
           (fun s => if (0 <=? s) && (s <? 10) then Some s else None)
           (fun _ => 1) 65535 (fun t => t =? 9) (fun _ => 4) (fun ta _ => ta)
           (fun ta => [tile ta; tile ta + 1]) CMD_ERROR 1 eq_refl
           6 (mkTileArea 8 1 1) (fun _ => true)).
Defined.

Lemma sample_string_table_ok :
  NameCascade.string_table_ok 100 130 101 102 103 104 105 106 107 108 109 110
    111 112 113 114 115 116 117 118 119 120 121 122 123.
Proof.
  split.
  - unfold NameCascade.default_names, NameCascade.fallback_names.
    cbn [app].
    repeat (constructor;
            [cbn [In]; intros H;
             repeat (destruct H as [H|H]; [discriminate H|]); exact H|]).
    constructor.
  - repeat constructor; lia.
Defined.

(** The town has a station of its name; the next station near the centre
    gets another name. *)
Lemma GenerateStationName_unused_name_witness :
  (sample_default_GenerateStationName [central_station]
     (Naming.mkStation 1 1 255 0) 12 0).2
  <> Naming.string_id central_station.
Proof.
  apply (GenerateStationName_unused_name 100 130 101 102 103 104 105 106 107
           108 109 110 111 112 113 114 115 116 117 118 119 120 121 122 123
           65535 0 255 8 (fun _ => Naming.mkIndustrySpec false 65535)
           (fun _ => false) (fun _ => 0) (fun t _ => [t])
           (-1) (fun t dx dy => t + dx + 64 * dy)
           (fun _ => false) (fun _ => false) (fun _ => false) (fun _ => false)
           (fun a b => Z.abs (a - b)) (fun _ => 30) (fun _ => 0)
           (fun t => t mod 64) (fun t => t / 64) (fun _ => 10) false
           [central_station] (Naming.mkStation 1 1 255 0) 12 0 central_station).
  - exact sample_string_table_ok.
  - left. reflexivity.
  - simpl. discriminate.
  - reflexivity.
  - reflexivity.
  - reflexivity.
Defined.

(** Among mines, but next to an industry whose station name is STR_NULL:
    the station is not called after the mines. *)
Lemma GenerateStationName_blocks_oilfield_mines_witness :
  (sample_mining_GenerateStationName [] (Naming.mkStation 1 1 255 0) 12 0).2
    <> 102 /\
  (sample_mining_GenerateStationName [] (Naming.mkStation 1 1 255 0) 12 0).2
    <> 105.
Proof.
  apply (GenerateStationName_blocks_oilfield_mines 100 130 101 102 103 104 105
           106 107 108 109 110 111 112 113 114 115 116 117 118 119 120 121 122
           123 65535 0 255 8
           (fun it => Naming.mkIndustrySpec true (if it =? 3 then 0 else 65535))
           (fun t => t =? 42) (fun _ => 3) (fun t _ => [t; 42])
           (-1) (fun t dx dy => t + dx + 64 * dy)
           (fun _ => true) (fun _ => false) (fun _ => false) (fun _ => false)
           (fun a b => Z.abs (a - b)) (fun _ => 30) (fun _ => 0)
           (fun t => t mod 64) (fun t => t / 64) (fun _ => 10) false
           [] (Naming.mkStation 1 1 255 0) 12 0 42).
  - exact sample_string_table_ok.
  - right. left. reflexivity.
  - reflexivity.
Defined.

(** Tiles 2 and 3 of the strip: flat, at height 2, no bridge. *)
Lemma CheckFlatLandAirport_success_witness :
  GetCost (strip_CheckFlatLandAirport [2; 3])
  = FootprintCost.footprint_cost 0 strip_GetTileSlopeZ 10
      (fun _ => CommandCost_ok) [2; 3].
Proof.
  apply (CheckFlatLandAirport_success 0 (fun _ => false) (fun _ => 0)
           (fun _ _ => true) (fun t => t =? 1) (fun _ => CommandCost_ok)
           strip_GetTileSlopeZ true 10 (fun _ => CommandCost_ok) [2; 3]).
  - repeat constructor; vm_compute; discriminate.
  - vm_compute. reflexivity.
Defined.

(** The area holds one rail station tile of the company, free of
    vehicles: the test run reports the price of removing it. *)
Lemma RemoveFromRailBaseStation_test_run_witness :
  RailRemoval.RemoveFromRailBaseStation unit (fun _ t => t =? 7)
    (fun _ _ => CommandCost_ok) (fun _ _ => Some 1) (fun _ _ => 2)
    (fun _ => CommandCost_ok) (fun _ _ => false) 2 17 5
    (fun _ _ _ w => w) (fun _ w => w) (fun ta => [tile ta; tile ta + 1])
    tt (mkTileArea 6 2 1) [] false 100 false
  = (CommandCost_money 100, tt, []).
Proof.
  apply (RemoveFromRailBaseStation_test_run unit (fun _ t => t =? 7)
           (fun _ _ => CommandCost_ok) (fun _ _ => Some 1) (fun _ _ => 2)
           (fun _ => CommandCost_ok) (fun _ _ => false) 2 17 5
           (fun _ _ _ w => w) (fun _ w => w) (fun ta => [tile ta; tile ta + 1])
           tt (mkTileArea 6 2 1) 100 false).
  vm_compute. reflexivity.
Defined.

(** An airport of noise level 20 under the most tolerant council. *)
Lemma GetAirportNoiseLevelForDistance_bounds_witness :
  Z.min 20 1 <= Noise.GetAirportNoiseLevelForDistance 0 20 16 <= 20 /\
  (16 < 8 + 0 * 4 -> Noise.GetAirportNoiseLevelForDistance 0 20 16 = 20) /\
  Noise.GetAirportNoiseLevelForDistance 0 20 40
    <= Noise.GetAirportNoiseLevelForDistance 0 20 16.
Proof.
  apply (GetAirportNoiseLevelForDistance_bounds 0 20 16 40); lia.
Defined.

(** A station with a fraction of 100 gets 1000 more: 4 units and a
    fraction of 76. *)
Lemma UpdateStationWaiting_carry_witness :
  let r := sample_UpdateStationWaiting tt station_a 1000 in
  snd r * 256 + Waiting.amount_fract (Waiting.goods (snd (fst r)))
    = 1000 + Waiting.amount_fract (Waiting.goods station_a) /\
  Waiting.bytes_ok (snd (fst r)) /\
  (snd r <> 0 ->
   Waiting.status_Rating (Waiting.goods (snd (fst r))) = true).
Proof.
  apply (UpdateStationWaiting_carry unit (fun _ => true) (fun w _ => (7, w))
           (fun w _ _ _ => w) 65535 (fun _ => true) (fun w => (0, w))
           (fun w _ _ => (0, w)) (fun w _ _ _ => w) tt station_a 1000).
  - reflexivity.
  - split; simpl; lia.
  - lia.
  - vm_compute. reflexivity.
Defined.

Lemma sample_stations_rated : Forall Waiting.rated [station_a; station_b].
Proof. repeat constructor; simpl; lia. Defined.

Lemma sample_stations_bytes_ok : Forall Waiting.bytes_ok [station_a; station_b].
Proof. repeat constructor; simpl; lia. Defined.

Lemma MoveGoodsToStation_hands_out_all_witness :
  exists l,
    Waiting.distribute [station_a; station_b] 10
      = Some (10 * (Waiting.best_of [station_a; station_b] + 1), l) /\
    Waiting.handed_out l = 10 * (Waiting.best_of [station_a; station_b] + 1) /\
    Permutation (List.map fst l) [station_a; station_b] /\
    Forall (fun p =>
      Waiting.station_share (Waiting.rate [station_a; station_b])
        (10 * (Waiting.best_of [station_a; station_b] + 1)) (fst p) <= snd p
      <= Waiting.station_share (Waiting.rate [station_a; station_b])
           (10 * (Waiting.best_of [station_a; station_b] + 1)) (fst p) + 1) l.
Proof.
  apply (MoveGoodsToStation_hands_out_all [station_a; station_b] 10).
  - discriminate.
  - exact sample_stations_rated.
  - lia.
  - vm_compute. reflexivity.
Defined.

Lemma MoveGoodsToStation_conserves_witness :
  exists w' sts moved,
    sample_MoveGoodsToStation tt 10 [station_a; station_b] 255
      = Some (w', sts, moved) /\
    Permutation (List.map Waiting.index sts)
      (List.map Waiting.index (sample_takers 255 [station_a; station_b])) /\
    moved * 256 + Waiting.fractions sts
    = match sample_takers 255 [station_a; station_b] with
      | [] => 0
      | _ :: _ =>
          10 * (Waiting.best_of (sample_takers 255 [station_a; station_b]) + 1)
      end + Waiting.fractions (sample_takers 255 [station_a; station_b]).
Proof.
  apply (MoveGoodsToStation_conserves unit (fun _ => true) (fun w _ => (7, w))
           (fun w _ _ _ => w) 65535 (fun _ => true) (fun w => (0, w))
           (fun w _ _ => (0, w)) (fun w _ _ _ => w) 16 255 false true
           tt 10 [station_a; station_b] 255).
  - reflexivity.
  - exact sample_stations_bytes_ok.
  - lia.
  - vm_compute. reflexivity.
Defined.
